(** * Uni: a shallow embedding of the parser and the tree-walking evaluator

    The development follows the Go sources of the interpreter:
    the operator-precedence parser (package main, [Parser]) and the
    evaluator ([Scope], [Evaluator], the [eval*] functions).  Go values of
    interface type [any] become the inductive type [any]; [int64] is [Z]
    with its two's-complement wrap-around written out; [float64] is the
    primitive binary64 type.

    A scope is made by [NewScope] for a block, a loop iteration or a call
    and is dropped when that returns; no value holds a scope (a function is
    stored as its declaration).  The scopes alive at any moment are thus the
    chain from the current scope to the root, and a [*Scope] is modelled by
    the scope with its chain of parents inside: a function that mutates a
    scope or one of its ancestors through the pointer returns the updated
    chain, and the caller of a function that ran in a child scope goes on
    with the parent of the scope it gets back.

    Go leaves the order of a [range] over a map unspecified; maps are kept
    here as lists of entries and ranged over in the order the keys were
    first stored.

    The lexer of package main ([Lexer], [Lex], the [lex*] functions) comes
    after the evaluator, over the [bufio.Reader] it reads from, and [main]
    puts the three stages together. *)

From Stdlib Require Import ZArith Ascii String List Lia.
From Stdlib Require Import Floats.PrimFloat Floats.SpecFloat Floats.FloatOps.
From stdpp Require Import base option list gmap strings.

Set Warnings "-register-all".

Local Open Scope Z_scope.
Local Open Scope list_scope.

(** ** Tokens *)

(** [TokenType], a Go string type, with the constants the lexer source
    declares for it: the end-of-input marker, the delimiters, the literals,
    the keywords and the operators.  [ILLEGAL] has no constructor: no token
    of that kind leaves the lexer, and [lexSymbol] below returns it as the
    right injection of a sum.  [NOTYPE] stands for the zero value of the
    type (the empty string), as carried by the zero [Token]. *)
Inductive TokenType : Set :=
| NOTYPE
| EOF
| COMMA | COLON | LPAREN | RPAREN | LBRACKET | RBRACKET | LCURLY | RCURLY
| IDENT | INT | FLOAT | STRING
| TRUE | FALSE | VAR | IF | ELSE | WHILE | FOR | IN | FN | RETURN
| LEN | PRINT | PRINTLN
| ASSIGN | PLUS | MINUS | ASTERISK | SLASH | NOT
| LT | GT | LEQ | GEQ | EQ | NEQ | OR | AND.

#[global] Instance TokenType_eq_dec : EqDecision TokenType.
Proof. solve_decision. Defined.

(** [Token{Type, Value}]; [NewToken] is the constructor function of the
    sources. *)
Record Token : Set := NewToken { Token_Type : TokenType; Token_Value : string }.

#[global] Instance Token_eq_dec : EqDecision Token.
Proof. solve_decision. Defined.

(** The zero value [Token{}]: what a receive on the closed token channel
    yields. *)
Definition zeroToken : Token := NewToken NOTYPE "".

(** ** Abstract syntax *)

(** [Identifier{Token, IsFunctionCall}]. *)
Record Identifier : Set :=
  mkIdentifier { Identifier_Token : Token; IsFunctionCall : bool }.

#[global] Instance Identifier_eq_dec : EqDecision Identifier.
Proof. solve_decision. Defined.

Definition zeroIdentifier : Identifier := mkIdentifier zeroToken false.

(** The name an identifier stands for: [identifier.Token.Value]. *)
Definition identName (identifier : Identifier) : string :=
  Token_Value (Identifier_Token identifier).

(** [Expression] is [interface{}] in the sources; the parser stores one of
    the thirteen expression structs in it, or [nil] (constructor [ENil])
    when no prefix parse function applies.  Each constructor [EFoo] is the
    struct [Foo] with its fields in declaration order. *)
Inductive Expression : Set :=
| ENil
| EBoolean (Value : bool)
| EInteger (Value : Z)
| EFloat (Value : float)
| EString (Value : string)
| EArray (Items : list Expression)
| EMap (Items : list (Expression * Expression))
| EIndex (Index Subject : Expression)
| ECall (Ident : Identifier) (Arguments : list Expression)
| EIdentifier (Ident : Identifier)
| EUnaryOperation (Tok : Token) (Operand : Expression)
| EBinaryOperation (Tok : Token) (Left Right : Expression)
| ELen (Subject : Expression)
| EPrint (Args : list Expression) (IsNewLine : bool).

(** [Statement] is [interface{}] too: one of the seven statement structs,
    or anything else, which [evalStatement] hands to [evalExpression]
    ([SExpression]; [SExpression ENil] is the nil statement).  [Block] is
    the list of its [Statements]; [Alternative] is a [*Block]. *)
Inductive Statement : Set :=
| SVariable (Name : Identifier) (Value : Expression) (IsNew : bool)
| SIf (Condition : Expression) (Consequence : list Statement)
      (Alternative : option (list Statement))
| SWhile (Condition : Expression) (Consequence : list Statement)
| SFor (Key Value : Identifier) (Condition : Expression)
       (Consequence : list Statement)
| SFunction (Name : Identifier) (Parameters : list Identifier)
            (Body : list Statement)
| SReturn (Value : Expression)
| SBlock (Statements : list Statement)
| SExpression (expression : Expression).

Abbreviation Block := (list Statement).

(** [Function{Name, Parameters, Body}], the declaration as it is stored in a
    scope's function table. *)
Record Function : Set :=
  mkFunction { Name : Identifier; Parameters : list Identifier; Body : Block }.

Definition isNilStatement (statement : Statement) : bool :=
  match statement with
  | SExpression ENil => true
  | _ => false
  end.

(** ** Runtime values *)

(** A Go value of type [any] as the evaluator produces them: [nil], [bool],
    [int64], the host [int] (what [len] and a [range] index yield; 64 bits
    wide), [float64], [string], [[]any], [map[any]any] and [Function].  A map
    is kept as the list of its entries, without two entries of equal key. *)
Inductive any : Set :=
| Nil
| VBool (b : bool)
| VInt64 (n : Z)
| VInt (n : Z)
| VFloat64 (f : float)
| VString (s : string)
| VSlice (items : list any)
| VMap (entries : list (any * any))
| VFunction (function : Function).

Definition isNil (v : any) : bool :=
  match v with Nil => true | _ => false end.

(** ** Scope *)

(** [Scope{variables, functions, parent}].  The parent pointer is the chain
    of enclosing scopes itself. *)
Inductive Scope : Type :=
  mkScope { variables : gmap string any;
            functions : gmap string any;
            parent : option Scope }.

Definition NewScope (scope : option Scope) : Scope :=
  mkScope ∅ ∅ scope.

Fixpoint GetVariable (s : Scope) (identifier : Identifier) : any * bool :=
  match variables s !! identName identifier with
  | Some variable => (variable, true)
  | None =>
      match parent s with
      | Some p => GetVariable p identifier
      | None => (Nil, false)
      end
  end.

Definition SetVariable (s : Scope) (identifier : Identifier) (value : any)
  : Scope :=
  mkScope (<[identName identifier := value]> (variables s))
          (functions s) (parent s).

Fixpoint GetFunction (s : Scope) (identifier : Identifier) : any * bool :=
  match functions s !! identName identifier with
  | Some function => (function, true)
  | None =>
      match parent s with
      | Some p => GetFunction p identifier
      | None => (Nil, false)
      end
  end.

Definition SetFunction (s : Scope) (identifier : Identifier) (value : any)
  : Scope :=
  mkScope (variables s) (<[identName identifier := value]> (functions s))
          (parent s).

Definition GetParent (s : Scope) : option Scope := parent s.

(** ** Host semantics: numbers *)

(** Reduction of an integer to the [int64] range (two's complement). *)
Definition wrap64 (z : Z) : Z := (z + 2 ^ 63) mod 2 ^ 64 - 2 ^ 63.

Definition MinInt64 : Z := - 2 ^ 63.
Definition MaxInt64 : Z := 2 ^ 63 - 1.

(** The conversion [float64(n)] of an [int64]: the nearest binary64 value,
    ties to even. *)
Definition float64 (n : Z) : float :=
  SF2Prim (binary_normalize prec emax n 0 false).

(** ** Host semantics: strings *)

Definition byteOf (c : ascii) : Z := Z.of_nat (nat_of_ascii c).

Definition isCont (lo hi : Z) (c : ascii) : bool :=
  (lo <=? byteOf c) && (byteOf c <=? hi).

(** The number of bytes the UTF-8 decoder consumes at the head of a string:
    the width of a well-formed encoding, and 1 for an ill-formed one. *)
Definition runeWidth (s : string) : nat :=
  match s with
  | EmptyString => 0%nat
  | String c0 rest =>
      let b0 := byteOf c0 in
      let accept (lo hi : Z) (n : nat) : nat :=
        match rest with
        | String c1 rest1 =>
            if isCont lo hi c1 then
              match n, rest1 with
              | 2%nat, _ => 2%nat
              | 3%nat, String c2 _ =>
                  if isCont 128 191 c2 then 3%nat else 1%nat
              | 4%nat, String c2 (String c3 _) =>
                  if isCont 128 191 c2 && isCont 128 191 c3
                  then 4%nat else 1%nat
              | _, _ => 1%nat
              end
            else 1%nat
        | EmptyString => 1%nat
        end in
      if b0 <? 128 then 1%nat
      else if (194 <=? b0) && (b0 <=? 223) then accept 128 191 2%nat
      else if b0 =? 224 then accept 160 191 3%nat
      else if b0 =? 237 then accept 128 159 3%nat
      else if (225 <=? b0) && (b0 <=? 239) then accept 128 191 3%nat
      else if b0 =? 240 then accept 144 191 4%nat
      else if (241 <=? b0) && (b0 <=? 243) then accept 128 191 4%nat
      else if b0 =? 244 then accept 128 143 4%nat
      else 1%nat
  end.

Fixpoint takeBytes (n : nat) (s : string) : string :=
  match n, s with
  | S n', String c rest => String c (takeBytes n' rest)
  | _, _ => EmptyString
  end.

Fixpoint dropBytes (n : nat) (s : string) : string :=
  match n, s with
  | S n', String _ rest => dropBytes n' rest
  | _, _ => s
  end.

(** The encoding of U+FFFD, which [string(r)] yields for the rune the
    decoder reports at an ill-formed byte. *)
Definition runeError : string :=
  String (ascii_of_nat 239) (String (ascii_of_nat 191)
    (String (ascii_of_nat 189) EmptyString)).

(** [for key, value := range subject] over a string: the byte offset of each
    rune with [string(value)].  The recursion is on the number of bytes
    left. *)
Fixpoint rangeStringFrom (fuel : nat) (offset : Z) (s : string)
  : list (any * any) :=
  match fuel, s with
  | S fuel', String c rest =>
      let w := runeWidth s in
      let r :=
        if (w =? 1)%nat && negb (byteOf c <? 128) then runeError
        else takeBytes w s in
      (VInt offset, VString r)
        :: rangeStringFrom fuel' (offset + Z.of_nat w) (dropBytes w s)
  | _, _ => []
  end.

Definition rangeString (s : string) : list (any * any) :=
  rangeStringFrom (String.length s) 0 s.

(** [for key, value := range subject] over a slice. *)
Fixpoint rangeSliceFrom (index : Z) (items : list any) : list (any * any) :=
  match items with
  | [] => []
  | item :: rest => (VInt index, item) :: rangeSliceFrom (index + 1) rest
  end.

Definition rangeSlice (items : list any) : list (any * any) :=
  rangeSliceFrom 0 items.

(** ** Host semantics: maps keyed by [any] *)

(** Whether the dynamic type of a key can be hashed: slices, maps and the
    struct [Function] (it has slice fields) cannot, and using one as a key
    is a run-time panic. *)
Definition hashable (key : any) : bool :=
  match key with
  | VSlice _ | VMap _ | VFunction _ => false
  | _ => true
  end.

(** [==] on two hashable interface values: equal dynamic types and equal
    values, floats by the IEEE comparison. *)
Definition anyEqual (a b : any) : bool :=
  match a, b with
  | Nil, Nil => true
  | VBool x, VBool y => Bool.eqb x y
  | VInt64 x, VInt64 y => x =? y
  | VInt x, VInt y => x =? y
  | VFloat64 x, VFloat64 y => PrimFloat.eqb x y
  | VString x, VString y => String.eqb x y
  | _, _ => false
  end.

Fixpoint mapAccess (entries : list (any * any)) (key : any) : any :=
  match entries with
  | [] => Nil
  | (k, v) :: rest => if anyEqual k key then v else mapAccess rest key
  end.

Fixpoint mapAssign (entries : list (any * any)) (key value : any)
  : list (any * any) :=
  match entries with
  | [] => [(key, value)]
  | (k, v) :: rest =>
      if anyEqual k key then (key, value) :: rest
      else (k, v) :: mapAssign rest key value
  end.

(** ** Outcomes of running code *)

(** The ways the process dies: the run-time panics the evaluator and the
    parser can raise (none is recovered, so a panic ends the whole run), and
    the [log.Fatalf] of the parser. *)
Inductive Fault : Set :=
| TypeAssertion     (* x.(T) on a value of another dynamic type, or on nil *)
| DivideByZero      (* integer division by zero *)
| IndexOutOfRange   (* slice index out of range *)
| UnhashableKey     (* hash of unhashable type *)
| LogFatal (expected : list TokenType) (got : TokenType).

Inductive Outcome (A : Type) : Type :=
| Done (a : A)
| Panic (fault : Fault)
| OutOfFuel.

Arguments Done {A} a.
Arguments Panic {A} fault.
Arguments OutOfFuel {A}.

#[global] Instance Outcome_ret : MRet Outcome := @Done.
#[global] Instance Outcome_bind : MBind Outcome :=
  fun A B f m =>
    match m with
    | Done a => f a
    | Panic fault => Panic fault
    | OutOfFuel => OutOfFuel
    end.

(** What [fmt.Print] and [fmt.Println] were called with; the standard output
    is the list of these calls, oldest first. *)
Record Printed : Set :=
  mkPrinted { Printed_Args : list any; Printed_IsNewLine : bool }.

Abbreviation Stdout := (list Printed).

(** The result of an [eval*] function: the returned value, the scope it was
    given as the function leaves it, and the standard output. *)
Abbreviation Evaluated := (Outcome (any * Scope * Stdout)).

(** Re-points the parent link of a scope. *)
Definition withParent (s : Scope) (p : option Scope) : Scope :=
  mkScope (variables s) (functions s) p.

(** The scope [scope] as it is once evaluation in its child [newScope] is
    over: the parent of the child. *)
Definition popScope (newScope scope : Scope) : Scope :=
  default scope (GetParent newScope).

(** ** Binary and unary operators on typed operands *)

Definition evalBinaryOperationBoolBool (left right : bool) (operator : Token)
  : any :=
  match Token_Type operator with
  | EQ => VBool (Bool.eqb left right)
  | NEQ => VBool (negb (Bool.eqb left right))
  | OR => VBool (left || right)
  | AND => VBool (left && right)
  | _ => Nil
  end.

Definition evalBinaryOperationIntInt (left right : Z) (operator : Token)
  : Outcome any :=
  match Token_Type operator with
  | LT => Done (VBool (left <? right))
  | GT => Done (VBool (left >? right))
  | LEQ => Done (VBool (left <=? right))
  | GEQ => Done (VBool (left >=? right))
  | EQ => Done (VBool (left =? right))
  | NEQ => Done (VBool (negb (left =? right)))
  | PLUS => Done (VInt64 (wrap64 (left + right)))
  | MINUS => Done (VInt64 (wrap64 (left - right)))
  | ASTERISK => Done (VInt64 (wrap64 (left * right)))
  | SLASH =>
      if right =? 0 then Panic DivideByZero
      else Done (VInt64 (wrap64 (Z.quot left right)))
  | _ => Done Nil
  end.

Definition evalBinaryOperationFloatFloat (left right : float) (operator : Token)
  : any :=
  match Token_Type operator with
  | LT => VBool (PrimFloat.ltb left right)
  | GT => VBool (PrimFloat.ltb right left)
  | LEQ => VBool (PrimFloat.leb left right)
  | GEQ => VBool (PrimFloat.leb right left)
  | EQ => VBool (PrimFloat.eqb left right)
  | NEQ => VBool (negb (PrimFloat.eqb left right))
  | PLUS => VFloat64 (PrimFloat.add left right)
  | MINUS => VFloat64 (PrimFloat.sub left right)
  | ASTERISK => VFloat64 (PrimFloat.mul left right)
  | SLASH => VFloat64 (PrimFloat.div left right)
  | _ => Nil
  end.

Definition evalBinaryOperationIntFloat (left : Z) (right : float)
    (operator : Token) : any :=
  match Token_Type operator with
  | LT => VBool (PrimFloat.ltb (float64 left) right)
  | GT => VBool (PrimFloat.ltb right (float64 left))
  | LEQ => VBool (PrimFloat.leb (float64 left) right)
  | GEQ => VBool (PrimFloat.leb right (float64 left))
  | EQ => VBool (PrimFloat.eqb (float64 left) right)
  | NEQ => VBool (negb (PrimFloat.eqb (float64 left) right))
  | PLUS => VFloat64 (PrimFloat.add (float64 left) right)
  | MINUS => VFloat64 (PrimFloat.sub (float64 left) right)
  | ASTERISK => VFloat64 (PrimFloat.mul (float64 left) right)
  | SLASH => VFloat64 (PrimFloat.div (float64 left) right)
  | _ => Nil
  end.

Definition evalBinaryOperationFloatInt (left : float) (right : Z)
    (operator : Token) : any :=
  match Token_Type operator with
  | LT => VBool (PrimFloat.ltb left (float64 right))
  | GT => VBool (PrimFloat.ltb (float64 right) left)
  | LEQ => VBool (PrimFloat.leb left (float64 right))
  | GEQ => VBool (PrimFloat.leb (float64 right) left)
  | EQ => VBool (PrimFloat.eqb left (float64 right))
  | NEQ => VBool (negb (PrimFloat.eqb left (float64 right)))
  | PLUS => VFloat64 (PrimFloat.add left (float64 right))
  | MINUS => VFloat64 (PrimFloat.sub left (float64 right))
  | ASTERISK => VFloat64 (PrimFloat.mul left (float64 right))
  | SLASH => VFloat64 (PrimFloat.div left (float64 right))
  | _ => Nil
  end.

Definition evalBinaryOperationStringString (left right : string)
    (operator : Token) : any :=
  match Token_Type operator with
  | PLUS => VString (left ++ right)%string
  | _ => Nil
  end.

(** ** The evaluator *)

(** The [eval*] functions call one another recursively, and a program may
    loop for ever.  Each function is written here against the two
    dispatchers it calls back ([evalStatementRec], [evalExpressionRec]);
    [evalStatement] and [evalExpression] below close the recursion over a
    bound on the call depth.  The two [for] loops whose trip count is not
    fixed by a list (the walk of [evalVariable] and the loop of
    [evalWhile]) count down a bound of their own. *)
Section Evaluator.

Context (evalStatementRec : Statement -> Scope -> Stdout -> Evaluated)
        (evalExpressionRec : Expression -> Scope -> Stdout -> Evaluated).

(** *** Statements *)

Fixpoint evalBlock (statements : Block) (scope : Scope) (out : Stdout)
  : Evaluated :=
  match statements with
  | [] => Done (Nil, scope, out)
  | statement :: rest =>
      if isNilStatement statement then evalBlock rest scope out
      else
        '(result, scope, out) ← evalStatementRec statement scope out;
        if isNil result then evalBlock rest scope out
        else Done (result, scope, out)
  end.

(** The [for] loop of [evalVariable]: at [scope] and then at each of its
    ancestors in turn, if the name resolves from there, the value
    expression is evaluated there and bound there. *)
Fixpoint evalVariableLoop (n : nat) (name : Identifier) (value : Expression)
    (scope : Scope) (out : Stdout) : Outcome (Scope * Stdout) :=
  match n with
  | O => OutOfFuel
  | S n' =>
      '(scope, out) ←
        (if (GetVariable scope name).2 then
           '(v, scope, out) ← evalExpressionRec value scope out;
           Done (SetVariable scope name v, out)
         else Done (scope, out));
      match GetParent scope with
      | None => Done (scope, out)
      | Some up =>
          '(up, out) ← evalVariableLoop n' name value up out;
          Done (withParent scope (Some up), out)
      end
  end.

Definition evalVariable (n : nat) (name : Identifier) (value : Expression)
    (isNew : bool) (scope : Scope) (out : Stdout) : Evaluated :=
  if isNew then
    '(v, scope, out) ← evalExpressionRec value scope out;
    Done (Nil, SetVariable scope name v, out)
  else
    '(scope, out) ← evalVariableLoop n name value scope out;
    Done (Nil, scope, out).

(** [evalBlock(in, NewScope(scope))] as seen from the caller: the block
    runs in the new scope, and the caller goes on with [scope] as the
    block left it. *)
Definition evalBlockIn (statements : Block) (newScope scope : Scope)
    (out : Stdout) : Evaluated :=
  '(result, newScope, out) ← evalBlock statements newScope out;
  Done (result, popScope newScope scope, out).

Definition evalIf (condition : Expression) (consequence : Block)
    (alternative : option Block) (scope : Scope) (out : Stdout)
  : Evaluated :=
  '(c, scope, out) ← evalExpressionRec condition scope out;
  match c with
  | VBool true => evalBlockIn consequence (NewScope (Some scope)) scope out
  | VBool false =>
      match alternative with
      | Some alternative =>
          evalBlockIn alternative (NewScope (Some scope)) scope out
      | None => Done (Nil, scope, out)
      end
  | _ => Panic TypeAssertion
  end.

Fixpoint evalWhile (n : nat) (condition : Expression) (consequence : Block)
    (scope : Scope) (out : Stdout) : Evaluated :=
  match n with
  | O => OutOfFuel
  | S n' =>
      '(c, scope, out) ← evalExpressionRec condition scope out;
      match c with
      | VBool true =>
          '(result, scope, out) ←
            evalBlockIn consequence (NewScope (Some scope)) scope out;
          if isNil result then evalWhile n' condition consequence scope out
          else Done (result, scope, out)
      | VBool false => Done (Nil, scope, out)
      | _ => Panic TypeAssertion
      end
  end.

(** The body of the three [range] loops of [evalFor], over the pairs the
    subject yields. *)
Fixpoint evalForRange (pairs : list (any * any)) (key value : Identifier)
    (consequence : Block) (scope : Scope) (out : Stdout) : Evaluated :=
  match pairs with
  | [] => Done (Nil, scope, out)
  | (k, v) :: rest =>
      let newScope := NewScope (Some scope) in
      let newScope := SetVariable newScope key k in
      let newScope := SetVariable newScope value v in
      '(result, scope, out) ← evalBlockIn consequence newScope scope out;
      if isNil result then evalForRange rest key value consequence scope out
      else Done (result, scope, out)
  end.

Definition evalFor (key value : Identifier) (condition : Expression)
    (consequence : Block) (scope : Scope) (out : Stdout) : Evaluated :=
  '(subject, scope, out) ← evalExpressionRec condition scope out;
  match subject with
  | VString s =>
      evalForRange (rangeString s) key value consequence scope out
  | VSlice items =>
      evalForRange (rangeSlice items) key value consequence scope out
  | VMap entries =>
      evalForRange entries key value consequence scope out
  | _ => Done (Nil, scope, out)
  end.

Definition evalFunction (name : Identifier) (parameters : list Identifier)
    (body : Block) (scope : Scope) (out : Stdout) : Evaluated :=
  Done (Nil,
        SetFunction scope name (VFunction (mkFunction name parameters body)),
        out).

Definition evalReturn (value : Expression) (scope : Scope) (out : Stdout)
  : Evaluated :=
  evalExpressionRec value scope out.

Definition evalStatementBody (n : nat) (statement : Statement)
    (scope : Scope) (out : Stdout) : Evaluated :=
  match statement with
  | SVariable name value isNew => evalVariable n name value isNew scope out
  | SIf condition consequence alternative =>
      evalIf condition consequence alternative scope out
  | SWhile condition consequence =>
      evalWhile n condition consequence scope out
  | SFor key value condition consequence =>
      evalFor key value condition consequence scope out
  | SFunction name parameters body =>
      evalFunction name parameters body scope out
  | SReturn value => evalReturn value scope out
  | SBlock statements =>
      evalBlockIn statements (NewScope (Some scope)) scope out
  | SExpression expression => evalExpressionRec expression scope out
  end.

(** *** Expressions *)

(** Evaluates expressions left to right, each in the scope the previous
    one left: the loops of [evalArray] and [evalPrint]. *)
Fixpoint evalList (items : list Expression) (scope : Scope) (out : Stdout)
  : Outcome (list any * Scope * Stdout) :=
  match items with
  | [] => Done ([], scope, out)
  | value :: rest =>
      '(v, scope, out) ← evalExpressionRec value scope out;
      '(vs, scope, out) ← evalList rest scope out;
      Done (v :: vs, scope, out)
  end.

Definition evalArray (items : list Expression) (scope : Scope)
    (out : Stdout) : Evaluated :=
  '(a, scope, out) ← evalList items scope out;
  Done (VSlice a, scope, out).

(** The loop of [evalMap], with [m] the map built so far: key first, then
    value, then the store, which panics on a key that cannot be hashed. *)
Fixpoint evalMapLoop (items : list (Expression * Expression))
    (m : list (any * any)) (scope : Scope) (out : Stdout)
  : Outcome (list (any * any) * Scope * Stdout) :=
  match items with
  | [] => Done (m, scope, out)
  | (key, value) :: rest =>
      '(k, scope, out) ← evalExpressionRec key scope out;
      '(v, scope, out) ← evalExpressionRec value scope out;
      if hashable k then evalMapLoop rest (mapAssign m k v) scope out
      else Panic UnhashableKey
  end.

Definition evalMap (items : list (Expression * Expression)) (scope : Scope)
    (out : Stdout) : Evaluated :=
  '(m, scope, out) ← evalMapLoop items [] scope out;
  Done (VMap m, scope, out).

Definition evalIndex (index subject : Expression) (scope : Scope)
    (out : Stdout) : Evaluated :=
  '(s, scope, out) ← evalExpressionRec subject scope out;
  match s with
  | VSlice items =>
      '(i, scope, out) ← evalExpressionRec index scope out;
      match i with
      | VInt64 i =>
          if (0 <=? i) && (i <? Z.of_nat (length items)) then
            Done (default Nil (items !! Z.to_nat i), scope, out)
          else Panic IndexOutOfRange
      | _ => Panic TypeAssertion
      end
  | VMap entries =>
      '(key, scope, out) ← evalExpressionRec index scope out;
      if hashable key then Done (mapAccess entries key, scope, out)
      else Panic UnhashableKey
  | _ => Done (Nil, scope, out)
  end.

(** The loop of [evalCall]: each argument is evaluated in the call-site
    scope and bound to its parameter in the new scope, whose parent link
    follows the call-site scope. *)
Fixpoint evalCallLoop (parameters : list Identifier)
    (arguments : list Expression) (newScope scope : Scope) (out : Stdout)
  : Outcome (Scope * Scope * Stdout) :=
  match arguments, parameters with
  | argument :: arguments, parameter :: parameters =>
      '(v, scope, out) ← evalExpressionRec argument scope out;
      evalCallLoop parameters arguments
        (SetVariable (withParent newScope (Some scope)) parameter v)
        scope out
  | _, _ => Done (newScope, scope, out)
  end.

Definition evalCall (identifier : Identifier) (arguments : list Expression)
    (scope : Scope) (out : Stdout) : Evaluated :=
  let '(untypedFunction, ok) := GetFunction scope identifier in
  if negb ok then Done (Nil, scope, out)
  else
    match untypedFunction with
    | VFunction function =>
        if negb (length (Parameters function) =? length arguments)%nat
        then Done (Nil, scope, out)
        else
          '(newScope, scope, out) ←
            evalCallLoop (Parameters function) arguments
              (NewScope (Some scope)) scope out;
          evalBlockIn (Body function) newScope scope out
    | _ => Panic TypeAssertion
    end.

Definition evalIdentifier (identifier : Identifier) (scope : Scope)
    (out : Stdout) : Evaluated :=
  if IsFunctionCall identifier then
    Done ((GetFunction scope identifier).1, scope, out)
  else
    Done ((GetVariable scope identifier).1, scope, out).

Definition evalUnaryOperation (token : Token) (expression : Expression)
    (scope : Scope) (out : Stdout) : Evaluated :=
  '(t, scope, out) ← evalExpressionRec expression scope out;
  match t with
  | VBool t =>
      match Token_Type token with
      | NOT => Done (VBool (negb t), scope, out)
      | _ => Done (Nil, scope, out)
      end
  | VInt64 t =>
      match Token_Type token with
      | PLUS => Done (VInt64 t, scope, out)
      | MINUS => Done (VInt64 (wrap64 (-1 * t)), scope, out)
      | _ => Done (Nil, scope, out)
      end
  | VFloat64 t =>
      match Token_Type token with
      | PLUS => Done (VFloat64 t, scope, out)
      | MINUS =>
          Done (VFloat64 (PrimFloat.mul (PrimFloat.opp PrimFloat.one) t),
                scope, out)
      | _ => Done (Nil, scope, out)
      end
  | _ => Done (Nil, scope, out)
  end.

Definition evalBinaryOperation (token : Token) (left right : Expression)
    (scope : Scope) (out : Stdout) : Evaluated :=
  '(l, scope, out) ← evalExpressionRec left scope out;
  match l with
  | VBool l =>
      '(r, scope, out) ← evalExpressionRec right scope out;
      match r with
      | VBool r => Done (evalBinaryOperationBoolBool l r token, scope, out)
      | _ => Done (Nil, scope, out)
      end
  | VInt64 l =>
      '(r, scope, out) ← evalExpressionRec right scope out;
      match r with
      | VInt64 r =>
          v ← evalBinaryOperationIntInt l r token; Done (v, scope, out)
      | VFloat64 r => Done (evalBinaryOperationIntFloat l r token, scope, out)
      | _ => Done (Nil, scope, out)
      end
  | VFloat64 l =>
      '(r, scope, out) ← evalExpressionRec right scope out;
      match r with
      | VInt64 r => Done (evalBinaryOperationFloatInt l r token, scope, out)
      | VFloat64 r =>
          Done (evalBinaryOperationFloatFloat l r token, scope, out)
      | _ => Done (Nil, scope, out)
      end
  | VString l =>
      '(r, scope, out) ← evalExpressionRec right scope out;
      match r with
      | VString r =>
          Done (evalBinaryOperationStringString l r token, scope, out)
      | _ => Done (Nil, scope, out)
      end
  | _ => Done (Nil, scope, out)
  end.

Definition evalLen (subject : Expression) (scope : Scope) (out : Stdout)
  : Evaluated :=
  '(typedSubject, scope, out) ← evalExpressionRec subject scope out;
  match typedSubject with
  | VString s => Done (VInt (Z.of_nat (String.length s)), scope, out)
  | VSlice items => Done (VInt (Z.of_nat (length items)), scope, out)
  | VMap entries => Done (VInt (Z.of_nat (length entries)), scope, out)
  | _ => Done (Nil, scope, out)
  end.

Definition evalPrint (args : list Expression) (isNewLine : bool)
    (scope : Scope) (out : Stdout) : Evaluated :=
  '(args, scope, out) ← evalList args scope out;
  Done (Nil, scope, out ++ [mkPrinted args isNewLine]).

Definition evalExpressionBody (expression : Expression) (scope : Scope)
    (out : Stdout) : Evaluated :=
  match expression with
  | EBoolean value => Done (VBool value, scope, out)
  | EInteger value => Done (VInt64 value, scope, out)
  | EFloat value => Done (VFloat64 value, scope, out)
  | EString value => Done (VString value, scope, out)
  | EArray items => evalArray items scope out
  | EMap items => evalMap items scope out
  | EIndex index subject => evalIndex index subject scope out
  | ECall identifier arguments => evalCall identifier arguments scope out
  | EIdentifier identifier => evalIdentifier identifier scope out
  | EUnaryOperation token expression =>
      evalUnaryOperation token expression scope out
  | EBinaryOperation token lhs rhs =>
      evalBinaryOperation token lhs rhs scope out
  | ELen subject => evalLen subject scope out
  | EPrint args isNewLine => evalPrint args isNewLine scope out
  | ENil => Done (Nil, scope, out)
  end.

End Evaluator.

(** The two dispatchers, closed over a bound [fuel] on the depth of nested
    calls and on the trip count of the unbounded loops. *)
Fixpoint evalStatement (fuel : nat) (statement : Statement) (scope : Scope)
    (out : Stdout) {struct fuel} : Evaluated :=
  match fuel with
  | O => OutOfFuel
  | S n =>
      evalStatementBody (evalStatement n) (evalExpression n) n
        statement scope out
  end
with evalExpression (fuel : nat) (expression : Expression) (scope : Scope)
    (out : Stdout) {struct fuel} : Evaluated :=
  match fuel with
  | O => OutOfFuel
  | S n =>
      evalExpressionBody (evalStatement n) (evalExpression n)
        expression scope out
  end.

(** [Evaluator.Eval] once the parser has delivered the statements: each is
    evaluated against [scope], a nil statement ends the loop, and the value
    of the last statement evaluated is returned. *)
Fixpoint evalStatements (fuel : nat) (statements : list Statement)
    (value : any) (scope : Scope) (out : Stdout) : Evaluated :=
  match statements with
  | [] => Done (value, scope, out)
  | statement :: rest =>
      if isNilStatement statement then Done (value, scope, out)
      else
        '(value, scope, out) ← evalStatement fuel statement scope out;
        evalStatements fuel rest value scope out
  end.

(** ** Host semantics: [strconv] *)

Definition ParseBool (s : string) : bool :=
  if decide (s ∈ ["1"; "t"; "T"; "TRUE"; "true"; "True"]%string)
  then true else false.

Definition digitOf (c : ascii) : option Z :=
  let b := byteOf c in
  if (48 <=? b) && (b <=? 57) then Some (b - 48) else None.

Fixpoint digitsValue (acc : Z) (s : string) : option Z :=
  match s with
  | EmptyString => Some acc
  | String c rest =>
      match digitOf c with
      | Some d => digitsValue (10 * acc + d) rest
      | None => None
      end
  end.

(** [strconv.ParseInt(s, 10, 64)] with its error dropped: 0 on a syntax
    error, the nearest bound when the number is out of range. *)
Definition ParseInt (s : string) : Z :=
  let '(neg, digits) :=
    match s with
    | String "+" rest => (false, rest)
    | String "-" rest => (true, rest)
    | _ => (false, s)
    end in
  match digits with
  | EmptyString => 0
  | _ =>
      match digitsValue 0 digits with
      | None => 0
      | Some un =>
          if neg then Z.max MinInt64 (- un) else Z.min MaxInt64 un
      end
  end.

(** ** The parser *)

(** Precedence levels, [LOWEST = iota + 1] onwards. *)
Definition LOWEST : Z := 1.
Definition EQUALS : Z := 2.   (* == != *)
Definition BOOLOP : Z := 3.   (* or and *)
Definition GREATER : Z := 4.  (* < > <= >= *)
Definition SUM : Z := 5.      (* + - *)
Definition PRODUCT : Z := 6.  (* * / *)
Definition PREFIX : Z := 7.   (* +x -x !x *)

Definition getPrecedence (in_ : TokenType) : Z :=
  match in_ with
  | EQ | NEQ => EQUALS
  | OR | AND => BOOLOP
  | LT | GT | LEQ | GEQ => GREATER
  | PLUS | MINUS => SUM
  | ASTERISK | SLASH => PRODUCT
  | _ => LOWEST
  end.

(** The entries of [Parser.errors]. *)
Inductive ParseError : Set :=
| UnaryNotFound (tokenType : TokenType)
| BinaryNotFound (tokenType : TokenType).

(** [Parser{tokens, currentToken, peekToken, errors}]; [tokens] is what is
    still to be received from the lexer's channel. *)
Record Parser : Set :=
  mkParser { tokens : list Token;
             currentToken : Token;
             peekToken : Token;
             errors : list ParseError }.

(** [NewParser(lexer)] stores the channel [lexer.Lex()] returns; here it
    takes the sequence of tokens sent on that channel before it is closed,
    which [Lex] below computes and [main] passes on.  The [errors] slice
    starts empty. *)
Definition NewParser (lexed : list Token) : Parser :=
  mkParser lexed zeroToken zeroToken [].

Definition next (p : Parser) : Parser :=
  match tokens p with
  | [] => mkParser [] (peekToken p) zeroToken (errors p)
  | token :: rest => mkParser rest (peekToken p) token (errors p)
  end.

Definition currentType (p : Parser) : TokenType := Token_Type (currentToken p).

Definition addError (p : Parser) (e : ParseError) : Parser :=
  mkParser (tokens p) (currentToken p) (peekToken p) (errors p ++ [e]).

(** [expectCurrent]: a mismatch ends the process in [log.Fatalf]. *)
Definition expectCurrent (p : Parser) (tokenTypes : list TokenType)
  : Outcome unit :=
  if existsb (fun tokenType => bool_decide (currentType p = tokenType))
       tokenTypes
  then Done tt
  else Panic (LogFatal tokenTypes (currentType p)).

(** The keys a Go map of expressions accepts: an expression struct with a
    slice or map field, or one nested in an interface field, cannot be
    hashed. *)
Fixpoint hashableExpression (e : Expression) : bool :=
  match e with
  | EArray _ | EMap _ | ECall _ _ | EPrint _ _ => false
  | EIndex index subject =>
      hashableExpression index && hashableExpression subject
  | EUnaryOperation _ operand => hashableExpression operand
  | EBinaryOperation _ lhs rhs =>
      hashableExpression lhs && hashableExpression rhs
  | ELen subject => hashableExpression subject
  | _ => true
  end.

(** [==] on two hashable expressions. *)
Fixpoint expressionEqual (a b : Expression) : bool :=
  match a, b with
  | ENil, ENil => true
  | EBoolean x, EBoolean y => Bool.eqb x y
  | EInteger x, EInteger y => x =? y
  | EFloat x, EFloat y => PrimFloat.eqb x y
  | EString x, EString y => String.eqb x y
  | EIndex i1 s1, EIndex i2 s2 => expressionEqual i1 i2 && expressionEqual s1 s2
  | EIdentifier x, EIdentifier y => bool_decide (x = y)
  | EUnaryOperation t1 e1, EUnaryOperation t2 e2 =>
      bool_decide (t1 = t2) && expressionEqual e1 e2
  | EBinaryOperation t1 l1 r1, EBinaryOperation t2 l2 r2 =>
      bool_decide (t1 = t2) && expressionEqual l1 l2 && expressionEqual r1 r2
  | ELen s1, ELen s2 => expressionEqual s1 s2
  | _, _ => false
  end.

(** [m.Items[key] = value] on the items of a map literal. *)
Fixpoint itemsAssign (items : list (Expression * Expression))
    (key value : Expression) : list (Expression * Expression) :=
  match items with
  | [] => [(key, value)]
  | (k, v) :: rest =>
      if expressionEqual k key then (key, value) :: rest
      else (k, v) :: itemsAssign rest key value
  end.

(** A parse function returns its node and the parser as it leaves it. *)
Abbreviation Parsed A := (Outcome (A * Parser)).

Section Parsing.

(** [strconv.ParseFloat(s, 64)] with its error dropped: the conversion of
    the decimal text to binary64 is the host library's, and the parser
    does not depend on which float a text denotes. *)
Context (ParseFloat : string -> float).

(** As for the evaluator, the parse functions are written against the two
    they call back, and [parseStatement] and [parseExpression] below close
    the recursion over a bound. *)
Context (parseStatementRec : Parser -> Parsed Statement)
        (parseExpressionRec : Z -> Parser -> Parsed Expression).

Definition parseIdentifier (p : Parser) : Parsed Identifier :=
  _ ← expectCurrent p [IDENT];
  let i := mkIdentifier (currentToken p)
                        (bool_decide (Token_Type (peekToken p) = LPAREN)) in
  Done (i, next p).

(** *** Statements *)

Definition parseVariable (p : Parser) : Parsed Statement :=
  let '(isNew, p) :=
    if bool_decide (currentType p = VAR) then (true, next p)
    else (false, p) in
  '(name, p) ← parseIdentifier p;
  _ ← expectCurrent p [ASSIGN];
  let p := next p in
  '(value, p) ← parseExpressionRec LOWEST p;
  Done (SVariable name value isNew, p).

(** The loop of [parseBlock], with [statements] the ones appended so
    far. *)
Fixpoint parseBlockLoop (n : nat) (statements : Block) (p : Parser)
  : Parsed Block :=
  match n with
  | O => OutOfFuel
  | S n' =>
      if bool_decide (currentType p = RCURLY) then Done (statements, p)
      else
        '(statement, p) ← parseStatementRec p;
        parseBlockLoop n' (statements ++ [statement]) p
  end.

Definition parseBlock (n : nat) (p : Parser) : Parsed Block :=
  let p := next p in
  '(statements, p) ← parseBlockLoop n [] p;
  Done (statements, next p).

Definition parseIf (n : nat) (p : Parser) : Parsed Statement :=
  let p := next p in
  '(condition, p) ← parseExpressionRec LOWEST p;
  '(consequence, p) ← parseBlock n p;
  if bool_decide (currentType p = ELSE) then
    let p := next p in
    '(alternative, p) ← parseBlock n p;
    Done (SIf condition consequence (Some alternative), p)
  else Done (SIf condition consequence None, p).

Definition parseWhile (n : nat) (p : Parser) : Parsed Statement :=
  let p := next p in
  '(condition, p) ← parseExpressionRec LOWEST p;
  _ ← expectCurrent p [LCURLY];
  '(consequence, p) ← parseBlock n p;
  Done (SWhile condition consequence, p).

Definition parseFor (n : nat) (p : Parser) : Parsed Statement :=
  let p := next p in
  '(key, p) ← parseIdentifier p;
  '(value, p) ←
    (if bool_decide (currentType p = COMMA) then parseIdentifier (next p)
     else Done (zeroIdentifier, p));
  _ ← expectCurrent p [IN];
  let p := next p in
  '(condition, p) ← parseExpressionRec LOWEST p;
  _ ← expectCurrent p [LCURLY];
  '(consequence, p) ← parseBlock n p;
  Done (SFor key value condition consequence, p).

(** The loop of [parseFunction] over the parameter list. *)
Fixpoint parseParametersLoop (n : nat) (parameters : list Identifier)
    (p : Parser) : Parsed (list Identifier) :=
  match n with
  | O => OutOfFuel
  | S n' =>
      if bool_decide (currentType p = RPAREN) then Done (parameters, p)
      else
        '(parameter, p) ← parseIdentifier p;
        let p := if bool_decide (currentType p = COMMA) then next p else p in
        parseParametersLoop n' (parameters ++ [parameter]) p
  end.

Definition parseFunction (n : nat) (p : Parser) : Parsed Statement :=
  let p := next p in
  '(name, p) ← parseIdentifier p;
  _ ← expectCurrent p [LPAREN];
  let p := next p in
  '(parameters, p) ← parseParametersLoop n [] p;
  let p := next p in
  _ ← expectCurrent p [LCURLY];
  '(body, p) ← parseBlock n p;
  Done (SFunction name parameters body, p).

Definition parseReturn (p : Parser) : Parsed Statement :=
  let p := next p in
  '(value, p) ← parseExpressionRec LOWEST p;
  Done (SReturn value, p).

Definition parseExpressionStatement (p : Parser) : Parsed Statement :=
  '(expression, p) ← parseExpressionRec LOWEST p;
  Done (SExpression expression, p).

Definition parseStatementBody (n : nat) (p : Parser) : Parsed Statement :=
  match currentType p with
  | VAR => parseVariable p
  | IF => parseIf n p
  | WHILE => parseWhile n p
  | FOR => parseFor n p
  | FN => parseFunction n p
  | RETURN => parseReturn p
  | LCURLY => '(statements, p) ← parseBlock n p; Done (SBlock statements, p)
  | IDENT =>
      if bool_decide (Token_Type (peekToken p) = ASSIGN) then parseVariable p
      else parseExpressionStatement p
  | _ => parseExpressionStatement p
  end.

(** *** Expressions *)

Definition parseBoolean (p : Parser) : Parsed Expression :=
  _ ← expectCurrent p [TRUE; FALSE];
  Done (EBoolean (ParseBool (Token_Value (currentToken p))), next p).

Definition parseInteger (p : Parser) : Parsed Expression :=
  _ ← expectCurrent p [INT];
  Done (EInteger (ParseInt (Token_Value (currentToken p))), next p).

Definition parseFloat (p : Parser) : Parsed Expression :=
  _ ← expectCurrent p [FLOAT];
  Done (EFloat (ParseFloat (Token_Value (currentToken p))), next p).

Definition parseString (p : Parser) : Parsed Expression :=
  _ ← expectCurrent p [STRING];
  Done (EString (Token_Value (currentToken p)), next p).

(** The loop shared by [parseArray], [parseCall] and [parsePrint]:
    expressions up to the closing token, a comma after one skipped. *)
Fixpoint parseListLoop (n : nat) (closing : TokenType)
    (items : list Expression) (p : Parser) : Parsed (list Expression) :=
  match n with
  | O => OutOfFuel
  | S n' =>
      if bool_decide (currentType p = closing) then Done (items, p)
      else
        '(item, p) ← parseExpressionRec LOWEST p;
        let p := if bool_decide (currentType p = COMMA) then next p else p in
        parseListLoop n' closing (items ++ [item]) p
  end.

Definition parseArray (n : nat) (p : Parser) : Parsed Expression :=
  let p := next p in
  '(items, p) ← parseListLoop n RBRACKET [] p;
  Done (EArray items, next p).

(** The loop of [parseMap]; storing under a key that cannot be hashed
    panics. *)
Fixpoint parseMapLoop (n : nat) (items : list (Expression * Expression))
    (p : Parser) : Parsed (list (Expression * Expression)) :=
  match n with
  | O => OutOfFuel
  | S n' =>
      if bool_decide (currentType p = RCURLY) then Done (items, p)
      else
        '(key, p) ← parseExpressionRec LOWEST p;
        _ ← expectCurrent p [COLON];
        let p := next p in
        '(value, p) ← parseExpressionRec LOWEST p;
        if hashableExpression key then
          let p := if bool_decide (currentType p = COMMA) then next p else p in
          parseMapLoop n' (itemsAssign items key value) p
        else Panic UnhashableKey
  end.

Definition parseMap (n : nat) (p : Parser) : Parsed Expression :=
  let p := next p in
  '(items, p) ← parseMapLoop n [] p;
  Done (EMap items, next p).

Definition parseIndex (left : Expression) (p : Parser) : Parsed Expression :=
  let p := next p in
  '(index, p) ← parseExpressionRec LOWEST p;
  Done (EIndex index left, next p).

Definition parseCall (n : nat) (left : Identifier) (p : Parser)
  : Parsed Expression :=
  let p := next p in
  '(arguments, p) ← parseListLoop n RPAREN [] p;
  Done (ECall left arguments, next p).

Definition parseUnaryOperation (p : Parser) : Parsed Expression :=
  _ ← expectCurrent p [PLUS; MINUS; NOT];
  let token := currentToken p in
  let p := next p in
  '(expression, p) ← parseExpressionRec PREFIX p;
  Done (EUnaryOperation token expression, p).

Definition parseBinaryOperation (left : Expression) (p : Parser)
  : Parsed Expression :=
  let token := currentToken p in
  let precedence := getPrecedence (currentType p) in
  let p := next p in
  '(rhs, p) ← parseExpressionRec precedence p;
  Done (EBinaryOperation token left rhs, p).

Definition parseLen (p : Parser) : Parsed Expression :=
  let p := next p in
  let p := next p in
  '(subject, p) ← parseExpressionRec LOWEST p;
  Done (ELen subject, next p).

Definition parsePrint (n : nat) (p : Parser) : Parsed Expression :=
  let isNewLine := bool_decide (currentType p = PRINTLN) in
  let p := next p in
  _ ← expectCurrent p [LPAREN];
  let p := next p in
  '(args, p) ← parseListLoop n RPAREN [] p;
  Done (EPrint args isNewLine, next p).

Definition isBinaryOperator (tokenType : TokenType) : bool :=
  match tokenType with
  | OR | AND | PLUS | MINUS | ASTERISK | SLASH
  | EQ | NEQ | LT | GT | LEQ | GEQ => true
  | _ => false
  end.

(** The second half of [parseExpression]: while the current token binds
    tighter than [precedence], it is consumed as a binary operator whose
    left operand is what was parsed so far. *)
Fixpoint parseExpressionLoop (n : nat) (precedence : Z) (left : Expression)
    (p : Parser) : Parsed Expression :=
  match n with
  | O => OutOfFuel
  | S n' =>
      if precedence <? getPrecedence (currentType p) then
        if isBinaryOperator (currentType p) then
          '(lhs, p) ← parseBinaryOperation left p;
          parseExpressionLoop n' precedence lhs p
        else
          Done (ENil, addError p (BinaryNotFound (currentType p)))
      else Done (left, p)
  end.

Definition parseExpressionBody (n : nat) (precedence : Z) (p : Parser)
  : Parsed Expression :=
  let continue (r : Parsed Expression) : Parsed Expression :=
    '(lhs, p) ← r; parseExpressionLoop n precedence lhs p in
  match currentType p with
  | TRUE | FALSE => continue (parseBoolean p)
  | INT => continue (parseInteger p)
  | FLOAT => continue (parseFloat p)
  | STRING => continue (parseString p)
  | PLUS | MINUS | NOT => continue (parseUnaryOperation p)
  | IDENT =>
      continue
        ('(identifier, p) ← parseIdentifier p;
         match currentType p with
         | LBRACKET => parseIndex (EIdentifier identifier) p
         | LPAREN => parseCall n identifier p
         | _ => Done (EIdentifier identifier, p)
         end)
  | LPAREN =>
      continue
        (let p := next p in
         '(inner, p) ← parseExpressionRec LOWEST p;
         Done (inner, next p))
  | LBRACKET => continue (parseArray n p)
  | LCURLY => continue (parseMap n p)
  | LEN => continue (parseLen p)
  | PRINT | PRINTLN => continue (parsePrint n p)
  | _ => Done (ENil, addError p (UnaryNotFound (currentType p)))
  end.

End Parsing.

Fixpoint parseExpression (ParseFloat : string -> float) (fuel : nat)
    (precedence : Z) (p : Parser) {struct fuel} : Parsed Expression :=
  match fuel with
  | O => OutOfFuel
  | S n =>
      parseExpressionBody ParseFloat (parseExpression ParseFloat n) n
        precedence p
  end.

Fixpoint parseStatement (ParseFloat : string -> float) (fuel : nat)
    (p : Parser) {struct fuel} : Parsed Statement :=
  match fuel with
  | O => OutOfFuel
  | S n =>
      parseStatementBody (parseStatement ParseFloat n)
        (parseExpression ParseFloat n) n p
  end.

(** The loop of [Parse]: statements up to the end-of-input token, the nil
    ones left out. *)
Fixpoint parseLoop (ParseFloat : string -> float) (fuel n : nat)
    (statements : list Statement) (p : Parser) : Parsed (list Statement) :=
  match n with
  | O => OutOfFuel
  | S n' =>
      if bool_decide (currentType p = EOF) then Done (statements, p)
      else
        '(statement, p) ← parseStatement ParseFloat fuel p;
        parseLoop ParseFloat fuel n'
          (if isNilStatement statement then statements
           else statements ++ [statement]) p
  end.

Definition Parse (ParseFloat : string -> float) (fuel : nat) (p : Parser)
  : Parsed (list Statement) :=
  let p := next p in  (* initialize peek token *)
  let p := next p in  (* initialize current token *)
  parseLoop ParseFloat fuel fuel [] p.

(** [Evaluator.Eval], on the token sequence its parser was built from: the
    statements are parsed and evaluated in order against [scope].  In the
    sources the parser runs ahead of the evaluator, one statement at a time,
    over a channel; here the program is parsed first.  The two differ only
    when the parser dies on a later statement, by what the earlier
    statements had printed before that. *)
Definition Eval (ParseFloat : string -> float) (fuel : nat)
    (lexed : list Token) (scope : Scope) (out : Stdout) : Evaluated :=
  '(statements, _) ← Parse ParseFloat fuel (NewParser lexed);
  evalStatements fuel statements Nil scope out.

(** ** The lexer *)

(** The lexer sends the tokens the parser receives.  Of the token kinds it
    declares, [TokenType] has all but [ILLEGAL], the kind of a symbol that
    is no token: [Lex] stops the process on such a symbol and sends no
    token of that kind. *)

(** A rune is kept as its text, what [string(r)] is: the bytes of its UTF-8
    encoding.  Rune 0, which [readRune] also yields at the end of the
    input, is the one byte 0. *)
Definition runeOf (n : nat) : string := String (ascii_of_nat n) EmptyString.

(** [unicode.IsDigit] and [unicode.IsLetter]: for a rune of one byte the
    ASCII digits and letters; for the others the host library's tables,
    which are parameters below. *)
Definition isASCIIDigit (c : ascii) : bool :=
  (48 <=? byteOf c) && (byteOf c <=? 57).

Definition isASCIILetter (c : ascii) : bool :=
  ((65 <=? byteOf c) && (byteOf c <=? 90))
  || ((97 <=? byteOf c) && (byteOf c <=? 122)).

(** [bufio.Reader] over [strings.NewReader(in)], as far as the lexer can
    observe it: the input not yet read, and the bytes the last operation
    consumed when that was a [ReadRune] that read a rune, which are what
    [UnreadRune] gives back.  How the unread input is split between the
    reader's buffer and the string reader does not show in any result: a
    rune takes at most four bytes and [ReadRune] fills the buffer when it
    holds fewer without holding a full rune; [ReadSlice] fills it before it
    reports it full; and a fill takes all the buffer has room for. *)
Record Reader : Set :=
  mkReader { remaining : string; lastRune : option string }.

(** [bufio]'s [defaultBufSize]. *)
Definition defaultBufSize : N := 4096.

Definition NewLexer (input : string) : Reader := mkReader input None.

(** [ReadRune]: the rune at the head of the input, U+FFFD for a byte that
    starts no well-formed encoding, rune 0 at the end of the input. *)
Definition ReadRune (b : Reader) : string * Reader :=
  match remaining b with
  | EmptyString => (runeOf 0, mkReader EmptyString None)
  | String c _ as s =>
      let w := runeWidth s in
      let raw := takeBytes w s in
      let r := if (w =? 1)%nat && negb (byteOf c <? 128) then runeError
               else raw in
      (r, mkReader (dropBytes w s) (Some raw))
  end.

(** [UnreadRune]: an error, which the lexer drops, unless the last
    operation was a [ReadRune] that read a rune. *)
Definition UnreadRune (b : Reader) : Reader :=
  match lastRune b with
  | Some raw => mkReader (raw ++ remaining b) None
  | None => b
  end.

(** [ReadLine], with [n] the room left in the buffer: it consumes the input
    up to the first newline, all of it when there is none, and no more than
    the buffer holds; a carriage return that is the last byte of a full
    buffer is left unread. *)
Fixpoint ReadLineFrom (n : N) (s : string) {struct s} : string :=
  match s with
  | EmptyString => EmptyString
  | String c rest =>
      if bool_decide (c = ascii_of_nat 10) then rest
      else if (n <=? 1)%N then
             if bool_decide (c = ascii_of_nat 13) then s else rest
           else ReadLineFrom (n - 1) rest
  end.

(** A read that consumes nothing, at the end of the input, leaves the
    reader as it is, what it has to unread included. *)
Definition ReadLine (b : Reader) : Reader :=
  match remaining b with
  | EmptyString => b
  | s => mkReader (ReadLineFrom defaultBufSize s) None
  end.

(** [ReadString(delim)]: the input up to the first [delim], included, or
    all of it. *)
Fixpoint ReadStringFrom (delim : ascii) (s : string) : string * string :=
  match s with
  | EmptyString => (EmptyString, EmptyString)
  | String c rest =>
      if bool_decide (c = delim) then (String c EmptyString, rest)
      else let '(str, rest) := ReadStringFrom delim rest in
           (String c str, rest)
  end.

Definition ReadString (delim : ascii) (b : Reader) : string * Reader :=
  match remaining b with
  | EmptyString => (EmptyString, b)
  | s => let '(str, rest) := ReadStringFrom delim s in
         (str, mkReader rest None)
  end.

(** [strings.TrimRight(s, cutset)] for a cutset of one byte. *)
Fixpoint TrimRight (s : string) (cutset : ascii) : string :=
  match s with
  | EmptyString => EmptyString
  | String c rest =>
      match TrimRight rest cutset with
      | EmptyString =>
          if bool_decide (c = cutset) then EmptyString
          else String c EmptyString
      | trimmed => String c trimmed
      end
  end.

(** A map from strings to token types, as the two tables of the lexer. *)
Fixpoint tableLookup (table : list (string * TokenType)) (key : string)
  : option TokenType :=
  match table with
  | [] => None
  | (k, t) :: rest => if String.eqb k key then Some t else tableLookup rest key
  end.

Definition keywords : list (string * TokenType) :=
  [ ("true", TRUE); ("false", FALSE); ("var", VAR); ("if", IF);
    ("else", ELSE); ("while", WHILE); ("for", FOR); ("in", IN); ("fn", FN);
    ("return", RETURN); ("len", LEN); ("print", PRINT);
    ("println", PRINTLN); ("or", OR); ("and", AND) ]%string.

Definition symbols : list (string * TokenType) :=
  [ (",", COMMA); (":", COLON); ("(", LPAREN); (")", RPAREN);
    ("[", LBRACKET); ("]", RBRACKET); ("{", LCURLY); ("}", RCURLY);
    ("=", ASSIGN); ("+", PLUS); ("-", MINUS); ("*", ASTERISK);
    ("/", SLASH); ("!", NOT); ("<", LT); (">", GT); ("<=", LEQ);
    (">=", GEQ); ("==", EQ); ("!=", NEQ) ]%string.

(** What the goroutine of [Lex] comes to: the tokens it sent and the
    channel closed, or the tokens it sent and then [log.Fatalf] on a
    symbol that is no token, whose text is [Value]. *)
Inductive LexResult : Set :=
| Lexed (tokens : list Token)
| InvalidToken (tokens : list Token) (Value : string)
| LexOutOfFuel.

Section Lexing.

(** [unicode.IsLetter] and [unicode.IsDigit] on the runes of more than one
    byte. *)
Context (wideLetter wideDigit : string -> bool).

Definition IsDigit (r : string) : bool :=
  match r with
  | String c EmptyString => isASCIIDigit c
  | _ => wideDigit r
  end.

Definition IsLetter (r : string) : bool :=
  match r with
  | String c EmptyString => isASCIILetter c
  | _ => wideLetter r
  end.

Definition readRune (l : Reader) : string * Reader := ReadRune l.

Definition unreadRune (l : Reader) : Reader := UnreadRune l.

(** The loop of [lexWhitespace], with [r] the rune read last. *)
Fixpoint lexWhitespaceLoop (n : nat) (r : string) (l : Reader)
  : option Reader :=
  match n with
  | O => None
  | S n' =>
      if bool_decide (r ∈ [runeOf 32; runeOf 9; runeOf 10; runeOf 13;
                           runeOf 35])
      then
        let l := if bool_decide (r = runeOf 35) then ReadLine l else l in
        let '(r, l) := readRune l in
        lexWhitespaceLoop n' r l
      else Some (unreadRune l)
  end.

Definition lexWhitespace (l : Reader) : option Reader :=
  let n := S (String.length (remaining l)) in
  let '(r, l) := readRune l in
  lexWhitespaceLoop n r l.

(** The loop of [lexIdentifier], with [v] the text gathered so far. *)
Fixpoint lexIdentifierLoop (n : nat) (v : string) (l : Reader)
  : option (string * Reader) :=
  match n with
  | O => None
  | S n' =>
      let '(r, l) := readRune l in
      if negb (IsLetter r) && negb (IsDigit r) then Some (v, unreadRune l)
      else lexIdentifierLoop n' (v ++ r) l
  end.

Definition lexIdentifier (r : string) (l : Reader)
  : option (Token * Reader) :=
  '(v, l) ← lexIdentifierLoop (S (String.length (remaining l))) r l;
  match tableLookup keywords v with
  | Some t => Some (NewToken t v, l)
  | None => Some (NewToken IDENT v, l)
  end.

(** The loop of [lexNumber], with [t] the type and [v] the text so far. *)
Fixpoint lexNumberLoop (n : nat) (t : TokenType) (v : string) (l : Reader)
  : option (Token * Reader) :=
  match n with
  | O => None
  | S n' =>
      let '(r, l) := readRune l in
      if negb (IsDigit r) && negb (bool_decide (r = runeOf 46))
      then Some (NewToken t v, unreadRune l)
      else
        lexNumberLoop n'
          (if bool_decide (r = runeOf 46) then FLOAT else t) (v ++ r) l
  end.

Definition lexNumber (r : string) (l : Reader) : option (Token * Reader) :=
  lexNumberLoop (S (String.length (remaining l))) INT r l.

Definition lexString (_ : string) (l : Reader) : Token * Reader :=
  let '(str, l) := ReadString (ascii_of_nat 34) l in
  (NewToken STRING (TrimRight str (ascii_of_nat 34)), l).

(** [lexSymbol]; [inr] is the token of type [ILLEGAL], whose text is what
    it holds: [Lex] lets no such token out. *)
Definition lexSymbol (r : string) (l : Reader) : (Token + string) * Reader :=
  let singleCharSymbol := r in
  let '(r2, l2) := readRune l in
  let doubleCharSymbol := (singleCharSymbol ++ r2)%string in
  match tableLookup symbols doubleCharSymbol with
  | Some t => (inl (NewToken t doubleCharSymbol), l2)
  | None =>
      let l := unreadRune l2 in
      match tableLookup symbols singleCharSymbol with
      | Some t => (inl (NewToken t singleCharSymbol), l)
      | None => (inr singleCharSymbol, l)
      end
  end.

(** The loop of the goroutine of [Lex], with [tokens] the ones sent so
    far. *)
Fixpoint LexLoop (n : nat) (tokens : list Token) (l : Reader) : LexResult :=
  match n with
  | O => LexOutOfFuel
  | S n' =>
      match lexWhitespace l with
      | None => LexOutOfFuel
      | Some l =>
          let '(r, l) := readRune l in
          if bool_decide (r = runeOf 0) then
            Lexed (tokens ++ [NewToken EOF ""])
          else if bool_decide (r = runeOf 34) then
            let '(token, l) := lexString r l in
            LexLoop n' (tokens ++ [token]) l
          else if IsDigit r then
            match lexNumber r l with
            | Some (token, l) => LexLoop n' (tokens ++ [token]) l
            | None => LexOutOfFuel
            end
          else if IsLetter r then
            match lexIdentifier r l with
            | Some (token, l) => LexLoop n' (tokens ++ [token]) l
            | None => LexOutOfFuel
            end
          else
            match lexSymbol r l with
            | (inl token, l) => LexLoop n' (tokens ++ [token]) l
            | (inr value, _) => InvalidToken tokens value
            end
      end
  end.

(** [Lex]: every turn of the loop but the last consumes input, so the
    length of the input bounds the turns. *)
Definition Lex (l : Reader) : LexResult :=
  LexLoop (S (String.length (remaining l))) [] l.

End Lexing.

(** How a run of the batch mode of [main] ends: in the [log.Fatalf] of the
    lexer, or as [Eval] on a new root scope does. *)
Inductive Ran : Type :=
| InvalidTokenFound (Value : string)
| LexerOutOfFuel
| Evaluates (r : Evaluated).

(** The batch mode of [main], from the text of the source file on: lexer,
    parser and evaluator over a new root scope.  In the sources the three
    run one ahead of the other over channels; here each runs to its end
    first, which differs only in what had been printed before a later
    stage stops the process. *)
Definition main (wideLetter wideDigit : string -> bool)
    (ParseFloat : string -> float) (fuel : nat) (sourceCode : string)
  : Ran :=
  match Lex wideLetter wideDigit (NewLexer sourceCode) with
  | Lexed lexed => Evaluates (Eval ParseFloat fuel lexed (NewScope None) [])
  | InvalidToken _ value => InvalidTokenFound value
  | LexOutOfFuel => LexerOutOfFuel
  end.

(** * The vocabulary of the properties *)

(** The scopes of a chain, innermost first. *)
Fixpoint chain (s : Scope) : list Scope :=
  s :: match parent s with
       | Some up => chain up
       | None => []
       end.

(** A name is bound somewhere in the chain of [s]. *)
Definition boundIn (s : Scope) (name : string) : Prop :=
  Exists (fun s' => is_Some (variables s' !! name)) (chain s).

(** The dynamic type of a value. *)
Inductive Kind : Set :=
| KNil | KBool | KInt64 | KInt | KFloat64 | KString | KSlice | KMap | KFunction.

#[global] Instance Kind_eq_dec : EqDecision Kind.
Proof. solve_decision. Defined.

(** [kindOf v] is the dynamic type a type switch on [v] selects. *)
Definition kindOf (v : any) : Kind :=
  match v with
  | Nil => KNil
  | VBool _ => KBool
  | VInt64 _ => KInt64
  | VInt _ => KInt
  | VFloat64 _ => KFloat64
  | VString _ => KString
  | VSlice _ => KSlice
  | VMap _ => KMap
  | VFunction _ => KFunction
  end.

(** The comparison operators. *)
Definition comparisons : list TokenType := [LT; GT; LEQ; GEQ; EQ; NEQ].

(** The arithmetic operators. *)
Definition arithmetic : list TokenType := [PLUS; MINUS; ASTERISK; SLASH].

(** The value is a host [int]. *)
Definition isVInt (v : any) : Prop := exists n, v = VInt n.

(** The pairs [evalFor] ranges over, by the dynamic type of the subject. *)
Definition rangeOf (subject : any) : list (any * any) :=
  match subject with
  | VString s => rangeString s
  | VSlice items => rangeSlice items
  | VMap entries => entries
  | _ => []
  end.

(** The scope an iteration of a [for] loop runs in. *)
Definition iterationScope (scope : Scope) (key value : Identifier)
    (k v : any) : Scope :=
  SetVariable (SetVariable (NewScope (Some scope)) key k) value v.

(** An operand that leaves the scope and the output alone: an integer
    literal, or a variable. *)
Definition literalOrVariable (e : Expression) : Prop :=
  (exists z, e = EInteger z) \/ (exists x, e = EIdentifier x).

(** The statements [Parse] delivers, when it ends normally. *)
Definition parsedStatements (r : Parsed (list Statement))
  : option (list Statement) :=
  match r with
  | Done (statements, _) => Some statements
  | _ => None
  end.

(** The new scope of a call once the loop over the arguments is over: each
    parameter bound to the value of its argument, in order. *)
Fixpoint bindParameters (parameters : list Identifier) (values : list any)
    (newScope : Scope) : Scope :=
  match values, parameters with
  | value :: values, parameter :: parameters =>
      bindParameters parameters values (SetVariable newScope parameter value)
  | _, _ => newScope
  end.

(** The value and the output of a run, when it ends normally. *)
Definition valueAndOutput (r : Evaluated) : option (any * Stdout) :=
  match r with
  | Done (value, _, out) => Some (value, out)
  | _ => None
  end.

(** Whether a statement contains a reassignment of [name]: a [Variable]
    with [IsNew] false and that name, at any depth, the bodies of the
    functions it declares included. *)
Fixpoint reassigns (name : string) (statement : Statement) : bool :=
  match statement with
  | SVariable target _ isNew =>
      negb isNew && bool_decide (identName target = name)
  | SIf _ consequence alternative =>
      existsb (reassigns name) consequence
      || match alternative with
         | Some alternative => existsb (reassigns name) alternative
         | None => false
         end
  | SWhile _ consequence => existsb (reassigns name) consequence
  | SFor _ _ _ consequence => existsb (reassigns name) consequence
  | SFunction _ _ body => existsb (reassigns name) body
  | SBlock statements => existsb (reassigns name) statements
  | SReturn _ | SExpression _ => false
  end.

Section BlockRuns.

Context (rec : Statement -> Scope -> Stdout -> Evaluated).

(** [runsNil statements s o s' o']: the statements, run in order from scope
    [s] and output [o], each end normally with a nil result (the nil
    statements are passed over), and leave scope [s'] and output [o']. *)
Inductive runsNil : Block -> Scope -> Stdout -> Scope -> Stdout -> Prop :=
| runsNil_done s o : runsNil [] s o s o
| runsNil_skip statement rest s o s' o' :
    isNilStatement statement = true ->
    runsNil rest s o s' o' ->
    runsNil (statement :: rest) s o s' o'
| runsNil_step statement rest s o s1 o1 s' o' :
    isNilStatement statement = false ->
    rec statement s o = Done (Nil, s1, o1) ->
    runsNil rest s1 o1 s' o' ->
    runsNil (statement :: rest) s o s' o'.

End BlockRuns.

Section FrameVocabulary.

(** The names under protection: no statement that runs reassigns them. *)
Context (N : string -> Prop).

(** A statement, or a block, reassigns no protected name. *)
Definition safeStatement (statement : Statement) : Prop :=
  forall m, N m -> reassigns m statement = false.

Definition safeBlock (statements : Block) : Prop :=
  forall m, N m -> existsb (reassigns m) statements = false.

(** Every function registered along the chain has a safe body. *)
Definition functionsSafe (s : Scope) : Prop :=
  Forall (fun s' => forall k f, functions s' !! k = Some (VFunction f) ->
                                safeBlock (Body f))
         (chain s).

(** [frame s s']: the chain [s'] is the chain [s] after some evaluation in a
    scope below it.  Scope by scope, the function table is the same, no
    binding is gone, and a binding differs only for a name that was
    visible from that scope and is not protected. *)
Fixpoint frame (s s' : Scope) {struct s} : Prop :=
  functions s' = functions s
  /\ (forall m, is_Some (variables s !! m) -> is_Some (variables s' !! m))
  /\ (forall m, variables s' !! m = variables s !! m
                \/ (boundIn s m /\ ~ N m))
  /\ match parent s, parent s' with
     | Some up, Some up' => frame up up'
     | None, None => True
     | _, _ => False
     end.

(** The same, for the parents of two scopes. *)
Definition parentsFrame (s s' : Scope) : Prop :=
  match parent s, parent s' with
  | Some up, Some up' => frame up up'
  | None, None => True
  | _, _ => False
  end.

(** What the two dispatchers are to guarantee: a statement run in a scope
    leaves the scopes above it framed and the registered functions safe; an
    expression leaves the scope it is evaluated in framed. *)
Definition StatementSpec
    (rs : Statement -> Scope -> Stdout -> Evaluated) : Prop :=
  forall statement s o v s' o',
    safeStatement statement -> functionsSafe s ->
    rs statement s o = Done (v, s', o') ->
    parentsFrame s s' /\ functionsSafe s'.

Definition ExpressionSpec
    (re : Expression -> Scope -> Stdout -> Evaluated) : Prop :=
  forall e s o v s' o',
    functionsSafe s -> re e s o = Done (v, s', o') -> frame s s'.

End FrameVocabulary.

(** No name under protection. *)
Definition noName : string -> Prop := fun _ => False.

(** The value a literal evaluates to. *)
Definition literalValue (e : Expression) : option any :=
  match e with
  | EBoolean b => Some (VBool b)
  | EInteger z => Some (VInt64 z)
  | EFloat f => Some (VFloat64 f)
  | EString s => Some (VString s)
  | _ => None
  end.

(** The chain [s] with [name] bound to [v] in every scope from which the
    name resolves. *)
Fixpoint assignAll (name : Identifier) (v : any) (s : Scope) : Scope :=
  mkScope (if (GetVariable s name).2
           then <[identName name := v]> (variables s)
           else variables s)
          (functions s)
          (match parent s with
           | Some up => Some (assignAll name v up)
           | None => None
           end).

(** An expression with no call in it. *)
Fixpoint callFree (e : Expression) : bool :=
  match e with
  | ECall _ _ => false
  | EArray items => forallb callFree items
  | EMap items =>
      forallb (fun '(key, value) => callFree key && callFree value) items
  | EIndex index subject => callFree index && callFree subject
  | EUnaryOperation _ operand => callFree operand
  | EBinaryOperation _ lhs rhs => callFree lhs && callFree rhs
  | ELen subject => callFree subject
  | EPrint args _ => forallb callFree args
  | _ => true
  end.

(** An expression with no [print] or [println] in it. *)
Fixpoint printFree (e : Expression) : bool :=
  match e with
  | EPrint _ _ => false
  | EArray items => forallb printFree items
  | EMap items =>
      forallb (fun '(key, value) => printFree key && printFree value) items
  | EIndex index subject => printFree index && printFree subject
  | ECall _ arguments => forallb printFree arguments
  | EUnaryOperation _ operand => printFree operand
  | EBinaryOperation _ lhs rhs => printFree lhs && printFree rhs
  | ELen subject => printFree subject
  | _ => true
  end.

(** What an evaluation function is to guarantee on expressions without a
    call: the scope is left as it was, and so is the output when the
    expression prints nothing. *)
Definition PureSpec
    (re : Expression -> Scope -> Stdout -> Evaluated) : Prop :=
  forall e s o v s' o',
    callFree e = true -> re e s o = Done (v, s', o') ->
    s' = s /\ (printFree e = true -> o' = o).

(** The token types at which neither a statement nor an expression can
    start: the ones [parseStatement] passes on to [parseExpression] and for
    which [parseExpression] has no case. *)
Definition noPrefix : list TokenType :=
  [ NOTYPE; EOF; COMMA; COLON; RPAREN; RBRACKET; RCURLY; ELSE; IN; ASSIGN;
    ASTERISK; SLASH; LT; GT; LEQ; GEQ; EQ; NEQ; OR; AND ].

(** The statements that declare a name in the scope they run in: [var] and
    [fn]. *)
Definition declares (statement : Statement) : bool :=
  match statement with
  | SVariable _ _ true | SFunction _ _ _ => true
  | _ => false
  end.

(** Every entry of every function table along the chain is a function. *)
Definition functionsTyped (s : Scope) : Prop :=
  Forall (fun a => forall k v, functions a !! k = Some v ->
                               exists f, v = VFunction f)
         (chain s).

(** The marks of the identifiers of an expression are as the evaluator
    reads them: an identifier that stands as an expression is not marked as
    a function call, and the identifier of a call is. *)
Fixpoint wellMarked (e : Expression) : bool :=
  match e with
  | EIdentifier identifier => negb (IsFunctionCall identifier)
  | ECall identifier arguments =>
      IsFunctionCall identifier && forallb wellMarked arguments
  | EArray items => forallb wellMarked items
  | EMap items =>
      forallb (fun '(key, value) => wellMarked key && wellMarked value) items
  | EIndex index subject => wellMarked index && wellMarked subject
  | EUnaryOperation _ operand => wellMarked operand
  | EBinaryOperation _ lhs rhs => wellMarked lhs && wellMarked rhs
  | ELen subject => wellMarked subject
  | EPrint args _ => forallb wellMarked args
  | _ => true
  end.

(** The same, of all the expressions of a statement. *)
Fixpoint wellMarkedStatement (statement : Statement) : bool :=
  match statement with
  | SVariable _ value _ => wellMarked value
  | SIf condition consequence alternative =>
      wellMarked condition
      && forallb wellMarkedStatement consequence
      && match alternative with
         | Some alternative => forallb wellMarkedStatement alternative
         | None => true
         end
  | SWhile condition consequence =>
      wellMarked condition && forallb wellMarkedStatement consequence
  | SFor _ _ condition consequence =>
      wellMarked condition && forallb wellMarkedStatement consequence
  | SFunction _ _ body => forallb wellMarkedStatement body
  | SReturn value => wellMarked value
  | SBlock statements => forallb wellMarkedStatement statements
  | SExpression expression => wellMarked expression
  end.

(** The parser with the tokens [ts] ahead of it: the first is the current
    token, the second the peek token, the rest is still to be received. *)
Definition parserAt (es : list ParseError) (ts : list Token) : Parser :=
  mkParser (tl (tl ts)) (hd zeroToken ts) (hd zeroToken (tl ts)) es.

(** The tokens of a list of integer literals, each given with whether a
    comma follows it. *)
Definition literalList (items : list (string * bool)) : list Token :=
  flat_map (fun item : string * bool =>
              NewToken INT item.1
                :: if item.2 then [NewToken COMMA ","] else [])
           items.

(** The expressions these literals are parsed to. *)
Definition literalItems (items : list (string * bool)) : list Expression :=
  map (fun item : string * bool => EInteger (ParseInt item.1)) items.

(** Every byte of a text passes a test. *)
Fixpoint allBytes (P : ascii -> bool) (s : string) : bool :=
  match s with
  | EmptyString => true
  | String c rest => P c && allBytes P rest
  end.

(** The bytes [lexWhitespace] skips one by one: space, tab, newline and
    carriage return. *)
Definition isBlank (c : ascii) : bool :=
  bool_decide (c ∈ [ascii_of_nat 32; ascii_of_nat 9; ascii_of_nat 10;
                    ascii_of_nat 13]).

(** The tokens a lexer result holds, when it is not out of fuel. *)
Definition lexedTokens (r : LexResult) : list Token :=
  match r with
  | Lexed tokens | InvalidToken tokens _ => tokens
  | LexOutOfFuel => []
  end.

(** A lexer result with [tokens] sent ahead of it. *)
Definition sentBefore (tokens : list Token) (r : LexResult) : LexResult :=
  match r with
  | Lexed rest => Lexed (tokens ++ rest)
  | InvalidToken rest value => InvalidToken (tokens ++ rest) value
  | LexOutOfFuel => LexOutOfFuel
  end.

(** The newline and the carriage return. *)
Definition newline : ascii := ascii_of_nat 10.
Definition carriageReturn : ascii := ascii_of_nat 13.

(** A text without newline and carriage return: what is on one line. *)
Definition oneLine (s : string) : bool :=
  allBytes (fun c => negb (bool_decide (c ∈ [newline; carriageReturn]))) s.

(** The double quote, and a text without one. *)
Definition doubleQuote : ascii := ascii_of_nat 34.

Definition noQuote (s : string) : bool :=
  allBytes (fun c => negb (bool_decide (c = doubleQuote))) s.

(** The rune a text starts with, rune 0 for the empty text. *)
Definition firstRune (s : string) : string := (ReadRune (NewLexer s)).1.

(** A byte that is an ASCII letter or digit; one that is an ASCII digit or
    the dot; and whether a text holds a dot. *)
Definition isWordByte (c : ascii) : bool := isASCIILetter c || isASCIIDigit c.

Definition isNumberByte (c : ascii) : bool :=
  isASCIIDigit c || bool_decide (c = ascii_of_nat 46).

Definition hasDot (s : string) : bool :=
  negb (allBytes (fun c => negb (bool_decide (c = ascii_of_nat 46))) s).

(** * Sample programs and scopes *)

(** A program is given by the tokens [Lex] sends for its text, written
    out. *)

(** A stand-in for [strconv.ParseFloat], for running programs that have no
    float literal. *)
Definition noFloatLiterals : string -> float := fun _ => PrimFloat.zero.

(** The identifier the parser makes of the token [IDENT name]. *)
Definition ident (name : string) (isFunctionCall : bool) : Identifier :=
  mkIdentifier (NewToken IDENT name) isFunctionCall.

(** A two-scope chain that binds [a] and [b] but not [x]. *)
Definition sampleChain : Scope :=
  mkScope {[ "a"%string := VInt64 1 ]} ∅
          (Some (mkScope {[ "b"%string := VBool true ]} ∅ None)).

(** The tokens of [(-9223372036854775807 - 1) / -1]. *)
Definition leastOverMinusOne : list Token :=
  [ NewToken LPAREN "("; NewToken MINUS "-";
    NewToken INT "9223372036854775807"; NewToken MINUS "-"; NewToken INT "1";
    NewToken RPAREN ")"; NewToken SLASH "/"; NewToken MINUS "-";
    NewToken INT "1"; NewToken EOF "" ].

(** The tokens of [(1 + 2) * 3], of [1 + 2 * 3] and of [1 - 2 - 3]. *)
Definition parenthesised : list Token :=
  [ NewToken LPAREN "("; NewToken INT "1"; NewToken PLUS "+";
    NewToken INT "2"; NewToken RPAREN ")"; NewToken ASTERISK "*";
    NewToken INT "3"; NewToken EOF "" ].

Definition sumOfProduct : list Token :=
  [ NewToken INT "1"; NewToken PLUS "+"; NewToken INT "2";
    NewToken ASTERISK "*"; NewToken INT "3"; NewToken EOF "" ].

Definition twoDifferences : list Token :=
  [ NewToken INT "1"; NewToken MINUS "-"; NewToken INT "2";
    NewToken MINUS "-"; NewToken INT "3"; NewToken EOF "" ].

(** The parser at the [+] of [1 + 2], the 1 parsed. *)
Definition atPlus : Parser :=
  mkParser [NewToken EOF ""] (NewToken PLUS "+") (NewToken INT "2") [].

(** The tokens of [fn sum(a, b) { return a + b } sum(1, 2)]. *)
Definition sumProgram : list Token :=
  [ NewToken FN "fn"; NewToken IDENT "sum"; NewToken LPAREN "(";
    NewToken IDENT "a"; NewToken COMMA ","; NewToken IDENT "b";
    NewToken RPAREN ")"; NewToken LCURLY "{"; NewToken RETURN "return";
    NewToken IDENT "a"; NewToken PLUS "+"; NewToken IDENT "b";
    NewToken RCURLY "}";
    NewToken IDENT "sum"; NewToken LPAREN "("; NewToken INT "1";
    NewToken COMMA ","; NewToken INT "2"; NewToken RPAREN ")";
    NewToken EOF "" ].

(** [fn sum(a, b) { return a + b }] as the parser delivers it, and the root
    scope once it is declared. *)
Definition sumFunction : Function :=
  mkFunction (ident "sum" true)
    [ident "a" false; ident "b" false]
    [SReturn (EBinaryOperation (NewToken PLUS "+")
                (EIdentifier (ident "a" false))
                (EIdentifier (ident "b" false)))].

Definition sumScope : Scope :=
  SetFunction (NewScope None) (ident "sum" true) (VFunction sumFunction).

(** The tokens of
    [fn fib(n){ if n==1 {return 0} if n==2 {return 1}
                return fib(n-1)+fib(n-2)} fib(3)]. *)
Definition fibProgram : list Token :=
  [ NewToken FN "fn"; NewToken IDENT "fib"; NewToken LPAREN "(";
    NewToken IDENT "n"; NewToken RPAREN ")"; NewToken LCURLY "{";
    NewToken IF "if"; NewToken IDENT "n"; NewToken EQ "=="; NewToken INT "1";
    NewToken LCURLY "{"; NewToken RETURN "return"; NewToken INT "0";
    NewToken RCURLY "}";
    NewToken IF "if"; NewToken IDENT "n"; NewToken EQ "=="; NewToken INT "2";
    NewToken LCURLY "{"; NewToken RETURN "return"; NewToken INT "1";
    NewToken RCURLY "}";
    NewToken RETURN "return";
    NewToken IDENT "fib"; NewToken LPAREN "("; NewToken IDENT "n";
    NewToken MINUS "-"; NewToken INT "1"; NewToken RPAREN ")";
    NewToken PLUS "+";
    NewToken IDENT "fib"; NewToken LPAREN "("; NewToken IDENT "n";
    NewToken MINUS "-"; NewToken INT "2"; NewToken RPAREN ")";
    NewToken RCURLY "}";
    NewToken IDENT "fib"; NewToken LPAREN "("; NewToken INT "3";
    NewToken RPAREN ")"; NewToken EOF "" ].

(** The declaration of [fib] as the parser delivers it. *)
Definition fibFunction : Function :=
  let n := EIdentifier (ident "n" false) in
  let fib (argument : Expression) :=
    ECall (ident "fib" true) [argument] in
  mkFunction (ident "fib" true) [ident "n" false]
    [ SIf (EBinaryOperation (NewToken EQ "==") n (EInteger 1))
          [SReturn (EInteger 0)] None;
      SIf (EBinaryOperation (NewToken EQ "==") n (EInteger 2))
          [SReturn (EInteger 1)] None;
      SReturn
        (EBinaryOperation (NewToken PLUS "+")
           (fib (EBinaryOperation (NewToken MINUS "-") n (EInteger 1)))
           (fib (EBinaryOperation (NewToken MINUS "-") n (EInteger 2)))) ].

(** The tokens of
    [fn f() { while true { if true { return 7 } println(1) } println(2) }
     f()]. *)
Definition returnFromLoop : list Token :=
  [ NewToken FN "fn"; NewToken IDENT "f"; NewToken LPAREN "(";
    NewToken RPAREN ")"; NewToken LCURLY "{";
    NewToken WHILE "while"; NewToken TRUE "true"; NewToken LCURLY "{";
    NewToken IF "if"; NewToken TRUE "true"; NewToken LCURLY "{";
    NewToken RETURN "return"; NewToken INT "7"; NewToken RCURLY "}";
    NewToken PRINTLN "println"; NewToken LPAREN "("; NewToken INT "1";
    NewToken RPAREN ")"; NewToken RCURLY "}";
    NewToken PRINTLN "println"; NewToken LPAREN "("; NewToken INT "2";
    NewToken RPAREN ")"; NewToken RCURLY "}";
    NewToken IDENT "f"; NewToken LPAREN "("; NewToken RPAREN ")";
    NewToken EOF "" ].

(** The tokens of [{ var y = 1 } y], of [var x = 0 { x = x + 1 } x] and of
    [var x = 0 var z = 5 { var y = 1 x = 2 } z]. *)
Definition declaredInBlock : list Token :=
  [ NewToken LCURLY "{"; NewToken VAR "var"; NewToken IDENT "y";
    NewToken ASSIGN "="; NewToken INT "1"; NewToken RCURLY "}";
    NewToken IDENT "y"; NewToken EOF "" ].

Definition reassignedInBlock : list Token :=
  [ NewToken VAR "var"; NewToken IDENT "x"; NewToken ASSIGN "=";
    NewToken INT "0"; NewToken LCURLY "{"; NewToken IDENT "x";
    NewToken ASSIGN "="; NewToken IDENT "x"; NewToken PLUS "+";
    NewToken INT "1"; NewToken RCURLY "}"; NewToken IDENT "x";
    NewToken EOF "" ].

Definition untouchedByBlock : list Token :=
  [ NewToken VAR "var"; NewToken IDENT "x"; NewToken ASSIGN "=";
    NewToken INT "0"; NewToken VAR "var"; NewToken IDENT "z";
    NewToken ASSIGN "="; NewToken INT "5"; NewToken LCURLY "{";
    NewToken VAR "var"; NewToken IDENT "y"; NewToken ASSIGN "=";
    NewToken INT "1"; NewToken IDENT "x"; NewToken ASSIGN "=";
    NewToken INT "2"; NewToken RCURLY "}"; NewToken IDENT "z";
    NewToken EOF "" ].

(** A root scope that declares [x], and a block that reassigns it, run on
    the embedding; [y] is bound by neither. *)
Definition rootWithX : Scope :=
  mkScope {[ "x"%string := VInt64 0 ]} ∅ None.

(** The tokens of [var x = 0 { var x = 1 { x = 2 } } x], of
    [var x = 0 { var y = 5 x = y } x] and of
    [var x = 0 { x = println(7) }]. *)
Definition shadowedReassigned : list Token :=
  [ NewToken VAR "var"; NewToken IDENT "x"; NewToken ASSIGN "=";
    NewToken INT "0"; NewToken LCURLY "{";
    NewToken VAR "var"; NewToken IDENT "x"; NewToken ASSIGN "=";
    NewToken INT "1"; NewToken LCURLY "{";
    NewToken IDENT "x"; NewToken ASSIGN "="; NewToken INT "2";
    NewToken RCURLY "}"; NewToken RCURLY "}"; NewToken IDENT "x";
    NewToken EOF "" ].

Definition reassignedFromLocal : list Token :=
  [ NewToken VAR "var"; NewToken IDENT "x"; NewToken ASSIGN "=";
    NewToken INT "0"; NewToken LCURLY "{";
    NewToken VAR "var"; NewToken IDENT "y"; NewToken ASSIGN "=";
    NewToken INT "5";
    NewToken IDENT "x"; NewToken ASSIGN "="; NewToken IDENT "y";
    NewToken RCURLY "}"; NewToken IDENT "x"; NewToken EOF "" ].

Definition reassignedToPrint : list Token :=
  [ NewToken VAR "var"; NewToken IDENT "x"; NewToken ASSIGN "=";
    NewToken INT "0"; NewToken LCURLY "{";
    NewToken IDENT "x"; NewToken ASSIGN "="; NewToken PRINTLN "println";
    NewToken LPAREN "("; NewToken INT "7"; NewToken RPAREN ")";
    NewToken RCURLY "}"; NewToken EOF "" ].

(** A chain of two scopes that both bind [x], under an empty one. *)
Definition shadowingChain : Scope :=
  mkScope ∅ ∅
    (Some (mkScope {[ "x"%string := VInt64 1 ]} ∅
             (Some (mkScope {[ "x"%string := VInt64 0 ]} ∅ None)))).

(** A string literal of the language: [text] between two double quotes. *)
Definition quoted (text : string) : string :=
  String (ascii_of_nat 34) (text ++ String (ascii_of_nat 34) EmptyString).

(** The source text of [TestEval]. *)
Definition fibonacciSource : string :=
  String.concat (String (ascii_of_nat 10) EmptyString)
    [ "fn fibonacci(n) {";
      "					if n == 1 {";
      "						return 0";
      "					}";
      "					if n == 2 {";
      "						return 1";
      "					}";
      "					return fibonacci(n-1) + fibonacci(n-2)";
      "				}	";
      "				fibonacci(3)		";
      "			" ]%string.

(** No rune beyond ASCII is a letter or a digit. *)
Definition asciiOnly : string -> bool := fun _ => false.

(** A text of [n] times the byte [c]. *)
Fixpoint repeatByte (n : nat) (c : ascii) : string :=
  match n with
  | O => EmptyString
  | S n' => String c (repeatByte n' c)
  end.

(** The body of [fn g() { sum(1, 2)  return 5 }]. *)
Definition callThenReturn : Block :=
  [ SExpression (ECall (ident "sum" true) [EInteger 1; EInteger 2]);
    SReturn (EInteger 5) ].

(** The body of [fn h() { return x  return 5 }]. *)
Definition returnUnbound : Block :=
  [ SReturn (EIdentifier (ident "x" false)); SReturn (EInteger 5) ].

(** The tokens of [for k, v in [5] { return k }], of
    [for k, v in [5] { return k + 1 }], of
    [for i, c in "ab" { return 0 == i }] and of [len("abc") == 3]. *)
Definition keyReturned : list Token :=
  [ NewToken FOR "for"; NewToken IDENT "k"; NewToken COMMA ",";
    NewToken IDENT "v"; NewToken IN "in"; NewToken LBRACKET "[";
    NewToken INT "5"; NewToken RBRACKET "]"; NewToken LCURLY "{";
    NewToken RETURN "return"; NewToken IDENT "k"; NewToken RCURLY "}";
    NewToken EOF "" ].

Definition keyPlusOne : list Token :=
  [ NewToken FOR "for"; NewToken IDENT "k"; NewToken COMMA ",";
    NewToken IDENT "v"; NewToken IN "in"; NewToken LBRACKET "[";
    NewToken INT "5"; NewToken RBRACKET "]"; NewToken LCURLY "{";
    NewToken RETURN "return"; NewToken IDENT "k"; NewToken PLUS "+";
    NewToken INT "1"; NewToken RCURLY "}"; NewToken EOF "" ].

Definition offsetCompared : list Token :=
  [ NewToken FOR "for"; NewToken IDENT "i"; NewToken COMMA ",";
    NewToken IDENT "c"; NewToken IN "in"; NewToken STRING "ab";
    NewToken LCURLY "{"; NewToken RETURN "return"; NewToken INT "0";
    NewToken EQ "=="; NewToken IDENT "i"; NewToken RCURLY "}";
    NewToken EOF "" ].

Definition lenCompared : list Token :=
  [ NewToken LEN "len"; NewToken LPAREN "("; NewToken STRING "abc";
    NewToken RPAREN ")"; NewToken EQ "=="; NewToken INT "3";
    NewToken EOF "" ].

(** * Properties *)

(** ** Reasoning principles *)

Lemma evalStatement_S fuel statement scope out :
  evalStatement (S fuel) statement scope out =
  evalStatementBody (evalStatement fuel) (evalExpression fuel) fuel
    statement scope out.
Proof. reflexivity. Qed.

Lemma evalExpression_S fuel expression scope out :
  evalExpression (S fuel) expression scope out =
  evalExpressionBody (evalStatement fuel) (evalExpression fuel)
    expression scope out.
Proof. reflexivity. Qed.

(** Induction along the parent links of a scope. *)
Lemma Scope_chain_ind (P : Scope -> Prop) :
  (forall vs fs, P (mkScope vs fs None)) ->
  (forall vs fs up, P up -> P (mkScope vs fs (Some up))) ->
  forall s, P s.
Proof.
  intros Hroot Hstep. fix IH 1. intros [vs fs [up|]].
  - apply Hstep, IH.
  - apply Hroot.
Qed.

Lemma GetVariable_ok_iff s identifier :
  (GetVariable s identifier).2 = true <-> boundIn s (identName identifier).
Proof.
  unfold boundIn. induction s as [vs fs|vs fs up IH] using Scope_chain_ind;
    simpl.
  - destruct (vs !! identName identifier) as [v|] eqn:E; simpl.
    + split; [|done]. intros _. apply Exists_cons_hd. simpl. rewrite E. eauto.
    + split; [done|]. intros H. inversion H as [? ? [v Hv]|? ? H']; subst.
      * simpl in Hv. congruence.
      * inversion H'.
  - destruct (vs !! identName identifier) as [v|] eqn:E; simpl.
    + split; [|done]. intros _. apply Exists_cons_hd. simpl. rewrite E. eauto.
    + rewrite IH. split.
      * intros H. apply Exists_cons_tl. exact H.
      * intros H. inversion H as [? ? [v Hv]|? ? H']; subst; [|exact H'].
        simpl in Hv. congruence.
Qed.

Lemma GetVariable_unbound s identifier :
  Forall (fun s' => variables s' !! identName identifier = None) (chain s) ->
  GetVariable s identifier = (Nil, false).
Proof.
  induction s as [vs fs|vs fs up IH] using Scope_chain_ind; simpl;
    intros H; inversion H as [|? ? Hhd Htl]; subst; simpl in Hhd;
    rewrite Hhd; auto.
Qed.

(** ** Identifiers *)

(** C10. An identifier that is not in call position and whose name no scope
    of the chain binds evaluates to nil: the evaluation ends normally, and
    the scope chain and the standard output are what they were. *)
Theorem C10_unbound_identifier_is_nil :
  forall (fuel : nat) (identifier : Identifier) (scope : Scope) (out : Stdout),
    IsFunctionCall identifier = false ->
    Forall (fun s => variables s !! identName identifier = None)
           (chain scope) ->
    evalExpression (S fuel) (EIdentifier identifier) scope out
    = Done (Nil, scope, out).
Proof.
  intros fuel identifier scope out Hcall Hunbound.
  rewrite evalExpression_S. simpl. unfold evalIdentifier. rewrite Hcall.
  rewrite (GetVariable_unbound _ _ Hunbound). reflexivity.
Qed.

Lemma C10_unbound_identifier_is_nil_witness :
  evalExpression 1 (EIdentifier (mkIdentifier (NewToken IDENT "x") false))
    sampleChain []
  = Done (Nil, sampleChain, []).
Proof.
  apply (C10_unbound_identifier_is_nil 0
           (mkIdentifier (NewToken IDENT "x") false) sampleChain []).
  - reflexivity.
  - repeat constructor.
Defined.

(** ** Binary operations *)

Lemma evalBinaryOperation_left fuel token lhs rhs scope out lv s1 o1 :
  evalExpression fuel lhs scope out = Done (lv, s1, o1) ->
  evalExpression (S fuel) (EBinaryOperation token lhs rhs) scope out =
  match lv with
  | VBool l =>
      '(r, scope, out) ← evalExpression fuel rhs s1 o1;
      match r with
      | VBool r => Done (evalBinaryOperationBoolBool l r token, scope, out)
      | _ => Done (Nil, scope, out)
      end
  | VInt64 l =>
      '(r, scope, out) ← evalExpression fuel rhs s1 o1;
      match r with
      | VInt64 r =>
          v ← evalBinaryOperationIntInt l r token; Done (v, scope, out)
      | VFloat64 r => Done (evalBinaryOperationIntFloat l r token, scope, out)
      | _ => Done (Nil, scope, out)
      end
  | VFloat64 l =>
      '(r, scope, out) ← evalExpression fuel rhs s1 o1;
      match r with
      | VInt64 r => Done (evalBinaryOperationFloatInt l r token, scope, out)
      | VFloat64 r =>
          Done (evalBinaryOperationFloatFloat l r token, scope, out)
      | _ => Done (Nil, scope, out)
      end
  | VString l =>
      '(r, scope, out) ← evalExpression fuel rhs s1 o1;
      match r with
      | VString r =>
          Done (evalBinaryOperationStringString l r token, scope, out)
      | _ => Done (Nil, scope, out)
      end
  | _ => Done (Nil, s1, o1)
  end.
Proof.
  intros Hl. rewrite evalExpression_S. simpl. unfold evalBinaryOperation.
  rewrite Hl. reflexivity.
Qed.

Lemma promote_left (l : Z) (r : float) (token : Token) :
  evalBinaryOperationIntFloat l r token
  = evalBinaryOperationFloatFloat (float64 l) r token.
Proof.
  unfold evalBinaryOperationIntFloat, evalBinaryOperationFloatFloat.
  destruct (Token_Type token); reflexivity.
Qed.

Lemma promote_right (l : float) (r : Z) (token : Token) :
  evalBinaryOperationFloatInt l r token
  = evalBinaryOperationFloatFloat l (float64 r) token.
Proof.
  unfold evalBinaryOperationFloatInt, evalBinaryOperationFloatFloat.
  destruct (Token_Type token); reflexivity.
Qed.

(** Closes a goal from a membership [H : x ∈ [a; b; ...]] that no element
    of the list satisfies. *)
Ltac elem_of_contra H :=
  exfalso;
  repeat (apply elem_of_cons in H as [H|H]; [discriminate H|]);
  apply elem_of_nil in H; exact H.

(** Proves a membership [x ∈ [a; b; ...]] by finding [x] in the list. *)
Ltac elem_of_find :=
  repeat first [apply list_elem_of_here | apply list_elem_of_further].

(** C2. A binary operation evaluates its left operand and dispatches on the
    dynamic types of the two operands.  If the left value is not a bool, an
    int64, a float64 or a string, the result is nil and the right operand
    is not evaluated.  Otherwise the right operand is evaluated next, and:
    bool with bool, int64 with int64, float64 with float64 and string with
    string go to the operator table of that pair; int64 with float64 and
    float64 with int64 give what the float64 table gives once the integer
    is converted; every other pair gives nil.  In no case is anything
    printed beyond what the operands print, and the only pair that can
    panic is int64 with int64 (division).  The last four conjuncts say which
    operators each table knows: [==], [!=], [or], [and] for bools, the
    comparisons and the arithmetic operators for numbers, [+] for
    strings. *)
Theorem C2_binary_operation_dispatch :
  (forall (fuel : nat) (token : Token) (lhs rhs : Expression)
          (scope : Scope) (out : Stdout) (lv : any) (s1 : Scope) (o1 : Stdout),
      evalExpression fuel lhs scope out = Done (lv, s1, o1) ->
      (kindOf lv ∉ [KBool; KInt64; KFloat64; KString] ->
       evalExpression (S fuel) (EBinaryOperation token lhs rhs) scope out
       = Done (Nil, s1, o1))
      /\
      (forall (rv : any) (s2 : Scope) (o2 : Stdout),
          kindOf lv ∈ [KBool; KInt64; KFloat64; KString] ->
          evalExpression fuel rhs s1 o1 = Done (rv, s2, o2) ->
          evalExpression (S fuel) (EBinaryOperation token lhs rhs) scope out
          = match lv, rv with
            | VBool l, VBool r =>
                Done (evalBinaryOperationBoolBool l r token, s2, o2)
            | VInt64 l, VInt64 r =>
                v ← evalBinaryOperationIntInt l r token; Done (v, s2, o2)
            | VInt64 l, VFloat64 r =>
                Done (evalBinaryOperationFloatFloat (float64 l) r token, s2, o2)
            | VFloat64 l, VInt64 r =>
                Done (evalBinaryOperationFloatFloat l (float64 r) token, s2, o2)
            | VFloat64 l, VFloat64 r =>
                Done (evalBinaryOperationFloatFloat l r token, s2, o2)
            | VString l, VString r =>
                Done (evalBinaryOperationStringString l r token, s2, o2)
            | _, _ => Done (Nil, s2, o2)
            end))
  /\ (forall l r token,
         evalBinaryOperationBoolBool l r token <> Nil
         <-> Token_Type token ∈ [EQ; NEQ; OR; AND])
  /\ (forall l r token,
         evalBinaryOperationIntInt l r token <> Done Nil
         <-> Token_Type token ∈ comparisons ++ arithmetic)
  /\ (forall l r token,
         evalBinaryOperationFloatFloat l r token <> Nil
         <-> Token_Type token ∈ comparisons ++ arithmetic)
  /\ (forall l r token,
         evalBinaryOperationStringString l r token <> Nil
         <-> Token_Type token = PLUS).
Proof.
  split; [|split; [|split; [|split]]].
  - intros fuel token lhs rhs scope out lv s1 o1 Hl. split.
    + intros Hkind. rewrite (evalBinaryOperation_left _ _ _ _ _ _ _ _ _ Hl).
      destruct lv; try reflexivity; exfalso; apply Hkind; simpl;
        elem_of_find.
    + intros rv s2 o2 Hkind Hr.
      rewrite (evalBinaryOperation_left _ _ _ _ _ _ _ _ _ Hl).
      destruct lv; simpl in Hkind; try (elem_of_contra Hkind);
        rewrite Hr; simpl; destruct rv; reflexivity.
  - intros l r token. unfold evalBinaryOperationBoolBool.
    destruct (Token_Type token); split; intros H;
      try congruence; try discriminate; try (by elem_of_find);
      elem_of_contra H.
  - intros l r token. unfold evalBinaryOperationIntInt, comparisons, arithmetic.
    destruct (Token_Type token); simpl; split; intros H;
      try congruence; try discriminate; try (by elem_of_find);
      try (elem_of_contra H).
    destruct (r =? 0); discriminate.
  - intros l r token.
    unfold evalBinaryOperationFloatFloat, comparisons, arithmetic.
    destruct (Token_Type token); simpl; split; intros H;
      try congruence; try discriminate; try (by elem_of_find);
      elem_of_contra H.
  - intros l r token. unfold evalBinaryOperationStringString.
    destruct (Token_Type token); split; intros H;
      try congruence; try discriminate.
Qed.

Lemma C2_binary_operation_dispatch_witness :
  evalExpression 1 (EInteger 1) (NewScope None) []
  = Done (VInt64 1, NewScope None, [])
  /\ evalExpression 1 (EFloat 2.5) (NewScope None) []
     = Done (VFloat64 2.5, NewScope None, [])
  /\ evalExpression 2
       (EBinaryOperation (NewToken PLUS "+") (EInteger 1) (EFloat 2.5))
       (NewScope None) []
     = Done (VFloat64 3.5, NewScope None, []).
Proof.
  split; [reflexivity|]. split; [reflexivity|].
  apply (proj2 (proj1 C2_binary_operation_dispatch 1%nat (NewToken PLUS "+")
                  (EInteger 1) (EFloat 2.5) (NewScope None) []
                  (VInt64 1) (NewScope None) [] eq_refl)
           (VFloat64 2.5) (NewScope None) []).
  - simpl. elem_of_find.
  - reflexivity.
Defined.

(** ** The host [int] *)

Lemma rangeSliceFrom_keys index items :
  Forall (fun kv => isVInt kv.1) (rangeSliceFrom index items).
Proof.
  revert index. induction items as [|item rest IH]; intros index; simpl.
  - constructor.
  - constructor; [exists index; reflexivity | apply IH].
Qed.

Lemma rangeStringFrom_keys fuel offset s :
  Forall (fun kv => isVInt kv.1) (rangeStringFrom fuel offset s).
Proof.
  revert offset s. induction fuel as [|fuel IH]; intros offset s; simpl.
  - constructor.
  - destruct s as [|c rest]; [constructor|].
    constructor; [exists offset; reflexivity | apply IH].
Qed.

Lemma evalFor_range fuel key value condition consequence scope out
      subject s1 o1 :
  evalExpression fuel condition scope out = Done (subject, s1, o1) ->
  evalStatement (S fuel) (SFor key value condition consequence) scope out
  = evalForRange (evalStatement fuel) (rangeOf subject) key value
      consequence s1 o1.
Proof.
  intros Hc. rewrite evalStatement_S. simpl. unfold evalFor. rewrite Hc.
  simpl. destruct subject; reflexivity.
Qed.

Lemma evalForRange_cons rec k v rest key value consequence scope out :
  evalForRange rec ((k, v) :: rest) key value consequence scope out
  = '(result, scope, out) ←
      evalBlockIn rec consequence (iterationScope scope key value k v)
        scope out;
    if isNil result then evalForRange rec rest key value consequence scope out
    else Done (result, scope, out).
Proof. reflexivity. Qed.

Lemma iterationScope_key scope key value k v :
  identName key <> identName value ->
  GetVariable (iterationScope scope key value k v) key = (k, true).
Proof.
  intros Hne. unfold iterationScope, SetVariable, NewScope. simpl.
  rewrite lookup_insert_ne by congruence. rewrite lookup_insert_eq.
  reflexivity.
Qed.

Lemma literalOrVariable_eval fuel e scope out :
  literalOrVariable e ->
  exists v, evalExpression (S fuel) e scope out = Done (v, scope, out).
Proof.
  intros [[z ->]|[x ->]]; rewrite evalExpression_S; simpl.
  - eauto.
  - unfold evalIdentifier. destruct (IsFunctionCall x); eauto.
Qed.

Lemma evalLen_int fuel subject scope out v s1 o1 :
  evalExpression fuel subject scope out = Done (v, s1, o1) ->
  kindOf v ∈ [KString; KSlice; KMap] ->
  exists n, evalExpression (S fuel) (ELen subject) scope out
            = Done (VInt n, s1, o1).
Proof.
  intros Hs Hkind. rewrite evalExpression_S. simpl. unfold evalLen.
  rewrite Hs. simpl.
  destruct v; simpl in Hkind; try (elem_of_contra Hkind); eauto.
Qed.

Lemma binary_left_int fuel token lhs rhs scope out n s1 o1 :
  evalExpression fuel lhs scope out = Done (VInt n, s1, o1) ->
  evalExpression (S fuel) (EBinaryOperation token lhs rhs) scope out
  = Done (Nil, s1, o1).
Proof.
  intros Hl. rewrite (evalBinaryOperation_left _ _ _ _ _ _ _ _ _ Hl).
  reflexivity.
Qed.

Lemma binary_right_int fuel token lhs rhs scope out n lv s1 o1 s2 o2 :
  evalExpression fuel lhs scope out = Done (lv, s1, o1) ->
  evalExpression fuel rhs s1 o1 = Done (VInt n, s2, o2) ->
  exists s o,
    evalExpression (S fuel) (EBinaryOperation token lhs rhs) scope out
    = Done (Nil, s, o).
Proof.
  intros Hl Hr. rewrite (evalBinaryOperation_left _ _ _ _ _ _ _ _ _ Hl).
  destruct lv; try rewrite Hr; simpl; eauto.
Qed.

Lemma rangeOf_first subject k v rest :
  kindOf subject ∈ [KString; KSlice] ->
  rangeOf subject = (k, v) :: rest -> k = VInt 0.
Proof.
  intros Hkind H.
  destruct subject as [| | | | |text|items| |]; simpl in Hkind;
    try (elem_of_contra Hkind); simpl in H.
  - unfold rangeString in H. destruct text as [|c text]; simpl in H;
      [discriminate|]. injection H as <- _ _. reflexivity.
  - unfold rangeSlice in H. destruct items as [|item items]; simpl in H;
      [discriminate|]. injection H as <- _ _. reflexivity.
Qed.

Lemma rangeOf_keys subject :
  kindOf subject ∈ [KString; KSlice] ->
  Forall (fun kv => isVInt kv.1) (rangeOf subject).
Proof.
  intros Hkind.
  destruct subject; simpl in Hkind; try (elem_of_contra Hkind); simpl.
  - apply rangeStringFrom_keys.
  - apply rangeSliceFrom_keys.
Qed.

Lemma popScope_iterationScope scope key value k v :
  popScope (iterationScope scope key value k v) scope = scope.
Proof. reflexivity. Qed.

(** The key variable read in the scope of an iteration. *)
Lemma key_in_iteration fuel key value scope k v out :
  identName key <> identName value -> IsFunctionCall key = false ->
  evalExpression (S fuel) (EIdentifier key)
    (iterationScope scope key value k v) out
  = Done (k, iterationScope scope key value k v, out).
Proof.
  intros Hne Hcall. rewrite evalExpression_S. cbn [evalExpressionBody].
  unfold evalIdentifier. rewrite Hcall.
  rewrite (iterationScope_key scope key value k v Hne). reflexivity.
Qed.

Lemma binary_right_int_here fuel token lhs rhs scope out n lv :
  evalExpression fuel lhs scope out = Done (lv, scope, out) ->
  evalExpression fuel rhs scope out = Done (VInt n, scope, out) ->
  evalExpression (S fuel) (EBinaryOperation token lhs rhs) scope out
  = Done (Nil, scope, out).
Proof.
  intros Hl Hr. rewrite (evalBinaryOperation_left _ _ _ _ _ _ _ _ _ Hl).
  destruct lv; try rewrite Hr; reflexivity.
Qed.

(** The key of an iteration next to a literal or a variable, on either
    side of an operator. *)
Lemma key_operand_nil fuel token key value b scope n v out :
  identName key <> identName value -> IsFunctionCall key = false ->
  literalOrVariable b ->
  evalExpression (S (S fuel)) (EBinaryOperation token (EIdentifier key) b)
    (iterationScope scope key value (VInt n) v) out
  = Done (Nil, iterationScope scope key value (VInt n) v, out)
  /\ evalExpression (S (S fuel)) (EBinaryOperation token b (EIdentifier key))
       (iterationScope scope key value (VInt n) v) out
     = Done (Nil, iterationScope scope key value (VInt n) v, out).
Proof.
  intros Hne Hcall Hb.
  pose proof (key_in_iteration fuel key value scope (VInt n) v out Hne Hcall)
    as Hkey.
  split.
  - exact (binary_left_int _ _ _ _ _ _ _ _ _ Hkey).
  - destruct (literalOrVariable_eval fuel b
                (iterationScope scope key value (VInt n) v) out Hb)
      as [lv Hlv].
    exact (binary_right_int_here _ _ _ _ _ _ _ _ Hlv Hkey).
Qed.

(** A loop whose body is one [return] of an expression that is nil in
    every iteration runs through all the pairs and ends with nil. *)
Lemma evalForRange_return_nil rec pairs key value e scope out :
  Forall (fun kv =>
            rec (SReturn e) (iterationScope scope key value kv.1 kv.2) out
            = Done (Nil, iterationScope scope key value kv.1 kv.2, out))
         pairs ->
  evalForRange rec pairs key value [SReturn e] scope out
  = Done (Nil, scope, out).
Proof.
  induction 1 as [|[k v] rest Hhead _ IH]; [reflexivity|].
  rewrite evalForRange_cons. unfold evalBlockIn.
  cbn [evalBlock isNilStatement]. simpl in Hhead. rewrite Hhead.
  cbn [mbind Outcome_bind isNil evalBlock].
  rewrite popScope_iterationScope. exact IH.
Qed.

Lemma for_returns_first_key fuel key value condition scope out subject
      s1 o1 :
  evalExpression (S (S fuel)) condition scope out = Done (subject, s1, o1) ->
  kindOf subject ∈ [KString; KSlice] -> rangeOf subject <> [] ->
  identName key <> identName value -> IsFunctionCall key = false ->
  evalStatement (S (S (S fuel)))
    (SFor key value condition [SReturn (EIdentifier key)]) scope out
  = Done (VInt 0, s1, o1).
Proof.
  intros Hc Hkind Hsome Hne Hcall. rewrite (evalFor_range _ _ _ _ _ _ _ _ _ _ Hc).
  destruct (rangeOf subject) as [|[k v] rest] eqn:R; [contradiction|].
  pose proof (rangeOf_first _ _ _ _ Hkind R) as ->.
  rewrite evalForRange_cons. unfold evalBlockIn.
  cbn [evalBlock isNilStatement]. rewrite evalStatement_S.
  cbn [evalStatementBody]. unfold evalReturn.
  rewrite key_in_iteration by assumption. reflexivity.
Qed.

Lemma for_key_operand_nil fuel token key value condition b scope out
      subject s1 o1 e :
  evalExpression (S (S (S fuel))) condition scope out
  = Done (subject, s1, o1) ->
  kindOf subject ∈ [KString; KSlice] ->
  identName key <> identName value -> IsFunctionCall key = false ->
  literalOrVariable b ->
  e = EBinaryOperation token (EIdentifier key) b
  \/ e = EBinaryOperation token b (EIdentifier key) ->
  evalStatement (S (S (S (S fuel))))
    (SFor key value condition [SReturn e]) scope out
  = Done (Nil, s1, o1).
Proof.
  intros Hc Hkind Hne Hcall Hb He.
  rewrite (evalFor_range _ _ _ _ _ _ _ _ _ _ Hc).
  apply evalForRange_return_nil.
  eapply Forall_impl; [exact (rangeOf_keys subject Hkind)|].
  intros [k v] [n Hk]. cbn [fst snd] in *. subst k.
  rewrite evalStatement_S. cbn [evalStatementBody]. unfold evalReturn.
  destruct (key_operand_nil fuel token key value b s1 n v o1 Hne Hcall Hb)
    as [Hleft Hright].
  destruct He as [-> | ->]; assumption.
Qed.

(** C9. An integer literal evaluates to an int64.  [len] of a string, an
    array or a map evaluates to a host int.  A [for] loop over a string or
    an array runs its body once for each pair of the range, in a new scope
    under the loop's own in which the key variable is bound to the key of
    the pair, a host int (and reads back as that int, the key and the value
    variable having different names), until an iteration yields a value
    other than nil: so a loop over a non-empty subject whose body is
    [return key] yields the host int 0, the first key.  A binary operation
    with a host int as its left operand is nil without a look at the right
    operand, and one whose right operand is a host int is nil whatever the
    left operand is; so an expression that combines such a value, in either
    position and under any operator, with an integer literal or a variable
    evaluates to nil, with no panic, and a loop whose body returns the key
    so combined runs through the whole range and yields nil.  The four
    programs above yield the host int 0, nil, nil and nil. *)
Theorem C9_host_int_yields_nil :
  (forall fuel z scope out,
      evalExpression (S fuel) (EInteger z) scope out
      = Done (VInt64 z, scope, out))
  /\ (forall fuel subject scope out v s1 o1,
         evalExpression fuel subject scope out = Done (v, s1, o1) ->
         kindOf v ∈ [KString; KSlice; KMap] ->
         exists n, evalExpression (S fuel) (ELen subject) scope out
                   = Done (VInt n, s1, o1))
  /\ (forall fuel key value condition consequence scope out subject s1 o1,
         evalExpression fuel condition scope out = Done (subject, s1, o1) ->
         kindOf subject ∈ [KString; KSlice] ->
         evalStatement (S fuel) (SFor key value condition consequence)
           scope out
         = evalForRange (evalStatement fuel) (rangeOf subject) key value
             consequence s1 o1
         /\ Forall (fun kv =>
                      isVInt kv.1 /\
                      forall s, identName key <> identName value ->
                                GetVariable
                                  (iterationScope s key value kv.1 kv.2) key
                                = (kv.1, true))
                   (rangeOf subject))
  /\ (forall fuel token lhs rhs scope out n s1 o1,
         evalExpression fuel lhs scope out = Done (VInt n, s1, o1) ->
         evalExpression (S fuel) (EBinaryOperation token lhs rhs) scope out
         = Done (Nil, s1, o1))
  /\ (forall fuel token lhs rhs scope out n lv s1 o1 s2 o2,
         evalExpression fuel lhs scope out = Done (lv, s1, o1) ->
         evalExpression fuel rhs s1 o1 = Done (VInt n, s2, o2) ->
         exists s o,
           evalExpression (S fuel) (EBinaryOperation token lhs rhs) scope out
           = Done (Nil, s, o))
  /\ (forall fuel token a b scope out n s1 o1,
         literalOrVariable b ->
         evalExpression (S fuel) a scope out = Done (VInt n, s1, o1) ->
         evalExpression (S (S fuel)) (EBinaryOperation token a b) scope out
         = Done (Nil, s1, o1)
         /\ exists s o,
             evalExpression (S (S fuel)) (EBinaryOperation token b a)
               scope out
             = Done (Nil, s, o))
  /\ (forall rec key value consequence scope out,
         evalForRange rec [] key value consequence scope out
         = Done (Nil, scope, out)
         /\ forall k v rest,
             evalForRange rec ((k, v) :: rest) key value consequence
               scope out
             = '(result, scope, out) ←
                 evalBlockIn rec consequence
                   (iterationScope scope key value k v) scope out;
               if isNil result
               then evalForRange rec rest key value consequence scope out
               else Done (result, scope, out))
  /\ (forall fuel key value scope k v out,
         identName key <> identName value -> IsFunctionCall key = false ->
         evalExpression (S fuel) (EIdentifier key)
           (iterationScope scope key value k v) out
         = Done (k, iterationScope scope key value k v, out))
  /\ (forall fuel key value condition scope out subject s1 o1,
         evalExpression (S (S fuel)) condition scope out
         = Done (subject, s1, o1) ->
         kindOf subject ∈ [KString; KSlice] -> rangeOf subject <> [] ->
         identName key <> identName value -> IsFunctionCall key = false ->
         evalStatement (S (S (S fuel)))
           (SFor key value condition [SReturn (EIdentifier key)]) scope out
         = Done (VInt 0, s1, o1))
  /\ (forall fuel token key value condition b scope out subject s1 o1,
         evalExpression (S (S (S fuel))) condition scope out
         = Done (subject, s1, o1) ->
         kindOf subject ∈ [KString; KSlice] ->
         identName key <> identName value -> IsFunctionCall key = false ->
         literalOrVariable b ->
         evalStatement (S (S (S (S fuel))))
           (SFor key value condition
              [SReturn (EBinaryOperation token (EIdentifier key) b)])
           scope out
         = Done (Nil, s1, o1)
         /\ evalStatement (S (S (S (S fuel))))
              (SFor key value condition
                 [SReturn (EBinaryOperation token b (EIdentifier key))])
              scope out
            = Done (Nil, s1, o1))
  /\ (forall ParseFloat,
         valueAndOutput (Eval ParseFloat 10 keyReturned (NewScope None) [])
         = Some (VInt 0, [])
         /\ valueAndOutput
              (Eval ParseFloat 10 keyPlusOne (NewScope None) [])
            = Some (Nil, [])
         /\ valueAndOutput
              (Eval ParseFloat 10 offsetCompared (NewScope None) [])
            = Some (Nil, [])
         /\ valueAndOutput
              (Eval ParseFloat 10 lenCompared (NewScope None) [])
            = Some (Nil, [])).
Proof.
  split; [reflexivity|]. split; [exact evalLen_int|].
  split; [|split; [exact binary_left_int|split; [exact binary_right_int|]]].
  - intros fuel key value condition consequence scope out subject s1 o1
           Hc Hkind.
    split; [exact (evalFor_range _ _ _ _ _ _ _ _ _ _ Hc)|].
    eapply Forall_impl; [exact (rangeOf_keys subject Hkind)|].
    intros [k v] Hk. simpl in *.
    split; [exact Hk|]. intros s Hne. apply iterationScope_key. exact Hne.
  - repeat apply conj.
    + intros fuel token a b scope out n s1 o1 Hb Ha. split.
      * exact (binary_left_int _ _ _ _ _ _ _ _ _ Ha).
      * destruct (literalOrVariable_eval fuel b scope out Hb) as [v Hv].
        exact (binary_right_int _ _ _ _ _ _ _ _ _ _ _ _ Hv Ha).
    + intros rec key value consequence scope out.
      split; [reflexivity|]. intros k v rest. apply evalForRange_cons.
    + exact key_in_iteration.
    + exact for_returns_first_key.
    + intros fuel token key value condition b scope out subject s1 o1
             Hc Hkind Hne Hcall Hb.
      split; eapply for_key_operand_nil; eauto.
    + intros ParseFloat. repeat apply conj; vm_compute; reflexivity.
Qed.

(** [len("abc") == 3], the operand first and the literal first; and the
    loops [for k, v in [5] { return k }] and
    [for k, v in [5] { return k + 1 }], [{ return 1 + k }]. *)
Lemma C9_host_int_yields_nil_witness :
  literalOrVariable (EInteger 3)
  /\ evalExpression 2 (ELen (EString "abc")) (NewScope None) []
     = Done (VInt 3, NewScope None, [])
  /\ evalExpression 3
       (EBinaryOperation (NewToken EQ "==") (ELen (EString "abc")) (EInteger 3))
       (NewScope None) []
     = Done (Nil, NewScope None, [])
  /\ (exists s o,
         evalExpression 3
           (EBinaryOperation (NewToken EQ "==") (EInteger 3)
              (ELen (EString "abc")))
           (NewScope None) []
         = Done (Nil, s, o))
  /\ evalStatement 3
       (SFor (ident "k" false) (ident "v" false) (EArray [EInteger 5])
          [SReturn (EIdentifier (ident "k" false))])
       (NewScope None) []
     = Done (VInt 0, NewScope None, [])
  /\ evalStatement 4
       (SFor (ident "k" false) (ident "v" false) (EArray [EInteger 5])
          [SReturn (EBinaryOperation (NewToken PLUS "+")
                      (EIdentifier (ident "k" false)) (EInteger 1))])
       (NewScope None) []
     = Done (Nil, NewScope None, [])
  /\ evalStatement 4
       (SFor (ident "k" false) (ident "v" false) (EArray [EInteger 5])
          [SReturn (EBinaryOperation (NewToken PLUS "+")
                      (EInteger 1) (EIdentifier (ident "k" false)))])
       (NewScope None) []
     = Done (Nil, NewScope None, []).
Proof.
  destruct C9_host_int_yields_nil
    as (_ & _ & _ & _ & _ & Hmixed & _ & _ & Hfirst & Hoperand & _).
  assert (Hlit : literalOrVariable (EInteger 3)) by (left; eauto).
  assert (Hone : literalOrVariable (EInteger 1)) by (left; eauto).
  assert (Hkind : kindOf (VSlice [VInt64 5]) ∈ [KString; KSlice])
    by (simpl; elem_of_find).
  assert (Hne : identName (ident "k" false) <> identName (ident "v" false))
    by discriminate.
  split; [exact Hlit|]. split; [reflexivity|].
  destruct (Hmixed 1%nat (NewToken EQ "==") (ELen (EString "abc"))
              (EInteger 3) (NewScope None) [] 3 (NewScope None) [] Hlit
              eq_refl) as [Hleft Hright].
  split; [exact Hleft|]. split; [exact Hright|].
  split.
  - apply (Hfirst 0%nat (ident "k" false) (ident "v" false)
             (EArray [EInteger 5]) (NewScope None) [] (VSlice [VInt64 5])
             (NewScope None) [] eq_refl Hkind);
      [discriminate|exact Hne|reflexivity].
  - exact (Hoperand 0%nat (NewToken PLUS "+") (ident "k" false)
             (ident "v" false) (EArray [EInteger 5]) (EInteger 1)
             (NewScope None) [] (VSlice [VInt64 5]) (NewScope None) []
             eq_refl Hkind Hne eq_refl Hone).
Defined.

(** ** Faults: division and indexing *)

Lemma evalIndex_subject fuel index subject scope out sv s1 o1 :
  evalExpression fuel subject scope out = Done (sv, s1, o1) ->
  evalExpression (S fuel) (EIndex index subject) scope out =
  match sv with
  | VSlice items =>
      '(i, scope, out) ← evalExpression fuel index s1 o1;
      match i with
      | VInt64 i =>
          if (0 <=? i) && (i <? Z.of_nat (length items)) then
            Done (default Nil (items !! Z.to_nat i), scope, out)
          else Panic IndexOutOfRange
      | _ => Panic TypeAssertion
      end
  | VMap entries =>
      '(key, scope, out) ← evalExpression fuel index s1 o1;
      if hashable key then Done (mapAccess entries key, scope, out)
      else Panic UnhashableKey
  | _ => Done (Nil, s1, o1)
  end.
Proof.
  intros Hs. rewrite evalExpression_S. simpl. unfold evalIndex. rewrite Hs.
  reflexivity.
Qed.

Lemma wrap64_id z : MinInt64 <= z <= MaxInt64 -> wrap64 z = z.
Proof.
  unfold wrap64, MinInt64, MaxInt64. intros H.
  rewrite Z.mod_small by lia. lia.
Qed.

(** The truncated quotient of two int64 values is an int64 again, but for
    the most negative value over -1. *)
Lemma quot_in_range l r :
  MinInt64 <= l <= MaxInt64 -> MinInt64 <= r <= MaxInt64 -> r <> 0 ->
  ~ (l = MinInt64 /\ r = -1) ->
  MinInt64 <= Z.quot l r <= MaxInt64.
Proof.
  unfold MinInt64, MaxInt64. intros Hl Hr Hr0 Hnot.
  destruct (Z.eq_dec r (-1)) as [->|Hr1].
  - assert (l <> - 2 ^ 63) by tauto.
    replace (-1) with (- (1)) by reflexivity.
    rewrite Z.quot_opp_r by lia. rewrite Z.quot_1_r. lia.
  - destruct (Z.eq_dec r 1) as [->|Hr2]; [rewrite Z.quot_1_r; lia|].
    assert (Habs : Z.abs (Z.quot l r) <= 2 ^ 62).
    { rewrite <- (Z.quot_abs l r) by lia.
      rewrite Z.quot_div_nonneg by lia.
      apply Z.div_le_upper_bound; lia. }
    lia.
Qed.

(** ** Blocks, statement by statement *)

Section Blocks.

Context (rec : Statement -> Scope -> Stdout -> Evaluated).

Lemma evalBlock_runsNil pre post s o s1 o1 :
  runsNil rec pre s o s1 o1 ->
  evalBlock rec (pre ++ post) s o = evalBlock rec post s1 o1.
Proof.
  induction 1 as [s o|statement rest s o s' o' Hnil _ IH
                 |statement rest s o s1 o1 s' o' Hnil Hstep _ IH]; simpl.
  - reflexivity.
  - rewrite Hnil. exact IH.
  - rewrite Hnil, Hstep. simpl. exact IH.
Qed.

Lemma evalBlock_all_nil statements s o s' o' :
  runsNil rec statements s o s' o' ->
  evalBlock rec statements s o = Done (Nil, s', o').
Proof.
  intros H. rewrite <- (app_nil_r statements).
  rewrite (evalBlock_runsNil _ [] _ _ _ _ H). reflexivity.
Qed.

Lemma evalBlock_first_non_nil pre statement post s o s1 o1 v s2 o2 :
  runsNil rec pre s o s1 o1 ->
  isNilStatement statement = false ->
  rec statement s1 o1 = Done (v, s2, o2) ->
  v <> Nil ->
  evalBlock rec (pre ++ statement :: post) s o = Done (v, s2, o2).
Proof.
  intros Hpre Hnil Hstep Hv. rewrite (evalBlock_runsNil _ _ _ _ _ _ Hpre).
  simpl. rewrite Hnil, Hstep. simpl. destruct v; [congruence|reflexivity..].
Qed.

Lemma evalBlock_panic pre statement post s o s1 o1 fault :
  runsNil rec pre s o s1 o1 ->
  isNilStatement statement = false ->
  rec statement s1 o1 = Panic fault ->
  evalBlock rec (pre ++ statement :: post) s o = Panic fault.
Proof.
  intros Hpre Hnil Hstep. rewrite (evalBlock_runsNil _ _ _ _ _ _ Hpre).
  simpl. rewrite Hnil, Hstep. reflexivity.
Qed.

(** A block that ends normally either ran all its statements, each to a nil
    result, or stopped at the first statement with another result, which is
    the block's. *)
Lemma evalBlock_Done_inv statements s o v s' o' :
  evalBlock rec statements s o = Done (v, s', o') ->
  (v = Nil /\ runsNil rec statements s o s' o')
  \/ (v <> Nil /\
      exists pre statement post s1 o1,
        statements = pre ++ statement :: post
        /\ runsNil rec pre s o s1 o1
        /\ isNilStatement statement = false
        /\ rec statement s1 o1 = Done (v, s', o')).
Proof.
  revert s o. induction statements as [|statement rest IH]; intros s o; simpl.
  - intros [= <- <- <-]. left. split; [reflexivity|constructor].
  - destruct (isNilStatement statement) eqn:Hnil.
    + intros H. destruct (IH _ _ H) as [[-> Hr]|[Hv Hex]].
      * left. split; [reflexivity|]. apply runsNil_skip; assumption.
      * right. split; [exact Hv|].
        destruct Hex as (pre & st & post & s1 & o1 & -> & Hpre & Hst & Hrun).
        exists (statement :: pre), st, post, s1, o1.
        repeat split; try assumption. apply runsNil_skip; assumption.
    + destruct (rec statement s o) as [[[r sr] or]| |] eqn:Hstep; simpl;
        try discriminate.
      destruct (isNil r) eqn:Hr.
      * destruct r; try discriminate. intros H.
        destruct (IH _ _ H) as [[-> Hrun]|[Hv Hex]].
        -- left. split; [reflexivity|]. eapply runsNil_step; eassumption.
        -- right. split; [exact Hv|].
           destruct Hex as (pre & st & post & s1 & o1 & -> & Hpre & Hst & Hrun).
           exists (statement :: pre), st, post, s1, o1.
           repeat split; try assumption. eapply runsNil_step; eassumption.
      * intros [= <- <- <-]. right. split; [by destruct r|].
        exists [], statement, rest, s, o.
        repeat split; try assumption. constructor.
Qed.

End Blocks.

Lemma nil_statement_result fuel statement scope out r :
  isNilStatement statement = true ->
  evalStatement fuel statement scope out = r ->
  r = OutOfFuel \/ r = Done (Nil, scope, out).
Proof.
  intros Hnil <-. destruct statement; try discriminate.
  destruct expression; try discriminate.
  destruct fuel as [|[|fuel]]; simpl; auto.
Qed.

Lemma non_nil_result_statement fuel statement scope out v s' o' :
  evalStatement fuel statement scope out = Done (v, s', o') ->
  v <> Nil ->
  isNilStatement statement = false.
Proof.
  intros H Hv. destruct (isNilStatement statement) eqn:Hnil; [|reflexivity].
  destruct (nil_statement_result _ _ _ _ _ Hnil H) as [?|[= -> _ _]];
    congruence.
Qed.

Lemma panic_statement fuel statement scope out fault :
  evalStatement fuel statement scope out = Panic fault ->
  isNilStatement statement = false.
Proof.
  intros H. destruct (isNilStatement statement) eqn:Hnil; [|reflexivity].
  destruct (nil_statement_result _ _ _ _ _ Hnil H); congruence.
Qed.

(** The top-level loop, statement by statement. *)
Lemma evalStatements_app fuel pre post value scope out v1 s1 o1 :
  Forall (fun statement => isNilStatement statement = false) pre ->
  evalStatements fuel pre value scope out = Done (v1, s1, o1) ->
  evalStatements fuel (pre ++ post) value scope out
  = evalStatements fuel post v1 s1 o1.
Proof.
  revert value scope out.
  induction pre as [|statement rest IH]; intros value scope out Hpre; simpl.
  - intros [= <- <- <-]. reflexivity.
  - inversion Hpre as [|? ? Hnil Hrest]; subst. rewrite Hnil.
    destruct (evalStatement fuel statement scope out) as [[[r sr] or]| |];
      simpl; try discriminate.
    apply IH. exact Hrest.
Qed.

Lemma evalStatements_panic fuel pre statement post value scope out v1 s1 o1
      fault :
  Forall (fun statement => isNilStatement statement = false) pre ->
  evalStatements fuel pre value scope out = Done (v1, s1, o1) ->
  evalStatement fuel statement s1 o1 = Panic fault ->
  evalStatements fuel (pre ++ statement :: post) value scope out
  = Panic fault.
Proof.
  intros Hpre Hrun Hpanic.
  rewrite (evalStatements_app _ _ _ _ _ _ _ _ _ Hpre Hrun). simpl.
  rewrite (panic_statement _ _ _ _ _ Hpanic), Hpanic. reflexivity.
Qed.

Lemma mapAccess_absent entries key :
  Forall (fun kv => anyEqual kv.1 key = false) entries ->
  mapAccess entries key = Nil.
Proof.
  induction 1 as [|[k v] rest Hk _ IH]; simpl; [reflexivity|].
  simpl in Hk. rewrite Hk. exact IH.
Qed.

Lemma mapAccess_present pre k v post key :
  Forall (fun kv => anyEqual kv.1 key = false) pre ->
  anyEqual k key = true ->
  mapAccess (pre ++ (k, v) :: post) key = v.
Proof.
  intros Hpre Hk. induction Hpre as [|[k0 v0] rest Hk0 _ IH]; simpl.
  - rewrite Hk. reflexivity.
  - simpl in Hk0. rewrite Hk0. exact IH.
Qed.

(** C7, as the code has it.  An int64 division by zero panics, and so does
    indexing an array with an int64 outside [0, length); a panic in a
    statement ends the enclosing block and the top-level loop with that
    panic, whatever follows.  With a divisor other than zero the division
    yields the truncated quotient reduced to the int64 range, which is the
    truncated quotient itself unless the operands are the least int64 and
    -1.  With an index in range, indexing yields the element at that index.
    Indexing a map evaluates the index to a key and yields the value of the
    first entry whose key is equal to it, and nil when there is none. *)
Theorem C7_faults_and_indexing :
  (forall fuel token lhs rhs scope out l s1 o1 s2 o2,
      Token_Type token = SLASH ->
      evalExpression fuel lhs scope out = Done (VInt64 l, s1, o1) ->
      evalExpression fuel rhs s1 o1 = Done (VInt64 0, s2, o2) ->
      evalExpression (S fuel) (EBinaryOperation token lhs rhs) scope out
      = Panic DivideByZero)
  /\ (forall fuel index subject scope out items i s1 o1 s2 o2,
         evalExpression fuel subject scope out = Done (VSlice items, s1, o1) ->
         evalExpression fuel index s1 o1 = Done (VInt64 i, s2, o2) ->
         i < 0 \/ Z.of_nat (length items) <= i ->
         evalExpression (S fuel) (EIndex index subject) scope out
         = Panic IndexOutOfRange)
  /\ (forall fuel pre statement post scope out s1 o1 fault,
         runsNil (evalStatement fuel) pre scope out s1 o1 ->
         evalStatement fuel statement s1 o1 = Panic fault ->
         evalBlock (evalStatement fuel) (pre ++ statement :: post) scope out
         = Panic fault)
  /\ (forall fuel pre statement post value scope out v1 s1 o1 fault,
         Forall (fun statement => isNilStatement statement = false) pre ->
         evalStatements fuel pre value scope out = Done (v1, s1, o1) ->
         evalStatement fuel statement s1 o1 = Panic fault ->
         evalStatements fuel (pre ++ statement :: post) value scope out
         = Panic fault)
  /\ (forall fuel token lhs rhs scope out l r s1 o1 s2 o2,
         Token_Type token = SLASH ->
         evalExpression fuel lhs scope out = Done (VInt64 l, s1, o1) ->
         evalExpression fuel rhs s1 o1 = Done (VInt64 r, s2, o2) ->
         r <> 0 ->
         evalExpression (S fuel) (EBinaryOperation token lhs rhs) scope out
         = Done (VInt64 (wrap64 (Z.quot l r)), s2, o2)
         /\ (MinInt64 <= l <= MaxInt64 -> MinInt64 <= r <= MaxInt64 ->
             ~ (l = MinInt64 /\ r = -1) ->
             wrap64 (Z.quot l r) = Z.quot l r))
  /\ (forall fuel index subject scope out items i s1 o1 s2 o2,
         evalExpression fuel subject scope out = Done (VSlice items, s1, o1) ->
         evalExpression fuel index s1 o1 = Done (VInt64 i, s2, o2) ->
         0 <= i < Z.of_nat (length items) ->
         exists item,
           items !! Z.to_nat i = Some item
           /\ evalExpression (S fuel) (EIndex index subject) scope out
              = Done (item, s2, o2))
  /\ (forall fuel index subject scope out entries key s1 o1 s2 o2,
         evalExpression fuel subject scope out = Done (VMap entries, s1, o1) ->
         evalExpression fuel index s1 o1 = Done (key, s2, o2) ->
         hashable key = true ->
         evalExpression (S fuel) (EIndex index subject) scope out
         = Done (mapAccess entries key, s2, o2)
         /\ (Forall (fun kv => anyEqual kv.1 key = false) entries ->
             mapAccess entries key = Nil)
         /\ (forall pre k v post,
                entries = pre ++ (k, v) :: post ->
                Forall (fun kv => anyEqual kv.1 key = false) pre ->
                anyEqual k key = true ->
                mapAccess entries key = v)).
Proof.
  repeat apply conj.
  - intros fuel token lhs rhs scope out l s1 o1 s2 o2 Hop Hl Hr.
    rewrite (evalBinaryOperation_left _ _ _ _ _ _ _ _ _ Hl), Hr. simpl.
    unfold evalBinaryOperationIntInt. rewrite Hop. reflexivity.
  - intros fuel index subject scope out items i s1 o1 s2 o2 Hs Hi Hrange.
    rewrite (evalIndex_subject _ _ _ _ _ _ _ _ Hs), Hi. simpl.
    destruct (0 <=? i) eqn:H0; destruct (i <? Z.of_nat (length items)) eqn:H1;
      simpl; try reflexivity. lia.
  - intros fuel pre statement post scope out s1 o1 fault Hpre Hpanic.
    eapply evalBlock_panic; eauto using panic_statement.
  - intros fuel pre statement post value scope out v1 s1 o1 fault.
    apply evalStatements_panic.
  - intros fuel token lhs rhs scope out l r s1 o1 s2 o2 Hop Hl Hr Hr0. split.
    + rewrite (evalBinaryOperation_left _ _ _ _ _ _ _ _ _ Hl), Hr. simpl.
      unfold evalBinaryOperationIntInt. rewrite Hop.
      destruct (r =? 0) eqn:E; [lia|reflexivity].
    + intros Hlr Hrr Hnot. apply wrap64_id, quot_in_range; assumption.
  - intros fuel index subject scope out items i s1 o1 s2 o2 Hs Hi Hrange.
    destruct (lookup_lt_is_Some_2 items (Z.to_nat i)) as [item Hitem];
      [lia|].
    exists item. split; [exact Hitem|].
    rewrite (evalIndex_subject _ _ _ _ _ _ _ _ Hs), Hi. simpl.
    destruct (0 <=? i) eqn:H0; destruct (i <? Z.of_nat (length items)) eqn:H1;
      simpl; try lia.
    rewrite Hitem. reflexivity.
  - intros fuel index subject scope out entries key s1 o1 s2 o2 Hs Hi Hhash.
    repeat apply conj.
    + rewrite (evalIndex_subject _ _ _ _ _ _ _ _ Hs), Hi. simpl.
      rewrite Hhash. reflexivity.
    + apply mapAccess_absent.
    + intros pre k v post ->. apply mapAccess_present.
Qed.

(** The truncated quotient of the least int64 by -1 is 2^63; the division
    yields the least int64. *)
Lemma C7_truncated_quotient_counterexample :
  MinInt64 <= MinInt64 <= MaxInt64
  /\ MinInt64 <= -1 <= MaxInt64
  /\ -1 <> 0
  /\ evalBinaryOperationIntInt MinInt64 (-1) (NewToken SLASH "/")
     <> Done (VInt64 (Z.quot MinInt64 (-1)))
  /\ Eval noFloatLiterals 10 leastOverMinusOne (NewScope None) []
     = Done (VInt64 (-9223372036854775808), NewScope None, [])
  /\ Z.quot (-9223372036854775808) (-1) = 9223372036854775808.
Proof.
  repeat apply conj; try (vm_compute; congruence); try reflexivity.
Qed.

(** [1 / 0], [[10, 20][1]] and [[10, 20][2]] on the embedding. *)
Lemma C7_faults_and_indexing_witness :
  evalExpression 2
    (EBinaryOperation (NewToken SLASH "/") (EInteger 1) (EInteger 0))
    (NewScope None) []
  = Panic DivideByZero
  /\ evalExpression 3
       (EIndex (EInteger 2) (EArray [EInteger 10; EInteger 20]))
       (NewScope None) []
     = Panic IndexOutOfRange
  /\ (exists item,
         [VInt64 10; VInt64 20] !! Z.to_nat 1 = Some item
         /\ evalExpression 3
              (EIndex (EInteger 1) (EArray [EInteger 10; EInteger 20]))
              (NewScope None) []
            = Done (item, NewScope None, []))
  /\ evalExpression 2
       (EBinaryOperation (NewToken SLASH "/") (EInteger (-7)) (EInteger 2))
       (NewScope None) []
     = Done (VInt64 (wrap64 (Z.quot (-7) 2)), NewScope None, []).
Proof.
  destruct C7_faults_and_indexing
    as (Hdiv0 & Hrange & _ & _ & Hquot & Hindex & _).
  repeat apply conj.
  - apply (Hdiv0 1%nat (NewToken SLASH "/") (EInteger 1) (EInteger 0)
             (NewScope None) [] 1 (NewScope None) [] (NewScope None) []);
      reflexivity.
  - apply (Hrange 2%nat (EInteger 2) (EArray [EInteger 10; EInteger 20])
             (NewScope None) [] [VInt64 10; VInt64 20] 2
             (NewScope None) [] (NewScope None) []);
      [reflexivity | reflexivity | simpl; lia].
  - apply (Hindex 2%nat (EInteger 1) (EArray [EInteger 10; EInteger 20])
             (NewScope None) [] [VInt64 10; VInt64 20] 1
             (NewScope None) [] (NewScope None) []);
      [reflexivity | reflexivity | simpl; lia].
  - apply (Hquot 1%nat (NewToken SLASH "/") (EInteger (-7)) (EInteger 2)
             (NewScope None) [] (-7) 2 (NewScope None) [] (NewScope None) []);
      [reflexivity | reflexivity | reflexivity | lia].
Defined.

(** ** The parser tests of the sources *)

(** The cases of [TestParser], with the tokens of each input: the embedding
    parses them to the trees the tests expect. *)

Example parser_test_expression_2 ParseFloat :
  parsedStatements
    (Parse ParseFloat 10
       (NewParser [ NewToken IDENT "sum"; NewToken LPAREN "(";
                    NewToken INT "1"; NewToken COMMA ","; NewToken INT "2";
                    NewToken RPAREN ")"; NewToken EOF "" ]))
  = Some [SExpression (ECall (ident "sum" true) [EInteger 1; EInteger 2])].
Proof. reflexivity. Qed.

Example parser_test_variable ParseFloat :
  parsedStatements
    (Parse ParseFloat 10
       (NewParser [ NewToken VAR "var"; NewToken IDENT "a";
                    NewToken ASSIGN "="; NewToken INT "0";
                    NewToken VAR "var"; NewToken IDENT "a";
                    NewToken ASSIGN "="; NewToken FLOAT "0.0";
                    NewToken VAR "var"; NewToken IDENT "a";
                    NewToken ASSIGN "="; NewToken STRING "Hello World!";
                    NewToken EOF "" ]))
  = Some [ SVariable (ident "a" false) (EInteger 0) true;
           SVariable (ident "a" false) (EFloat (ParseFloat "0.0")) true;
           SVariable (ident "a" false) (EString "Hello World!") true ].
Proof. reflexivity. Qed.

Example parser_test_condition ParseFloat :
  parsedStatements
    (Parse ParseFloat 10
       (NewParser [ NewToken IF "if"; NewToken TRUE "true";
                    NewToken LCURLY "{"; NewToken RCURLY "}";
                    NewToken IF "if"; NewToken INT "1"; NewToken EQ "==";
                    NewToken INT "2"; NewToken LCURLY "{";
                    NewToken RCURLY "}"; NewToken ELSE "else";
                    NewToken LCURLY "{"; NewToken RCURLY "}";
                    NewToken EOF "" ]))
  = Some [ SIf (EBoolean true) [] None;
           SIf (EBinaryOperation (NewToken EQ "==") (EInteger 1) (EInteger 2))
               [] (Some []) ].
Proof. reflexivity. Qed.

Example parser_test_while ParseFloat :
  parsedStatements
    (Parse ParseFloat 10
       (NewParser [ NewToken WHILE "while"; NewToken TRUE "true";
                    NewToken LCURLY "{"; NewToken RCURLY "}";
                    NewToken WHILE "while"; NewToken IDENT "a";
                    NewToken EQ "=="; NewToken INT "1";
                    NewToken LCURLY "{"; NewToken RCURLY "}";
                    NewToken EOF "" ]))
  = Some [ SWhile (EBoolean true) [];
           SWhile (EBinaryOperation (NewToken EQ "==")
                     (EIdentifier (ident "a" false)) (EInteger 1)) [] ].
Proof. reflexivity. Qed.

Example parser_test_for ParseFloat :
  parsedStatements
    (Parse ParseFloat 10
       (NewParser [ NewToken FOR "for"; NewToken IDENT "k"; NewToken COMMA ",";
                    NewToken IDENT "v"; NewToken IN "in";
                    NewToken STRING "Hello World!";
                    NewToken LCURLY "{"; NewToken RCURLY "}";
                    NewToken FOR "for"; NewToken IDENT "k"; NewToken COMMA ",";
                    NewToken IDENT "v"; NewToken IN "in";
                    NewToken LBRACKET "["; NewToken FLOAT "0.1";
                    NewToken COMMA ","; NewToken FLOAT "0.2";
                    NewToken RBRACKET "]";
                    NewToken LCURLY "{"; NewToken RCURLY "}";
                    NewToken FOR "for"; NewToken IDENT "k"; NewToken COMMA ",";
                    NewToken IDENT "v"; NewToken IN "in";
                    NewToken LCURLY "{"; NewToken STRING "one";
                    NewToken COLON ":"; NewToken INT "1"; NewToken RCURLY "}";
                    NewToken LCURLY "{"; NewToken RCURLY "}";
                    NewToken EOF "" ]))
  = Some [ SFor (ident "k" false) (ident "v" false)
             (EString "Hello World!") [];
           SFor (ident "k" false) (ident "v" false)
             (EArray [EFloat (ParseFloat "0.1"); EFloat (ParseFloat "0.2")])
             [];
           SFor (ident "k" false) (ident "v" false)
             (EMap [(EString "one", EInteger 1)]) [] ].
Proof. reflexivity. Qed.

Example parser_test_function_1 ParseFloat :
  parsedStatements
    (Parse ParseFloat 10
       (NewParser [ NewToken FN "fn"; NewToken IDENT "sum";
                    NewToken LPAREN "("; NewToken IDENT "a";
                    NewToken COMMA ","; NewToken IDENT "b";
                    NewToken RPAREN ")"; NewToken LCURLY "{";
                    NewToken RETURN "return"; NewToken IDENT "a";
                    NewToken PLUS "+"; NewToken IDENT "b";
                    NewToken RCURLY "}"; NewToken EOF "" ]))
  = Some [ SFunction (Name sumFunction) (Parameters sumFunction)
             (Body sumFunction) ].
Proof. reflexivity. Qed.

Example parser_test_block_1 ParseFloat :
  parsedStatements
    (Parse ParseFloat 10
       (NewParser [ NewToken LCURLY "{"; NewToken IDENT "xy";
                    NewToken ASSIGN "="; NewToken INT "0"; NewToken IF "if";
                    NewToken TRUE "true"; NewToken LCURLY "{";
                    NewToken RCURLY "}"; NewToken RCURLY "}";
                    NewToken EOF "" ]))
  = Some [ SBlock [ SVariable (ident "xy" false) (EInteger 0) false;
                    SIf (EBoolean true) [] None ] ].
Proof. reflexivity. Qed.

(** ** Precedence climbing *)

Lemma operator_of_precedence tokenType :
  LOWEST < getPrecedence tokenType -> isBinaryOperator tokenType = true.
Proof.
  destruct tokenType; simpl; unfold LOWEST; intros H; try reflexivity; lia.
Qed.

Lemma parseExpressionLoop_stop rec n precedence left p :
  getPrecedence (currentType p) <= precedence ->
  parseExpressionLoop rec (S n) precedence left p = Done (left, p).
Proof.
  intros H. simpl.
  destruct (precedence <? getPrecedence (currentType p)) eqn:E;
    [lia|reflexivity].
Qed.

Lemma parseExpressionLoop_consume rec n precedence left p :
  LOWEST <= precedence ->
  precedence < getPrecedence (currentType p) ->
  parseExpressionLoop rec (S n) precedence left p
  = '(rhs, p') ← rec (getPrecedence (currentType p)) (next p);
    parseExpressionLoop rec n precedence
      (EBinaryOperation (currentToken p) left rhs) p'.
Proof.
  intros Hlow H. simpl.
  destruct (precedence <? getPrecedence (currentType p)) eqn:E; [|lia].
  rewrite operator_of_precedence by lia.
  unfold parseBinaryOperation.
  destruct (rec (getPrecedence (currentType p)) (next p)) as [[rhs p']| |];
    reflexivity.
Qed.

(** C3. The precedence levels ascend from LOWEST through equality, boolean,
    relational, additive and multiplicative to PREFIX; each binary operator
    has the level of its group and every other token LOWEST, and the operand
    of a unary operator is parsed at PREFIX.  After its first operand,
    [parseExpression] consumes the current token as a binary operator when
    its precedence is strictly above the precedence it was called with, the
    right operand being parsed at the operator's own precedence, and returns
    what it has when the precedence is equal or below.  So [(1 + 2) * 3]
    parses to the product of the sum and 3, [1 + 2 * 3] to the sum of 1 and
    the product, and [1 - 2 - 3] to the difference of the difference and
    3. *)
Theorem C3_precedence_climbing :
  (LOWEST < EQUALS /\ EQUALS < BOOLOP /\ BOOLOP < GREATER /\ GREATER < SUM
   /\ SUM < PRODUCT /\ PRODUCT < PREFIX)
  /\ (forall tokenType,
         getPrecedence tokenType =
         if decide (tokenType ∈ [EQ; NEQ]) then EQUALS
         else if decide (tokenType ∈ [OR; AND]) then BOOLOP
         else if decide (tokenType ∈ [LT; GT; LEQ; GEQ]) then GREATER
         else if decide (tokenType ∈ [PLUS; MINUS]) then SUM
         else if decide (tokenType ∈ [ASTERISK; SLASH]) then PRODUCT
         else LOWEST)
  /\ (forall rec p,
         currentType p ∈ [PLUS; MINUS; NOT] ->
         parseUnaryOperation rec p
         = '(operand, p') ← rec PREFIX (next p);
           Done (EUnaryOperation (currentToken p) operand, p'))
  /\ (forall rec n precedence left p,
         getPrecedence (currentType p) <= precedence ->
         parseExpressionLoop rec (S n) precedence left p = Done (left, p))
  /\ (forall rec n precedence left p,
         LOWEST <= precedence ->
         precedence < getPrecedence (currentType p) ->
         parseExpressionLoop rec (S n) precedence left p
         = '(rhs, p') ← rec (getPrecedence (currentType p)) (next p);
           parseExpressionLoop rec n precedence
             (EBinaryOperation (currentToken p) left rhs) p')
  /\ (forall ParseFloat,
         parsedStatements (Parse ParseFloat 10 (NewParser parenthesised))
         = Some [SExpression
                   (EBinaryOperation (NewToken ASTERISK "*")
                      (EBinaryOperation (NewToken PLUS "+")
                         (EInteger 1) (EInteger 2))
                      (EInteger 3))])
  /\ (forall ParseFloat,
         parsedStatements (Parse ParseFloat 10 (NewParser sumOfProduct))
         = Some [SExpression
                   (EBinaryOperation (NewToken PLUS "+")
                      (EInteger 1)
                      (EBinaryOperation (NewToken ASTERISK "*")
                         (EInteger 2) (EInteger 3)))])
  /\ (forall ParseFloat,
         parsedStatements (Parse ParseFloat 10 (NewParser twoDifferences))
         = Some [SExpression
                   (EBinaryOperation (NewToken MINUS "-")
                      (EBinaryOperation (NewToken MINUS "-")
                         (EInteger 1) (EInteger 2))
                      (EInteger 3))]).
Proof.
  repeat apply conj; try reflexivity.
  - intros tokenType. destruct tokenType; reflexivity.
  - intros rec p Hin. unfold parseUnaryOperation, expectCurrent.
    unfold currentType in *.
    destruct (Token_Type (currentToken p)); try (elem_of_contra Hin);
      reflexivity.
  - intros rec n precedence left p. apply parseExpressionLoop_stop.
  - intros rec n precedence left p. apply parseExpressionLoop_consume.
Qed.

Lemma C3_precedence_climbing_witness :
  parseExpressionLoop (parseExpression noFloatLiterals 3) 1 SUM
    (EInteger 1) atPlus
  = Done (EInteger 1, atPlus)
  /\ parseExpressionLoop (parseExpression noFloatLiterals 3) 2 LOWEST
       (EInteger 1) atPlus
     = Done (EBinaryOperation (NewToken PLUS "+") (EInteger 1) (EInteger 2),
             next (next atPlus)).
Proof.
  destruct C3_precedence_climbing as (_ & _ & _ & Hstop & Hconsume & _).
  split.
  - apply (Hstop (parseExpression noFloatLiterals 3) 0%nat SUM (EInteger 1)
             atPlus).
    vm_compute. discriminate.
  - rewrite (Hconsume (parseExpression noFloatLiterals 3) 1%nat LOWEST
               (EInteger 1) atPlus); [reflexivity| |].
    + vm_compute. discriminate.
    + vm_compute. reflexivity.
Defined.

(** ** Calls *)

Lemma bindParameters_parent parameters values newScope :
  parent (bindParameters parameters values newScope) = parent newScope.
Proof.
  revert parameters newScope.
  induction values as [|v vs IH]; intros [|p ps] newScope; simpl; auto.
  rewrite IH. reflexivity.
Qed.

Lemma bindParameters_functions parameters values newScope :
  functions (bindParameters parameters values newScope) = functions newScope.
Proof.
  revert parameters newScope.
  induction values as [|v vs IH]; intros [|p ps] newScope; simpl; auto.
  rewrite IH. reflexivity.
Qed.

Lemma bindParameters_other parameters values newScope name :
  name ∉ identName <$> parameters ->
  variables (bindParameters parameters values newScope) !! name
  = variables newScope !! name.
Proof.
  revert parameters newScope.
  induction values as [|v vs IH]; intros [|p ps] newScope Hnot; simpl; auto.
  rewrite fmap_cons, not_elem_of_cons in Hnot. destruct Hnot as [Hne Hnot].
  rewrite IH by exact Hnot. simpl. apply lookup_insert_ne. congruence.
Qed.

Lemma bindParameters_lookup parameters values newScope i parameter value :
  NoDup (identName <$> parameters) ->
  parameters !! i = Some parameter ->
  values !! i = Some value ->
  variables (bindParameters parameters values newScope)
    !! identName parameter = Some value.
Proof.
  revert parameters newScope i.
  induction values as [|v vs IH]; intros [|p ps] newScope i Hnodup Hp Hv;
    try (destruct i; discriminate).
  rewrite fmap_cons in Hnodup. apply NoDup_cons in Hnodup as [Hnotin Hnodup].
  destruct i as [|i]; simpl in *.
  - injection Hp as ->. injection Hv as ->.
    rewrite bindParameters_other by exact Hnotin. simpl.
    apply lookup_insert_eq.
  - eapply IH; eassumption.
Qed.

Lemma evalCallLoop_evalList rec parameters arguments newScope scope out
      values s1 o1 :
  length parameters = length arguments ->
  parent newScope = Some scope ->
  evalList rec arguments scope out = Done (values, s1, o1) ->
  evalCallLoop rec parameters arguments newScope scope out
  = Done (bindParameters parameters values (withParent newScope (Some s1)),
          s1, o1).
Proof.
  revert parameters newScope scope out values.
  induction arguments as [|argument rest IH];
    intros [|parameter parameters] newScope scope out values Hlen Hparent;
    simpl in *; try discriminate.
  - intros [= <- <- <-]. simpl. destruct newScope as [vs fs up].
    simpl in Hparent. subst up. reflexivity.
  - destruct (rec argument scope out) as [[[v s] o]| |]; simpl;
      try discriminate.
    destruct (evalList rec rest s o) as [[[vs' s'] o']| |] eqn:Hrest; simpl;
      try discriminate.
    intros [= <- <- <-].
    rewrite (IH parameters _ s o vs');
      [reflexivity|lia|reflexivity|exact Hrest].
Qed.

Lemma GetFunction_unbound s identifier :
  Forall (fun s' => functions s' !! identName identifier = None) (chain s) ->
  GetFunction s identifier = (Nil, false).
Proof.
  induction s as [vs fs|vs fs up IH] using Scope_chain_ind; simpl;
    intros H; inversion H as [|? ? Hhd Htl]; subst; simpl in Hhd;
    rewrite Hhd; auto.
Qed.

(** C5. A call of a name under which no scope of the chain registers a
    function is nil; a call whose argument count differs from the parameter
    count of the function found is nil; in both cases the evaluation ends
    normally, no argument is evaluated, and the scope and the output are as
    before.  Otherwise the arguments are evaluated in order in the call-site
    scope, and the body runs in a new scope that has the call-site scope as
    parent, no function, and each parameter bound to the value of its
    argument; the call yields what the body yields.  After
    [fn sum(a, b) { return a + b }], [sum(1, 2)] is the int64 3. *)
Theorem C5_call :
  (forall fuel identifier arguments scope out,
      Forall (fun s => functions s !! identName identifier = None)
             (chain scope) ->
      evalExpression (S fuel) (ECall identifier arguments) scope out
      = Done (Nil, scope, out))
  /\ (forall fuel identifier arguments scope out function,
         GetFunction scope identifier = (VFunction function, true) ->
         length (Parameters function) <> length arguments ->
         evalExpression (S fuel) (ECall identifier arguments) scope out
         = Done (Nil, scope, out))
  /\ (forall fuel identifier arguments scope out function values s1 o1,
         GetFunction scope identifier = (VFunction function, true) ->
         length (Parameters function) = length arguments ->
         evalList (evalExpression fuel) arguments scope out
         = Done (values, s1, o1) ->
         let newScope :=
           bindParameters (Parameters function) values (NewScope (Some s1)) in
         parent newScope = Some s1
         /\ functions newScope = ∅
         /\ (NoDup (identName <$> Parameters function) ->
             forall i parameter value,
               Parameters function !! i = Some parameter ->
               values !! i = Some value ->
               variables newScope !! identName parameter = Some value)
         /\ (forall name,
                name ∉ identName <$> Parameters function ->
                variables newScope !! name = None)
         /\ evalExpression (S fuel) (ECall identifier arguments) scope out
            = '(result, newScope, out) ←
                evalBlock (evalStatement fuel) (Body function) newScope o1;
              Done (result, popScope newScope s1, out))
  /\ (forall ParseFloat,
         valueAndOutput (Eval ParseFloat 10 sumProgram (NewScope None) [])
         = Some (VInt64 3, [])).
Proof.
  repeat apply conj.
  - intros fuel identifier arguments scope out Hnone.
    rewrite evalExpression_S. simpl. unfold evalCall.
    rewrite (GetFunction_unbound _ _ Hnone). reflexivity.
  - intros fuel identifier arguments scope out function Hget Hlen.
    rewrite evalExpression_S. simpl. unfold evalCall. rewrite Hget. simpl.
    destruct (Nat.eqb_spec (length (Parameters function)) (length arguments));
      [contradiction|reflexivity].
  - intros fuel identifier arguments scope out function values s1 o1
           Hget Hlen Hargs newScope. subst newScope.
    repeat apply conj.
    + rewrite bindParameters_parent. reflexivity.
    + rewrite bindParameters_functions. reflexivity.
    + intros Hnodup i parameter value Hp Hv.
      eapply bindParameters_lookup; eassumption.
    + intros name Hnot. rewrite bindParameters_other by exact Hnot.
      reflexivity.
    + rewrite evalExpression_S. simpl. unfold evalCall. rewrite Hget. simpl.
      rewrite Hlen, Nat.eqb_refl. simpl.
      rewrite (evalCallLoop_evalList _ _ _ (NewScope (Some scope)) scope _
                 _ _ _ Hlen eq_refl Hargs).
      reflexivity.
  - intros ParseFloat. vm_compute. reflexivity.
Qed.

Lemma C5_call_witness :
  evalExpression 1 (ECall (ident "sum" true) [EInteger 1; EInteger 2])
    (NewScope None) []
  = Done (Nil, NewScope None, [])
  /\ evalExpression 1 (ECall (ident "sum" true) [EInteger 1])
       sumScope []
     = Done (Nil, sumScope, [])
  /\ evalExpression 4 (ECall (ident "sum" true) [EInteger 1; EInteger 2])
       sumScope []
     = Done (VInt64 3, sumScope, []).
Proof.
  destruct C5_call as (Hnone & Harity & Hcall & _).
  repeat apply conj.
  - apply (Hnone 0%nat (ident "sum" true) [EInteger 1; EInteger 2]
             (NewScope None) []).
    repeat constructor.
  - apply (Harity 0%nat (ident "sum" true) [EInteger 1] sumScope []
             sumFunction); [reflexivity|].
    simpl. lia.
  - destruct (Hcall 3%nat (ident "sum" true) [EInteger 1; EInteger 2]
                sumScope [] sumFunction [VInt64 1; VInt64 2] sumScope []
                eq_refl eq_refl eq_refl) as (_ & _ & _ & _ & Heq).
    rewrite Heq. reflexivity.
Defined.

(** ** Recursion *)

(** C6. The program parses to the declaration of [fib] followed by the call
    [fib(3)]; run against an empty root scope it ends normally with the
    int64 1, the value of the last top-level statement, having printed
    nothing and left a root scope whose only binding is the function
    [fib]. *)
Theorem C6_fib_3 :
  forall ParseFloat : string -> float,
    parsedStatements (Parse ParseFloat 20 (NewParser fibProgram))
    = Some [ SFunction (Name fibFunction) (Parameters fibFunction)
               (Body fibFunction);
             SExpression (ECall (ident "fib" true) [EInteger 3]) ]
    /\ Eval ParseFloat 20 fibProgram (NewScope None) []
       = Done (VInt64 1,
               SetFunction (NewScope None) (ident "fib" true)
                 (VFunction fibFunction),
               []).
Proof.
  intros ParseFloat. split; vm_compute; reflexivity.
Qed.

(** ** Escaping blocks and loops *)

Lemma evalWhile_escape rs re n condition consequence scope out s1 o1 v s2 o2 :
  re condition scope out = Done (VBool true, s1, o1) ->
  evalBlock rs consequence (NewScope (Some s1)) o1 = Done (v, s2, o2) ->
  v <> Nil ->
  evalWhile rs re (S n) condition consequence scope out
  = Done (v, popScope s2 s1, o2).
Proof.
  intros Hc Hb Hv. simpl. rewrite Hc. simpl. unfold evalBlockIn.
  rewrite Hb. simpl. by destruct v.
Qed.

Lemma evalWhile_continue rs re n condition consequence scope out s1 o1 s2 o2 :
  re condition scope out = Done (VBool true, s1, o1) ->
  evalBlock rs consequence (NewScope (Some s1)) o1 = Done (Nil, s2, o2) ->
  evalWhile rs re (S n) condition consequence scope out
  = evalWhile rs re n condition consequence (popScope s2 s1) o2.
Proof.
  intros Hc Hb. simpl. rewrite Hc. simpl. unfold evalBlockIn.
  rewrite Hb. reflexivity.
Qed.

Lemma evalWhile_exit rs re n condition consequence scope out s1 o1 :
  re condition scope out = Done (VBool false, s1, o1) ->
  evalWhile rs re (S n) condition consequence scope out = Done (Nil, s1, o1).
Proof. intros Hc. simpl. rewrite Hc. reflexivity. Qed.

(** C4. A block runs its statements in order, each in the scope and with
    the output the one before left; when the statements before one have all
    ended with a nil result and that one ends with another result, the block
    ends there with that result and runs nothing after it; when all end with
    nil, the block's result is nil.  Conversely a block that ends normally
    did one or the other: nothing makes it leave early but a statement's
    result.  In a while loop an iteration whose body ends with a result
    other than nil ends the loop with that result, one whose body ends with
    nil is followed by the next test of the condition, and a false condition
    ends the loop with nil.  A return statement's result is the value of its
    expression, and a nested block's result is that of its statements, so a
    return in a conditional in a loop in a function ends the call with the
    returned value: the program above yields 7 and prints nothing. *)
Theorem C4_non_nil_result_escapes :
  (forall fuel pre statement post scope out s1 o1 v s2 o2,
      runsNil (evalStatement fuel) pre scope out s1 o1 ->
      evalStatement fuel statement s1 o1 = Done (v, s2, o2) ->
      v <> Nil ->
      evalBlock (evalStatement fuel) (pre ++ statement :: post) scope out
      = Done (v, s2, o2))
  /\ (forall fuel statements scope out s' o',
         runsNil (evalStatement fuel) statements scope out s' o' ->
         evalBlock (evalStatement fuel) statements scope out
         = Done (Nil, s', o'))
  /\ (forall fuel statements scope out v s' o',
         evalBlock (evalStatement fuel) statements scope out
         = Done (v, s', o') ->
         (v = Nil /\ runsNil (evalStatement fuel) statements scope out s' o')
         \/ (v <> Nil /\
             exists pre statement post s1 o1,
               statements = pre ++ statement :: post
               /\ runsNil (evalStatement fuel) pre scope out s1 o1
               /\ isNilStatement statement = false
               /\ evalStatement fuel statement s1 o1 = Done (v, s', o')))
  /\ (forall fuel n condition consequence scope out s1 o1 v s2 o2,
         evalExpression fuel condition scope out = Done (VBool true, s1, o1) ->
         evalBlock (evalStatement fuel) consequence (NewScope (Some s1)) o1
         = Done (v, s2, o2) ->
         (v <> Nil ->
          evalWhile (evalStatement fuel) (evalExpression fuel) (S n)
            condition consequence scope out
          = Done (v, popScope s2 s1, o2))
         /\ (v = Nil ->
             evalWhile (evalStatement fuel) (evalExpression fuel) (S n)
               condition consequence scope out
             = evalWhile (evalStatement fuel) (evalExpression fuel) n
                 condition consequence (popScope s2 s1) o2))
  /\ (forall fuel n condition consequence scope out s1 o1,
         evalExpression fuel condition scope out
         = Done (VBool false, s1, o1) ->
         evalWhile (evalStatement fuel) (evalExpression fuel) (S n)
           condition consequence scope out
         = Done (Nil, s1, o1))
  /\ (forall fuel condition consequence scope out,
         evalStatement (S fuel) (SWhile condition consequence) scope out
         = evalWhile (evalStatement fuel) (evalExpression fuel) fuel
             condition consequence scope out)
  /\ (forall fuel value scope out,
         evalStatement (S fuel) (SReturn value) scope out
         = evalExpression fuel value scope out)
  /\ (forall fuel statements scope out,
         evalStatement (S fuel) (SBlock statements) scope out
         = '(result, newScope, out) ←
             evalBlock (evalStatement fuel) statements
               (NewScope (Some scope)) out;
           Done (result, popScope newScope scope, out))
  /\ (forall ParseFloat,
         valueAndOutput (Eval ParseFloat 20 returnFromLoop (NewScope None) [])
         = Some (VInt64 7, [])).
Proof.
  repeat apply conj; try reflexivity.
  - intros fuel pre statement post scope out s1 o1 v s2 o2 Hpre Hst Hv.
    eapply evalBlock_first_non_nil; eauto using non_nil_result_statement.
  - intros fuel statements scope out s' o'. apply evalBlock_all_nil.
  - intros fuel statements scope out v s' o'. apply evalBlock_Done_inv.
  - intros fuel n condition consequence scope out s1 o1 v s2 o2 Hc Hb.
    split.
    + intros Hv. eapply evalWhile_escape; eassumption.
    + intros ->. eapply evalWhile_continue; eassumption.
  - intros fuel n condition consequence scope out s1 o1.
    apply evalWhile_exit.
Qed.

(** [{ println(1) return 7 println(2) }] on the embedding, and a loop whose
    body returns on its first iteration. *)
Lemma C4_non_nil_result_escapes_witness :
  evalBlock (evalStatement 3)
    ([SExpression (EPrint [EInteger 1] true)]
       ++ SReturn (EInteger 7) :: [SExpression (EPrint [EInteger 2] true)])
    (NewScope None) []
  = Done (VInt64 7, NewScope None, [mkPrinted [VInt64 1] true])
  /\ evalWhile (evalStatement 2) (evalExpression 2) 1 (EBoolean true)
       [SReturn (EInteger 7)] (NewScope None) []
     = Done (VInt64 7, NewScope None, []).
Proof.
  destruct C4_non_nil_result_escapes as (Hfirst & _ & _ & Hwhile & _).
  split.
  - apply (Hfirst 3%nat [SExpression (EPrint [EInteger 1] true)]
             (SReturn (EInteger 7)) [SExpression (EPrint [EInteger 2] true)]
             (NewScope None) [] (NewScope None) [mkPrinted [VInt64 1] true]
             (VInt64 7) (NewScope None) [mkPrinted [VInt64 1] true]).
    + eapply runsNil_step; [reflexivity|reflexivity|constructor].
    + reflexivity.
    + discriminate.
  - apply (proj1 (Hwhile 2%nat 0%nat (EBoolean true) [SReturn (EInteger 7)]
                    (NewScope None) [] (NewScope None) [] (VInt64 7)
                    (NewScope (Some (NewScope None))) [] eq_refl eq_refl)).
    discriminate.
Defined.

(** ** What evaluation can change in a scope chain *)

Section Frame.

(** The names under protection: no statement that runs reassigns them. *)
Context (N : string -> Prop).

Lemma frame_parents s s' : frame N s s' -> parentsFrame N s s'.
Proof. destruct s, s'. simpl. unfold parentsFrame. simpl. tauto. Qed.

Lemma frame_refl s : frame N s s.
Proof.
  induction s as [vs fs|vs fs up IH] using Scope_chain_ind; simpl;
    repeat split; auto.
Qed.

Lemma parentsFrame_refl s : parentsFrame N s s.
Proof.
  unfold parentsFrame. destruct (parent s); [apply frame_refl|exact I].
Qed.

Lemma boundIn_here s m :
  is_Some (variables s !! m) -> boundIn s m.
Proof. intros H. destruct s. apply Exists_cons_hd. exact H. Qed.

Lemma boundIn_parent s up m :
  parent s = Some up -> boundIn up m -> boundIn s m.
Proof.
  intros Hp H. destruct s as [vs fs p]. simpl in Hp. subst p.
  apply Exists_cons_tl. exact H.
Qed.

Lemma boundIn_inv s m :
  boundIn s m ->
  is_Some (variables s !! m)
  \/ exists up, parent s = Some up /\ boundIn up m.
Proof.
  destruct s as [vs fs [up|]]; unfold boundIn; simpl; intros H;
    inversion H as [? ? Hhd|? ? Htl]; subst; auto.
  - right. eauto.
  - inversion Htl.
Qed.

Lemma frame_bound_back s s' m : frame N s s' -> boundIn s' m -> boundIn s m.
Proof.
  revert s'. induction s as [vs fs|vs fs up IH] using Scope_chain_ind;
    intros [vs' fs' [up'|]]; simpl; intros (Hf & Hkeep & Hvars & Hup) Hb;
    try contradiction.
  - apply boundIn_inv in Hb as [Hhere|(? & [=] & _)]. simpl in Hhere.
    destruct (Hvars m) as [Heq|[Hb _]]; [|exact Hb].
    apply boundIn_here. simpl. rewrite <- Heq. exact Hhere.
  - apply boundIn_inv in Hb as [Hhere|(p & [= <-] & Hb)].
    + simpl in Hhere. destruct (Hvars m) as [Heq|[Hb _]]; [|exact Hb].
      apply boundIn_here. simpl. rewrite <- Heq. exact Hhere.
    + eapply boundIn_parent; [reflexivity|]. eapply IH; eassumption.
Qed.

Lemma frame_bound_forth s s' m : frame N s s' -> boundIn s m -> boundIn s' m.
Proof.
  revert s'. induction s as [vs fs|vs fs up IH] using Scope_chain_ind;
    intros [vs' fs' [up'|]]; simpl; intros (Hf & Hkeep & Hvars & Hup) Hb;
    try contradiction.
  - apply boundIn_inv in Hb as [Hhere|(? & [=] & _)].
    apply boundIn_here. apply Hkeep. exact Hhere.
  - apply boundIn_inv in Hb as [Hhere|(p & [= <-] & Hb)].
    + apply boundIn_here. apply Hkeep. exact Hhere.
    + eapply boundIn_parent; [reflexivity|]. eapply IH; eassumption.
Qed.

Lemma frame_trans s1 s2 s3 : frame N s1 s2 -> frame N s2 s3 -> frame N s1 s3.
Proof.
  revert s2 s3. induction s1 as [vs fs|vs fs up IH] using Scope_chain_ind;
    intros [vs2 fs2 [up2|]] [vs3 fs3 [up3|]] H12 H23;
    pose proof H12 as H12'; pose proof H23 as H23';
    simpl in H12, H23;
    destruct H12 as (Hf12 & Hk12 & Hv12 & Hu12);
    destruct H23 as (Hf23 & Hk23 & Hv23 & Hu23);
    try contradiction; simpl; (split; [congruence|]); (split; [auto|]).
  - split; [|exact I]. intros m.
    destruct (Hv12 m) as [E12|B12]; [|right; exact B12].
    destruct (Hv23 m) as [E23|[B23 Hn]]; [left; congruence|].
    right. split; [|exact Hn]. eapply frame_bound_back; eassumption.
  - split; [|eapply IH; eassumption]. intros m.
    destruct (Hv12 m) as [E12|B12]; [|right; exact B12].
    destruct (Hv23 m) as [E23|[B23 Hn]]; [left; congruence|].
    right. split; [|exact Hn]. eapply frame_bound_back; eassumption.
Qed.

Lemma parentsFrame_trans s1 s2 s3 :
  parentsFrame N s1 s2 -> parentsFrame N s2 s3 -> parentsFrame N s1 s3.
Proof.
  unfold parentsFrame.
  destruct (parent s1), (parent s2), (parent s3); try tauto.
  apply frame_trans.
Qed.

Lemma frame_SetVariable s s' name v :
  frame N s s' ->
  boundIn s (identName name) -> ~ N (identName name) ->
  frame N s (SetVariable s' name v).
Proof.
  destruct s as [vs fs up], s' as [vs' fs' up']. simpl.
  intros (Hf & Hkeep & Hvars & Hup) Hb Hn. repeat split; auto.
  - intros m Hm. destruct (decide (identName name = m)) as [<-|Hne].
    + rewrite lookup_insert_eq. eauto.
    + rewrite lookup_insert_ne by exact Hne. auto.
  - intros m. destruct (decide (identName name = m)) as [<-|Hne].
    + right. split; assumption.
    + rewrite lookup_insert_ne by exact Hne. apply Hvars.
Qed.

Lemma frame_withParent s s' up' up'' :
  frame N s s' -> parent s' = Some up' -> frame N up' up'' ->
  frame N s (withParent s' (Some up'')).
Proof.
  destruct s as [vs fs up], s' as [vs' fs' p']. simpl.
  intros (Hf & Hkeep & Hvars & Hup) -> Hupup. repeat split; auto.
  destruct up as [up|]; [|contradiction].
  eapply frame_trans; eassumption.
Qed.

Lemma frame_protected s s' m :
  frame N s s' -> N m -> variables s' !! m = variables s !! m.
Proof.
  destruct s, s'. simpl. intros (_ & _ & Hvars & _) Hn.
  destruct (Hvars m) as [E|[_ Hnot]]; [exact E|contradiction].
Qed.

Lemma functionsSafe_inv s :
  functionsSafe N s <->
  (forall k f, functions s !! k = Some (VFunction f) -> safeBlock N (Body f))
  /\ match parent s with
     | Some up => functionsSafe N up
     | None => True
     end.
Proof.
  unfold functionsSafe. destruct s as [vs fs [up|]]; simpl.
  - rewrite Forall_cons. reflexivity.
  - rewrite Forall_cons. split; [intros [H _]|intros [H _]]; split; auto.
Qed.

Lemma functionsSafe_frame s s' :
  frame N s s' -> functionsSafe N s -> functionsSafe N s'.
Proof.
  revert s'. induction s as [vs fs|vs fs up IH] using Scope_chain_ind;
    intros [vs' fs' [up'|]]; simpl; intros (Hf & _ & _ & Hup);
    try contradiction; rewrite !functionsSafe_inv; simpl; subst fs';
    intros [Hhere Hrest]; split; auto.
Qed.

Lemma functionsSafe_NewScope s :
  functionsSafe N s -> functionsSafe N (NewScope (Some s)).
Proof.
  intros H. apply functionsSafe_inv. simpl. split; [|exact H].
  intros k f Hk. rewrite lookup_empty in Hk. discriminate.
Qed.

Lemma functionsSafe_SetVariable s name v :
  functionsSafe N s -> functionsSafe N (SetVariable s name v).
Proof. rewrite !functionsSafe_inv. destruct s. simpl. auto. Qed.

Lemma functionsSafe_withParent s up :
  functionsSafe N s -> functionsSafe N up ->
  functionsSafe N (withParent s (Some up)).
Proof. rewrite !(functionsSafe_inv s), (functionsSafe_inv (withParent _ _)).
  destruct s. simpl. intros [H _] Hup. auto. Qed.

Lemma functionsSafe_parent s up :
  parent s = Some up -> functionsSafe N s -> functionsSafe N up.
Proof. intros Hp. rewrite (functionsSafe_inv s), Hp. tauto. Qed.

Lemma GetFunction_safe s identifier f :
  functionsSafe N s ->
  GetFunction s identifier = (VFunction f, true) ->
  safeBlock N (Body f).
Proof.
  induction s as [vs fs|vs fs up IH] using Scope_chain_ind;
    rewrite functionsSafe_inv; simpl; intros [Hhere Hrest];
    destruct (fs !! identName identifier) as [g|] eqn:E;
    try (intros [= ->]; eapply Hhere; eassumption); try discriminate.
  apply IH. exact Hrest.
Qed.

Lemma safeBlock_cons statement rest :
  safeBlock N (statement :: rest)
  <-> safeStatement N statement /\ safeBlock N rest.
Proof.
  unfold safeBlock, safeStatement. simpl. split.
  - intros H. split; intros m Hm; specialize (H m Hm);
      apply orb_false_iff in H; tauto.
  - intros [H1 H2] m Hm. rewrite (H1 m Hm), (H2 m Hm). reflexivity.
Qed.

Lemma safeStatement_target name value :
  safeStatement N (SVariable name value false) -> ~ N (identName name).
Proof.
  intros H Hn. specialize (H _ Hn). simpl in H.
  rewrite bool_decide_eq_false in H. contradiction.
Qed.

Section Components.

Context (rs : Statement -> Scope -> Stdout -> Evaluated)
        (re : Expression -> Scope -> Stdout -> Evaluated).
Hypothesis Hrs : StatementSpec N rs.
Hypothesis Hre : ExpressionSpec N re.

Lemma evalBlock_frame statements s o v s' o' :
  safeBlock N statements -> functionsSafe N s ->
  evalBlock rs statements s o = Done (v, s', o') ->
  parentsFrame N s s' /\ functionsSafe N s'.
Proof.
  revert s o. induction statements as [|statement rest IH]; intros s o;
    simpl; intros Hsafe Hfs H.
  - injection H as <- <- <-. split; [apply parentsFrame_refl|exact Hfs].
  - apply safeBlock_cons in Hsafe as [Hst Hrest].
    destruct (isNilStatement statement); [eapply IH; eassumption|].
    destruct (rs statement s o) as [[[r s1] o1]| |] eqn:E; simpl in H;
      try discriminate.
    destruct (Hrs _ _ _ _ _ _ Hst Hfs E) as [Hp1 Hfs1].
    destruct (isNil r).
    + destruct (IH _ _ Hrest Hfs1 H) as [Hp2 Hfs2].
      split; [eapply parentsFrame_trans; eassumption|exact Hfs2].
    + injection H as <- <- <-. split; assumption.
Qed.

Lemma evalBlockIn_frame statements newScope s o v s' o' :
  safeBlock N statements -> parent newScope = Some s ->
  functionsSafe N newScope ->
  evalBlockIn rs statements newScope s o = Done (v, s', o') ->
  frame N s s'.
Proof.
  intros Hsafe Hparent Hfs H. unfold evalBlockIn in H.
  destruct (evalBlock rs statements newScope o) as [[[r s1] o1]| |] eqn:E;
    simpl in H; try discriminate.
  injection H as <- <- <-.
  destruct (evalBlock_frame _ _ _ _ _ _ Hsafe Hfs E) as [Hp _].
  unfold parentsFrame in Hp. rewrite Hparent in Hp.
  unfold popScope, GetParent. destruct (parent s1); [exact Hp|contradiction].
Qed.

Lemma evalVariableLoop_frame n name value s o s' o' :
  ~ N (identName name) -> functionsSafe N s ->
  evalVariableLoop re n name value s o = Done (s', o') ->
  frame N s s'.
Proof.
  intros Hn. revert s o s' o'.
  induction n as [|n IH]; intros s o s' o' Hfs H; simpl in H;
    [discriminate|].
  assert (Hfirst : exists s2 o2,
             frame N s s2 /\
             match GetParent s2 with
             | None => Done (s2, o2)
             | Some up =>
                 '(up, out) ← evalVariableLoop re n name value up o2;
                 Done (withParent s2 (Some up), out)
             end = Done (s', o')).
  { destruct (GetVariable s name).2 eqn:G.
    - destruct (re value s o) as [[[v1 s1] o1]| |] eqn:E; simpl in H;
        try discriminate.
      exists (SetVariable s1 name v1), o1. split; [|exact H].
      apply frame_SetVariable; [eapply Hre; eassumption| |exact Hn].
      apply GetVariable_ok_iff. exact G.
    - exists s, o. split; [apply frame_refl|exact H]. }
  clear H. destruct Hfirst as (s2 & o2 & Hframe & H).
  unfold GetParent in H. destruct (parent s2) as [up|] eqn:Hup.
  - destruct (evalVariableLoop re n name value up o2) as [[up' o3]| |] eqn:E;
      simpl in H; try discriminate.
    injection H as <- <-.
    eapply frame_withParent; [exact Hframe|exact Hup|].
    eapply IH; [|exact E].
    eapply functionsSafe_parent; [exact Hup|].
    eapply functionsSafe_frame; eassumption.
  - injection H as <- <-. exact Hframe.
Qed.

Lemma frame_statement s s' :
  frame N s s' -> functionsSafe N s ->
  parentsFrame N s s' /\ functionsSafe N s'.
Proof.
  intros Hf Hfs. split; [apply frame_parents; exact Hf|].
  eapply functionsSafe_frame; eassumption.
Qed.

Lemma evalVariable_frame n name value isNew s o v s' o' :
  safeStatement N (SVariable name value isNew) -> functionsSafe N s ->
  evalVariable re n name value isNew s o = Done (v, s', o') ->
  parentsFrame N s s' /\ functionsSafe N s'.
Proof.
  intros Hsafe Hfs H. unfold evalVariable in H. destruct isNew.
  - destruct (re value s o) as [[[v1 s1] o1]| |] eqn:E; simpl in H;
      try discriminate.
    injection H as <- <- <-.
    pose proof (Hre _ _ _ _ _ _ Hfs E) as Hf.
    destruct (frame_statement _ _ Hf Hfs) as [Hp Hfs1]. split.
    + unfold parentsFrame in *. destruct s1. exact Hp.
    + apply functionsSafe_SetVariable. exact Hfs1.
  - destruct (evalVariableLoop re n name value s o) as [[s1 o1]| |] eqn:E;
      simpl in H; try discriminate.
    injection H as <- <- <-. apply frame_statement; [|exact Hfs].
    eapply evalVariableLoop_frame; [|exact Hfs|exact E].
    eapply safeStatement_target. exact Hsafe.
Qed.

Lemma safeStatement_if condition consequence alternative :
  safeStatement N (SIf condition consequence alternative) ->
  safeBlock N consequence
  /\ match alternative with
     | Some alternative => safeBlock N alternative
     | None => True
     end.
Proof.
  intros H. split.
  - intros m Hm. specialize (H m Hm). simpl in H.
    apply orb_false_iff in H. tauto.
  - destruct alternative as [alternative|]; [|exact I].
    intros m Hm. specialize (H m Hm). simpl in H.
    apply orb_false_iff in H. tauto.
Qed.

Lemma evalIf_frame condition consequence alternative s o v s' o' :
  safeStatement N (SIf condition consequence alternative) ->
  functionsSafe N s ->
  evalIf rs re condition consequence alternative s o = Done (v, s', o') ->
  frame N s s'.
Proof.
  intros Hsafe Hfs H. apply safeStatement_if in Hsafe as [Hc Ha].
  unfold evalIf in H.
  destruct (re condition s o) as [[[c s1] o1]| |] eqn:E; simpl in H;
    try discriminate.
  pose proof (Hre _ _ _ _ _ _ Hfs E) as Hf.
  pose proof (functionsSafe_frame _ _ Hf Hfs) as Hfs1.
  destruct c as [| [|] | | | | | | |]; try discriminate.
  - eapply frame_trans; [exact Hf|].
    eapply evalBlockIn_frame; [| | |exact H]; [exact Hc|reflexivity|].
    apply functionsSafe_NewScope. exact Hfs1.
  - destruct alternative as [alternative|].
    + eapply frame_trans; [exact Hf|].
      eapply evalBlockIn_frame; [| | |exact H]; [exact Ha|reflexivity|].
      apply functionsSafe_NewScope. exact Hfs1.
    + injection H as <- <- <-. exact Hf.
Qed.

Lemma evalWhile_frame n condition consequence s o v s' o' :
  safeBlock N consequence -> functionsSafe N s ->
  evalWhile rs re n condition consequence s o = Done (v, s', o') ->
  frame N s s'.
Proof.
  intros Hsafe. revert s o.
  induction n as [|n IH]; intros s o Hfs H; simpl in H; [discriminate|].
  destruct (re condition s o) as [[[c s1] o1]| |] eqn:E; simpl in H;
    try discriminate.
  pose proof (Hre _ _ _ _ _ _ Hfs E) as Hf.
  pose proof (functionsSafe_frame _ _ Hf Hfs) as Hfs1.
  destruct c as [| [|] | | | | | | |]; try discriminate.
  - destruct (evalBlockIn rs consequence (NewScope (Some s1)) s1 o1)
      as [[[r s2] o2]| |] eqn:Eb; simpl in H; try discriminate.
    assert (Hf2 : frame N s1 s2).
    { eapply evalBlockIn_frame; [| | |exact Eb]; [exact Hsafe|reflexivity|].
      apply functionsSafe_NewScope. exact Hfs1. }
    destruct (isNil r).
    + eapply frame_trans; [exact Hf|]. eapply frame_trans; [exact Hf2|].
      eapply IH; [|exact H]. eapply functionsSafe_frame; eassumption.
    + injection H as <- <- <-. eapply frame_trans; eassumption.
  - injection H as <- <- <-. exact Hf.
Qed.

Lemma evalForRange_frame pairs key value consequence s o v s' o' :
  safeBlock N consequence -> functionsSafe N s ->
  evalForRange rs pairs key value consequence s o = Done (v, s', o') ->
  frame N s s'.
Proof.
  intros Hsafe. revert s o.
  induction pairs as [|[k x] rest IH]; intros s o Hfs H; simpl in H.
  - injection H as <- <- <-. apply frame_refl.
  - match type of H with
    | context [evalBlockIn rs consequence ?ns s o] =>
        destruct (evalBlockIn rs consequence ns s o)
          as [[[r s1] o1]| |] eqn:Eb; simpl in H; try discriminate;
        assert (Hf : frame N s s1)
          by (eapply evalBlockIn_frame; [| | |exact Eb];
              [exact Hsafe|reflexivity|];
              do 2 apply functionsSafe_SetVariable;
              apply functionsSafe_NewScope; exact Hfs)
    end.
    destruct (isNil r).
    + eapply frame_trans; [exact Hf|].
      eapply IH; [|exact H]. eapply functionsSafe_frame; eassumption.
    + injection H as <- <- <-. exact Hf.
Qed.

Lemma evalFor_frame key value condition consequence s o v s' o' :
  safeBlock N consequence -> functionsSafe N s ->
  evalFor rs re key value condition consequence s o = Done (v, s', o') ->
  frame N s s'.
Proof.
  intros Hsafe Hfs H. unfold evalFor in H.
  destruct (re condition s o) as [[[c s1] o1]| |] eqn:E; simpl in H;
    try discriminate.
  pose proof (Hre _ _ _ _ _ _ Hfs E) as Hf.
  pose proof (functionsSafe_frame _ _ Hf Hfs) as Hfs1.
  destruct c; try (injection H as <- <- <-; exact Hf);
    (eapply frame_trans; [exact Hf|]);
    eapply evalForRange_frame; eassumption.
Qed.

Lemma evalStatementBody_frame n : StatementSpec N (evalStatementBody rs re n).
Proof.
  intros statement s o v s' o' Hsafe Hfs H.
  destruct statement
    as [name value isNew|condition consequence alternative
       |condition consequence|key value condition consequence
       |name parameters body|value|statements|expression]; simpl in H.
  - eapply evalVariable_frame; eassumption.
  - apply frame_statement; [|exact Hfs]. eapply evalIf_frame; eassumption.
  - apply frame_statement; [|exact Hfs].
    eapply evalWhile_frame; [|exact Hfs|exact H]. exact Hsafe.
  - apply frame_statement; [|exact Hfs].
    eapply evalFor_frame; [|exact Hfs|exact H]. exact Hsafe.
  - unfold evalFunction in H. injection H as <- <- <-. split.
    + unfold parentsFrame.
      destruct s as [vs fs [up|]]; simpl; [apply frame_refl|exact I].
    + apply functionsSafe_inv in Hfs as [Hhere Hrest].
      apply functionsSafe_inv. destruct s as [vs fs up]. simpl in *.
      split; [|exact Hrest]. intros k f Hk.
      destruct (decide (identName name = k)) as [<-|Hne].
      * rewrite lookup_insert_eq in Hk. injection Hk as <-. exact Hsafe.
      * rewrite lookup_insert_ne in Hk by exact Hne. eapply Hhere. exact Hk.
  - apply frame_statement; [|exact Hfs]. eapply Hre; eassumption.
  - apply frame_statement; [|exact Hfs].
    eapply evalBlockIn_frame; [| | |exact H]; [|reflexivity|].
    + exact Hsafe.
    + apply functionsSafe_NewScope. exact Hfs.
  - apply frame_statement; [|exact Hfs]. eapply Hre; eassumption.
Qed.

(** Takes the next callback into the expression dispatcher in [H] apart,
    and records the frame N it guarantees. *)
Ltac re_step H :=
  match type of H with
  | context [re ?e ?s ?o] =>
      let E := fresh "E" in
      let Hf := fresh "Hf" in
      let Hfs' := fresh "Hfs" in
      destruct (re e s o) as [[[? ?] ?]| |] eqn:E; simpl in H;
      try discriminate;
      match goal with
      | Hfs : functionsSafe N s |- _ =>
          pose proof (Hre _ _ _ _ _ _ Hfs E) as Hf;
          pose proof (functionsSafe_frame _ _ Hf Hfs) as Hfs'
      end
  end.

Ltac frame_chain := solve [eauto 6 using frame_trans, frame_refl].

Lemma evalList_frame items s o vs s' o' :
  functionsSafe N s ->
  evalList re items s o = Done (vs, s', o') -> frame N s s'.
Proof.
  revert s o vs. induction items as [|item rest IH]; intros s o vs Hfs H;
    simpl in H.
  - injection H as <- <- <-. apply frame_refl.
  - re_step H.
    destruct (evalList re rest s0 l) as [[[vs1 s2] o2]| |] eqn:Er;
      simpl in H; try discriminate.
    injection H as <- <- <-.
    eapply frame_trans; [eassumption|]. eapply IH; eassumption.
Qed.

Lemma evalMapLoop_frame items m s o m' s' o' :
  functionsSafe N s ->
  evalMapLoop re items m s o = Done (m', s', o') -> frame N s s'.
Proof.
  revert m s o. induction items as [|[key value] rest IH];
    intros m s o Hfs H; simpl in H.
  - injection H as <- <- <-. apply frame_refl.
  - re_step H. re_step H. destruct (hashable a); [|discriminate].
    eapply frame_trans; [eassumption|]. eapply frame_trans; [eassumption|].
    eapply IH; eassumption.
Qed.

Lemma evalCallLoop_frame parameters arguments newScope s o newScope' s' o' :
  functionsSafe N s -> functionsSafe N newScope -> parent newScope = Some s ->
  evalCallLoop re parameters arguments newScope s o
  = Done (newScope', s', o') ->
  frame N s s' /\ parent newScope' = Some s' /\ functionsSafe N newScope'.
Proof.
  revert parameters newScope s o.
  induction arguments as [|argument rest IH];
    intros [|parameter parameters] newScope s o Hfs Hfn Hparent H;
    simpl in H;
    try (injection H as <- <- <-; repeat split; auto using frame_refl).
  re_step H.
  apply IH in H as (Hf2 & Hp2 & Hfn2).
  - repeat split; try assumption. eapply frame_trans; eassumption.
  - assumption.
  - apply functionsSafe_SetVariable, functionsSafe_withParent; assumption.
  - destruct newScope. reflexivity.
Qed.

Lemma evalCall_frame identifier arguments s o v s' o' :
  functionsSafe N s ->
  evalCall rs re identifier arguments s o = Done (v, s', o') ->
  frame N s s'.
Proof.
  intros Hfs H. unfold evalCall in H.
  destruct (GetFunction s identifier) as [untyped ok] eqn:G.
  destruct ok; simpl in H; [|injection H as <- <- <-; apply frame_refl].
  destruct untyped as [| | | | | | | |function]; try discriminate.
  destruct (length (Parameters function) =? length arguments)%nat;
    simpl in H; [|injection H as <- <- <-; apply frame_refl].
  destruct (evalCallLoop re (Parameters function) arguments
              (NewScope (Some s)) s o) as [[[newScope s1] o1]| |] eqn:E;
    simpl in H; try discriminate.
  apply evalCallLoop_frame in E as (Hf1 & Hp1 & Hfn1);
    [|exact Hfs|apply functionsSafe_NewScope; exact Hfs|reflexivity].
  eapply frame_trans; [exact Hf1|].
  apply (evalBlockIn_frame (Body function) newScope s1 o1 v s' o');
    [|exact Hp1|exact Hfn1|exact H].
  exact (GetFunction_safe _ _ _ Hfs G).
Qed.

Lemma evalExpressionBody_frame : ExpressionSpec N (evalExpressionBody rs re).
Proof.
  intros e s o v s' o' Hfs H.
  destruct e as [|b|z|f|str|items|items|index subject|identifier arguments
                 |identifier|token operand|token lhs rhs|subject
                 |args isNewLine]; simpl in H;
    try (injection H as <- <- <-; apply frame_refl).
  - unfold evalArray in H.
    destruct (evalList re items s o) as [[[vs s1] o1]| |] eqn:E; simpl in H;
      try discriminate.
    injection H as <- <- <-. eapply evalList_frame; eassumption.
  - unfold evalMap in H.
    destruct (evalMapLoop re items [] s o) as [[[m s1] o1]| |] eqn:E;
      simpl in H; try discriminate.
    injection H as <- <- <-. eapply evalMapLoop_frame; eassumption.
  - unfold evalIndex in H. re_step H.
    destruct a; try (injection H as <- <- <-; assumption).
    + re_step H. destruct a; try discriminate.
      match type of H with
      | context [if ?c then _ else _] => destruct c; [|discriminate]
      end.
      injection H as <- <- <-. frame_chain.
    + re_step H. destruct (hashable a); [|discriminate].
      injection H as <- <- <-. frame_chain.
  - eapply evalCall_frame; eassumption.
  - unfold evalIdentifier in H.
    destruct (IsFunctionCall identifier); injection H as <- <- <-;
      apply frame_refl.
  - unfold evalUnaryOperation in H. re_step H.
    destruct a; try (injection H as <- <- <-; assumption);
      destruct (Token_Type token); injection H as <- <- <-; assumption.
  - unfold evalBinaryOperation in H. re_step H.
    destruct a; try (injection H as <- <- <-; assumption);
      re_step H;
      destruct a; try (injection H as <- <- <-; frame_chain).
    unfold evalBinaryOperationIntInt in H.
    destruct (Token_Type token); simpl in H;
      try (injection H as <- <- <-; frame_chain).
    destruct (n0 =? 0); simpl in H; [discriminate|].
    injection H as <- <- <-. frame_chain.
  - unfold evalLen in H. re_step H.
    destruct a; injection H as <- <- <-; assumption.
  - unfold evalPrint in H.
    destruct (evalList re args s o) as [[[vs s1] o1]| |] eqn:E; simpl in H;
      try discriminate.
    injection H as <- <- <-. eapply evalList_frame; eassumption.
Qed.

End Components.

(** The frame N holds of every evaluation that ends normally. *)
Lemma eval_frame fuel :
  StatementSpec N (evalStatement fuel)
  /\ ExpressionSpec N (evalExpression fuel).
Proof.
  induction fuel as [|fuel [IHs IHe]].
  - split; intros ? ? ? ? ? ?; simpl; intros; discriminate.
  - split.
    + apply evalStatementBody_frame; assumption.
    + apply evalExpressionBody_frame; assumption.
Qed.

End Frame.

(** ** Blocks and the enclosing scope *)

Lemma functionsSafe_noName s : functionsSafe noName s.
Proof.
  unfold functionsSafe. apply Forall_forall. intros s' _ k f _ m [].
Qed.

Lemma safeBlock_noName statements : safeBlock noName statements.
Proof. intros m []. Qed.

Lemma block_frame N fuel statements s o v s' o' :
  safeBlock N statements -> functionsSafe N s ->
  evalStatement fuel (SBlock statements) s o = Done (v, s', o') ->
  frame N s s'.
Proof.
  intros Hsafe Hfs H. destruct fuel as [|fuel]; [discriminate|].
  rewrite evalStatement_S in H. simpl in H.
  apply (evalBlockIn_frame N (evalStatement fuel) (proj1 (eval_frame N fuel))
           statements (NewScope (Some s)) s o v s' o');
    [exact Hsafe|reflexivity| |exact H].
  apply functionsSafe_NewScope. exact Hfs.
Qed.

Lemma frame_GetVariable N s s' identifier :
  frame N s s' -> N (identName identifier) ->
  GetVariable s' identifier = GetVariable s identifier.
Proof.
  intros Hf Hn. revert s' Hf.
  induction s as [vs fs|vs fs up IH] using Scope_chain_ind;
    intros [vs' fs' [up'|]] Hf; pose proof (frame_protected N _ _ _ Hf Hn) as E;
    simpl in Hf, E; destruct Hf as (_ & _ & _ & Hup); try contradiction;
    simpl; rewrite E; destruct (vs !! identName identifier); auto.
Qed.

Lemma frame_chain_protected N s s' m :
  frame N s s' -> N m ->
  Forall2 (fun a b => variables b !! m = variables a !! m)
          (chain s) (chain s').
Proof.
  intros Hf Hn. revert s' Hf.
  induction s as [vs fs|vs fs up IH] using Scope_chain_ind;
    intros [vs' fs' [up'|]] Hf; pose proof (frame_protected N _ _ _ Hf Hn) as E;
    simpl in Hf, E; destruct Hf as (_ & _ & _ & Hup); try contradiction;
    simpl; constructor; auto.
Qed.

Lemma literal_eval fuel e v s o :
  literalValue e = Some v -> evalExpression (S fuel) e s o = Done (v, s, o).
Proof. destruct e; simpl; intros [= <-]; reflexivity. Qed.

Lemma evalVariableLoop_literal re name value v :
  (forall s o, re value s o = Done (v, s, o)) ->
  forall s n o,
    (length (chain s) <= n)%nat ->
    evalVariableLoop re n name value s o = Done (assignAll name v s, o).
Proof.
  intros Hlit.
  induction s as [vs fs|vs fs up IH] using Scope_chain_ind;
    intros [|n] o Hn; simpl in Hn; try lia.
  - cbn [evalVariableLoop].
    destruct (GetVariable (mkScope vs fs None) name).2 eqn:G.
    + rewrite Hlit.
      cbn [mbind Outcome_bind GetParent SetVariable parent assignAll
           variables functions].
      rewrite G. reflexivity.
    + cbn [mbind Outcome_bind GetParent SetVariable parent assignAll
           variables functions].
      rewrite G. reflexivity.
  - cbn [evalVariableLoop].
    assert (Hrec : evalVariableLoop re n name value up o
                   = Done (assignAll name v up, o)) by (apply IH; lia).
    destruct (GetVariable (mkScope vs fs (Some up)) name).2 eqn:G.
    + rewrite Hlit.
      cbn [mbind Outcome_bind GetParent SetVariable parent variables
           functions].
      rewrite Hrec.
      cbn [mbind Outcome_bind assignAll parent variables functions
           withParent].
      rewrite G. reflexivity.
    + cbn [mbind Outcome_bind GetParent SetVariable parent variables
           functions].
      rewrite Hrec.
      cbn [mbind Outcome_bind assignAll parent variables functions
           withParent].
      rewrite G. reflexivity.
Qed.

Lemma assignAll_bound name v s :
  boundIn s (identName name) ->
  variables (assignAll name v s) !! identName name = Some v.
Proof.
  intros Hb. apply GetVariable_ok_iff in Hb.
  destruct s as [vs fs up]. cbn [assignAll variables]. rewrite Hb.
  apply lookup_insert_eq.
Qed.

Lemma assignAll_declaring name v s i a :
  chain s !! i = Some a ->
  is_Some (variables a !! identName name) ->
  exists b, chain (assignAll name v s) !! i = Some b
            /\ variables b !! identName name = Some v.
Proof.
  revert i. induction s as [vs fs|vs fs up IH] using Scope_chain_ind;
    intros [|i] Hi Ha; simpl in Hi; try discriminate.
  - injection Hi as <-. exists (assignAll name v (mkScope vs fs None)).
    split; [reflexivity|]. apply assignAll_bound, boundIn_here. exact Ha.
  - injection Hi as <-. exists (assignAll name v (mkScope vs fs (Some up))).
    split; [reflexivity|]. apply assignAll_bound, boundIn_here. exact Ha.
  - destruct (IH _ Hi Ha) as (b & Hb & Hv). exists b. split; [|exact Hv].
    exact Hb.
Qed.

Lemma evalVariableLoop_bound re n name value s o s' o' :
  (GetVariable s name).2 = true ->
  evalVariableLoop re n name value s o = Done (s', o') ->
  exists w s1 o1,
    re value s o = Done (w, s1, o1)
    /\ variables s' = <[identName name := w]> (variables s1).
Proof.
  intros G H. destruct n as [|n]; [discriminate|].
  cbn [evalVariableLoop] in H. rewrite G in H.
  destruct (re value s o) as [[[w s1] o1]| |] eqn:E;
    cbn [mbind Outcome_bind] in H; try discriminate.
  exists w, s1, o1. split; [reflexivity|].
  unfold GetParent in H. destruct s1 as [vs1 fs1 [up|]];
    cbn [SetVariable parent variables functions] in H.
  - destruct (evalVariableLoop re n name value up o1) as [[up' o2]| |];
      cbn [mbind Outcome_bind] in H; try discriminate.
    injection H as <- <-. reflexivity.
  - injection H as <- <-. reflexivity.
Qed.

Lemma var_in_block fuel name value rest s o v c1 o1 :
  evalExpression fuel value (NewScope (Some s)) o = Done (v, c1, o1) ->
  evalStatement (S (S fuel)) (SBlock (SVariable name value true :: rest)) s o
  = evalBlockIn (evalStatement (S fuel)) rest (SetVariable c1 name v) s o1.
Proof.
  intros E. rewrite evalStatement_S. cbn [evalStatementBody].
  unfold evalBlockIn. cbn [evalBlock isNilStatement].
  rewrite evalStatement_S. cbn [evalStatementBody evalVariable].
  rewrite E. reflexivity.
Qed.

Lemma block_keeps_unbound fuel statements s o v s' o' name :
  evalStatement fuel (SBlock statements) s o = Done (v, s', o') ->
  ~ boundIn s name -> ~ boundIn s' name.
Proof.
  intros H Hn Hb. apply Hn.
  eapply (frame_bound_back noName); [|exact Hb].
  eapply block_frame; [| |exact H].
  - apply safeBlock_noName.
  - apply functionsSafe_noName.
Qed.

Lemma reassign_in_block fuel name value s o v s' o' :
  boundIn s (identName name) ->
  evalStatement fuel (SBlock [SVariable name value false]) s o
  = Done (v, s', o') ->
  v = Nil
  /\ exists v1 c1 o1 w s2 o2,
      evalExpression (fuel - 2) value (NewScope (Some s)) o
      = Done (v1, c1, o1)
      /\ evalExpression (fuel - 2) value (popScope c1 s) o1
         = Done (w, s2, o2)
      /\ variables s' = <[identName name := w]> (variables s2).
Proof.
  intros Hb H. destruct fuel as [|[|fuel]]; try discriminate.
  replace (S (S fuel) - 2)%nat with fuel by lia.
  rewrite evalStatement_S in H. cbn [evalStatementBody] in H.
  unfold evalBlockIn in H. cbn [evalBlock isNilStatement] in H.
  rewrite evalStatement_S in H. cbn [evalStatementBody evalVariable] in H.
  destruct (evalVariableLoop (evalExpression fuel) fuel name value
              (NewScope (Some s)) o) as [[cr o3]| |] eqn:L;
    cbn [mbind Outcome_bind isNil evalBlock] in H; try discriminate.
  injection H as <- <- <-. split; [reflexivity|].
  destruct fuel as [|n]; [discriminate|].
  assert (G : (GetVariable (NewScope (Some s)) name).2 = true).
  { cbn [GetVariable NewScope variables parent]. rewrite lookup_empty.
    apply GetVariable_ok_iff. exact Hb. }
  cbn [evalVariableLoop] in L. rewrite G in L.
  destruct (evalExpression (S n) value (NewScope (Some s)) o)
    as [[[v1 c1] o1]| |] eqn:E1; cbn [mbind Outcome_bind] in L;
    try discriminate.
  pose proof (proj2 (eval_frame noName (S n)) _ _ _ _ _ _
                (functionsSafe_NewScope _ _ (functionsSafe_noName s)) E1)
    as Hf.
  apply frame_parents in Hf. unfold parentsFrame in Hf.
  cbn [NewScope parent] in Hf.
  unfold GetParent in L. destruct c1 as [vs1 fs1 [p1|]]; [|contradiction].
  cbn [SetVariable parent variables functions] in L, Hf.
  destruct (evalVariableLoop (evalExpression (S n)) n name value p1 o1)
    as [[p' o4]| |] eqn:L2; cbn [mbind Outcome_bind] in L; try discriminate.
  injection L as <- <-.
  destruct (evalVariableLoop_bound _ _ _ _ _ _ _ _
              (proj2 (GetVariable_ok_iff _ _)
                 (frame_bound_forth noName _ _ _ Hf Hb)) L2)
    as (w & s2 & o2 & E2 & Hvars).
  exists v1, (mkScope vs1 fs1 (Some p1)), o1, w, s2, o2.
  repeat split; assumption.
Qed.

Lemma reassign_literal_in_block fuel name value v s o :
  literalValue value = Some v ->
  (length (chain s) + 3 <= fuel)%nat ->
  evalStatement fuel (SBlock [SVariable name value false]) s o
  = Done (Nil, assignAll name v s, o).
Proof.
  intros Hlit Hfuel. destruct fuel as [|[|[|fuel]]]; try lia.
  rewrite evalStatement_S. cbn [evalStatementBody].
  unfold evalBlockIn. cbn [evalBlock isNilStatement].
  rewrite evalStatement_S. cbn [evalStatementBody evalVariable].
  rewrite (evalVariableLoop_literal (evalExpression (S fuel)) name value v).
  - reflexivity.
  - intros s0 o0. apply literal_eval. exact Hlit.
  - cbn [chain NewScope parent length]. lia.
Qed.

Lemma GetVariable_not_bound s identifier :
  ~ boundIn s (identName identifier) ->
  GetVariable s identifier = (Nil, false).
Proof.
  intros Hnot.
  assert (H : (GetVariable s identifier).2 = false).
  { destruct (GetVariable s identifier).2 eqn:G; [|reflexivity].
    exfalso. apply Hnot, GetVariable_ok_iff, G. }
  clear Hnot. revert H.
  induction s as [vs fs|vs fs up IH] using Scope_chain_ind; simpl;
    destruct (vs !! identName identifier); simpl; try discriminate; auto.
Qed.

(** The loop of [evalVariable] when the expression is a variable that no
    scope of the chain binds: the expression is nil in each of them. *)
Lemma evalVariableLoop_out_of_reach fuel name x :
  IsFunctionCall x = false ->
  forall s n o,
    (length (chain s) <= n)%nat ->
    ~ boundIn s (identName x) ->
    evalVariableLoop (evalExpression (S fuel)) n name (EIdentifier x) s o
    = Done (assignAll name Nil s, o).
Proof.
  intros Hcall.
  assert (Hnil : forall s o,
             ~ boundIn s (identName x) ->
             evalExpression (S fuel) (EIdentifier x) s o = Done (Nil, s, o)).
  { intros s o Hnot. rewrite evalExpression_S. cbn [evalExpressionBody].
    unfold evalIdentifier. rewrite Hcall.
    rewrite (GetVariable_not_bound s x Hnot). reflexivity. }
  induction s as [vs fs|vs fs up IH] using Scope_chain_ind;
    intros [|n] o Hn Hnot; simpl in Hn; try lia.
  - cbn [evalVariableLoop].
    destruct (GetVariable (mkScope vs fs None) name).2 eqn:G.
    + rewrite (Hnil _ _ Hnot).
      cbn [mbind Outcome_bind GetParent SetVariable parent assignAll
           variables functions].
      rewrite G. reflexivity.
    + cbn [mbind Outcome_bind GetParent SetVariable parent assignAll
           variables functions].
      rewrite G. reflexivity.
  - cbn [evalVariableLoop].
    assert (Hup : ~ boundIn up (identName x)).
    { intros Hb. apply Hnot. eapply boundIn_parent; [reflexivity|exact Hb]. }
    assert (Hrec : evalVariableLoop (evalExpression (S fuel)) n name
                     (EIdentifier x) up o
                   = Done (assignAll name Nil up, o)) by (apply IH; [lia|exact Hup]).
    destruct (GetVariable (mkScope vs fs (Some up)) name).2 eqn:G.
    + rewrite (Hnil _ _ Hnot).
      cbn [mbind Outcome_bind GetParent SetVariable parent variables
           functions].
      rewrite Hrec.
      cbn [mbind Outcome_bind assignAll parent variables functions
           withParent].
      rewrite G. reflexivity.
    + cbn [mbind Outcome_bind GetParent SetVariable parent variables
           functions].
      rewrite Hrec.
      cbn [mbind Outcome_bind assignAll parent variables functions
           withParent].
      rewrite G. reflexivity.
Qed.

(** A block that declares [local] and then assigns it to [name], which the
    enclosing scope resolves: the block goes on with [name] bound to the
    value in its own scope, over an enclosing chain in which every scope
    that resolved [name] now binds it to nil. *)
Lemma reassign_from_local fuel name local value v rest s o :
  literalValue value = Some v -> IsFunctionCall local = false ->
  identName local <> identName name ->
  boundIn s (identName name) -> ~ boundIn s (identName local) ->
  (length (chain s) <= fuel)%nat ->
  evalStatement (S (S (S fuel)))
    (SBlock (SVariable local value true
               :: SVariable name (EIdentifier local) false :: rest)) s o
  = evalBlockIn (evalStatement (S (S fuel))) rest
      (SetVariable
         (SetVariable (NewScope (Some (assignAll name Nil s))) local v)
         name v)
      s o.
Proof.
  intros Hlit Hcall Hne Hb Hnot Hfuel.
  rewrite evalStatement_S. cbn [evalStatementBody].
  unfold evalBlockIn. cbn [evalBlock isNilStatement].
  rewrite evalStatement_S. cbn [evalStatementBody evalVariable].
  rewrite (literal_eval fuel value v _ _ Hlit).
  cbn [mbind Outcome_bind isNil].
  rewrite evalStatement_S. cbn [evalStatementBody evalVariable].
  cbn [evalVariableLoop].
  assert (G : (GetVariable (SetVariable (NewScope (Some s)) local v) name).2
              = true).
  { cbn [GetVariable SetVariable NewScope variables parent].
    rewrite lookup_insert_ne by exact Hne. rewrite lookup_empty.
    apply GetVariable_ok_iff. exact Hb. }
  rewrite G.
  assert (E : evalExpression (S fuel) (EIdentifier local)
                (SetVariable (NewScope (Some s)) local v) o
              = Done (v, SetVariable (NewScope (Some s)) local v, o)).
  { rewrite evalExpression_S. cbn [evalExpressionBody].
    unfold evalIdentifier. rewrite Hcall.
    cbn [GetVariable SetVariable NewScope variables parent].
    rewrite lookup_insert_eq. reflexivity. }
  rewrite E.
  cbn [mbind Outcome_bind GetParent SetVariable NewScope parent variables
       functions].
  rewrite (evalVariableLoop_out_of_reach fuel name local Hcall s fuel o
             Hfuel Hnot).
  cbn [mbind Outcome_bind isNil withParent variables functions].
  reflexivity.
Qed.

Lemma literalValue_not_nil e v : literalValue e = Some v -> isNil v = false.
Proof. destruct e; simpl; intros [= <-]; reflexivity. Qed.

Lemma reassign_from_local_read fuel name local value v s o :
  literalValue value = Some v -> IsFunctionCall local = false ->
  IsFunctionCall name = false ->
  identName local <> identName name ->
  boundIn s (identName name) -> ~ boundIn s (identName local) ->
  (length (chain s) <= fuel)%nat ->
  evalStatement (S (S (S fuel)))
    (SBlock [SVariable local value true;
             SVariable name (EIdentifier local) false;
             SReturn (EIdentifier name)]) s o
  = Done (v, assignAll name Nil s, o).
Proof.
  intros Hlit Hcall Hname Hne Hb Hnot Hfuel.
  rewrite (reassign_from_local fuel name local value v _ s o Hlit Hcall Hne
             Hb Hnot Hfuel).
  unfold evalBlockIn. cbn [evalBlock isNilStatement].
  rewrite evalStatement_S. cbn [evalStatementBody]. unfold evalReturn.
  rewrite evalExpression_S. cbn [evalExpressionBody].
  unfold evalIdentifier. rewrite Hname.
  cbn [GetVariable SetVariable NewScope variables parent].
  rewrite lookup_insert_eq.
  cbn [mbind Outcome_bind fst]. rewrite (literalValue_not_nil _ _ Hlit).
  reflexivity.
Qed.

(** C8, on the code.  A block statement runs in a new scope whose parent is
    the enclosing scope; a [var] declaration at its head binds the name in
    that new scope, where the rest of the block runs; and whatever the
    block does, a name that did not resolve from the enclosing scope before
    the block does not resolve from it afterwards.  A name that neither the
    block nor the body of any function registered along the chain reassigns
    has, in every scope of the enclosing chain, the binding it had before,
    and resolves to what it resolved to.  A reassignment in a block of a
    name that resolves from the enclosing scope binds the name in the
    block's own scope to the value of the expression there, and binds it in
    the enclosing scope to the value the expression has when it is
    evaluated a second time, in the enclosing scope.  With a literal on the
    right the two agree, and every scope of the chain from which the name
    resolved holds the literal.  When the block assigns a variable it has
    declared itself, the two differ: the block goes on reading the value,
    and the enclosing scope, with every scope above it from which the name
    resolved, is left with nil.  The programs [{ var y = 1 } y],
    [var x = 0 { x = x + 1 } x] and
    [var x = 0 var z = 5 { var y = 1 x = 2 } z] yield nil, 1 and 5;
    [var x = 0 { var y = 5 x = y } x] yields nil, not 5. *)
Theorem C8_blocks_on_the_code :
  (forall fuel name value rest s o v c1 o1,
      evalExpression fuel value (NewScope (Some s)) o = Done (v, c1, o1) ->
      evalStatement (S (S fuel)) (SBlock (SVariable name value true :: rest))
        s o
      = evalBlockIn (evalStatement (S fuel)) rest (SetVariable c1 name v)
          s o1)
  /\ (forall fuel statements s o v s' o' name,
         evalStatement fuel (SBlock statements) s o = Done (v, s', o') ->
         ~ boundIn s name -> ~ boundIn s' name)
  /\ (forall fuel statements s o v s' o' name,
         existsb (reassigns name) statements = false ->
         Forall (fun a => forall k f,
                     functions a !! k = Some (VFunction f) ->
                     existsb (reassigns name) (Body f) = false)
                (chain s) ->
         evalStatement fuel (SBlock statements) s o = Done (v, s', o') ->
         Forall2 (fun a b => variables b !! name = variables a !! name)
                 (chain s) (chain s')
         /\ (forall identifier,
                identName identifier = name ->
                GetVariable s' identifier = GetVariable s identifier))
  /\ (forall fuel name value s o v s' o',
         boundIn s (identName name) ->
         evalStatement fuel (SBlock [SVariable name value false]) s o
         = Done (v, s', o') ->
         v = Nil
         /\ exists v1 c1 o1 w s2 o2,
             evalExpression (fuel - 2) value (NewScope (Some s)) o
             = Done (v1, c1, o1)
             /\ evalExpression (fuel - 2) value (popScope c1 s) o1
                = Done (w, s2, o2)
             /\ variables s' = <[identName name := w]> (variables s2))
  /\ (forall fuel name value v s o,
         literalValue value = Some v ->
         (length (chain s) + 3 <= fuel)%nat ->
         evalStatement fuel (SBlock [SVariable name value false]) s o
         = Done (Nil, assignAll name v s, o)
         /\ (boundIn s (identName name) ->
             variables (assignAll name v s) !! identName name = Some v)
         /\ (forall i a,
                chain s !! i = Some a ->
                is_Some (variables a !! identName name) ->
                exists b, chain (assignAll name v s) !! i = Some b
                          /\ variables b !! identName name = Some v))
  /\ (forall fuel name local value v s o,
         literalValue value = Some v -> IsFunctionCall local = false ->
         identName local <> identName name ->
         boundIn s (identName name) -> ~ boundIn s (identName local) ->
         (length (chain s) <= fuel)%nat ->
         (forall rest,
             evalStatement (S (S (S fuel)))
               (SBlock (SVariable local value true
                          :: SVariable name (EIdentifier local) false
                          :: rest)) s o
             = evalBlockIn (evalStatement (S (S fuel))) rest
                 (SetVariable
                    (SetVariable (NewScope (Some (assignAll name Nil s)))
                       local v)
                    name v)
                 s o)
         /\ evalStatement (S (S (S fuel)))
              (SBlock [SVariable local value true;
                       SVariable name (EIdentifier local) false]) s o
            = Done (Nil, assignAll name Nil s, o)
         /\ variables (assignAll name Nil s) !! identName name = Some Nil
         /\ GetVariable (assignAll name Nil s) name = (Nil, true)
         /\ (IsFunctionCall name = false ->
             evalStatement (S (S (S fuel)))
               (SBlock [SVariable local value true;
                        SVariable name (EIdentifier local) false;
                        SReturn (EIdentifier name)]) s o
             = Done (v, assignAll name Nil s, o)))
  /\ (forall ParseFloat,
         valueAndOutput (Eval ParseFloat 10 declaredInBlock (NewScope None) [])
         = Some (Nil, [])
         /\ valueAndOutput
              (Eval ParseFloat 10 reassignedInBlock (NewScope None) [])
            = Some (VInt64 1, [])
         /\ valueAndOutput
              (Eval ParseFloat 10 untouchedByBlock (NewScope None) [])
            = Some (VInt64 5, [])
         /\ valueAndOutput
              (Eval ParseFloat 10 reassignedFromLocal (NewScope None) [])
            = Some (Nil, [])).
Proof.
  repeat apply conj.
  - exact var_in_block.
  - exact block_keeps_unbound.
  - intros fuel statements s o v s' o' name Hblock Hfuns H.
    assert (Hf : frame (fun m => m = name) s s').
    { eapply block_frame; [| |exact H].
      - intros m ->. exact Hblock.
      - unfold functionsSafe. eapply Forall_impl; [exact Hfuns|].
        intros a Ha k f Hk m ->. eapply Ha. exact Hk. }
    split.
    + eapply frame_chain_protected; [exact Hf|reflexivity].
    + intros identifier Hid. eapply frame_GetVariable; [exact Hf|exact Hid].
  - exact reassign_in_block.
  - intros fuel name value v s o Hlit Hfuel. repeat apply conj.
    + apply reassign_literal_in_block; assumption.
    + apply assignAll_bound.
    + apply assignAll_declaring.
  - intros fuel name local value v s o Hlit Hcall Hne Hb Hnot Hfuel.
    assert (Hhere : variables (assignAll name Nil s) !! identName name
                    = Some Nil) by (apply assignAll_bound; exact Hb).
    repeat apply conj.
    + intros rest. apply reassign_from_local; assumption.
    + rewrite (reassign_from_local fuel name local value v [] s o)
        by assumption.
      reflexivity.
    + exact Hhere.
    + destruct (assignAll name Nil s) as [vs fs up].
      cbn [GetVariable variables] in *. rewrite Hhere. reflexivity.
    + intros Hname. apply reassign_from_local_read; assumption.
  - intros ParseFloat. repeat apply conj; vm_compute; reflexivity.
Qed.

(** In the root scope that binds [x] to 0: the block [{ x = 2 }] leaves [x]
    at 2, and [y] as unbound as it was; the block [{ var y = 5 x = y }]
    leaves [x] at nil, and with [return x] at its end yields 5. *)
Lemma C8_blocks_on_the_code_witness :
  ~ boundIn rootWithX "y"
  /\ boundIn rootWithX "x"
  /\ evalStatement 4
       (SBlock [SVariable (ident "x" false) (EInteger 2) false]) rootWithX []
     = Done (Nil, assignAll (ident "x" false) (VInt64 2) rootWithX, [])
  /\ variables (assignAll (ident "x" false) (VInt64 2) rootWithX)
       !! "x"%string
     = Some (VInt64 2)
  /\ ~ boundIn (assignAll (ident "x" false) (VInt64 2) rootWithX) "y"
  /\ GetVariable (assignAll (ident "x" false) (VInt64 2) rootWithX)
       (ident "y" false)
     = GetVariable rootWithX (ident "y" false)
  /\ evalStatement 4
       (SBlock [SVariable (ident "y" false) (EInteger 5) true;
                SVariable (ident "x" false) (EIdentifier (ident "y" false))
                  false]) rootWithX []
     = Done (Nil, mkScope {[ "x"%string := Nil ]} ∅ None, [])
  /\ evalStatement 4
       (SBlock [SVariable (ident "y" false) (EInteger 5) true;
                SVariable (ident "x" false) (EIdentifier (ident "y" false))
                  false;
                SReturn (EIdentifier (ident "x" false))]) rootWithX []
     = Done (VInt64 5, mkScope {[ "x"%string := Nil ]} ∅ None, []).
Proof.
  destruct C8_blocks_on_the_code
    as (_ & Hunbound & Hframe & _ & Hliteral & Hlocal & _).
  assert (Hy : ~ boundIn rootWithX "y").
  { intros H. apply boundIn_inv in H as [[v Hv]|(up & Hup & _)];
      [vm_compute in Hv|]; discriminate. }
  assert (Hx : boundIn rootWithX "x").
  { apply boundIn_here. exists (VInt64 0). reflexivity. }
  destruct (Hliteral 4%nat (ident "x" false) (EInteger 2) (VInt64 2)
              rootWithX [] eq_refl) as (Hrun & Hbound & _);
    [simpl; lia|].
  destruct (Hlocal 1%nat (ident "x" false) (ident "y" false) (EInteger 5)
              (VInt64 5) rootWithX [] eq_refl eq_refl)
    as (_ & Hblock & _ & _ & Hread);
    [discriminate|exact Hx|exact Hy|simpl; lia|].
  repeat apply conj.
  - exact Hy.
  - exact Hx.
  - exact Hrun.
  - apply Hbound. exact Hx.
  - exact (Hunbound _ _ _ _ _ _ _ "y"%string Hrun Hy).
  - assert (Hfuns : Forall (fun a => forall k f,
                                functions a !! k = Some (VFunction f) ->
                                existsb (reassigns "y") (Body f) = false)
                           (chain rootWithX)).
    { simpl. constructor; [|constructor]. intros k f Hk. simpl in Hk.
      rewrite lookup_empty in Hk. discriminate. }
    apply (proj2 (Hframe 4%nat
                    [SVariable (ident "x" false) (EInteger 2) false]
                    rootWithX [] Nil _ [] "y"%string eq_refl Hfuns Hrun)).
    reflexivity.
  - rewrite Hblock. vm_compute. reflexivity.
  - rewrite (Hread eq_refl). vm_compute. reflexivity.
Defined.

(** ** Reassignment *)

Lemma evalVariableLoop_unbound re name value :
  forall s n o,
    (length (chain s) <= n)%nat ->
    ~ boundIn s (identName name) ->
    evalVariableLoop re n name value s o = Done (s, o).
Proof.
  induction s as [vs fs|vs fs up IH] using Scope_chain_ind;
    intros [|n] o Hn Hnot; simpl in Hn; try lia;
    cbn [evalVariableLoop];
    (destruct (GetVariable _ name).2 eqn:G;
     [apply GetVariable_ok_iff in G; contradiction|]);
    cbn [mbind Outcome_bind GetParent parent]; [reflexivity|].
  rewrite IH; [reflexivity|lia|].
  intros Hb. apply Hnot. eapply boundIn_parent; [reflexivity|exact Hb].
Qed.

(** A reassignment of a name that no scope of the chain binds ends normally
    with nil and changes nothing, whatever the expression on its right,
    which is not evaluated. *)
Lemma reassign_unbound_dropped fuel name value s o :
  (length (chain s) < fuel)%nat ->
  ~ boundIn s (identName name) ->
  evalStatement fuel (SVariable name value false) s o = Done (Nil, s, o).
Proof.
  intros Hfuel Hnot. destruct fuel as [|fuel]; [lia|].
  rewrite evalStatement_S. cbn [evalStatementBody evalVariable].
  rewrite evalVariableLoop_unbound; [reflexivity|lia|exact Hnot].
Qed.

(** C1, on the code.  The loop of [evalVariable] tests at each scope of the
    chain whether the name resolves from there, not whether that scope
    declares it, and goes on to the parent after a write.  So a
    reassignment with a literal on its right binds the name in every scope
    from which it resolves, the scopes above the nearest declaring one
    included; in the first program the root's [x], shadowed by the block's
    own [x], ends as 2.  The expression is evaluated anew for each of these
    scopes, and in that scope: in the second program the root's [x] ends as
    nil, [y] being out of reach from the root, and in the third [println]
    is called twice.  Only when the name resolves nowhere is nothing
    changed. *)
Theorem C1_reassignment_on_the_code :
  (forall fuel name value v s o,
      literalValue value = Some v ->
      (length (chain s) < fuel)%nat ->
      evalStatement fuel (SVariable name value false) s o
      = Done (Nil, assignAll name v s, o))
  /\ (forall fuel name value s o,
         (length (chain s) < fuel)%nat ->
         ~ boundIn s (identName name) ->
         evalStatement fuel (SVariable name value false) s o
         = Done (Nil, s, o))
  /\ (forall ParseFloat,
         valueAndOutput
           (Eval ParseFloat 10 shadowedReassigned (NewScope None) [])
         = Some (VInt64 2, [])
         /\ valueAndOutput
              (Eval ParseFloat 10 reassignedFromLocal (NewScope None) [])
            = Some (Nil, [])
         /\ valueAndOutput
              (Eval ParseFloat 10 reassignedToPrint (NewScope None) [])
            = Some (Nil, [mkPrinted [VInt64 7] true;
                          mkPrinted [VInt64 7] true])).
Proof.
  repeat apply conj.
  - intros fuel name value v s o Hlit Hfuel.
    destruct fuel as [|[|fuel]]; simpl in Hfuel; try lia.
    + destruct s as [? ? [?|]]; simpl in Hfuel; lia.
    + rewrite evalStatement_S. cbn [evalStatementBody evalVariable].
      rewrite (evalVariableLoop_literal (evalExpression (S fuel)) name
                 value v); [reflexivity| |lia].
      intros s0 o0. apply literal_eval. exact Hlit.
  - exact reassign_unbound_dropped.
  - intros ParseFloat. repeat apply conj; vm_compute; reflexivity.
Qed.

Lemma C1_reassignment_on_the_code_witness :
  ~ boundIn rootWithX "y"
  /\ evalStatement 2 (SVariable (ident "y" false) (EInteger 1) false)
       rootWithX []
     = Done (Nil, rootWithX, [])
  /\ evalStatement 2 (SVariable (ident "x" false) (EInteger 1) false)
       rootWithX []
     = Done (Nil, mkScope {[ "x"%string := VInt64 1 ]} ∅ None, []).
Proof.
  destruct C1_reassignment_on_the_code as (Hall & Hdropped & _).
  assert (Hy : ~ boundIn rootWithX "y").
  { intros H. apply boundIn_inv in H as [[v Hv]|(up & Hup & _)];
      [vm_compute in Hv|]; discriminate. }
  repeat apply conj.
  - exact Hy.
  - apply (Hdropped 2%nat (ident "y" false) (EInteger 1) rootWithX []);
      [simpl; lia|exact Hy].
  - rewrite (Hall 2%nat (ident "x" false) (EInteger 1) (VInt64 1)
               rootWithX [] eq_refl); [reflexivity|simpl; lia].
Defined.

(** * Further properties of the code *)

(** ** Scopes: resolution and update *)

Lemma GetVariable_found_inv s identifier v :
  GetVariable s identifier = (v, true) ->
  exists i a,
    chain s !! i = Some a
    /\ variables a !! identName identifier = Some v
    /\ forall j b, (j < i)%nat -> chain s !! j = Some b ->
                   variables b !! identName identifier = None.
Proof.
  induction s as [vs fs|vs fs up IH] using Scope_chain_ind; simpl;
    destruct (vs !! identName identifier) as [w|] eqn:E.
  - intros [= ->]. exists 0%nat, (mkScope vs fs None).
    repeat split; [exact E|]. intros j b Hj. lia.
  - discriminate.
  - intros [= ->]. exists 0%nat, (mkScope vs fs (Some up)).
    repeat split; [exact E|]. intros j b Hj. lia.
  - intros H. destruct (IH H) as (i & a & Hi & Ha & Hbefore).
    exists (S i), a. repeat split; [exact Hi|exact Ha|].
    intros [|j] b Hj Hb; simpl in Hb.
    + injection Hb as <-. exact E.
    + eapply Hbefore; [|exact Hb]. lia.
Qed.

Lemma GetVariable_found_intro s identifier v i a :
  chain s !! i = Some a ->
  variables a !! identName identifier = Some v ->
  (forall j b, (j < i)%nat -> chain s !! j = Some b ->
               variables b !! identName identifier = None) ->
  GetVariable s identifier = (v, true).
Proof.
  revert i. induction s as [vs fs|vs fs up IH] using Scope_chain_ind;
    intros [|i] Hi Ha Hbefore; simpl in Hi; try discriminate.
  - injection Hi as <-. simpl in *. rewrite Ha. reflexivity.
  - injection Hi as <-. simpl in *. rewrite Ha. reflexivity.
  - pose proof (Hbefore 0%nat (mkScope vs fs (Some up))
                  ltac:(lia) eq_refl) as E0.
    simpl in E0. simpl. rewrite E0.
    apply (IH i); [exact Hi|exact Ha|].
    intros j b Hj Hb. apply (Hbefore (S j) b); [lia|exact Hb].
Qed.

Lemma GetFunction_found_inv s identifier v :
  GetFunction s identifier = (v, true) ->
  exists i a,
    chain s !! i = Some a
    /\ functions a !! identName identifier = Some v
    /\ forall j b, (j < i)%nat -> chain s !! j = Some b ->
                   functions b !! identName identifier = None.
Proof.
  induction s as [vs fs|vs fs up IH] using Scope_chain_ind; simpl;
    destruct (fs !! identName identifier) as [w|] eqn:E.
  - intros [= ->]. exists 0%nat, (mkScope vs fs None).
    repeat split; [exact E|]. intros j b Hj. lia.
  - discriminate.
  - intros [= ->]. exists 0%nat, (mkScope vs fs (Some up)).
    repeat split; [exact E|]. intros j b Hj. lia.
  - intros H. destruct (IH H) as (i & a & Hi & Ha & Hbefore).
    exists (S i), a. repeat split; [exact Hi|exact Ha|].
    intros [|j] b Hj Hb; simpl in Hb.
    + injection Hb as <-. exact E.
    + eapply Hbefore; [|exact Hb]. lia.
Qed.

Lemma GetFunction_found_intro s identifier v i a :
  chain s !! i = Some a ->
  functions a !! identName identifier = Some v ->
  (forall j b, (j < i)%nat -> chain s !! j = Some b ->
               functions b !! identName identifier = None) ->
  GetFunction s identifier = (v, true).
Proof.
  revert i. induction s as [vs fs|vs fs up IH] using Scope_chain_ind;
    intros [|i] Hi Ha Hbefore; simpl in Hi; try discriminate.
  - injection Hi as <-. simpl in *. rewrite Ha. reflexivity.
  - injection Hi as <-. simpl in *. rewrite Ha. reflexivity.
  - pose proof (Hbefore 0%nat (mkScope vs fs (Some up))
                  ltac:(lia) eq_refl) as E0.
    simpl in E0. simpl. rewrite E0.
    apply (IH i); [exact Hi|exact Ha|].
    intros j b Hj Hb. apply (Hbefore (S j) b); [lia|exact Hb].
Qed.

(** X1. A lookup in a scope finds the binding of the nearest scope of the
    chain that holds the name: [GetVariable] reports a value as found
    exactly when some scope of the chain binds the name to it and no scope
    nearer than that one binds the name at all.  The same holds of
    [GetFunction] and the function tables. *)
Theorem X1_lookup_finds_nearest :
  (forall s identifier v,
      GetVariable s identifier = (v, true)
      <-> exists i a,
          chain s !! i = Some a
          /\ variables a !! identName identifier = Some v
          /\ forall j b, (j < i)%nat -> chain s !! j = Some b ->
                         variables b !! identName identifier = None)
  /\ (forall s identifier v,
         GetFunction s identifier = (v, true)
         <-> exists i a,
             chain s !! i = Some a
             /\ functions a !! identName identifier = Some v
             /\ forall j b, (j < i)%nat -> chain s !! j = Some b ->
                            functions b !! identName identifier = None).
Proof.
  split; intros s identifier v; split.
  - apply GetVariable_found_inv.
  - intros (i & a & Hi & Ha & Hbefore).
    eapply GetVariable_found_intro; eassumption.
  - apply GetFunction_found_inv.
  - intros (i & a & Hi & Ha & Hbefore).
    eapply GetFunction_found_intro; eassumption.
Qed.

Lemma X1_lookup_finds_nearest_witness :
  GetVariable shadowingChain (ident "x" false) = (VInt64 1, true).
Proof.
  apply (proj2 (proj1 X1_lookup_finds_nearest shadowingChain
                  (ident "x" false) (VInt64 1))).
  exists 1%nat, (mkScope {[ "x"%string := VInt64 1 ]} ∅
                   (Some (mkScope {[ "x"%string := VInt64 0 ]} ∅ None))).
  repeat split.
  intros [|j] b Hj Hb; [|lia]. injection Hb as <-. reflexivity.
Defined.

(** X2. Binding a name and looking it up: after [SetVariable] a lookup of
    the same name from that scope finds the new value, whatever the chain
    held, and a lookup of any other name finds what it found before; the
    scopes above are not touched.  Variables and functions are two
    namespaces: [SetVariable] leaves every function lookup as it was and
    [SetFunction] every variable lookup, so a variable and a function may
    share a name.  A new scope resolves every name as its parent does, and a
    new root scope resolves none. *)
Theorem X2_set_then_get :
  (forall s identifier v identifier',
      GetVariable (SetVariable s identifier v) identifier'
      = if decide (identName identifier = identName identifier')
        then (v, true) else GetVariable s identifier')
  /\ (forall s identifier v identifier',
         GetFunction (SetFunction s identifier v) identifier'
         = if decide (identName identifier = identName identifier')
           then (v, true) else GetFunction s identifier')
  /\ (forall s identifier v identifier',
         GetFunction (SetVariable s identifier v) identifier'
         = GetFunction s identifier'
         /\ GetVariable (SetFunction s identifier v) identifier'
            = GetVariable s identifier')
  /\ (forall s identifier v,
         GetParent (SetVariable s identifier v) = GetParent s
         /\ GetParent (SetFunction s identifier v) = GetParent s)
  /\ (forall s identifier,
         GetVariable (NewScope (Some s)) identifier = GetVariable s identifier
         /\ GetFunction (NewScope (Some s)) identifier
            = GetFunction s identifier
         /\ GetVariable (NewScope None) identifier = (Nil, false)
         /\ GetFunction (NewScope None) identifier = (Nil, false)).
Proof.
  repeat apply conj.
  - intros [vs fs up] identifier v identifier'. simpl.
    destruct (decide (identName identifier = identName identifier'))
      as [E|E].
    + rewrite E, lookup_insert_eq. reflexivity.
    + rewrite lookup_insert_ne by exact E. destruct up; reflexivity.
  - intros [vs fs up] identifier v identifier'. simpl.
    destruct (decide (identName identifier = identName identifier'))
      as [E|E].
    + rewrite E, lookup_insert_eq. reflexivity.
    + rewrite lookup_insert_ne by exact E. destruct up; reflexivity.
  - intros [vs fs up] identifier v identifier'. split; destruct up;
      reflexivity.
  - intros [vs fs up] identifier v. split; reflexivity.
  - intros s identifier. repeat apply conj; simpl;
      rewrite ?lookup_empty; reflexivity.
Qed.

(** ** Operators: edges *)

Lemma evalUnaryOperation_operand fuel token operand s o t s1 o1 :
  evalExpression fuel operand s o = Done (t, s1, o1) ->
  evalExpression (S fuel) (EUnaryOperation token operand) s o =
  match t with
  | VBool t =>
      match Token_Type token with
      | NOT => Done (VBool (negb t), s1, o1)
      | _ => Done (Nil, s1, o1)
      end
  | VInt64 t =>
      match Token_Type token with
      | PLUS => Done (VInt64 t, s1, o1)
      | MINUS => Done (VInt64 (wrap64 (-1 * t)), s1, o1)
      | _ => Done (Nil, s1, o1)
      end
  | VFloat64 t =>
      match Token_Type token with
      | PLUS => Done (VFloat64 t, s1, o1)
      | MINUS =>
          Done (VFloat64 (PrimFloat.mul (PrimFloat.opp PrimFloat.one) t),
                s1, o1)
      | _ => Done (Nil, s1, o1)
      end
  | _ => Done (Nil, s1, o1)
  end.
Proof.
  intros H. rewrite evalExpression_S. simpl. unfold evalUnaryOperation.
  rewrite H. reflexivity.
Qed.

Lemma wrap64_range z : MinInt64 <= wrap64 z <= MaxInt64.
Proof.
  unfold wrap64, MinInt64, MaxInt64.
  pose proof (Z.mod_pos_bound (z + 2 ^ 63) (2 ^ 64) ltac:(lia)). lia.
Qed.

Lemma wrap64_negate n :
  MinInt64 <= n <= MaxInt64 ->
  wrap64 (-1 * n) = if decide (n = MinInt64) then MinInt64 else - n.
Proof.
  intros Hn. destruct (decide (n = MinInt64)) as [->|Hne].
  - reflexivity.
  - rewrite wrap64_id; unfold MinInt64, MaxInt64 in *; lia.
Qed.

(** X3. Unary operators.  On an int64, [-] yields the negation, except that
    the negation of the least int64 is the least int64 again; applied twice
    it gives back every int64.  [!] on a bool yields its complement, and
    twice the bool itself.  An operand that is not a bool, an int64 or a
    float64 (nil, a string, an array, a map, a host int) makes the
    operation nil under every operator, and so do [!] on a number and [+]
    or [-] on a bool; none of these panics. *)
Theorem X3_unary_operators :
  (forall fuel token operand s o n s1 o1,
      Token_Type token = MINUS ->
      evalExpression fuel operand s o = Done (VInt64 n, s1, o1) ->
      MinInt64 <= n <= MaxInt64 ->
      evalExpression (S fuel) (EUnaryOperation token operand) s o
      = Done (VInt64 (if decide (n = MinInt64) then MinInt64 else - n),
              s1, o1)
      /\ evalExpression (S (S fuel))
           (EUnaryOperation token (EUnaryOperation token operand)) s o
         = Done (VInt64 n, s1, o1))
  /\ (forall fuel token operand s o b s1 o1,
         Token_Type token = NOT ->
         evalExpression fuel operand s o = Done (VBool b, s1, o1) ->
         evalExpression (S fuel) (EUnaryOperation token operand) s o
         = Done (VBool (negb b), s1, o1)
         /\ evalExpression (S (S fuel))
              (EUnaryOperation token (EUnaryOperation token operand)) s o
            = Done (VBool b, s1, o1))
  /\ (forall fuel token operand s o t s1 o1,
         evalExpression fuel operand s o = Done (t, s1, o1) ->
         kindOf t ∉ [KBool; KInt64; KFloat64]
         \/ (kindOf t = KBool /\ Token_Type token <> NOT)
         \/ (kindOf t ∈ [KInt64; KFloat64]
             /\ Token_Type token ∉ [PLUS; MINUS]) ->
         evalExpression (S fuel) (EUnaryOperation token operand) s o
         = Done (Nil, s1, o1)).
Proof.
  repeat apply conj.
  - intros fuel token operand s o n s1 o1 Hop He Hn.
    assert (H1 : evalExpression (S fuel) (EUnaryOperation token operand) s o
                 = Done (VInt64 (if decide (n = MinInt64) then MinInt64
                                 else - n), s1, o1)).
    { rewrite (evalUnaryOperation_operand _ _ _ _ _ _ _ _ He), Hop.
      rewrite wrap64_negate by exact Hn. reflexivity. }
    split; [exact H1|].
    rewrite (evalUnaryOperation_operand _ _ _ _ _ _ _ _ H1), Hop.
    assert (wrap64 (-1 * (if decide (n = MinInt64) then MinInt64 else - n))
            = n) as ->; [|reflexivity].
    destruct (decide (n = MinInt64)) as [->|Hne]; [reflexivity|].
    rewrite wrap64_id; unfold MinInt64, MaxInt64 in *; lia.
  - intros fuel token operand s o b s1 o1 Hop He.
    assert (H1 : evalExpression (S fuel) (EUnaryOperation token operand) s o
                 = Done (VBool (negb b), s1, o1)).
    { rewrite (evalUnaryOperation_operand _ _ _ _ _ _ _ _ He), Hop.
      reflexivity. }
    split; [exact H1|].
    rewrite (evalUnaryOperation_operand _ _ _ _ _ _ _ _ H1), Hop.
    rewrite negb_involutive. reflexivity.
  - intros fuel token operand s o t s1 o1 He Hcase.
    rewrite (evalUnaryOperation_operand _ _ _ _ _ _ _ _ He).
    destruct Hcase as [Hk|[[Hk Hop]|[Hk Hop]]].
    + destruct t; try reflexivity; exfalso; apply Hk; simpl; elem_of_find.
    + destruct t; try discriminate.
      destruct (Token_Type token); try reflexivity. congruence.
    + destruct t; simpl in Hk; try (elem_of_contra Hk);
        destruct (Token_Type token); try reflexivity;
        exfalso; apply Hop; elem_of_find.
Qed.

Lemma X3_unary_operators_witness :
  evalExpression 3
    (EUnaryOperation (NewToken MINUS "-")
       (EUnaryOperation (NewToken MINUS "-") (EInteger 5)))
    (NewScope None) []
  = Done (VInt64 5, NewScope None, [])
  /\ evalExpression 2 (EUnaryOperation (NewToken NOT "!") (EString "a"))
       (NewScope None) []
     = Done (Nil, NewScope None, []).
Proof.
  destruct X3_unary_operators as (Hminus & _ & Hnil). split.
  - apply (Hminus 1%nat (NewToken MINUS "-") (EInteger 5) (NewScope None) []
             5 (NewScope None) [] eq_refl eq_refl).
    unfold MinInt64, MaxInt64. lia.
  - apply (Hnil 1%nat (NewToken NOT "!") (EString "a") (NewScope None) []
             (VString "a") (NewScope None) [] eq_refl).
    left. simpl. intros H. elem_of_contra H.
Defined.

(** X4. Arithmetic on two int64 values.  Whatever the operator, an integer
    result is an int64.  When the sum, difference or product of the
    operands is itself an int64, [+], [-] and [*] yield exactly it;
    otherwise they yield it reduced modulo 2^64 into the int64 range, with
    no panic.  The six comparisons are those of the integers. *)
Theorem X4_int64_arithmetic :
  (forall l r token v,
      evalBinaryOperationIntInt l r token = Done (VInt64 v) ->
      MinInt64 <= v <= MaxInt64)
  /\ (forall l r token,
         Token_Type token ∈ [PLUS; MINUS; ASTERISK] ->
         let exact :=
           match Token_Type token with
           | PLUS => l + r
           | MINUS => l - r
           | _ => l * r
           end in
         evalBinaryOperationIntInt l r token = Done (VInt64 (wrap64 exact))
         /\ (MinInt64 <= exact <= MaxInt64 ->
             evalBinaryOperationIntInt l r token = Done (VInt64 exact)))
  /\ (forall l r token,
         Token_Type token ∈ comparisons ->
         evalBinaryOperationIntInt l r token
         = Done (VBool
                   match Token_Type token with
                   | LT => bool_decide (l < r)
                   | GT => bool_decide (r < l)
                   | LEQ => bool_decide (l <= r)
                   | GEQ => bool_decide (r <= l)
                   | EQ => bool_decide (l = r)
                   | _ => bool_decide (l <> r)
                   end)).
Proof.
  repeat apply conj.
  - intros l r token v. unfold evalBinaryOperationIntInt.
    destruct (Token_Type token); try discriminate;
      try (intros [= <-]; apply wrap64_range).
    destruct (r =? 0); [discriminate|]. intros [= <-]. apply wrap64_range.
  - intros l r token Hin exact. subst exact.
    unfold evalBinaryOperationIntInt.
    destruct (Token_Type token); try (elem_of_contra Hin);
      (split; [reflexivity|]); intros Hr; rewrite wrap64_id by exact Hr;
      reflexivity.
  - intros l r token Hin. unfold evalBinaryOperationIntInt, comparisons in *.
    destruct (Token_Type token); try (elem_of_contra Hin); do 2 f_equal.
    + destruct (Z.ltb_spec l r); [rewrite bool_decide_eq_true_2 by lia
                                 |rewrite bool_decide_eq_false_2 by lia];
        reflexivity.
    + rewrite Z.gtb_ltb.
      destruct (Z.ltb_spec r l); [rewrite bool_decide_eq_true_2 by lia
                                 |rewrite bool_decide_eq_false_2 by lia];
        reflexivity.
    + destruct (Z.leb_spec l r); [rewrite bool_decide_eq_true_2 by lia
                                 |rewrite bool_decide_eq_false_2 by lia];
        reflexivity.
    + rewrite Z.geb_leb.
      destruct (Z.leb_spec r l); [rewrite bool_decide_eq_true_2 by lia
                                 |rewrite bool_decide_eq_false_2 by lia];
        reflexivity.
    + destruct (Z.eqb_spec l r); [rewrite bool_decide_eq_true_2 by lia
                                 |rewrite bool_decide_eq_false_2 by lia];
        reflexivity.
    + destruct (Z.eqb_spec l r); [rewrite bool_decide_eq_false_2 by lia
                                 |rewrite bool_decide_eq_true_2 by lia];
        reflexivity.
Qed.

Lemma X4_int64_arithmetic_witness :
  evalBinaryOperationIntInt MaxInt64 1 (NewToken PLUS "+")
  = Done (VInt64 MinInt64)
  /\ evalBinaryOperationIntInt 6 7 (NewToken ASTERISK "*")
     = Done (VInt64 42)
  /\ MinInt64 <= 42 <= MaxInt64.
Proof.
  destruct X4_int64_arithmetic as (Hrange & Harith & _).
  assert (H42 : evalBinaryOperationIntInt 6 7 (NewToken ASTERISK "*")
                = Done (VInt64 42)).
  { apply (proj2 (Harith 6 7 (NewToken ASTERISK "*")
                    ltac:(simpl; elem_of_find))).
    simpl. unfold MinInt64, MaxInt64. lia. }
  split; [|split].
  - exact (proj1 (Harith MaxInt64 1 (NewToken PLUS "+")
                    ltac:(simpl; elem_of_find))).
  - exact H42.
  - exact (Hrange 6 7 (NewToken ASTERISK "*") 42 H42).
Defined.

(** ** Conditions, indices and boolean operators *)

Lemma evalIf_condition fuel condition consequence alternative s o c s1 o1 :
  evalExpression fuel condition s o = Done (c, s1, o1) ->
  evalStatement (S fuel) (SIf condition consequence alternative) s o =
  match c with
  | VBool true =>
      evalBlockIn (evalStatement fuel) consequence (NewScope (Some s1)) s1 o1
  | VBool false =>
      match alternative with
      | Some alternative =>
          evalBlockIn (evalStatement fuel) alternative (NewScope (Some s1))
            s1 o1
      | None => Done (Nil, s1, o1)
      end
  | _ => Panic TypeAssertion
  end.
Proof.
  intros H. rewrite evalStatement_S. simpl. unfold evalIf. rewrite H.
  reflexivity.
Qed.

Lemma evalWhile_condition fuel condition consequence s o c s1 o1 :
  evalExpression fuel condition s o = Done (c, s1, o1) ->
  kindOf c <> KBool ->
  evalStatement (S fuel) (SWhile condition consequence) s o
  = Panic TypeAssertion.
Proof.
  intros H Hk. rewrite evalStatement_S. simpl.
  destruct fuel as [|n]; [discriminate|].
  cbn [evalWhile]. rewrite H. simpl. destruct c; try reflexivity.
  contradiction Hk. reflexivity.
Qed.

(** X5. The condition of an [if] or a [while] has to be a bool: when it
    evaluates to anything else (nil, as for a name that is not bound; a
    number; a string) the statement panics on the type assertion, whatever
    its blocks are.  An [if] whose condition is false and that has no
    [else] is nil and runs nothing. *)
Theorem X5_condition_must_be_bool :
  (forall fuel condition consequence alternative s o c s1 o1,
      evalExpression fuel condition s o = Done (c, s1, o1) ->
      kindOf c <> KBool ->
      evalStatement (S fuel) (SIf condition consequence alternative) s o
      = Panic TypeAssertion
      /\ evalStatement (S fuel) (SWhile condition consequence) s o
         = Panic TypeAssertion)
  /\ (forall fuel condition consequence s o s1 o1,
         evalExpression fuel condition s o = Done (VBool false, s1, o1) ->
         evalStatement (S fuel) (SIf condition consequence None) s o
         = Done (Nil, s1, o1)).
Proof.
  split.
  - intros fuel condition consequence alternative s o c s1 o1 H Hk. split.
    + rewrite (evalIf_condition _ _ _ _ _ _ _ _ _ H).
      destruct c; try reflexivity. contradiction Hk. reflexivity.
    + eapply evalWhile_condition; eassumption.
  - intros fuel condition consequence s o s1 o1 H.
    rewrite (evalIf_condition _ _ _ _ _ _ _ _ _ H). reflexivity.
Qed.

(** [if x {}] and [while x {}] in a scope that does not bind [x]. *)
Lemma X5_condition_must_be_bool_witness :
  evalStatement 2 (SIf (EIdentifier (ident "x" false)) [] None)
    (NewScope None) []
  = Panic TypeAssertion
  /\ evalStatement 2 (SWhile (EIdentifier (ident "x" false)) [])
       (NewScope None) []
     = Panic TypeAssertion.
Proof.
  apply (proj1 X5_condition_must_be_bool 1%nat
           (EIdentifier (ident "x" false)) [] None (NewScope None) []
           Nil (NewScope None) [] eq_refl).
  discriminate.
Defined.

(** X6. Indexing.  An array can only be indexed by an int64: an index of
    any other type, the host int that [len] and a [for] key yield included,
    panics on the type assertion.  A map index that is an array, a map or a
    function panics as unhashable.  A subject that is neither an array nor a
    map (a string, a number, nil) makes the index expression nil, and the
    index is not evaluated at all. *)
Theorem X6_index_edges :
  (forall fuel index subject s o items i s1 o1 s2 o2,
      evalExpression fuel subject s o = Done (VSlice items, s1, o1) ->
      evalExpression fuel index s1 o1 = Done (i, s2, o2) ->
      kindOf i <> KInt64 ->
      evalExpression (S fuel) (EIndex index subject) s o
      = Panic TypeAssertion)
  /\ (forall fuel index subject s o entries key s1 o1 s2 o2,
         evalExpression fuel subject s o = Done (VMap entries, s1, o1) ->
         evalExpression fuel index s1 o1 = Done (key, s2, o2) ->
         kindOf key ∈ [KSlice; KMap; KFunction] ->
         evalExpression (S fuel) (EIndex index subject) s o
         = Panic UnhashableKey)
  /\ (forall fuel index subject s o v s1 o1,
         evalExpression fuel subject s o = Done (v, s1, o1) ->
         kindOf v ∉ [KSlice; KMap] ->
         evalExpression (S fuel) (EIndex index subject) s o
         = Done (Nil, s1, o1)).
Proof.
  repeat apply conj.
  - intros fuel index subject s o items i s1 o1 s2 o2 Hs Hi Hk.
    rewrite (evalIndex_subject _ _ _ _ _ _ _ _ Hs), Hi. simpl.
    destruct i; try reflexivity. contradiction Hk. reflexivity.
  - intros fuel index subject s o entries key s1 o1 s2 o2 Hs Hi Hk.
    rewrite (evalIndex_subject _ _ _ _ _ _ _ _ Hs), Hi. simpl.
    destruct key; simpl in Hk; try (elem_of_contra Hk); reflexivity.
  - intros fuel index subject s o v s1 o1 Hs Hk.
    rewrite (evalIndex_subject _ _ _ _ _ _ _ _ Hs).
    destruct v; try reflexivity; exfalso; apply Hk; simpl; elem_of_find.
Qed.

(** [[7][len([7])]], the index a host int, and ["abc"[1/0]], the index
    never evaluated. *)
Lemma X6_index_edges_witness :
  evalExpression 4
    (EIndex (ELen (EArray [EInteger 7])) (EArray [EInteger 7]))
    (NewScope None) []
  = Panic TypeAssertion
  /\ evalExpression 2
       (EIndex (EBinaryOperation (NewToken SLASH "/") (EInteger 1)
                  (EInteger 0))
               (EString "abc"))
       (NewScope None) []
     = Done (Nil, NewScope None, []).
Proof.
  destruct X6_index_edges as (Htype & _ & Hother). split.
  - apply (Htype 3%nat (ELen (EArray [EInteger 7])) (EArray [EInteger 7])
             (NewScope None) [] [VInt64 7] (VInt 1)
             (NewScope None) [] (NewScope None) [] eq_refl eq_refl).
    discriminate.
  - apply (Hother 1%nat _ (EString "abc") (NewScope None) []
             (VString "abc") (NewScope None) [] eq_refl).
    simpl. intros H. elem_of_contra H.
Defined.

(** X9. [or] and [and] evaluate both operands, always: with a bool on the
    left, whatever its value, the right operand is evaluated next, its
    effects on the scope and the output stay, and a panic in it is the
    panic of the operation; a right operand that is not a bool makes the
    result nil, [true or 5] included. *)
Theorem X9_no_short_circuit :
  forall fuel token lhs rhs s o b s1 o1,
    Token_Type token ∈ [OR; AND] ->
    evalExpression fuel lhs s o = Done (VBool b, s1, o1) ->
    (forall fault,
        evalExpression fuel rhs s1 o1 = Panic fault ->
        evalExpression (S fuel) (EBinaryOperation token lhs rhs) s o
        = Panic fault)
    /\ (evalExpression fuel rhs s1 o1 = OutOfFuel ->
        evalExpression (S fuel) (EBinaryOperation token lhs rhs) s o
        = OutOfFuel)
    /\ (forall r s2 o2,
           evalExpression fuel rhs s1 o1 = Done (r, s2, o2) ->
           evalExpression (S fuel) (EBinaryOperation token lhs rhs) s o
           = Done (match r with
                   | VBool r =>
                       VBool (if decide (Token_Type token = OR)
                              then b || r else b && r)
                   | _ => Nil
                   end, s2, o2)).
Proof.
  intros fuel token lhs rhs s o b s1 o1 Hop Hl.
  rewrite (evalBinaryOperation_left _ _ _ _ _ _ _ _ _ Hl).
  repeat apply conj.
  - intros fault ->. reflexivity.
  - intros ->. reflexivity.
  - intros r s2 o2 ->. simpl. destruct r; try reflexivity.
    unfold evalBinaryOperationBoolBool.
    destruct (Token_Type token); try (elem_of_contra Hop); reflexivity.
Qed.

(** [true or 1/0 == 0] panics, and [true or 5] is nil. *)
Lemma X9_no_short_circuit_witness :
  evalExpression 4
    (EBinaryOperation (NewToken OR "or") (EBoolean true)
       (EBinaryOperation (NewToken EQ "==")
          (EBinaryOperation (NewToken SLASH "/") (EInteger 1) (EInteger 0))
          (EInteger 0)))
    (NewScope None) []
  = Panic DivideByZero
  /\ evalExpression 2
       (EBinaryOperation (NewToken OR "or") (EBoolean true) (EInteger 5))
       (NewScope None) []
     = Done (Nil, NewScope None, []).
Proof.
  split.
  - apply (proj1 (X9_no_short_circuit 3%nat (NewToken OR "or")
                    (EBoolean true) _ (NewScope None) [] true
                    (NewScope None) [] ltac:(simpl; elem_of_find) eq_refl)).
    reflexivity.
  - apply (proj2 (proj2 (X9_no_short_circuit 1%nat (NewToken OR "or")
                           (EBoolean true) (EInteger 5) (NewScope None) []
                           true (NewScope None) []
                           ltac:(simpl; elem_of_find) eq_refl))
             (VInt64 5) (NewScope None) []).
    reflexivity.
Defined.

(** ** Expressions without calls *)

Lemma evalList_pure re items s o vs s' o' :
  PureSpec re ->
  forallb callFree items = true ->
  evalList re items s o = Done (vs, s', o') ->
  s' = s /\ (forallb printFree items = true -> o' = o).
Proof.
  intros Hre. revert s o vs s' o'.
  induction items as [|e rest IH]; intros s o vs s' o' Hc H; simpl in *.
  - injection H as <- <- <-. auto.
  - apply andb_true_iff in Hc as [Hc1 Hc2].
    destruct (re e s o) as [[[v1 s1] o1]| |] eqn:E1; simpl in H;
      try discriminate.
    destruct (evalList re rest s1 o1) as [[[vs2 s2] o2]| |] eqn:E2;
      simpl in H; try discriminate.
    injection H as <- <- <-.
    destruct (Hre _ _ _ _ _ _ Hc1 E1) as [-> Ho1].
    destruct (IH _ _ _ _ _ Hc2 E2) as [-> Ho2].
    split; [reflexivity|]. intros Hp.
    apply andb_true_iff in Hp as [Hp1 Hp2].
    rewrite (Ho2 Hp2). apply Ho1. exact Hp1.
Qed.

Lemma evalMapLoop_pure re items m s o m' s' o' :
  PureSpec re ->
  forallb (fun '(key, value) => callFree key && callFree value) items = true ->
  evalMapLoop re items m s o = Done (m', s', o') ->
  s' = s
  /\ (forallb (fun '(key, value) => printFree key && printFree value) items
      = true -> o' = o).
Proof.
  intros Hre. revert m s o m' s' o'.
  induction items as [|[key value] rest IH]; intros m s o m' s' o' Hc H;
    simpl in *.
  - injection H as <- <- <-. auto.
  - apply andb_true_iff in Hc as [Hc1 Hc2].
    apply andb_true_iff in Hc1 as [Hck Hcv].
    destruct (re key s o) as [[[k s1] o1]| |] eqn:E1; simpl in H;
      try discriminate.
    destruct (re value s1 o1) as [[[v s2] o2]| |] eqn:E2; simpl in H;
      try discriminate.
    destruct (hashable k); try discriminate.
    destruct (Hre _ _ _ _ _ _ Hck E1) as [-> Ho1].
    destruct (Hre _ _ _ _ _ _ Hcv E2) as [-> Ho2].
    destruct (IH _ _ _ _ _ _ Hc2 H) as [-> Ho3].
    split; [reflexivity|]. intros Hp.
    apply andb_true_iff in Hp as [Hp1 Hp2].
    apply andb_true_iff in Hp1 as [Hpk Hpv].
    rewrite (Ho3 Hp2), (Ho2 Hpv). apply Ho1. exact Hpk.
Qed.

Lemma evalExpressionBody_pure rs re :
  PureSpec re -> PureSpec (evalExpressionBody rs re).
Proof.
  intros Hre e s o v s' o' Hc H.
  destruct e as [|b|z|f|str|items|items|index subject|identifier arguments
                 |identifier|token operand|token lhs rhs|subject
                 |args isNewLine];
    simpl in Hc, H; try discriminate.
  - injection H as <- <- <-. auto.
  - injection H as <- <- <-. auto.
  - injection H as <- <- <-. auto.
  - injection H as <- <- <-. auto.
  - injection H as <- <- <-. auto.
  - unfold evalArray in H.
    destruct (evalList re items s o) as [[[vs s1] o1]| |] eqn:E; simpl in H;
      try discriminate.
    injection H as <- <- <-.
    exact (evalList_pure _ _ _ _ _ _ _ Hre Hc E).
  - unfold evalMap in H.
    destruct (evalMapLoop re items [] s o) as [[[m s1] o1]| |] eqn:E;
      simpl in H; try discriminate.
    injection H as <- <- <-.
    exact (evalMapLoop_pure _ _ _ _ _ _ _ _ Hre Hc E).
  - apply andb_true_iff in Hc as [Hci Hcs]. unfold evalIndex in H.
    destruct (re subject s o) as [[[sv s1] o1]| |] eqn:E1; simpl in H;
      try discriminate.
    destruct (Hre _ _ _ _ _ _ Hcs E1) as [-> Ho1].
    cbn [printFree].
    assert (Hdefault : Done (Nil, s, o1) = Done (v, s', o') ->
                       s' = s /\ (printFree index && printFree subject = true
                                  -> o' = o)).
    { intros [= <- <- <-]. split; [reflexivity|]. intros Hp.
      apply andb_true_iff in Hp as [_ Hp]. auto. }
    destruct sv; try (exact (Hdefault H)).
    + destruct (re index s o1) as [[[i s2] o2]| |] eqn:E2; simpl in H;
        try discriminate.
      destruct (Hre _ _ _ _ _ _ Hci E2) as [-> Ho2].
      destruct i; try discriminate.
      match type of H with context [if ?c then _ else _] => destruct c end;
        try discriminate.
      injection H as <- <- <-. split; [reflexivity|]. intros Hp.
      apply andb_true_iff in Hp as [Hpi Hps].
      rewrite (Ho2 Hpi). auto.
    + destruct (re index s o1) as [[[i s2] o2]| |] eqn:E2; simpl in H;
        try discriminate.
      destruct (Hre _ _ _ _ _ _ Hci E2) as [-> Ho2].
      destruct (hashable i); try discriminate.
      injection H as <- <- <-. split; [reflexivity|]. intros Hp.
      apply andb_true_iff in Hp as [Hpi Hps].
      rewrite (Ho2 Hpi). auto.
  - unfold evalIdentifier in H.
    destruct (IsFunctionCall identifier); injection H as <- <- <-; auto.
  - unfold evalUnaryOperation in H.
    destruct (re operand s o) as [[[t s1] o1]| |] eqn:E1; simpl in H;
      try discriminate.
    destruct (Hre _ _ _ _ _ _ Hc E1) as [-> Ho1].
    destruct t; destruct (Token_Type token); injection H as <- <- <-;
      auto.
  - apply andb_true_iff in Hc as [Hcl Hcr]. unfold evalBinaryOperation in H.
    destruct (re lhs s o) as [[[l s1] o1]| |] eqn:E1; simpl in H;
      try discriminate.
    destruct (Hre _ _ _ _ _ _ Hcl E1) as [-> Ho1].
    assert (Hdefault : Done (Nil, s, o1) = Done (v, s', o') ->
                       s' = s /\ (printFree lhs && printFree rhs = true
                                  -> o' = o)).
    { intros [= <- <- <-]. split; [reflexivity|]. intros Hp.
      apply andb_true_iff in Hp as [Hp _]. auto. }
    cbn [printFree].
    destruct l; try (exact (Hdefault H));
      destruct (re rhs s o1) as [[[r s2] o2]| |] eqn:E2; simpl in H;
      try discriminate;
      destruct (Hre _ _ _ _ _ _ Hcr E2) as [-> Ho2];
      assert (Hright : forall w : any,
                 Done (w, s, o2) = Done (v, s', o') ->
                 s' = s /\ (printFree lhs && printFree rhs = true -> o' = o))
        by (intros w [= <- <- <-]; split; [reflexivity|]; intros Hp;
            apply andb_true_iff in Hp as [Hpl Hpr]; rewrite (Ho2 Hpr); auto);
      destruct r; try (exact (Hright _ H)).
    match type of H with
    | context [evalBinaryOperationIntInt ?a ?b ?t] =>
        destruct (evalBinaryOperationIntInt a b t) as [w| |]
    end; simpl in H; try discriminate.
    exact (Hright _ H).
  - unfold evalLen in H.
    destruct (re subject s o) as [[[t s1] o1]| |] eqn:E1; simpl in H;
      try discriminate.
    destruct (Hre _ _ _ _ _ _ Hc E1) as [-> Ho1].
    destruct t; injection H as <- <- <-; auto.
  - unfold evalPrint in H.
    destruct (evalList re args s o) as [[[vs s1] o1]| |] eqn:E; simpl in H;
      try discriminate.
    injection H as <- <- <-.
    destruct (evalList_pure _ _ _ _ _ _ _ Hre Hc E) as [-> _].
    split; [reflexivity|]. discriminate.
Qed.

Lemma evalExpression_pure fuel : PureSpec (evalExpression fuel).
Proof.
  induction fuel as [|fuel IH].
  - intros e s o v s' o' _ H. discriminate.
  - intros e s o v s' o' Hc H. rewrite evalExpression_S in H.
    exact (evalExpressionBody_pure _ _ IH _ _ _ _ _ _ Hc H).
Qed.



(** ** Array and map literals *)

Lemma evalList_length re items s o vs s' o' :
  evalList re items s o = Done (vs, s', o') -> length vs = length items.
Proof.
  revert s o vs s' o'.
  induction items as [|e rest IH]; intros s o vs s' o' H; simpl in H.
  - injection H as <- <- <-. reflexivity.
  - destruct (re e s o) as [[[v1 s1] o1]| |]; simpl in H; try discriminate.
    destruct (evalList re rest s1 o1) as [[[vs2 s2] o2]| |] eqn:E2;
      simpl in H; try discriminate.
    injection H as <- <- <-. simpl. f_equal. eapply IH. exact E2.
Qed.

Lemma evalList_literals fuel items s o vs s' o' :
  evalList (evalExpression (S fuel)) items s o = Done (vs, s', o') ->
  forall i e x,
    items !! i = Some e -> literalValue e = Some x -> vs !! i = Some x.
Proof.
  revert s o vs s' o'.
  induction items as [|e0 rest IH]; intros s o vs s' o' H i e x Hi Hx;
    [discriminate|].
  cbn [evalList] in H.
  destruct (evalExpression (S fuel) e0 s o) as [[[v1 s1] o1]| |] eqn:E1;
    cbn [mbind Outcome_bind] in H; try discriminate.
  destruct (evalList (evalExpression (S fuel)) rest s1 o1)
    as [[[vs2 s2] o2]| |] eqn:E2; cbn [mbind Outcome_bind] in H;
    try discriminate.
  injection H as <- <- <-.
  destruct i as [|i]; simpl in Hi |- *.
  - injection Hi as ->. rewrite (literal_eval _ _ _ _ _ Hx) in E1.
    injection E1 as <- _ _. reflexivity.
  - eapply IH; eassumption.
Qed.

Lemma evalArray_inv fuel items s o v s' o' :
  evalExpression (S fuel) (EArray items) s o = Done (v, s', o') ->
  exists vs, v = VSlice vs
             /\ evalList (evalExpression fuel) items s o = Done (vs, s', o').
Proof.
  rewrite evalExpression_S. simpl. unfold evalArray.
  destruct (evalList (evalExpression fuel) items s o) as [[[vs s1] o1]| |];
    simpl; try discriminate.
  intros [= <- <- <-]. eauto.
Qed.

(** X7. An array literal that evaluates yields an array with exactly one
    element per item, the element at the place of a literal item being that
    literal's value.  [len] of the literal is the number of its items, as a
    host int.  Indexing the literal with an index that evaluates, after the
    items, to an int64 yields the element at that place when the index is
    at least 0 and below the number of items, and panics otherwise. *)
Theorem X7_array_literal :
  forall fuel items s o v s' o',
    evalExpression (S (S fuel)) (EArray items) s o = Done (v, s', o') ->
    exists vs,
      v = VSlice vs
      /\ length vs = length items
      /\ (forall i e x,
             items !! i = Some e -> literalValue e = Some x ->
             vs !! i = Some x)
      /\ evalExpression (S (S (S fuel))) (ELen (EArray items)) s o
         = Done (VInt (Z.of_nat (length items)), s', o')
      /\ (forall index i s2 o2,
             evalExpression (S (S fuel)) index s' o' = Done (VInt64 i, s2, o2) ->
             evalExpression (S (S (S fuel))) (EIndex index (EArray items)) s o
             = if decide (0 <= i < Z.of_nat (length items))
               then Done (default Nil (vs !! Z.to_nat i), s2, o2)
               else Panic IndexOutOfRange).
Proof.
  intros fuel items s o v s' o' H.
  destruct (evalArray_inv _ _ _ _ _ _ _ H) as (vs & -> & Hlist).
  pose proof (evalList_length _ _ _ _ _ _ _ Hlist) as Hlen.
  exists vs. repeat apply conj.
  - reflexivity.
  - exact Hlen.
  - exact (evalList_literals _ _ _ _ _ _ _ Hlist).
  - rewrite evalExpression_S. cbn [evalExpressionBody]. unfold evalLen.
    rewrite H. simpl. rewrite Hlen. reflexivity.
  - intros index i s2 o2 Hi.
    rewrite (evalIndex_subject _ _ _ _ _ _ _ _ H), Hi. simpl. rewrite Hlen.
    destruct (decide (0 <= i < Z.of_nat (length items))) as [Hin|Hout].
    + replace ((0 <=? i) && (i <? Z.of_nat (length items))) with true;
        [reflexivity|].
      symmetry. apply andb_true_iff. split; [apply Z.leb_le|apply Z.ltb_lt];
        lia.
    + replace ((0 <=? i) && (i <? Z.of_nat (length items))) with false;
        [reflexivity|].
      symmetry. apply andb_false_iff.
      destruct (decide (0 <= i)); [right; apply Z.ltb_ge|left; apply Z.leb_gt];
        lia.
Qed.

(** [[10, x, 30]], then its length and its element at 2 and at 3. *)
Lemma X7_array_literal_witness :
  exists vs,
    VSlice [VInt64 10; VInt64 0; VInt64 30] = VSlice vs
    /\ length vs = 3%nat
    /\ vs !! 2%nat = Some (VInt64 30)
    /\ evalExpression 4
         (ELen (EArray [EInteger 10; EIdentifier (ident "x" false);
                        EInteger 30]))
         rootWithX []
       = Done (VInt 3, rootWithX, [])
    /\ evalExpression 4
         (EIndex (EInteger 2)
            (EArray [EInteger 10; EIdentifier (ident "x" false);
                     EInteger 30]))
         rootWithX []
       = Done (VInt64 30, rootWithX, [])
    /\ evalExpression 4
         (EIndex (EInteger 3)
            (EArray [EInteger 10; EIdentifier (ident "x" false);
                     EInteger 30]))
         rootWithX []
       = Panic IndexOutOfRange.
Proof.
  destruct (X7_array_literal 1%nat
              [EInteger 10; EIdentifier (ident "x" false); EInteger 30]
              rootWithX [] (VSlice [VInt64 10; VInt64 0; VInt64 30])
              rootWithX [] eq_refl)
    as (vs & Hvs & Hlen & Hlit & Hl & Hindex).
  exists vs. repeat apply conj.
  - exact Hvs.
  - exact Hlen.
  - exact (Hlit 2%nat (EInteger 30) (VInt64 30) eq_refl eq_refl).
  - exact Hl.
  - rewrite (Hindex (EInteger 2) 2 rootWithX [] eq_refl).
    injection Hvs as <-. reflexivity.
  - rewrite (Hindex (EInteger 3) 3 rootWithX [] eq_refl). reflexivity.
Defined.

Lemma mapAssign_length m k v :
  (length (mapAssign m k v) <= S (length m))%nat.
Proof.
  induction m as [|[k0 v0] rest IH]; simpl; [lia|].
  destruct (anyEqual k0 k); simpl; lia.
Qed.

Lemma mapAssign_hashable m k v :
  Forall (fun kv => hashable kv.1 = true) m ->
  hashable k = true ->
  Forall (fun kv => hashable kv.1 = true) (mapAssign m k v).
Proof.
  intros Hm Hk. induction Hm as [|[k0 v0] rest H0 Hrest IH]; simpl.
  - constructor; [exact Hk|constructor].
  - destruct (anyEqual k0 k); constructor; auto.
Qed.

Lemma evalMapLoop_entries re items m s o m' s' o' :
  evalMapLoop re items m s o = Done (m', s', o') ->
  (length m' <= length m + length items)%nat
  /\ (Forall (fun kv => hashable kv.1 = true) m ->
      Forall (fun kv => hashable kv.1 = true) m').
Proof.
  revert m s o.
  induction items as [|[key value] rest IH]; intros m s o H; simpl in H.
  - injection H as <- <- <-. split; [lia|auto].
  - destruct (re key s o) as [[[k s1] o1]| |]; simpl in H; try discriminate.
    destruct (re value s1 o1) as [[[v s2] o2]| |]; simpl in H;
      try discriminate.
    destruct (hashable k) eqn:Hk; try discriminate.
    destruct (IH _ _ _ H) as [Hlen Hhash].
    pose proof (mapAssign_length m k v). simpl. split; [lia|].
    intros Hm. apply Hhash. apply mapAssign_hashable; assumption.
Qed.

(** X8. A map literal that evaluates yields a map with at most one entry
    per item, fewer when two keys evaluate to equal values, and every key
    in it can be hashed; [len] of the literal is the number of entries.  A
    key that evaluates to an array, a map or a function panics as
    unhashable, after the value has been evaluated.  Reading [{key:
    value}] back at an index yields the value when the index evaluates to
    a key equal to the stored one, type included, and nil otherwise. *)
Theorem X8_map_literal :
  (forall fuel items s o v s' o',
      evalExpression (S fuel) (EMap items) s o = Done (v, s', o') ->
      exists m,
        v = VMap m
        /\ (length m <= length items)%nat
        /\ Forall (fun kv => hashable kv.1 = true) m
        /\ evalExpression (S (S fuel)) (ELen (EMap items)) s o
           = Done (VInt (Z.of_nat (length m)), s', o'))
  /\ (forall fuel key value s o k s1 o1 v s2 o2,
         evalExpression fuel key s o = Done (k, s1, o1) ->
         evalExpression fuel value s1 o1 = Done (v, s2, o2) ->
         kindOf k ∈ [KSlice; KMap; KFunction] ->
         evalExpression (S fuel) (EMap [(key, value)]) s o
         = Panic UnhashableKey)
  /\ (forall fuel key value index s o k v k' s1 o1 s2 o2 s3 o3,
         evalExpression fuel key s o = Done (k, s1, o1) ->
         evalExpression fuel value s1 o1 = Done (v, s2, o2) ->
         evalExpression (S fuel) index s2 o2 = Done (k', s3, o3) ->
         kindOf k ∉ [KSlice; KMap; KFunction] ->
         kindOf k' ∉ [KSlice; KMap; KFunction] ->
         evalExpression (S (S fuel)) (EIndex index (EMap [(key, value)])) s o
         = Done (if anyEqual k k' then v else Nil, s3, o3)).
Proof.
  repeat apply conj.
  - intros fuel items s o v s' o' H.
    pose proof H as H0. rewrite evalExpression_S in H0. simpl in H0.
    unfold evalMap in H0.
    destruct (evalMapLoop (evalExpression fuel) items [] s o)
      as [[[m s1] o1]| |] eqn:E; simpl in H0; try discriminate.
    injection H0 as <- <- <-.
    destruct (evalMapLoop_entries _ _ _ _ _ _ _ _ E) as [Hlen Hhash].
    exists m. repeat apply conj.
    + reflexivity.
    + simpl in Hlen. exact Hlen.
    + apply Hhash. constructor.
    + rewrite evalExpression_S. cbn [evalExpressionBody]. unfold evalLen.
      rewrite H. reflexivity.
  - intros fuel key value s o k s1 o1 v s2 o2 Hk Hv Hkind.
    rewrite evalExpression_S. simpl. unfold evalMap. simpl.
    rewrite Hk. simpl. rewrite Hv. simpl.
    destruct k; simpl in Hkind; try (elem_of_contra Hkind); reflexivity.
  - intros fuel key value index s o k v k' s1 o1 s2 o2 s3 o3 Hk Hv Hi Hkind
           Hkind'.
    assert (Hmap : evalExpression (S fuel) (EMap [(key, value)]) s o
                   = Done (VMap [(k, v)], s2, o2)).
    { rewrite evalExpression_S. simpl. unfold evalMap. simpl.
      rewrite Hk. simpl. rewrite Hv. simpl.
      destruct k; try reflexivity; exfalso; apply Hkind; simpl;
        elem_of_find. }
    rewrite (evalIndex_subject _ _ _ _ _ _ _ _ Hmap), Hi. simpl.
    destruct k'; try reflexivity; exfalso; apply Hkind'; simpl;
      elem_of_find.
Qed.

(** [{1: "a"}] read at [1], and at [len("x")], which is the host int 1;
    and [{[]: 1}]. *)
Lemma X8_map_literal_witness :
  evalExpression 3
    (EIndex (EInteger 1) (EMap [(EInteger 1, EString "a")]))
    (NewScope None) []
  = Done (VString "a", NewScope None, [])
  /\ evalExpression 3
       (EIndex (ELen (EString "x")) (EMap [(EInteger 1, EString "a")]))
       (NewScope None) []
     = Done (Nil, NewScope None, [])
  /\ evalExpression 3 (EMap [(EArray [], EInteger 1)]) (NewScope None) []
     = Panic UnhashableKey
  /\ exists m,
       VMap [(VInt64 1, VString "b")] = VMap m
       /\ (length m <= 2)%nat
       /\ Forall (fun kv => hashable kv.1 = true) m
       /\ evalExpression 4
            (ELen (EMap [(EInteger 1, EString "a");
                         (EBinaryOperation (NewToken MINUS "-") (EInteger 2)
                            (EInteger 1), EString "b")]))
            (NewScope None) []
          = Done (VInt (Z.of_nat (length m)), NewScope None, []).
Proof.
  destruct X8_map_literal as (Hsize & Hpanic & Hread).
  assert (Hnot : forall k, hashable k = true ->
                           kindOf k ∉ [KSlice; KMap; KFunction]).
  { intros k Hk Hin. destruct k; simpl in Hin; try discriminate;
      elem_of_contra Hin. }
  repeat apply conj.
  - apply (Hread 1%nat (EInteger 1) (EString "a") (EInteger 1)
             (NewScope None) [] (VInt64 1) (VString "a") (VInt64 1)
             (NewScope None) [] (NewScope None) [] (NewScope None) []
             eq_refl eq_refl eq_refl); apply Hnot; reflexivity.
  - apply (Hread 1%nat (EInteger 1) (EString "a") (ELen (EString "x"))
             (NewScope None) [] (VInt64 1) (VString "a") (VInt 1)
             (NewScope None) [] (NewScope None) [] (NewScope None) []
             eq_refl eq_refl eq_refl); apply Hnot; reflexivity.
  - apply (Hpanic 2%nat (EArray []) (EInteger 1) (NewScope None) []
             (VSlice []) (NewScope None) [] (VInt64 1) (NewScope None) []
             eq_refl eq_refl).
    simpl. elem_of_find.
  - apply (Hsize 2%nat
             [(EInteger 1, EString "a");
              (EBinaryOperation (NewToken MINUS "-") (EInteger 2)
                 (EInteger 1), EString "b")]
             (NewScope None) [] (VMap [(VInt64 1, VString "b")])
             (NewScope None) [] eq_refl).
Defined.

(** ** Where names are declared *)

Lemma frame_GetFunction N s s' identifier :
  frame N s s' -> GetFunction s' identifier = GetFunction s identifier.
Proof.
  revert s'.
  induction s as [vs fs|vs fs up IH] using Scope_chain_ind;
    intros [vs' fs' [up'|]]; simpl; intros (Hf & _ & _ & Hup);
    try contradiction; subst fs';
    destruct (fs !! identName identifier); auto.
Qed.

Lemma frame_length N s s' :
  frame N s s' -> length (chain s') = length (chain s).
Proof.
  revert s'.
  induction s as [vs fs|vs fs up IH] using Scope_chain_ind;
    intros [vs' fs' [up'|]]; simpl; intros (_ & _ & _ & Hup);
    try contradiction; auto.
Qed.

Lemma frame_names s s' :
  frame noName s s' ->
  length (chain s') = length (chain s)
  /\ (forall identifier,
         GetFunction s' identifier = GetFunction s identifier)
  /\ (forall m, boundIn s' m <-> boundIn s m).
Proof.
  intros Hf. repeat apply conj.
  - eapply frame_length. exact Hf.
  - intros identifier. eapply frame_GetFunction. exact Hf.
  - intros m. split.
    + eapply frame_bound_back. exact Hf.
    + eapply frame_bound_forth. exact Hf.
Qed.

Lemma GetVariable_missing s identifier :
  (GetVariable s identifier).2 = false ->
  GetVariable s identifier = (Nil, false).
Proof.
  induction s as [vs fs|vs fs up IH] using Scope_chain_ind; simpl;
    destruct (vs !! identName identifier); simpl; try discriminate; auto.
Qed.

Lemma statement_frame fuel statement s o v s' o' :
  declares statement = false ->
  evalStatement fuel statement s o = Done (v, s', o') ->
  frame noName s s'.
Proof.
  intros Hd H. destruct fuel as [|fuel]; [discriminate|].
  rewrite evalStatement_S in H.
  pose proof (eval_frame noName fuel) as [Hrs Hre].
  pose proof (functionsSafe_noName s) as Hfs.
  destruct statement
    as [name value isNew|condition consequence alternative
       |condition consequence|key value condition consequence
       |name parameters body|value|statements|expression];
    simpl in H, Hd; try discriminate.
  - destruct isNew; [discriminate|]. unfold evalVariable in H.
    destruct (evalVariableLoop (evalExpression fuel) fuel name value s o)
      as [[s1 o1]| |] eqn:E; simpl in H; try discriminate.
    injection H as <- <- <-.
    eapply (evalVariableLoop_frame noName); [exact Hre| |exact Hfs|exact E].
    intros [].
  - eapply (evalIf_frame noName); [exact Hrs|exact Hre| |exact Hfs|exact H].
    intros m [].
  - eapply (evalWhile_frame noName);
      [exact Hrs|exact Hre| |exact Hfs|exact H].
    apply safeBlock_noName.
  - eapply (evalFor_frame noName);
      [exact Hrs|exact Hre| |exact Hfs|exact H].
    apply safeBlock_noName.
  - exact (Hre _ _ _ _ _ _ Hfs H).
  - apply (evalBlockIn_frame noName (evalStatement fuel) Hrs statements
             (NewScope (Some s)) s o v s' o');
      [apply safeBlock_noName|reflexivity| |exact H].
    apply functionsSafe_NewScope. exact Hfs.
  - exact (Hre _ _ _ _ _ _ Hfs H).
Qed.

(** X11. Names stay where they are declared.  An expression, the calls in
    it included, leaves the chain it is evaluated in with as many scopes as
    before, with every function name resolving as before and with the same
    variable names visible: a call can change the values of variables, but
    a function or a variable declared by a called body is gone when the
    call returns.  A statement does the same to the scopes that enclose the
    one it runs in, and, unless it is itself a [var] or a [fn], to the
    scope it runs in as well: what the body of a block, an [if], a [while]
    or a [for] declares, the loop variables included, is gone after it.  So
    a function declared inside one cannot be called after it, and a
    variable declared inside one reads as nil. *)
Theorem X11_names_stay_where_declared :
  (forall fuel e s o v s' o',
      evalExpression fuel e s o = Done (v, s', o') ->
      length (chain s') = length (chain s)
      /\ (forall identifier,
             GetFunction s' identifier = GetFunction s identifier)
      /\ (forall m, boundIn s' m <-> boundIn s m))
  /\ (forall fuel statement s o v s' o',
         evalStatement fuel statement s o = Done (v, s', o') ->
         match parent s, parent s' with
         | Some up, Some up' =>
             length (chain up') = length (chain up)
             /\ (forall identifier,
                    GetFunction up' identifier = GetFunction up identifier)
             /\ (forall m, boundIn up' m <-> boundIn up m)
         | None, None => True
         | _, _ => False
         end)
  /\ (forall fuel statement s o v s' o',
         declares statement = false ->
         evalStatement fuel statement s o = Done (v, s', o') ->
         length (chain s') = length (chain s)
         /\ (forall identifier,
                GetFunction s' identifier = GetFunction s identifier)
         /\ (forall m, boundIn s' m <-> boundIn s m))
  /\ (forall fuel fuel' statement s o v s' o' identifier arguments,
         declares statement = false ->
         evalStatement fuel statement s o = Done (v, s', o') ->
         ((GetFunction s identifier).2 = false ->
          evalExpression (S fuel') (ECall identifier arguments) s' o'
          = Done (Nil, s', o'))
         /\ ((GetVariable s identifier).2 = false ->
             IsFunctionCall identifier = false ->
             evalExpression (S fuel') (EIdentifier identifier) s' o'
             = Done (Nil, s', o'))).
Proof.
  repeat apply conj.
  - intros fuel e s o v s' o' H. apply frame_names.
    exact (proj2 (eval_frame noName fuel) _ _ _ _ _ _
             (functionsSafe_noName s) H).
  - intros fuel statement s o v s' o' H.
    assert (Hsafe : safeStatement noName statement) by (intros m []).
    destruct (proj1 (eval_frame noName fuel) _ _ _ _ _ _ Hsafe
                (functionsSafe_noName s) H) as [Hp _].
    unfold parentsFrame in Hp.
    destruct (parent s), (parent s'); try contradiction; [|exact I].
    apply frame_names. exact Hp.
  - intros fuel statement s o v s' o' Hd H. apply frame_names.
    eapply statement_frame; eassumption.
  - intros fuel fuel' statement s o v s' o' identifier arguments Hd H.
    pose proof (statement_frame _ _ _ _ _ _ _ Hd H) as Hf. split.
    + intros Hno. rewrite evalExpression_S. simpl. unfold evalCall.
      rewrite (frame_GetFunction _ _ _ identifier Hf).
      destruct (GetFunction s identifier) as [f ok]. simpl in Hno.
      subst ok. reflexivity.
    + intros Hno Hvar. rewrite evalExpression_S. simpl.
      unfold evalIdentifier. rewrite Hvar.
      assert (Hno' : (GetVariable s' identifier).2 = false).
      { destruct (GetVariable s' identifier).2 eqn:G; [|reflexivity].
        apply GetVariable_ok_iff in G.
        apply (frame_bound_back _ _ _ _ Hf) in G.
        apply GetVariable_ok_iff in G. congruence. }
      rewrite (GetVariable_missing _ _ Hno'). reflexivity.
Qed.

(** [{ fn f() { return 1 } }] and then [f()], and [for k, v in [7] { }] and
    then [v], in a scope that knows neither [f] nor [v]. *)
Lemma X11_names_stay_where_declared_witness :
  evalExpression 1 (ECall (ident "f" true) []) rootWithX []
  = Done (Nil, rootWithX, [])
  /\ evalExpression 1 (EIdentifier (ident "v" false)) rootWithX []
     = Done (Nil, rootWithX, []).
Proof.
  destruct X11_names_stay_where_declared as (_ & _ & _ & Hafter). split.
  - apply (proj1 (Hafter 3%nat 0%nat
                    (SBlock [SFunction (ident "f" true) []
                               [SReturn (EInteger 1)]])
                    rootWithX [] Nil rootWithX [] (ident "f" true) []
                    eq_refl eq_refl)).
    reflexivity.
  - apply (proj2 (Hafter 3%nat 0%nat
                    (SFor (ident "k" false) (ident "v" false)
                       (EArray [EInteger 7]) [])
                    rootWithX [] Nil rootWithX [] (ident "v" false) []
                    eq_refl eq_refl));
      reflexivity.
Defined.

(** ** The top level *)

Lemma parseLoop_non_nil ParseFloat fuel n statements p r p' :
  Forall (fun statement => isNilStatement statement = false) statements ->
  parseLoop ParseFloat fuel n statements p = Done (r, p') ->
  Forall (fun statement => isNilStatement statement = false) r.
Proof.
  revert statements p.
  induction n as [|n IH]; intros statements p Hs H; simpl in H;
    [discriminate|].
  destruct (bool_decide (currentType p = EOF)).
  - injection H as <- <-. exact Hs.
  - destruct (parseStatement ParseFloat fuel p) as [[statement p1]| |];
      simpl in H; try discriminate.
    eapply IH; [|exact H].
    destruct (isNilStatement statement) eqn:E; [exact Hs|].
    apply Forall_app. split; [exact Hs|]. constructor; [exact E|constructor].
Qed.

Lemma evalStatements_last fuel pre final value s o r s' o' :
  Forall (fun statement => isNilStatement statement = false)
         (pre ++ [final]) ->
  evalStatements fuel (pre ++ [final]) value s o = Done (r, s', o') ->
  exists v1 s1 o1,
    evalStatements fuel pre value s o = Done (v1, s1, o1)
    /\ evalStatement fuel final s1 o1 = Done (r, s', o').
Proof.
  revert value s o.
  induction pre as [|statement rest IH]; intros value s o Hnil H.
  - simpl in *. inversion Hnil as [|? ? Hf _]; subst. rewrite Hf in H.
    destruct (evalStatement fuel final s o) as [[[v1 s1] o1]| |] eqn:E;
      simpl in H; try discriminate.
    injection H as <- <- <-. eauto.
  - simpl in *. inversion Hnil as [|? ? Hf Hrest]; subst. rewrite Hf in *.
    destruct (evalStatement fuel statement s o) as [[[v1 s1] o1]| |];
      simpl in *; try discriminate.
    eapply IH; eassumption.
Qed.

(** X12. The value of a program.  [Parse] delivers no nil statement, so
    the loop of [Eval] never breaks off: it evaluates every statement the
    parser delivers, in order, each against the scope as the one before
    left it, and goes on after a statement with a non-nil result, a
    [return] at the top level included.  What [Eval] returns is the result
    of the last statement, and nil for a program without statements. *)
Theorem X12_value_of_a_program :
  forall ParseFloat fuel lexed scope out r s' o',
    Eval ParseFloat fuel lexed scope out = Done (r, s', o') ->
    exists statements p',
      Parse ParseFloat fuel (NewParser lexed) = Done (statements, p')
      /\ Forall (fun statement => isNilStatement statement = false)
                statements
      /\ match last statements with
         | None => r = Nil /\ s' = scope /\ o' = out
         | Some final =>
             exists v1 s1 o1,
               evalStatements fuel (removelast statements) Nil scope out
               = Done (v1, s1, o1)
               /\ evalStatement fuel final s1 o1 = Done (r, s', o')
         end.
Proof.
  intros ParseFloat fuel lexed scope out r s' o' H. unfold Eval in H.
  destruct (Parse ParseFloat fuel (NewParser lexed)) as [[statements p']| |]
    eqn:E; simpl in H; try discriminate.
  exists statements, p'. split; [reflexivity|].
  assert (Hnil : Forall (fun statement => isNilStatement statement = false)
                        statements).
  { unfold Parse in E. eapply parseLoop_non_nil; [|exact E]. constructor. }
  split; [exact Hnil|].
  destruct statements as [|first rest] using rev_ind.
  - simpl in *. injection H as <- <- <-. auto.
  - rewrite last_snoc, removelast_last.
    eapply evalStatements_last; eassumption.
Qed.

(** [return 1  var x = 2]: the [return] does not end the program, whose
    value is that of the declaration, nil. *)
Lemma X12_value_of_a_program_witness :
  exists statements p',
    Parse noFloatLiterals 5
      (NewParser [ NewToken RETURN "return"; NewToken INT "1";
                   NewToken VAR "var"; NewToken IDENT "x";
                   NewToken ASSIGN "="; NewToken INT "2"; NewToken EOF "" ])
    = Done (statements, p')
    /\ Forall (fun statement => isNilStatement statement = false) statements
    /\ match last statements with
       | None =>
           Nil = Nil
           /\ mkScope {[ "x"%string := VInt64 2 ]} ∅ None = NewScope None
           /\ [] = ([] : Stdout)
       | Some final =>
           exists v1 s1 o1,
             evalStatements 5 (removelast statements) Nil (NewScope None) []
             = Done (v1, s1, o1)
             /\ evalStatement 5 final s1 o1
                = Done (Nil, mkScope {[ "x"%string := VInt64 2 ]} ∅ None, [])
       end.
Proof.
  apply (X12_value_of_a_program noFloatLiterals 5%nat
           [ NewToken RETURN "return"; NewToken INT "1";
             NewToken VAR "var"; NewToken IDENT "x";
             NewToken ASSIGN "="; NewToken INT "2"; NewToken EOF "" ]
           (NewScope None) [] Nil
           (mkScope {[ "x"%string := VInt64 2 ]} ∅ None) []).
  vm_compute. reflexivity.
Defined.

(** ** Tokens the parser cannot start with *)

Lemma parseStatement_noPrefix ParseFloat fuel p :
  currentType p ∈ noPrefix ->
  parseStatement ParseFloat fuel p = OutOfFuel
  \/ parseStatement ParseFloat fuel p
     = Done (SExpression ENil, addError p (UnaryNotFound (currentType p))).
Proof.
  intros Hin. destruct fuel as [|[|fuel]]; [left; reflexivity| |].
  { left. cbn [parseStatement]. unfold parseStatementBody.
    unfold parseExpressionStatement. cbn [parseExpression].
    unfold noPrefix in Hin.
    destruct (currentType p); try (elem_of_contra Hin); reflexivity. }
  right. cbn [parseStatement]. unfold parseStatementBody.
  unfold parseExpressionStatement. cbn [parseExpression].
  unfold parseExpressionBody. unfold noPrefix in Hin.
  destruct (currentType p); try (elem_of_contra Hin); reflexivity.
Qed.

Lemma parseLoop_noPrefix ParseFloat fuel n statements p :
  currentType p ∈ noPrefix -> currentType p <> EOF ->
  parseLoop ParseFloat fuel n statements p = OutOfFuel.
Proof.
  revert statements p.
  induction n as [|n IH]; intros statements p Hin Hne; [reflexivity|].
  cbn [parseLoop]. rewrite bool_decide_eq_false_2 by exact Hne.
  destruct (parseStatement_noPrefix ParseFloat fuel p Hin) as [->| ->];
    [reflexivity|].
  cbn [mbind Outcome_bind isNilStatement]. apply IH; assumption.
Qed.

Lemma parseBlockLoop_noPrefix ParseFloat fuel n statements p :
  currentType p ∈ noPrefix -> currentType p <> RCURLY ->
  parseBlockLoop (parseStatement ParseFloat fuel) n statements p = OutOfFuel.
Proof.
  revert statements p.
  induction n as [|n IH]; intros statements p Hin Hne; [reflexivity|].
  cbn [parseBlockLoop]. rewrite bool_decide_eq_false_2 by exact Hne.
  destruct (parseStatement_noPrefix ParseFloat fuel p Hin) as [->| ->];
    [reflexivity|].
  cbn [mbind Outcome_bind]. apply IH; assumption.
Qed.

(** X13. A token with which neither a statement nor an expression can
    start (a closing bracket, a comma, a binary operator other than [+]
    and [-], [else], [in], [=], ...) is never consumed: [parseExpression]
    records an error and returns nil without moving on.  So when the loop
    of [Parse] meets such a token where a statement should start, it never
    ends, whatever the bound on the work; nor does the loop of
    [parseBlock], for which the end of the input is such a token: a block
    that is not closed is never parsed, and no error is ever reported. *)
Theorem X13_parser_never_ends :
  (forall ParseFloat fuel n statements p,
      currentType p ∈ noPrefix -> currentType p <> EOF ->
      parseLoop ParseFloat fuel n statements p = OutOfFuel)
  /\ (forall ParseFloat fuel token rest,
         Token_Type token ∈ noPrefix -> Token_Type token <> EOF ->
         Parse ParseFloat fuel (NewParser (token :: rest)) = OutOfFuel)
  /\ (forall ParseFloat fuel n statements p,
         currentType p ∈ noPrefix -> currentType p <> RCURLY ->
         parseBlockLoop (parseStatement ParseFloat fuel) n statements p
         = OutOfFuel)
  /\ (forall ParseFloat fuel p,
         currentType p = LCURLY ->
         Token_Type (peekToken p) ∈ noPrefix ->
         Token_Type (peekToken p) <> RCURLY ->
         parseStatement ParseFloat fuel p = OutOfFuel).
Proof.
  repeat apply conj.
  - exact parseLoop_noPrefix.
  - intros ParseFloat fuel token rest Hin Hne. unfold Parse.
    apply parseLoop_noPrefix.
    + destruct rest; exact Hin.
    + destruct rest; exact Hne.
  - exact parseBlockLoop_noPrefix.
  - intros ParseFloat fuel p Hcur Hin Hne.
    destruct fuel as [|fuel]; [reflexivity|].
    cbn [parseStatement]. unfold parseStatementBody. rewrite Hcur.
    unfold parseBlock.
    rewrite parseBlockLoop_noPrefix; [reflexivity| |].
    + destruct p as [[|t ts] c pk es]; exact Hin.
    + destruct p as [[|t ts] c pk es]; exact Hne.
Qed.

(** The programs [)] and [{], the latter with the end of the input where
    the block should go on. *)
Lemma X13_parser_never_ends_witness :
  Parse noFloatLiterals 100
    (NewParser [NewToken RPAREN ")"; NewToken EOF ""])
  = OutOfFuel
  /\ parseStatement noFloatLiterals 100
       (mkParser [] (NewToken LCURLY "{") (NewToken EOF "") [])
     = OutOfFuel.
Proof.
  destruct X13_parser_never_ends as (_ & Hparse & _ & Hblock).
  split.
  - apply Hparse; [unfold noPrefix; simpl; elem_of_find|discriminate].
  - apply Hblock; [reflexivity|unfold noPrefix; simpl; elem_of_find
                   |discriminate].
Defined.

(** ** Grouping of operators *)

(** X14. How three operands group.  In [a op1 b op2 c] the second operator
    takes [b] as its left operand exactly when its precedence is strictly
    above that of the first; otherwise, and so for two operators of the
    same level, the first operation is the left operand of the second.  In
    particular [or] and [and] bind tighter than [==] and [!=], and equally
    tight as each other.  A unary operator binds tighter than every binary
    one: in [u a op b] it applies to [a] alone. *)
Theorem X14_grouping :
  (forall ParseFloat k a op1 b op2 c,
      isBinaryOperator (Token_Type op1) = true ->
      isBinaryOperator (Token_Type op2) = true ->
      parsedStatements
        (Parse ParseFloat (8 + k)
           (NewParser [ NewToken INT a; op1; NewToken INT b; op2;
                        NewToken INT c; NewToken EOF "" ]))
      = Some [SExpression
                (if getPrecedence (Token_Type op1)
                    <? getPrecedence (Token_Type op2)
                 then EBinaryOperation op1 (EInteger (ParseInt a))
                        (EBinaryOperation op2 (EInteger (ParseInt b))
                           (EInteger (ParseInt c)))
                 else EBinaryOperation op2
                        (EBinaryOperation op1 (EInteger (ParseInt a))
                           (EInteger (ParseInt b)))
                        (EInteger (ParseInt c)))])
  /\ (forall ParseFloat k u a op b,
         Token_Type u ∈ [PLUS; MINUS; NOT] ->
         isBinaryOperator (Token_Type op) = true ->
         parsedStatements
           (Parse ParseFloat (8 + k)
              (NewParser [ u; NewToken INT a; op; NewToken INT b;
                           NewToken EOF "" ]))
         = Some [SExpression
                   (EBinaryOperation op
                      (EUnaryOperation u (EInteger (ParseInt a)))
                      (EInteger (ParseInt b)))]).
Proof.
  split.
  - intros ParseFloat k a [t1 v1] b [t2 v2] c H1 H2.
    destruct t1; try discriminate H1; destruct t2; try discriminate H2;
      reflexivity.
  - intros ParseFloat k [tu vu] a [t v] b Hu H.
    destruct tu; try (elem_of_contra Hu); destruct t; try discriminate H;
      reflexivity.
Qed.

(** [1 == 2 or 3] is [1 == (2 or 3)], and [- 1 * 2] is [(- 1) * 2]. *)
Lemma X14_grouping_witness :
  parsedStatements
    (Parse noFloatLiterals 8
       (NewParser [ NewToken INT "1"; NewToken EQ "=="; NewToken INT "2";
                    NewToken OR "or"; NewToken INT "3"; NewToken EOF "" ]))
  = Some [SExpression
            (EBinaryOperation (NewToken EQ "==") (EInteger 1)
               (EBinaryOperation (NewToken OR "or") (EInteger 2)
                  (EInteger 3)))]
  /\ parsedStatements
       (Parse noFloatLiterals 8
          (NewParser [ NewToken MINUS "-"; NewToken INT "1";
                       NewToken ASTERISK "*"; NewToken INT "2";
                       NewToken EOF "" ]))
     = Some [SExpression
               (EBinaryOperation (NewToken ASTERISK "*")
                  (EUnaryOperation (NewToken MINUS "-") (EInteger 1))
                  (EInteger 2))].
Proof.
  split.
  - exact (proj1 X14_grouping noFloatLiterals 0%nat "1"%string
             (NewToken EQ "==") "2"%string (NewToken OR "or") "3"%string
             eq_refl eq_refl).
  - apply (proj2 X14_grouping noFloatLiterals 0%nat (NewToken MINUS "-")
             "1"%string (NewToken ASTERISK "*") "2"%string).
    + simpl. elem_of_find.
    + reflexivity.
Defined.

(** ** Tokens the parser insists on, and one it does not *)

Lemma currentType_next p :
  currentType (next p) = Token_Type (peekToken p).
Proof. destruct p as [[|t ts] c pk es]; reflexivity. Qed.

Lemma peekToken_next p :
  Token_Type (peekToken (next p))
  = Token_Type (hd zeroToken (tokens p)).
Proof. destruct p as [[|t ts] c pk es]; reflexivity. Qed.

Lemma parseBlock_current rs n p p' :
  next p = next p' -> parseBlock rs n p = parseBlock rs n p'.
Proof. unfold parseBlock. intros ->. reflexivity. Qed.

Lemma expectCurrent_one p tokenType :
  expectCurrent p [tokenType]
  = if decide (currentType p = tokenType) then Done tt
    else Panic (LogFatal [tokenType] (currentType p)).
Proof.
  unfold expectCurrent. cbn [existsb]. rewrite orb_false_r.
  destruct (decide (currentType p = tokenType)) as [E|E].
  - rewrite bool_decide_eq_true_2 by exact E. reflexivity.
  - rewrite bool_decide_eq_false_2 by exact E. reflexivity.
Qed.

Lemma parseIdentifier_step p :
  parseIdentifier p
  = if decide (currentType p = IDENT)
    then Done (mkIdentifier (currentToken p)
                 (bool_decide (Token_Type (peekToken p) = LPAREN)),
               next p)
    else Panic (LogFatal [IDENT] (currentType p)).
Proof.
  unfold parseIdentifier. rewrite expectCurrent_one.
  destruct (decide (currentType p = IDENT)); reflexivity.
Qed.

(** X15. What the statement headers insist on.  [var] not followed by an
    identifier, or the identifier not followed by [=], ends the process in
    [log.Fatalf], and so does a [for] whose variable is followed by
    neither a comma nor [in], and a [while] whose condition is not
    followed by an opening brace.  [if] does not look at the token its
    condition ends at: it is skipped as if it were the brace, so two [if]
    statements that differ in that token alone parse to the same
    result. *)
Theorem X15_statement_headers :
  (forall ParseFloat fuel p,
      currentType p = VAR ->
      Token_Type (peekToken p) <> IDENT ->
      parseStatement ParseFloat (S fuel) p
      = Panic (LogFatal [IDENT] (Token_Type (peekToken p))))
  /\ (forall ParseFloat fuel p,
         currentType p = VAR ->
         Token_Type (peekToken p) = IDENT ->
         Token_Type (hd zeroToken (tokens p)) <> ASSIGN ->
         parseStatement ParseFloat (S fuel) p
         = Panic (LogFatal [ASSIGN] (Token_Type (hd zeroToken (tokens p)))))
  /\ (forall ParseFloat fuel p,
         currentType p = FOR ->
         Token_Type (peekToken p) = IDENT ->
         Token_Type (hd zeroToken (tokens p)) ∉ [COMMA; IN] ->
         parseStatement ParseFloat (S fuel) p
         = Panic (LogFatal [IN] (Token_Type (hd zeroToken (tokens p)))))
  /\ (forall ParseFloat fuel p condition p1,
         currentType p = WHILE ->
         parseExpression ParseFloat fuel LOWEST (next p)
         = Done (condition, p1) ->
         currentType p1 <> LCURLY ->
         parseStatement ParseFloat (S fuel) p
         = Panic (LogFatal [LCURLY] (currentType p1)))
  /\ (forall ParseFloat fuel p p' condition p1 p1',
         currentType p = IF -> currentType p' = IF ->
         parseExpression ParseFloat fuel LOWEST (next p)
         = Done (condition, p1) ->
         parseExpression ParseFloat fuel LOWEST (next p')
         = Done (condition, p1') ->
         next p1 = next p1' ->
         parseStatement ParseFloat (S fuel) p
         = parseStatement ParseFloat (S fuel) p').
Proof.
  repeat apply conj.
  - intros ParseFloat fuel p Hcur Hpeek.
    cbn [parseStatement]. unfold parseStatementBody. rewrite Hcur.
    unfold parseVariable. rewrite bool_decide_eq_true_2 by exact Hcur.
    rewrite parseIdentifier_step, currentType_next.
    destruct (decide (Token_Type (peekToken p) = IDENT)); [contradiction|].
    reflexivity.
  - intros ParseFloat fuel p Hcur Hpeek Hnext.
    cbn [parseStatement]. unfold parseStatementBody. rewrite Hcur.
    unfold parseVariable. rewrite bool_decide_eq_true_2 by exact Hcur.
    rewrite parseIdentifier_step, currentType_next.
    destruct (decide (Token_Type (peekToken p) = IDENT)); [|contradiction].
    cbn [mbind Outcome_bind].
    rewrite expectCurrent_one, currentType_next, peekToken_next.
    destruct (decide (Token_Type (hd zeroToken (tokens p)) = ASSIGN));
      [contradiction|].
    reflexivity.
  - intros ParseFloat fuel p Hcur Hpeek Hnext.
    assert (Hcomma : Token_Type (hd zeroToken (tokens p)) <> COMMA).
    { intros E. apply Hnext. rewrite E. elem_of_find. }
    assert (Hin : Token_Type (hd zeroToken (tokens p)) <> IN).
    { intros E. apply Hnext. rewrite E. elem_of_find. }
    cbn [parseStatement]. unfold parseStatementBody. rewrite Hcur.
    unfold parseFor.
    rewrite parseIdentifier_step, currentType_next.
    destruct (decide (Token_Type (peekToken p) = IDENT)); [|contradiction].
    cbn [mbind Outcome_bind].
    rewrite currentType_next, peekToken_next.
    rewrite (bool_decide_eq_false_2
               (Token_Type (hd zeroToken (tokens p)) = COMMA))
      by exact Hcomma.
    cbn [mbind Outcome_bind].
    rewrite expectCurrent_one, currentType_next, peekToken_next.
    destruct (decide (Token_Type (hd zeroToken (tokens p)) = IN));
      [contradiction|].
    reflexivity.
  - intros ParseFloat fuel p condition p1 Hcur Hcond Hbrace.
    cbn [parseStatement]. unfold parseStatementBody. rewrite Hcur.
    unfold parseWhile. rewrite Hcond. cbn [mbind Outcome_bind].
    rewrite expectCurrent_one.
    destruct (decide (currentType p1 = LCURLY)); [contradiction|].
    reflexivity.
  - intros ParseFloat fuel p p' condition p1 p1' Hcur Hcur' Hcond Hcond'
           Hnext.
    cbn [parseStatement]. unfold parseStatementBody. rewrite Hcur, Hcur'.
    unfold parseIf. rewrite Hcond, Hcond'. cbn [mbind Outcome_bind].
    rewrite (parseBlock_current _ _ _ _ Hnext). reflexivity.
Qed.

(** [var 5], [var x 5], [for k 5], [while true }], and [if true ) }]
    against [if true { }]. *)
Lemma X15_statement_headers_witness :
  parseStatement noFloatLiterals 5
    (mkParser [] (NewToken VAR "var") (NewToken INT "5") [])
  = Panic (LogFatal [IDENT] INT)
  /\ parseStatement noFloatLiterals 5
       (mkParser [NewToken INT "5"] (NewToken VAR "var")
          (NewToken IDENT "x") [])
     = Panic (LogFatal [ASSIGN] INT)
  /\ parseStatement noFloatLiterals 5
       (mkParser [NewToken INT "5"] (NewToken FOR "for")
          (NewToken IDENT "k") [])
     = Panic (LogFatal [IN] INT)
  /\ parseStatement noFloatLiterals 5
       (mkParser [NewToken RCURLY "}"; NewToken EOF ""]
          (NewToken WHILE "while") (NewToken TRUE "true") [])
     = Panic (LogFatal [LCURLY] RCURLY)
  /\ parseStatement noFloatLiterals 5
       (mkParser [NewToken RPAREN ")"; NewToken RCURLY "}"; NewToken EOF ""]
          (NewToken IF "if") (NewToken TRUE "true") [])
     = parseStatement noFloatLiterals 5
         (mkParser [NewToken LCURLY "{"; NewToken RCURLY "}"; NewToken EOF ""]
            (NewToken IF "if") (NewToken TRUE "true") []).
Proof.
  destruct X15_statement_headers as (Hvar & Hassign & Hfor & Hwhile & Hif).
  repeat apply conj.
  - apply (Hvar noFloatLiterals 4%nat
             (mkParser [] (NewToken VAR "var") (NewToken INT "5") []));
      [reflexivity|discriminate].
  - apply (Hassign noFloatLiterals 4%nat
             (mkParser [NewToken INT "5"] (NewToken VAR "var")
                (NewToken IDENT "x") []));
      [reflexivity|reflexivity|discriminate].
  - apply (Hfor noFloatLiterals 4%nat
             (mkParser [NewToken INT "5"] (NewToken FOR "for")
                (NewToken IDENT "k") []));
      [reflexivity|reflexivity|].
    simpl. intros H. elem_of_contra H.
  - apply (Hwhile noFloatLiterals 4%nat
             (mkParser [NewToken RCURLY "}"; NewToken EOF ""]
                (NewToken WHILE "while") (NewToken TRUE "true") [])
             (EBoolean true)
             (mkParser [] (NewToken RCURLY "}") (NewToken EOF "") []));
      [reflexivity|reflexivity|discriminate].
  - apply (Hif noFloatLiterals 4%nat _ _ (EBoolean true)
             (mkParser [NewToken EOF ""] (NewToken RPAREN ")")
                (NewToken RCURLY "}") [])
             (mkParser [NewToken EOF ""] (NewToken LCURLY "{")
                (NewToken RCURLY "}") []));
      reflexivity.
Defined.

(** ** What the function tables hold *)

Lemma functionsTyped_inv s :
  functionsTyped s <->
  (forall k v, functions s !! k = Some v -> exists f, v = VFunction f)
  /\ match parent s with
     | Some up => functionsTyped up
     | None => True
     end.
Proof.
  unfold functionsTyped. destruct s as [vs fs [up|]]; simpl.
  - rewrite Forall_cons. reflexivity.
  - rewrite Forall_cons. split; [intros [H _]; auto|intros [H _]].
    split; [exact H|constructor].
Qed.

Lemma functionsTyped_frame N s s' :
  frame N s s' -> functionsTyped s -> functionsTyped s'.
Proof.
  revert s'. induction s as [vs fs|vs fs up IH] using Scope_chain_ind;
    intros [vs' fs' [up'|]]; simpl; intros (Hf & _ & _ & Hup);
    try contradiction; rewrite !functionsTyped_inv; simpl; subst fs';
    intros [Hhere Hrest]; split; auto.
Qed.

Lemma functionsTyped_statement fuel statement s o v s' o' :
  functionsTyped s ->
  evalStatement fuel statement s o = Done (v, s', o') ->
  functionsTyped s'.
Proof.
  intros Ht H. destruct (declares statement) eqn:Hd.
  - destruct fuel as [|fuel]; [discriminate|].
    rewrite evalStatement_S in H.
    destruct statement as [name value [|]| | | |name parameters body| | |];
      try discriminate; simpl in H.
    + unfold evalVariable in H.
      destruct (evalExpression fuel value s o) as [[[v1 s1] o1]| |] eqn:E;
        simpl in H; try discriminate.
      injection H as <- <- <-.
      pose proof (proj2 (eval_frame noName fuel) _ _ _ _ _ _
                    (functionsSafe_noName s) E) as Hf.
      pose proof (functionsTyped_frame _ _ _ Hf Ht) as Ht1.
      apply functionsTyped_inv. apply functionsTyped_inv in Ht1.
      destruct s1. exact Ht1.
    + unfold evalFunction in H. injection H as <- <- <-.
      apply functionsTyped_inv. apply functionsTyped_inv in Ht.
      destruct Ht as [Hhere Hrest]. destruct s as [vs fs up].
      cbn [SetFunction functions parent] in *.
      split; [|exact Hrest]. intros k w Hk.
      destruct (decide (k = identName name)) as [->|Hne].
      * rewrite lookup_insert_eq in Hk. injection Hk as <-. eauto.
      * rewrite lookup_insert_ne in Hk by congruence. eapply Hhere.
        exact Hk.
  - eapply functionsTyped_frame; [|exact Ht].
    eapply statement_frame; eassumption.
Qed.

Lemma functionsTyped_statements fuel statements value s o v s' o' :
  functionsTyped s ->
  evalStatements fuel statements value s o = Done (v, s', o') ->
  functionsTyped s'.
Proof.
  revert value s o.
  induction statements as [|statement rest IH]; intros value s o Ht H;
    simpl in H.
  - injection H as <- <- <-. exact Ht.
  - destruct (isNilStatement statement).
    + injection H as <- <- <-. exact Ht.
    + destruct (evalStatement fuel statement s o) as [[[v1 s1] o1]| |] eqn:E;
        simpl in H; try discriminate.
      eapply IH; [|exact H]. eapply functionsTyped_statement; eassumption.
Qed.

(** X16. The function tables hold nothing but functions.  The tables of a
    new root scope do, trivially, and every statement, every expression
    and every program that ends normally leaves a chain of which this is
    true when it was given one.  In such a chain every name [GetFunction]
    finds is a function, so the type assertion of [evalCall] on what it
    found cannot fail: a call of a name that is found either yields nil for
    a wrong number of arguments or runs the body. *)
Theorem X16_function_tables :
  functionsTyped (NewScope None)
  /\ (forall fuel statement s o v s' o',
         functionsTyped s ->
         evalStatement fuel statement s o = Done (v, s', o') ->
         functionsTyped s')
  /\ (forall fuel e s o v s' o',
         functionsTyped s ->
         evalExpression fuel e s o = Done (v, s', o') ->
         functionsTyped s')
  /\ (forall ParseFloat fuel lexed s o v s' o',
         functionsTyped s ->
         Eval ParseFloat fuel lexed s o = Done (v, s', o') ->
         functionsTyped s')
  /\ (forall s identifier v,
         functionsTyped s ->
         GetFunction s identifier = (v, true) ->
         exists f, v = VFunction f)
  /\ (forall fuel identifier arguments s o,
         functionsTyped s ->
         (GetFunction s identifier).2 = true ->
         exists f,
           GetFunction s identifier = (VFunction f, true)
           /\ evalExpression (S fuel) (ECall identifier arguments) s o
              = if decide (length (Parameters f) = length arguments)
                then '(newScope, s1, o1) ←
                       evalCallLoop (evalExpression fuel) (Parameters f)
                         arguments (NewScope (Some s)) s o;
                     evalBlockIn (evalStatement fuel) (Body f) newScope s1 o1
                else Done (Nil, s, o)).
Proof.
  assert (Hfound : forall s identifier v,
             functionsTyped s ->
             GetFunction s identifier = (v, true) ->
             exists f, v = VFunction f).
  { intros s identifier v Ht G.
    destruct (GetFunction_found_inv _ _ _ G) as (i & a & Hi & Ha & _).
    unfold functionsTyped in Ht. rewrite Forall_lookup in Ht.
    exact (Ht _ _ Hi _ _ Ha). }
  repeat apply conj.
  - apply functionsTyped_inv. simpl. split; [|exact I].
    intros k v Hk. rewrite lookup_empty in Hk. discriminate.
  - exact functionsTyped_statement.
  - intros fuel e s o v s' o' Ht H.
    eapply functionsTyped_frame; [|exact Ht].
    exact (proj2 (eval_frame noName fuel) _ _ _ _ _ _
             (functionsSafe_noName s) H).
  - intros ParseFloat fuel lexed s o v s' o' Ht H. unfold Eval in H.
    destruct (Parse ParseFloat fuel (NewParser lexed)) as [[statements p']| |];
      simpl in H; try discriminate.
    eapply functionsTyped_statements; eassumption.
  - exact Hfound.
  - intros fuel identifier arguments s o Ht Hok.
    destruct (GetFunction s identifier) as [v ok] eqn:G. simpl in Hok.
    subst ok. destruct (Hfound _ _ _ Ht G) as [f ->].
    exists f. split; [reflexivity|].
    rewrite evalExpression_S. simpl. unfold evalCall. rewrite G. simpl.
    destruct (decide (length (Parameters f) = length arguments)) as [E|E].
    + rewrite (proj2 (Nat.eqb_eq _ _) E). reflexivity.
    + rewrite (proj2 (Nat.eqb_neq _ _) E). reflexivity.
Qed.

(** The scope left by the program that declares [sum], and [sum] looked up
    in it. *)
Lemma X16_function_tables_witness :
  functionsTyped sumScope
  /\ exists f, VFunction sumFunction = VFunction f.
Proof.
  destruct X16_function_tables as (Hroot & Hstatement & _ & _ & Hfound & _).
  assert (Ht : functionsTyped sumScope).
  { apply (Hstatement 1%nat
             (SFunction (Name sumFunction) (Parameters sumFunction)
                (Body sumFunction))
             (NewScope None) [] Nil sumScope [] Hroot).
    reflexivity. }
  split; [exact Ht|].
  apply (Hfound sumScope (ident "sum" true) (VFunction sumFunction) Ht).
  reflexivity.
Defined.

(** ** The marks of identifiers *)

Section Marks.

Context (ParseFloat : string -> float)
        (rs : Parser -> Parsed Statement)
        (re : Z -> Parser -> Parsed Expression).
Hypothesis Hrs :
  forall p statement p',
    rs p = Done (statement, p') -> wellMarkedStatement statement = true.
Hypothesis Hre :
  forall precedence p e p',
    re precedence p = Done (e, p') -> wellMarked e = true.

Lemma parseExpressionLoop_marked n precedence lhs p e p' :
  wellMarked lhs = true ->
  parseExpressionLoop re n precedence lhs p = Done (e, p') ->
  wellMarked e = true.
Proof.
  revert lhs p. induction n as [|n IH]; intros lhs p Hl H; simpl in H;
    [discriminate|].
  destruct (precedence <? getPrecedence (currentType p)).
  - destruct (isBinaryOperator (currentType p)).
    + unfold parseBinaryOperation in H.
      destruct (re (getPrecedence (currentType p)) (next p))
        as [[rhs p1]| |] eqn:E; simpl in H; try discriminate.
      eapply IH; [|exact H]. simpl. rewrite Hl. simpl. eapply Hre. exact E.
    + injection H as <- <-. reflexivity.
  - injection H as <- <-. exact Hl.
Qed.

Lemma parseListLoop_marked n closing items p r p' :
  forallb wellMarked items = true ->
  parseListLoop re n closing items p = Done (r, p') ->
  forallb wellMarked r = true.
Proof.
  revert items p. induction n as [|n IH]; intros items p Hi H; simpl in H;
    [discriminate|].
  destruct (bool_decide (currentType p = closing)).
  - injection H as <- <-. exact Hi.
  - destruct (re LOWEST p) as [[item p1]| |] eqn:E; simpl in H;
      try discriminate.
    eapply IH; [|exact H]. rewrite forallb_app, Hi. simpl.
    rewrite (Hre _ _ _ _ E). reflexivity.
Qed.

Lemma itemsAssign_marked items key value :
  forallb (fun '(k, v) => wellMarked k && wellMarked v) items = true ->
  wellMarked key = true -> wellMarked value = true ->
  forallb (fun '(k, v) => wellMarked k && wellMarked v)
          (itemsAssign items key value) = true.
Proof.
  intros Hi Hk Hv. induction items as [|[k v] rest IH]; simpl in *.
  - rewrite Hk, Hv. reflexivity.
  - apply andb_true_iff in Hi as [Hkv Hrest].
    destruct (expressionEqual k key); simpl.
    + rewrite Hk, Hv, Hrest. reflexivity.
    + rewrite Hkv. simpl. apply IH. exact Hrest.
Qed.

Lemma parseMapLoop_marked n items p r p' :
  forallb (fun '(k, v) => wellMarked k && wellMarked v) items = true ->
  parseMapLoop re n items p = Done (r, p') ->
  forallb (fun '(k, v) => wellMarked k && wellMarked v) r = true.
Proof.
  revert items p. induction n as [|n IH]; intros items p Hi H; simpl in H;
    [discriminate|].
  destruct (bool_decide (currentType p = RCURLY)).
  - injection H as <- <-. exact Hi.
  - destruct (re LOWEST p) as [[key p1]| |] eqn:Ek; simpl in H;
      try discriminate.
    destruct (expectCurrent p1 [COLON]) as [[]| |]; simpl in H;
      try discriminate.
    destruct (re LOWEST (next p1)) as [[value p2]| |] eqn:Ev; simpl in H;
      try discriminate.
    destruct (hashableExpression key); try discriminate.
    eapply IH; [|exact H].
    apply itemsAssign_marked; [exact Hi|eapply Hre; exact Ek
                              |eapply Hre; exact Ev].
Qed.

Lemma parseIdentifier_mark p identifier p' :
  parseIdentifier p = Done (identifier, p') ->
  p' = next p
  /\ IsFunctionCall identifier = bool_decide (currentType p' = LPAREN).
Proof.
  rewrite parseIdentifier_step.
  destruct (decide (currentType p = IDENT)); [|discriminate].
  intros [= <- <-]. split; [reflexivity|]. rewrite currentType_next.
  reflexivity.
Qed.

Lemma parseExpressionBody_marked n precedence p e p' :
  parseExpressionBody ParseFloat re n precedence p = Done (e, p') ->
  wellMarked e = true.
Proof.
  assert (Hcontinue : forall r,
             (forall lhs p1, r = Done (lhs, p1) -> wellMarked lhs = true) ->
             ('(lhs, p1) ← r; parseExpressionLoop re n precedence lhs p1)
             = Done (e, p') ->
             wellMarked e = true).
  { intros r Hr H. destruct r as [[lhs p1]| |]; simpl in H;
      try discriminate.
    eapply parseExpressionLoop_marked; [|exact H]. eapply Hr. reflexivity. }
  assert (Hlist : forall closing q,
             forall r q', parseListLoop re n closing [] q = Done (r, q') ->
                          forallb wellMarked r = true).
  { intros closing q r q'. apply parseListLoop_marked. reflexivity. }
  unfold parseExpressionBody. intros H.
  destruct (currentType p); try (injection H as <- <-; reflexivity);
    apply Hcontinue in H; try exact H; clear H; intros lhs p1 H.
  - (* '(' *)
    destruct (re LOWEST (next p)) as [[inner q]| |] eqn:E; simpl in H;
      try discriminate.
    injection H as <- <-. eapply Hre. exact E.
  - (* '[' *)
    unfold parseArray in H.
    destruct (parseListLoop re n RBRACKET [] (next p)) as [[items q]| |]
      eqn:E; simpl in H; try discriminate.
    injection H as <- <-. simpl. eapply Hlist. exact E.
  - (* '{' *)
    unfold parseMap in H.
    destruct (parseMapLoop re n [] (next p)) as [[items q]| |] eqn:E;
      simpl in H; try discriminate.
    injection H as <- <-. simpl. eapply parseMapLoop_marked; [|exact E].
    reflexivity.
  - (* an identifier *)
    destruct (parseIdentifier p) as [[identifier q]| |] eqn:E; simpl in H;
      try discriminate.
    destruct (parseIdentifier_mark _ _ _ E) as [-> Hmark].
    destruct (currentType (next p)) eqn:Hc;
      try (injection H as <- <-; simpl; rewrite Hmark; reflexivity).
    + unfold parseCall in H.
      destruct (parseListLoop re n RPAREN [] (next (next p)))
        as [[arguments q]| |] eqn:El; simpl in H; try discriminate.
      injection H as <- <-. simpl. rewrite Hmark. simpl.
      eapply Hlist. exact El.
    + unfold parseIndex in H.
      destruct (re LOWEST (next (next p))) as [[index q]| |] eqn:Ei;
        simpl in H; try discriminate.
      injection H as <- <-. simpl. rewrite Hmark. simpl.
      rewrite (Hre _ _ _ _ Ei). reflexivity.
  - (* an integer *)
    unfold parseInteger in H.
    destruct (expectCurrent p [INT]) as [[]| |]; simpl in H;
      try discriminate.
    injection H as <- <-. reflexivity.
  - unfold parseFloat in H.
    destruct (expectCurrent p [FLOAT]) as [[]| |]; simpl in H;
      try discriminate.
    injection H as <- <-. reflexivity.
  - unfold parseString in H.
    destruct (expectCurrent p [STRING]) as [[]| |]; simpl in H;
      try discriminate.
    injection H as <- <-. reflexivity.
  - unfold parseBoolean in H.
    destruct (expectCurrent p [TRUE; FALSE]) as [[]| |]; simpl in H;
      try discriminate.
    injection H as <- <-. reflexivity.
  - unfold parseBoolean in H.
    destruct (expectCurrent p [TRUE; FALSE]) as [[]| |]; simpl in H;
      try discriminate.
    injection H as <- <-. reflexivity.
  - unfold parseLen in H.
    destruct (re LOWEST (next (next p))) as [[subject q]| |] eqn:E;
      simpl in H; try discriminate.
    injection H as <- <-. simpl. eapply Hre. exact E.
  - unfold parsePrint in H.
    destruct (expectCurrent (next p) [LPAREN]) as [[]| |]; simpl in H;
      try discriminate.
    destruct (parseListLoop re n RPAREN [] (next (next p)))
      as [[args q]| |] eqn:E; simpl in H; try discriminate.
    injection H as <- <-. simpl. eapply Hlist. exact E.
  - unfold parsePrint in H.
    destruct (expectCurrent (next p) [LPAREN]) as [[]| |]; simpl in H;
      try discriminate.
    destruct (parseListLoop re n RPAREN [] (next (next p)))
      as [[args q]| |] eqn:E; simpl in H; try discriminate.
    injection H as <- <-. simpl. eapply Hlist. exact E.
  - unfold parseUnaryOperation in H.
    destruct (expectCurrent p [PLUS; MINUS; NOT]) as [[]| |]; simpl in H;
      try discriminate.
    destruct (re PREFIX (next p)) as [[operand q]| |] eqn:E; simpl in H;
      try discriminate.
    injection H as <- <-. simpl. eapply Hre. exact E.
  - unfold parseUnaryOperation in H.
    destruct (expectCurrent p [PLUS; MINUS; NOT]) as [[]| |]; simpl in H;
      try discriminate.
    destruct (re PREFIX (next p)) as [[operand q]| |] eqn:E; simpl in H;
      try discriminate.
    injection H as <- <-. simpl. eapply Hre. exact E.
  - unfold parseUnaryOperation in H.
    destruct (expectCurrent p [PLUS; MINUS; NOT]) as [[]| |]; simpl in H;
      try discriminate.
    destruct (re PREFIX (next p)) as [[operand q]| |] eqn:E; simpl in H;
      try discriminate.
    injection H as <- <-. simpl. eapply Hre. exact E.
Qed.

Lemma parseBlockLoop_marked n statements p r p' :
  forallb wellMarkedStatement statements = true ->
  parseBlockLoop rs n statements p = Done (r, p') ->
  forallb wellMarkedStatement r = true.
Proof.
  revert statements p. induction n as [|n IH]; intros statements p Hs H;
    simpl in H; [discriminate|].
  destruct (bool_decide (currentType p = RCURLY)).
  - injection H as <- <-. exact Hs.
  - destruct (rs p) as [[statement p1]| |] eqn:E; simpl in H;
      try discriminate.
    eapply IH; [|exact H]. rewrite forallb_app, Hs. simpl.
    rewrite (Hrs _ _ _ E). reflexivity.
Qed.

Lemma parseBlock_marked n p r p' :
  parseBlock rs n p = Done (r, p') ->
  forallb wellMarkedStatement r = true.
Proof.
  unfold parseBlock. intros H.
  destruct (parseBlockLoop rs n [] (next p)) as [[statements q]| |] eqn:E;
    simpl in H; try discriminate.
  injection H as <- <-. eapply parseBlockLoop_marked; [|exact E].
  reflexivity.
Qed.

Lemma parseVariable_marked p statement p' :
  parseVariable re p = Done (statement, p') ->
  wellMarkedStatement statement = true.
Proof.
  unfold parseVariable. intros H.
  destruct (bool_decide (currentType p = VAR));
    match type of H with
    | context [parseIdentifier ?q] =>
        destruct (parseIdentifier q) as [[name p1]| |]; simpl in H;
        try discriminate
    end;
    (destruct (expectCurrent p1 [ASSIGN]) as [[]| |]; simpl in H;
     try discriminate);
    (destruct (re LOWEST (next p1)) as [[value p2]| |] eqn:E; simpl in H;
     try discriminate);
    injection H as <- <-; simpl; eapply Hre; exact E.
Qed.

Lemma parseStatementBody_marked n p statement p' :
  parseStatementBody rs re n p = Done (statement, p') ->
  wellMarkedStatement statement = true.
Proof.
  assert (Hexpression : forall q,
             parseExpressionStatement re q = Done (statement, p') ->
             wellMarkedStatement statement = true).
  { intros q H. unfold parseExpressionStatement in H.
    destruct (re LOWEST q) as [[e q1]| |] eqn:E; simpl in H;
      try discriminate.
    injection H as <- <-. simpl. eapply Hre. exact E. }
  unfold parseStatementBody. intros H.
  destruct (currentType p); try (exact (Hexpression _ H)).
  - (* a block *)
    destruct (parseBlock rs n p) as [[statements q]| |] eqn:E; simpl in H;
      try discriminate.
    injection H as <- <-. simpl. eapply parseBlock_marked. exact E.
  - (* an identifier *)
    destruct (bool_decide (Token_Type (peekToken p) = ASSIGN)).
    + eapply parseVariable_marked. exact H.
    + exact (Hexpression _ H).
  - eapply parseVariable_marked. exact H.
  - (* if *)
    unfold parseIf in H.
    destruct (re LOWEST (next p)) as [[condition p1]| |] eqn:Ec; simpl in H;
      try discriminate.
    destruct (parseBlock rs n p1) as [[consequence p2]| |] eqn:Eb;
      simpl in H; try discriminate.
    destruct (bool_decide (currentType p2 = ELSE)).
    + destruct (parseBlock rs n (next p2)) as [[alternative p3]| |] eqn:Ea;
        simpl in H; try discriminate.
      injection H as <- <-. simpl.
      rewrite (Hre _ _ _ _ Ec), (parseBlock_marked _ _ _ _ Eb),
        (parseBlock_marked _ _ _ _ Ea).
      reflexivity.
    + injection H as <- <-. simpl.
      rewrite (Hre _ _ _ _ Ec), (parseBlock_marked _ _ _ _ Eb).
      reflexivity.
  - (* while *)
    unfold parseWhile in H.
    destruct (re LOWEST (next p)) as [[condition p1]| |] eqn:Ec; simpl in H;
      try discriminate.
    destruct (expectCurrent p1 [LCURLY]) as [[]| |]; simpl in H;
      try discriminate.
    destruct (parseBlock rs n p1) as [[consequence p2]| |] eqn:Eb;
      simpl in H; try discriminate.
    injection H as <- <-. simpl.
    rewrite (Hre _ _ _ _ Ec), (parseBlock_marked _ _ _ _ Eb). reflexivity.
  - (* for *)
    unfold parseFor in H.
    destruct (parseIdentifier (next p)) as [[key p1]| |]; simpl in H;
      try discriminate.
    assert (Hrest : forall value p2,
               (_ ← expectCurrent p2 [IN];
                '(condition, p3) ← re LOWEST (next p2);
                _ ← expectCurrent p3 [LCURLY];
                '(consequence, p4) ← parseBlock rs n p3;
                Done (SFor key value condition consequence, p4))
               = Done (statement, p') ->
               wellMarkedStatement statement = true).
    { intros value p2 H2.
      destruct (expectCurrent p2 [IN]) as [[]| |]; simpl in H2;
        try discriminate.
      destruct (re LOWEST (next p2)) as [[condition p3]| |] eqn:Ec;
        simpl in H2; try discriminate.
      destruct (expectCurrent p3 [LCURLY]) as [[]| |]; simpl in H2;
        try discriminate.
      destruct (parseBlock rs n p3) as [[consequence p4]| |] eqn:Eb;
        simpl in H2; try discriminate.
      injection H2 as <- <-. simpl.
      rewrite (Hre _ _ _ _ Ec), (parseBlock_marked _ _ _ _ Eb).
      reflexivity. }
    destruct (bool_decide (currentType p1 = COMMA)).
    + destruct (parseIdentifier (next p1)) as [[value p2]| |]; simpl in H;
        try discriminate.
      exact (Hrest _ _ H).
    + exact (Hrest _ _ H).
  - (* fn *)
    unfold parseFunction in H.
    destruct (parseIdentifier (next p)) as [[name p1]| |]; simpl in H;
      try discriminate.
    destruct (expectCurrent p1 [LPAREN]) as [[]| |]; simpl in H;
      try discriminate.
    destruct (parseParametersLoop n [] (next p1)) as [[parameters p2]| |];
      simpl in H; try discriminate.
    destruct (expectCurrent (next p2) [LCURLY]) as [[]| |]; simpl in H;
      try discriminate.
    destruct (parseBlock rs n (next p2)) as [[body p3]| |] eqn:Eb;
      simpl in H; try discriminate.
    injection H as <- <-. simpl. eapply parseBlock_marked. exact Eb.
  - (* return *)
    unfold parseReturn in H.
    destruct (re LOWEST (next p)) as [[value p1]| |] eqn:E; simpl in H;
      try discriminate.
    injection H as <- <-. simpl. eapply Hre. exact E.
Qed.

End Marks.

Lemma parseExpression_marked ParseFloat fuel precedence p e p' :
  parseExpression ParseFloat fuel precedence p = Done (e, p') ->
  wellMarked e = true.
Proof.
  revert precedence p e p'.
  induction fuel as [|fuel IH]; intros precedence p e p' H;
    [discriminate|].
  cbn [parseExpression] in H.
  eapply parseExpressionBody_marked; [|exact H]. exact IH.
Qed.

Lemma parseStatement_marked ParseFloat fuel p statement p' :
  parseStatement ParseFloat fuel p = Done (statement, p') ->
  wellMarkedStatement statement = true.
Proof.
  revert p statement p'.
  induction fuel as [|fuel IH]; intros p statement p' H; [discriminate|].
  cbn [parseStatement] in H.
  eapply parseStatementBody_marked; [exact IH| |exact H].
  intros precedence q e q'. apply parseExpression_marked.
Qed.

Lemma parseLoop_marked ParseFloat fuel n statements p r p' :
  forallb wellMarkedStatement statements = true ->
  parseLoop ParseFloat fuel n statements p = Done (r, p') ->
  forallb wellMarkedStatement r = true.
Proof.
  revert statements p.
  induction n as [|n IH]; intros statements p Hs H; simpl in H;
    [discriminate|].
  destruct (bool_decide (currentType p = EOF)).
  - injection H as <- <-. exact Hs.
  - destruct (parseStatement ParseFloat fuel p) as [[statement p1]| |] eqn:E;
      simpl in H; try discriminate.
    eapply IH; [|exact H].
    destruct (isNilStatement statement); [exact Hs|].
    rewrite forallb_app, Hs. simpl.
    rewrite (parseStatement_marked _ _ _ _ _ E). reflexivity.
Qed.

(** X17. The parser marks an identifier as a function call exactly when it
    makes it the identifier of a call: in whatever [parseExpression],
    [parseStatement] and [Parse] deliver, an identifier that stands as an
    expression is not marked and the identifier of a call is.  So the
    branch of [evalIdentifier] that looks the name up among the functions
    is never taken on a parsed program: an identifier always reads a
    variable, and the name of a function alone, with no variable of that
    name, is nil. *)
Theorem X17_identifier_marks :
  (forall ParseFloat fuel precedence p e p',
      parseExpression ParseFloat fuel precedence p = Done (e, p') ->
      wellMarked e = true)
  /\ (forall ParseFloat fuel p statement p',
         parseStatement ParseFloat fuel p = Done (statement, p') ->
         wellMarkedStatement statement = true)
  /\ (forall ParseFloat fuel p statements p',
         Parse ParseFloat fuel p = Done (statements, p') ->
         forallb wellMarkedStatement statements = true)
  /\ (forall fuel identifier s o,
         wellMarked (EIdentifier identifier) = true ->
         evalExpression (S fuel) (EIdentifier identifier) s o
         = Done ((GetVariable s identifier).1, s, o)).
Proof.
  repeat apply conj.
  - exact parseExpression_marked.
  - exact parseStatement_marked.
  - intros ParseFloat fuel p statements p' H. unfold Parse in H.
    eapply parseLoop_marked; [|exact H]. reflexivity.
  - intros fuel identifier s o Hm. rewrite evalExpression_S. simpl.
    unfold evalIdentifier. simpl in Hm.
    destruct (IsFunctionCall identifier); [discriminate|reflexivity].
Qed.

(** The program [sum] in the scope that declares the function [sum]. *)
Lemma X17_identifier_marks_witness :
  wellMarked (EIdentifier (ident "sum" false)) = true
  /\ evalExpression 1 (EIdentifier (ident "sum" false)) sumScope []
     = Done (Nil, sumScope, []).
Proof.
  destruct X17_identifier_marks as (Hexpression & _ & _ & Hreads).
  assert (Hm : wellMarked (EIdentifier (ident "sum" false)) = true).
  { apply (Hexpression noFloatLiterals 3%nat LOWEST
             (mkParser [] (NewToken IDENT "sum") (NewToken EOF "") [])
             (EIdentifier (ident "sum" false))
             (mkParser [] (NewToken EOF "") zeroToken [])).
    reflexivity. }
  split; [exact Hm|].
  exact (Hreads 0%nat (ident "sum" false) sumScope [] Hm).
Defined.

(** ** Lists: the commas *)

Lemma next_parserAt es t ts : next (parserAt es (t :: ts)) = parserAt es ts.
Proof. destruct ts as [|t1 [|t2 ts]]; reflexivity. Qed.

Lemma Parse_parserAt ParseFloat fuel ts :
  Parse ParseFloat fuel (NewParser ts)
  = parseLoop ParseFloat fuel fuel [] (parserAt [] ts).
Proof. unfold Parse. destruct ts as [|t1 [|t2 ts]]; reflexivity. Qed.

Lemma parseExpression_literal ParseFloat f es text ts :
  getPrecedence (currentType (parserAt es ts)) = LOWEST ->
  parseExpression ParseFloat (S (S f)) LOWEST
    (parserAt es (NewToken INT text :: ts))
  = Done (EInteger (ParseInt text), parserAt es ts).
Proof.
  intros Hp. cbn [parseExpression]. unfold parseExpressionBody.
  change (currentType (parserAt es (NewToken INT text :: ts))) with INT.
  cbv beta iota. unfold parseInteger.
  change (expectCurrent (parserAt es (NewToken INT text :: ts)) [INT])
    with (Done tt : Outcome unit).
  cbn [mbind Outcome_bind]. rewrite next_parserAt.
  change (Token_Value (currentToken (parserAt es (NewToken INT text :: ts))))
    with text.
  apply parseExpressionLoop_stop. rewrite Hp. reflexivity.
Qed.

Lemma literalList_current es items closing rest :
  Token_Type closing ∈ [RBRACKET; RPAREN] ->
  currentType (parserAt es (literalList items ++ closing :: rest))
  ∈ [INT; RBRACKET; RPAREN].
Proof.
  intros Hc. destruct items as [|[text comma] items]; simpl.
  - unfold currentType. simpl.
    destruct (Token_Type closing); try (elem_of_contra Hc); elem_of_find.
  - elem_of_find.
Qed.

Lemma literalList_cons text (comma : bool) items tail :
  literalList ((text, comma) :: items) ++ tail
  = NewToken INT text
      :: (if comma then [NewToken COMMA ","] else [])
         ++ literalList items ++ tail.
Proof. destruct comma; reflexivity. Qed.

Lemma parseListLoop_literals ParseFloat f es closing rest items :
  Token_Type closing ∈ [RBRACKET; RPAREN] ->
  forall n acc,
    (length items < n)%nat ->
    parseListLoop (parseExpression ParseFloat (S (S f))) n
      (Token_Type closing) acc
      (parserAt es (literalList items ++ closing :: rest))
    = Done (acc ++ literalItems items, parserAt es (closing :: rest)).
Proof.
  intros Hc.
  induction items as [|[text comma] items IH]; intros n acc Hn;
    (destruct n as [|n]; [simpl in Hn; lia|]); cbn [parseListLoop].
  - simpl. rewrite bool_decide_eq_true_2 by reflexivity.
    rewrite app_nil_r. reflexivity.
  - rewrite literalList_cons.
    rewrite bool_decide_eq_false_2.
    2:{ change (currentType (parserAt es (NewToken INT text :: _)))
          with INT.
        intros E. rewrite <- E in Hc. elem_of_contra Hc. }
    pose proof (literalList_current es items closing rest Hc) as Hcur.
    rewrite parseExpression_literal.
    2:{ destruct comma; [reflexivity|]. simpl app.
        destruct (currentType
                    (parserAt es (literalList items ++ closing :: rest)));
          try (elem_of_contra Hcur); reflexivity. }
    cbn [mbind Outcome_bind].
    replace (if bool_decide
                  (currentType
                     (parserAt es
                        ((if comma then [NewToken COMMA ","] else [])
                         ++ literalList items ++ closing :: rest))
                   = COMMA)
             then next (parserAt es
                          ((if comma then [NewToken COMMA ","] else [])
                           ++ literalList items ++ closing :: rest))
             else parserAt es
                    ((if comma then [NewToken COMMA ","] else [])
                     ++ literalList items ++ closing :: rest))
      with (parserAt es (literalList items ++ closing :: rest)).
    2:{ destruct comma.
        - simpl app. rewrite bool_decide_eq_true_2 by reflexivity.
          rewrite next_parserAt. reflexivity.
        - simpl app. rewrite bool_decide_eq_false_2; [reflexivity|].
          intros E. rewrite E in Hcur. elem_of_contra Hcur. }
    rewrite IH by (simpl in Hn; lia).
    rewrite <- app_assoc. reflexivity.
Qed.

Lemma parseStatement_expression ParseFloat n p e p' :
  currentType p ∈ [LBRACKET; IDENT] ->
  Token_Type (peekToken p) <> ASSIGN ->
  parseExpression ParseFloat n LOWEST p = Done (e, p') ->
  parseStatement ParseFloat (S n) p = Done (SExpression e, p').
Proof.
  intros Hc Hpeek H. cbn [parseStatement]. unfold parseStatementBody.
  rewrite (bool_decide_eq_false_2 (Token_Type (peekToken p) = ASSIGN))
    by exact Hpeek.
  unfold parseExpressionStatement. rewrite H.
  destruct (currentType p); try (elem_of_contra Hc); reflexivity.
Qed.

Lemma Parse_expression ParseFloat n ts e :
  currentType (parserAt [] ts) ∈ [LBRACKET; IDENT] ->
  Token_Type (peekToken (parserAt [] ts)) <> ASSIGN ->
  isNilStatement (SExpression e) = false ->
  parseExpression ParseFloat n LOWEST (parserAt [] ts)
  = Done (e, parserAt [] [NewToken EOF ""]) ->
  Parse ParseFloat (S n) (NewParser ts)
  = Done ([SExpression e], parserAt [] [NewToken EOF ""]).
Proof.
  intros Hc Hpeek Hnil H. rewrite Parse_parserAt.
  destruct n as [|n]; [discriminate|].
  remember (S n) as m eqn:Hm. cbn [parseLoop].
  rewrite bool_decide_eq_false_2
    by (intros E; rewrite E in Hc; elem_of_contra Hc).
  rewrite (parseStatement_expression _ _ _ _ _ Hc Hpeek H).
  cbn [mbind Outcome_bind]. rewrite Hnil. subst m. cbn [parseLoop].
  reflexivity.
Qed.

Lemma parseExpression_array ParseFloat k es items tail :
  getPrecedence (currentType (parserAt es tail)) = LOWEST ->
  parseExpression ParseFloat (S (S (S (length items + k)))) LOWEST
    (parserAt es (NewToken LBRACKET "[" :: literalList items
                  ++ NewToken RBRACKET "]" :: tail))
  = Done (EArray (literalItems items), parserAt es tail).
Proof.
  intros Hp. remember (S (S (length items + k))) as n eqn:Hn.
  cbn [parseExpression]. unfold parseExpressionBody.
  change (currentType (parserAt es (NewToken LBRACKET "[" :: _)))
    with LBRACKET.
  cbv beta iota. unfold parseArray. rewrite next_parserAt. subst n.
  rewrite (parseListLoop_literals ParseFloat (length items + k) es
             (NewToken RBRACKET "]") tail items)
    by (simpl; try elem_of_find; lia).
  cbn [mbind Outcome_bind]. rewrite next_parserAt.
  apply parseExpressionLoop_stop. rewrite Hp. reflexivity.
Qed.

Lemma parseExpression_call ParseFloat k es name items tail :
  getPrecedence (currentType (parserAt es tail)) = LOWEST ->
  parseExpression ParseFloat (S (S (S (length items + k)))) LOWEST
    (parserAt es (NewToken IDENT name :: NewToken LPAREN "("
                  :: literalList items ++ NewToken RPAREN ")" :: tail))
  = Done (ECall (mkIdentifier (NewToken IDENT name) true)
            (literalItems items),
          parserAt es tail).
Proof.
  intros Hp. remember (S (S (length items + k))) as n eqn:Hn.
  cbn [parseExpression]. unfold parseExpressionBody.
  change (currentType (parserAt es (NewToken IDENT name :: _))) with IDENT.
  cbv beta iota. rewrite parseIdentifier_step.
  change (currentType (parserAt es (NewToken IDENT name :: _))) with IDENT.
  destruct (decide (IDENT = IDENT)); [|contradiction].
  cbn [mbind Outcome_bind]. rewrite next_parserAt.
  change (currentType (parserAt es (NewToken LPAREN "(" :: _))) with LPAREN.
  cbv beta iota. unfold parseCall. rewrite next_parserAt. subst n.
  rewrite (parseListLoop_literals ParseFloat (length items + k) es
             (NewToken RPAREN ")") tail items)
    by (simpl; try elem_of_find; lia).
  cbn [mbind Outcome_bind]. rewrite next_parserAt.
  apply parseExpressionLoop_stop. rewrite Hp. reflexivity.
Qed.

(** X18. The commas of a list are optional.  In an array literal and in the
    arguments of a call, a comma after an item is skipped when it is there
    and not missed when it is not, one after the last item included: a
    list of integer literals parses to the same items whichever of them
    are followed by a comma. *)
Theorem X18_commas_are_optional :
  (forall ParseFloat k items,
      parsedStatements
        (Parse ParseFloat (length items + 4 + k)
           (NewParser (NewToken LBRACKET "[" :: literalList items
                       ++ [NewToken RBRACKET "]"; NewToken EOF ""])))
      = Some [SExpression (EArray (literalItems items))])
  /\ (forall ParseFloat k name items,
         parsedStatements
           (Parse ParseFloat (length items + 4 + k)
              (NewParser (NewToken IDENT name :: NewToken LPAREN "("
                          :: literalList items
                          ++ [NewToken RPAREN ")"; NewToken EOF ""])))
         = Some [SExpression
                   (ECall (mkIdentifier (NewToken IDENT name) true)
                      (literalItems items))]).
Proof.
  split.
  - intros ParseFloat k items.
    replace (length items + 4 + k)%nat
      with (S (S (S (S (length items + k))))) by lia.
    rewrite (Parse_expression ParseFloat _ _ (EArray (literalItems items)));
      [reflexivity| | | |].
    + simpl. elem_of_find.
    + destruct items as [|[text comma] items]; discriminate.
    + reflexivity.
    + apply parseExpression_array. reflexivity.
  - intros ParseFloat k name items.
    replace (length items + 4 + k)%nat
      with (S (S (S (S (length items + k))))) by lia.
    rewrite (Parse_expression ParseFloat _ _
               (ECall (mkIdentifier (NewToken IDENT name) true)
                  (literalItems items)));
      [reflexivity| | | |].
    + simpl. elem_of_find.
    + discriminate.
    + reflexivity.
    + apply parseExpression_call. reflexivity.
Qed.

(** ** Printing *)

(** X19. A [print] or [println] that ends normally yields nil and adds one
    entry to the output, after whatever its arguments printed themselves:
    the entry holds one value per argument, in order, a literal argument
    giving its own value, and tells which of the two it was.  When no
    argument has a call in it the scope is left as it was, and when none
    prints either, the output is the old one with that entry added. *)
Theorem X19_print :
  forall fuel args isNewLine s o v s' o',
    evalExpression (S (S fuel)) (EPrint args isNewLine) s o
    = Done (v, s', o') ->
    v = Nil
    /\ exists vs,
        length vs = length args
        /\ (forall i e x,
               args !! i = Some e -> literalValue e = Some x ->
               vs !! i = Some x)
        /\ last o' = Some (mkPrinted vs isNewLine)
        /\ (forallb callFree args = true ->
            s' = s
            /\ (forallb printFree args = true ->
                o' = o ++ [mkPrinted vs isNewLine])).
Proof.
  intros fuel args isNewLine s o v s' o' H.
  rewrite evalExpression_S in H. cbn [evalExpressionBody] in H.
  unfold evalPrint in H.
  destruct (evalList (evalExpression (S fuel)) args s o)
    as [[[vs s1] o1]| |] eqn:E; cbn [mbind Outcome_bind] in H;
    try discriminate.
  injection H as <- <- <-. split; [reflexivity|]. exists vs.
  repeat apply conj.
  - eapply evalList_length. exact E.
  - eapply evalList_literals. exact E.
  - apply last_snoc.
  - intros Hc.
    destruct (evalList_pure _ _ _ _ _ _ _ (evalExpression_pure (S fuel))
                Hc E) as [-> Ho].
    split; [reflexivity|]. intros Hp. rewrite (Ho Hp). reflexivity.
Qed.

(** [println("x is", x)] in a chain that binds [x] to 0. *)
Lemma X19_print_witness :
  Nil = Nil
  /\ exists vs,
      length vs = 2%nat
      /\ (forall i e x,
             [EString "x is"; EIdentifier (ident "x" false)] !! i = Some e ->
             literalValue e = Some x ->
             vs !! i = Some x)
      /\ last [mkPrinted [VString "x is"; VInt64 0] true]
         = Some (mkPrinted vs true)
      /\ (forallb callFree [EString "x is"; EIdentifier (ident "x" false)]
          = true ->
          rootWithX = rootWithX
          /\ (forallb printFree
                [EString "x is"; EIdentifier (ident "x" false)] = true ->
              [mkPrinted [VString "x is"; VInt64 0] true]
              = [] ++ [mkPrinted vs true])).
Proof.
  apply (X19_print 0%nat [EString "x is"; EIdentifier (ident "x" false)]
           true rootWithX [] Nil rootWithX
           [mkPrinted [VString "x is"; VInt64 0] true]).
  reflexivity.
Defined.

(** ** The lexer tests of the sources *)

(** The cases of [TestLexer]: the embedding lexes the inputs to the tokens
    the tests expect, whatever the letters and digits beyond ASCII are. *)

Example lexer_test_comment wideLetter wideDigit :
  Lex wideLetter wideDigit (NewLexer "# Cool!") = Lexed [NewToken EOF ""].
Proof. reflexivity. Qed.

Example lexer_test_delimiters wideLetter wideDigit :
  Lex wideLetter wideDigit (NewLexer ", : ( ) [ ] { }")
  = Lexed [ NewToken COMMA ","; NewToken COLON ":"; NewToken LPAREN "(";
            NewToken RPAREN ")"; NewToken LBRACKET "[";
            NewToken RBRACKET "]"; NewToken LCURLY "{"; NewToken RCURLY "}";
            NewToken EOF "" ].
Proof. reflexivity. Qed.

Example lexer_test_identifiers_and_literals wideLetter wideDigit :
  Lex wideLetter wideDigit (NewLexer ("abc 0 1.5 " ++ quoted "abc"))
  = Lexed [ NewToken IDENT "abc"; NewToken INT "0"; NewToken FLOAT "1.5";
            NewToken STRING "abc"; NewToken EOF "" ].
Proof. reflexivity. Qed.

Example lexer_test_keywords wideLetter wideDigit :
  Lex wideLetter wideDigit
    (NewLexer
       "true false var if else while for in fn return len print println")
  = Lexed [ NewToken TRUE "true"; NewToken FALSE "false"; NewToken VAR "var";
            NewToken IF "if"; NewToken ELSE "else"; NewToken WHILE "while";
            NewToken FOR "for"; NewToken IN "in"; NewToken FN "fn";
            NewToken RETURN "return"; NewToken LEN "len";
            NewToken PRINT "print"; NewToken PRINTLN "println";
            NewToken EOF "" ].
Proof. reflexivity. Qed.

Example lexer_test_operators wideLetter wideDigit :
  Lex wideLetter wideDigit (NewLexer "= + - * / ! < > <= >= == != or and")
  = Lexed [ NewToken ASSIGN "="; NewToken PLUS "+"; NewToken MINUS "-";
            NewToken ASTERISK "*"; NewToken SLASH "/"; NewToken NOT "!";
            NewToken LT "<"; NewToken GT ">"; NewToken LEQ "<=";
            NewToken GEQ ">="; NewToken EQ "=="; NewToken NEQ "!=";
            NewToken OR "or"; NewToken AND "and"; NewToken EOF "" ].
Proof. reflexivity. Qed.

(** [TestEval]: the batch run of the test's source text ends with the
    int64 1. *)
Example eval_test_fibonacci wideLetter wideDigit ParseFloat :
  match main wideLetter wideDigit ParseFloat 12 fibonacciSource with
  | Evaluates r => valueAndOutput r = Some (VInt64 1, [])
  | _ => False
  end.
Proof. vm_compute. reflexivity. Qed.

(** ** The reader of the lexer *)

Lemma takeBytes_dropBytes n s : (takeBytes n s ++ dropBytes n s)%string = s.
Proof.
  revert s. induction n as [|n IH]; intros [|c rest]; try reflexivity.
  change (String c (takeBytes n rest ++ dropBytes n rest)%string
          = String c rest).
  rewrite IH. reflexivity.
Qed.

Lemma dropBytes_length n s :
  String.length (dropBytes n s) = (String.length s - n)%nat.
Proof.
  revert s. induction n as [|n IH]; intros [|c rest]; simpl; auto.
Qed.

Lemma runeWidth_pos c rest : (1 <= runeWidth (String c rest))%nat.
Proof.
  unfold runeWidth.
  repeat match goal with
         | |- context [if ?b then _ else _] => destruct b
         | |- context [match ?s with EmptyString => _ | String _ _ => _ end] =>
             destruct s
         end; lia.
Qed.

Lemma string_app_length (a b : string) :
  String.length (a ++ b) = (String.length a + String.length b)%nat.
Proof.
  induction a as [|c a IH]; [reflexivity|].
  change (S (String.length (a ++ b)) = S (String.length a + String.length b)).
  rewrite IH. reflexivity.
Qed.

(** Reading a rune consumes input unless there is none left, and then the
    rune is 0; unreading right after gives the input back. *)
Lemma ReadRune_spec l r l' :
  ReadRune l = (r, l') ->
  remaining (UnreadRune l') = remaining l
  /\ lastRune (UnreadRune l') = None
  /\ (String.length (remaining l') <= String.length (remaining l))%nat
  /\ (r <> runeOf 0 ->
      (String.length (remaining l') < String.length (remaining l))%nat)
  /\ (remaining l = EmptyString -> r = runeOf 0).
Proof.
  unfold ReadRune. destruct (remaining l) as [|c rest] eqn:E.
  - intros [= <- <-]. simpl. repeat split; auto. congruence.
  - pose proof (runeWidth_pos c rest) as Hw. cbv zeta.
    remember (runeWidth (String c rest)) as w eqn:Ew. clear Ew.
    intros [= <- <-]. unfold UnreadRune. cbn [lastRune remaining].
    rewrite takeBytes_dropBytes, dropBytes_length.
    cbn [String.length].
    repeat split; try reflexivity; try lia; discriminate.
Qed.

Lemma ReadLineFrom_length n s :
  (String.length (ReadLineFrom n s) <= String.length s)%nat.
Proof.
  revert n. induction s as [|c rest IH]; intros n; simpl; [lia|].
  destruct (bool_decide (c = ascii_of_nat 10)); [lia|].
  destruct (n <=? 1)%N.
  - destruct (bool_decide (c = ascii_of_nat 13)); simpl; lia.
  - specialize (IH (n - 1)%N). lia.
Qed.

Lemma ReadStringFrom_length delim s str rest :
  ReadStringFrom delim s = (str, rest) ->
  (String.length rest <= String.length s)%nat.
Proof.
  revert str rest. induction s as [|c s IH]; intros str rest; simpl.
  - intros [= <- <-]. simpl. lia.
  - destruct (bool_decide (c = delim)).
    + intros [= <- <-]. lia.
    + destruct (ReadStringFrom delim s) as [str' rest'].
      intros [= <- <-]. specialize (IH _ _ eq_refl). lia.
Qed.

Lemma ReadLine_remaining l :
  remaining (ReadLine l) = ReadLineFrom defaultBufSize (remaining l).
Proof.
  unfold ReadLine. destruct (remaining l) eqn:E; [exact E|reflexivity].
Qed.

Lemma ReadString_remaining delim l :
  (ReadString delim l).1 = (ReadStringFrom delim (remaining l)).1
  /\ remaining (ReadString delim l).2
     = (ReadStringFrom delim (remaining l)).2.
Proof.
  unfold ReadString. destruct (remaining l) as [|c rest] eqn:E.
  - split; [reflexivity|exact E].
  - destruct (ReadStringFrom delim (String c rest)) as [str rest'].
    split; reflexivity.
Qed.

(** ** The lexer ends *)

Section LexerEnds.

Context (wideLetter wideDigit : string -> bool).

Lemma rune0_plain :
  IsLetter wideLetter (runeOf 0) = false
  /\ IsDigit wideDigit (runeOf 0) = false.
Proof. split; reflexivity. Qed.

Lemma lexWhitespaceLoop_ends n l0 r l :
  (String.length (remaining l0) < n)%nat ->
  readRune l0 = (r, l) ->
  exists l',
    lexWhitespaceLoop n r l = Some l'
    /\ (String.length (remaining l') <= String.length (remaining l0))%nat.
Proof.
  revert l0 r l. induction n as [|n IH]; intros l0 r l Hn Hr; [lia|].
  destruct (ReadRune_spec _ _ _ Hr) as (Hun & _ & Hle & Hlt & Hend).
  cbn [lexWhitespaceLoop].
  destruct (bool_decide (r ∈ [runeOf 32; runeOf 9; runeOf 10; runeOf 13;
                              runeOf 35])) eqn:Hws.
  - assert (Hr0 : r <> runeOf 0).
    { apply bool_decide_eq_true_1 in Hws. intros ->. elem_of_contra Hws. }
    specialize (Hlt Hr0).
    set (l1 := if bool_decide (r = runeOf 35) then ReadLine l else l).
    assert (Hl1 : (String.length (remaining l1)
                   <= String.length (remaining l))%nat).
    { subst l1. destruct (bool_decide (r = runeOf 35)); [|lia].
      rewrite ReadLine_remaining. apply ReadLineFrom_length. }
    destruct (readRune l1) as [r2 l2] eqn:Hr2.
    destruct (IH l1 r2 l2 ltac:(lia) Hr2) as (l' & Hloop & Hlen).
    exists l'. split; [exact Hloop|lia].
  - exists (unreadRune l). split; [reflexivity|].
    unfold unreadRune. rewrite Hun. lia.
Qed.

Lemma lexWhitespace_ends l :
  exists l',
    lexWhitespace l = Some l'
    /\ (String.length (remaining l') <= String.length (remaining l))%nat.
Proof.
  unfold lexWhitespace. destruct (readRune l) as [r l1] eqn:Hr.
  eapply lexWhitespaceLoop_ends; [|exact Hr]. lia.
Qed.

Lemma lexIdentifierLoop_ends n v l0 :
  (String.length (remaining l0) < n)%nat ->
  exists v' l',
    lexIdentifierLoop wideLetter wideDigit n v l0 = Some (v', l')
    /\ (String.length (remaining l') <= String.length (remaining l0))%nat.
Proof.
  revert v l0. induction n as [|n IH]; intros v l0 Hn; [lia|].
  cbn [lexIdentifierLoop]. destruct (readRune l0) as [r l] eqn:Hr.
  destruct (ReadRune_spec _ _ _ Hr) as (Hun & _ & Hle & Hlt & Hend).
  destruct (negb (IsLetter wideLetter r) && negb (IsDigit wideDigit r))
    eqn:Hstop.
  - exists v, (unreadRune l). split; [reflexivity|].
    unfold unreadRune. rewrite Hun. lia.
  - assert (Hr0 : r <> runeOf 0).
    { intros ->. destruct rune0_plain as [Hl Hd].
      rewrite Hl, Hd in Hstop. discriminate. }
    specialize (Hlt Hr0).
    destruct (IH (v ++ r)%string l ltac:(lia)) as (v' & l' & Hloop & Hlen).
    exists v', l'. split; [exact Hloop|lia].
Qed.

Lemma lexNumberLoop_ends n t v l0 :
  (String.length (remaining l0) < n)%nat ->
  exists token l',
    lexNumberLoop wideDigit n t v l0 = Some (token, l')
    /\ Token_Type token ∈ [t; FLOAT]
    /\ (String.length (remaining l') <= String.length (remaining l0))%nat.
Proof.
  revert t v l0. induction n as [|n IH]; intros t v l0 Hn; [lia|].
  cbn [lexNumberLoop]. destruct (readRune l0) as [r l] eqn:Hr.
  destruct (ReadRune_spec _ _ _ Hr) as (Hun & _ & Hle & Hlt & Hend).
  destruct (negb (IsDigit wideDigit r) && negb (bool_decide (r = runeOf 46)))
    eqn:Hstop.
  - exists (NewToken t v), (unreadRune l). split; [reflexivity|].
    split; [simpl; elem_of_find|]. unfold unreadRune. rewrite Hun. lia.
  - assert (Hr0 : r <> runeOf 0).
    { intros ->. destruct rune0_plain as [_ Hd].
      rewrite Hd in Hstop. discriminate. }
    specialize (Hlt Hr0).
    destruct (IH (if bool_decide (r = runeOf 46) then FLOAT else t)
                 (v ++ r)%string l ltac:(lia))
      as (token & l' & Hloop & Htype & Hlen).
    exists token, l'. split; [exact Hloop|]. split; [|lia].
    destruct (bool_decide (r = runeOf 46)).
    + apply elem_of_cons in Htype as [->|Htype]; [elem_of_find|].
      apply elem_of_cons in Htype as [->|Htype]; [elem_of_find|].
      elem_of_contra Htype.
    + exact Htype.
Qed.

Lemma tableLookup_value table key t :
  tableLookup table key = Some t -> In t (map snd table).
Proof.
  induction table as [|[k t0] rest IH]; simpl; [discriminate|].
  destruct (String.eqb k key).
  - intros [= ->]. left. reflexivity.
  - intros H. right. apply IH. exact H.
Qed.

Lemma table_types table key t :
  forallb (fun t => negb (bool_decide (t ∈ [EOF; NOTYPE])))
          (map snd table) = true ->
  tableLookup table key = Some t ->
  t ∉ [EOF; NOTYPE].
Proof.
  intros Hall H. apply tableLookup_value in H.
  rewrite forallb_forall in Hall.
  specialize (Hall _ H). apply negb_true_iff in Hall.
  apply bool_decide_eq_false_1 in Hall. exact Hall.
Qed.

Lemma lexIdentifier_ends r l0 :
  exists token l',
    lexIdentifier wideLetter wideDigit r l0 = Some (token, l')
    /\ (Token_Type token ∉ [EOF; NOTYPE])
    /\ (String.length (remaining l') <= String.length (remaining l0))%nat.
Proof.
  unfold lexIdentifier.
  destruct (lexIdentifierLoop_ends (S (String.length (remaining l0))) r l0
              ltac:(lia)) as (v & l' & -> & Hlen).
  cbn [mbind option_bind].
  destruct (tableLookup keywords v) as [t|] eqn:Hk.
  - exists (NewToken t v), l'. split; [reflexivity|]. split; [|exact Hlen].
    eapply table_types; [|exact Hk]. reflexivity.
  - exists (NewToken IDENT v), l'. split; [reflexivity|].
    split; [|exact Hlen]. simpl. intros H. elem_of_contra H.
Qed.

Lemma lexString_ends r l0 token l' :
  lexString r l0 = (token, l') ->
  Token_Type token = STRING
  /\ (String.length (remaining l') <= String.length (remaining l0))%nat.
Proof.
  unfold lexString.
  destruct (ReadString_remaining (ascii_of_nat 34) l0) as [_ Hrest].
  destruct (ReadString (ascii_of_nat 34) l0) as [str l1].
  intros [= <- <-]. split; [reflexivity|]. simpl in Hrest. rewrite Hrest.
  destruct (ReadStringFrom (ascii_of_nat 34) (remaining l0)) as [str' rest]
    eqn:E.
  eapply ReadStringFrom_length. exact E.
Qed.

Lemma lexSymbol_ends r l0 result l' :
  lexSymbol r l0 = (result, l') ->
  (String.length (remaining l') <= String.length (remaining l0))%nat
  /\ match result with
     | inl token => Token_Type token ∉ [EOF; NOTYPE]
     | inr value => value = r
     end.
Proof.
  unfold lexSymbol. destruct (readRune l0) as [r2 l2] eqn:Hr.
  destruct (ReadRune_spec _ _ _ Hr) as (Hun & _ & Hle & _ & _).
  destruct (tableLookup symbols (r ++ r2)) as [t|] eqn:Hd.
  - intros [= <- <-]. split; [exact Hle|].
    eapply table_types; [|exact Hd]. reflexivity.
  - destruct (tableLookup symbols r) as [t|] eqn:Hs; intros [= <- <-];
      unfold unreadRune; rewrite Hun; (split; [lia|]).
    + eapply table_types; [|exact Hs]. reflexivity.
    + reflexivity.
Qed.

Lemma LexLoop_ends n tokens l :
  (String.length (remaining l) < n)%nat ->
  exists sent,
    Forall (fun token => Token_Type token ∉ [EOF; NOTYPE]) sent
    /\ (LexLoop wideLetter wideDigit n tokens l
        = Lexed (tokens ++ sent ++ [NewToken EOF ""])
        \/ exists value,
            LexLoop wideLetter wideDigit n tokens l
            = InvalidToken (tokens ++ sent) value).
Proof.
  revert tokens l. induction n as [|n IH]; intros tokens l Hn; [lia|].
  cbn [LexLoop].
  destruct (lexWhitespace_ends l) as (l1 & -> & Hl1).
  destruct (readRune l1) as [r l2] eqn:Hr.
  destruct (ReadRune_spec _ _ _ Hr) as (_ & _ & _ & Hlt & _).
  assert (Hnext : forall token l3,
             Token_Type token ∉ [EOF; NOTYPE] ->
             (String.length (remaining l3)
              <= String.length (remaining l2))%nat ->
             r <> runeOf 0 ->
             exists sent,
               Forall (fun token => Token_Type token ∉ [EOF; NOTYPE]) sent
               /\ (LexLoop wideLetter wideDigit n (tokens ++ [token]) l3
                   = Lexed (tokens ++ sent ++ [NewToken EOF ""])
                   \/ exists value,
                       LexLoop wideLetter wideDigit n (tokens ++ [token]) l3
                       = InvalidToken (tokens ++ sent) value)).
  { intros token l3 Htype Hl3 Hr0. specialize (Hlt Hr0).
    destruct (IH (tokens ++ [token]) l3 ltac:(lia))
      as (sent & Hsent & Hresult).
    exists (token :: sent). split; [constructor; assumption|].
    rewrite <- !app_assoc in Hresult. exact Hresult. }
  destruct (bool_decide (r = runeOf 0)) eqn:H0.
  { exists []. split; [constructor|]. left. reflexivity. }
  apply bool_decide_eq_false_1 in H0.
  destruct (bool_decide (r = runeOf 34)).
  { destruct (lexString r l2) as [token l3] eqn:Hs.
    destruct (lexString_ends _ _ _ _ Hs) as [Htype Hl3].
    apply Hnext; [|exact Hl3|exact H0].
    rewrite Htype. intros H. elem_of_contra H. }
  destruct (IsDigit wideDigit r).
  { unfold lexNumber.
    destruct (lexNumberLoop_ends (S (String.length (remaining l2))) INT r l2
                ltac:(lia)) as (token & l3 & -> & Htype & Hl3).
    apply Hnext; [|exact Hl3|exact H0].
    intros H.
    apply elem_of_cons in Htype as [E|Htype];
      [rewrite E in H; elem_of_contra H|].
    apply elem_of_cons in Htype as [E|Htype];
      [rewrite E in H; elem_of_contra H|].
    elem_of_contra Htype. }
  destruct (IsLetter wideLetter r).
  { destruct (lexIdentifier_ends r l2) as (token & l3 & -> & Htype & Hl3).
    apply Hnext; [exact Htype|exact Hl3|exact H0]. }
  destruct (lexSymbol r l2) as [[token|value] l3] eqn:Hs;
    destruct (lexSymbol_ends _ _ _ _ Hs) as [Hl3 Htype].
  - apply Hnext; [exact Htype|exact Hl3|exact H0].
  - exists []. split; [constructor|]. right. exists value.
    rewrite app_nil_r. reflexivity.
Qed.

End LexerEnds.

(** X20. The lexer always comes to an end, on every input and whatever
    the letters and digits beyond ASCII are: it either sends its tokens
    and closes the channel, or stops the process on a symbol that is no
    token.  What it sends when it does not stop is never empty: it ends
    with the one end-of-input token, and no token before that is an
    end-of-input token or has the empty type of the token a parser reads
    off the closed channel.  So the parser is never handed a token of type
    [ILLEGAL], and never runs out of tokens before it sees the end of the
    input. *)
Theorem X20_lexer_ends :
  forall wideLetter wideDigit input,
    exists sent,
      Forall (fun token => Token_Type token ∉ [EOF; NOTYPE]) sent
      /\ (Lex wideLetter wideDigit (NewLexer input)
          = Lexed (sent ++ [NewToken EOF ""])
          \/ exists value,
              Lex wideLetter wideDigit (NewLexer input)
              = InvalidToken sent value).
Proof.
  intros wideLetter wideDigit input. unfold Lex.
  destruct (LexLoop_ends wideLetter wideDigit
              (S (String.length (remaining (NewLexer input)))) []
              (NewLexer input) ltac:(lia)) as (sent & Hsent & H).
  exists sent. split; [exact Hsent|exact H].
Qed.

(** ** Blanks and comments *)

Lemma ReadRune_remaining l l' :
  remaining l = remaining l' ->
  ReadRune l = ReadRune l'.
Proof. unfold ReadRune. intros ->. reflexivity. Qed.

Lemma lexWhitespaceLoop_fuel n m l0 r l :
  (String.length (remaining l0) < n)%nat ->
  (String.length (remaining l0) < m)%nat ->
  readRune l0 = (r, l) ->
  lexWhitespaceLoop n r l = lexWhitespaceLoop m r l.
Proof.
  revert m l0 r l. induction n as [|n IH]; intros [|m] l0 r l Hn Hm Hr;
    try lia.
  destruct (ReadRune_spec _ _ _ Hr) as (_ & _ & Hle & Hlt & _).
  cbn [lexWhitespaceLoop].
  destruct (bool_decide (r ∈ [runeOf 32; runeOf 9; runeOf 10; runeOf 13;
                              runeOf 35])) eqn:Hws; [|reflexivity].
  assert (Hr0 : r <> runeOf 0).
  { apply bool_decide_eq_true_1 in Hws. intros ->. elem_of_contra Hws. }
  specialize (Hlt Hr0).
  set (l1 := if bool_decide (r = runeOf 35) then ReadLine l else l).
  assert (Hl1 : (String.length (remaining l1)
                 <= String.length (remaining l))%nat).
  { subst l1. destruct (bool_decide (r = runeOf 35)); [|lia].
    rewrite ReadLine_remaining. apply ReadLineFrom_length. }
  destruct (readRune l1) as [r2 l2] eqn:Hr2.
  apply (IH m l1 r2 l2); [lia|lia|exact Hr2].
Qed.

Lemma lexWhitespace_remaining l l' :
  remaining l = remaining l' -> lexWhitespace l = lexWhitespace l'.
Proof.
  intros E. unfold lexWhitespace, readRune.
  rewrite (ReadRune_remaining _ _ E), E. reflexivity.
Qed.

Lemma lexWhitespace_blank c rest lr lr' :
  isBlank c = true ->
  lexWhitespace (mkReader (String c rest) lr)
  = lexWhitespace (mkReader rest lr').
Proof.
  intros Hc. unfold isBlank in Hc. apply bool_decide_eq_true_1 in Hc.
  assert (Hcases : c = ascii_of_nat 32 \/ c = ascii_of_nat 9
                   \/ c = ascii_of_nat 10 \/ c = ascii_of_nat 13).
  { repeat (apply elem_of_cons in Hc as [Hc|Hc]; [tauto|]).
    elem_of_contra Hc. }
  rewrite (lexWhitespace_remaining (mkReader rest lr')
             (mkReader rest (Some (String c EmptyString)))) by reflexivity.
  destruct Hcases as [->|[->|[->| ->]]]; reflexivity.
Qed.

Lemma lexWhitespace_blanks ws input lr lr' :
  allBytes isBlank ws = true ->
  lexWhitespace (mkReader (ws ++ input) lr)
  = lexWhitespace (mkReader input lr').
Proof.
  revert lr. induction ws as [|c ws IH]; intros lr Hws.
  - apply lexWhitespace_remaining. reflexivity.
  - simpl in Hws. apply andb_true_iff in Hws as [Hc Hws].
    change (String c ws ++ input)%string with (String c (ws ++ input)).
    rewrite (lexWhitespace_blank c (ws ++ input) lr lr) by exact Hc.
    apply IH. exact Hws.
Qed.

Lemma ReadLineFrom_line n line input :
  oneLine line = true ->
  (N.of_nat (String.length line) < n)%N ->
  ReadLineFrom n (line ++ String newline input) = input.
Proof.
  revert n. induction line as [|c line IH]; intros n Hline Hn.
  - reflexivity.
  - change (ReadLineFrom n (String c (line ++ String newline input))
            = input).
    simpl in Hline. apply andb_true_iff in Hline as [Hc Hline].
    apply negb_true_iff, bool_decide_eq_false_1 in Hc.
    cbn [ReadLineFrom].
    rewrite bool_decide_eq_false_2
      by (intros ->; apply Hc; unfold newline; elem_of_find).
    cbn [String.length] in Hn.
    destruct (n <=? 1)%N eqn:E; [apply N.leb_le in E; lia|].
    apply IH; [exact Hline|lia].
Qed.

Lemma ReadLineFrom_end n line :
  oneLine line = true ->
  (N.of_nat (String.length line) < n)%N ->
  ReadLineFrom n line = EmptyString.
Proof.
  revert n. induction line as [|c line IH]; intros n Hline Hn;
    [reflexivity|].
  simpl in Hline. apply andb_true_iff in Hline as [Hc Hline].
  apply negb_true_iff, bool_decide_eq_false_1 in Hc.
  cbn [ReadLineFrom].
  rewrite bool_decide_eq_false_2
    by (intros ->; apply Hc; unfold newline; elem_of_find).
  cbn [String.length] in Hn.
  destruct (n <=? 1)%N eqn:E; [apply N.leb_le in E; lia|].
  apply IH; [exact Hline|lia].
Qed.

Lemma ReadLineFrom_full n line tail :
  oneLine line = true ->
  (0 < n)%N ->
  N.of_nat (String.length line) = n ->
  ReadLineFrom n (line ++ tail) = tail.
Proof.
  revert n. induction line as [|c line IH]; intros n Hline Hpos Hn.
  - simpl in Hn. lia.
  - change (ReadLineFrom n (String c (line ++ tail)) = tail).
    simpl in Hline. apply andb_true_iff in Hline as [Hc Hline].
    apply negb_true_iff, bool_decide_eq_false_1 in Hc.
    cbn [ReadLineFrom].
    rewrite bool_decide_eq_false_2
      by (intros ->; apply Hc; unfold newline; elem_of_find).
    cbn [String.length] in Hn.
    destruct (n <=? 1)%N eqn:E.
    + apply N.leb_le in E.
      rewrite bool_decide_eq_false_2
        by (intros ->; apply Hc; unfold carriageReturn; elem_of_find).
      destruct line; [reflexivity|simpl in Hn; lia].
    + apply N.leb_gt in E. apply IH; [exact Hline|lia|lia].
Qed.

(** What [lexWhitespace] does at a comment, given what [ReadLine] leaves. *)
Lemma lexWhitespace_comment text lr :
  lexWhitespace (mkReader (String (ascii_of_nat 35) text) lr)
  = lexWhitespace (mkReader (ReadLineFrom defaultBufSize text) None).
Proof.
  unfold lexWhitespace at 1.
  change (readRune (mkReader (String (ascii_of_nat 35) text) lr))
    with (runeOf 35,
          mkReader text (Some (String (ascii_of_nat 35) EmptyString))).
  cbv beta iota zeta. cbn [lexWhitespaceLoop].
  rewrite bool_decide_eq_true_2 by elem_of_find.
  rewrite bool_decide_eq_true_2 by reflexivity.
  set (l1 := ReadLine
               (mkReader text (Some (String (ascii_of_nat 35) EmptyString)))).
  assert (Hl1 : remaining l1 = ReadLineFrom defaultBufSize text)
    by apply ReadLine_remaining.
  rewrite (lexWhitespace_remaining
             (mkReader (ReadLineFrom defaultBufSize text) None) l1)
    by (symmetry; exact Hl1).
  unfold lexWhitespace.
  destruct (readRune l1) as [r2 l2] eqn:Hr2.
  apply (lexWhitespaceLoop_fuel _ _ l1 r2 l2); [| |exact Hr2].
  - pose proof (ReadLineFrom_length defaultBufSize text) as Hlen.
    rewrite Hl1. cbn [remaining String.length]. lia.
  - lia.
Qed.

Section LexerFuel.

Context (wideLetter wideDigit : string -> bool).

Lemma LexLoop_fuel n m tokens l :
  (String.length (remaining l) < n)%nat ->
  (String.length (remaining l) < m)%nat ->
  LexLoop wideLetter wideDigit n tokens l
  = LexLoop wideLetter wideDigit m tokens l.
Proof.
  revert m tokens l. induction n as [|n IH]; intros [|m] tokens l Hn Hm;
    try lia.
  cbn [LexLoop].
  destruct (lexWhitespace_ends l) as (l1 & -> & Hl1).
  destruct (readRune l1) as [r l2] eqn:Hr.
  destruct (ReadRune_spec _ _ _ Hr) as (_ & _ & _ & Hlt & _).
  destruct (bool_decide (r = runeOf 0)) eqn:H0; [reflexivity|].
  apply bool_decide_eq_false_1 in H0. specialize (Hlt H0).
  destruct (bool_decide (r = runeOf 34)).
  { destruct (lexString r l2) as [token l3] eqn:Hs.
    destruct (lexString_ends _ _ _ _ Hs) as [_ Hl3]. apply IH; lia. }
  destruct (IsDigit wideDigit r).
  { unfold lexNumber.
    destruct (lexNumberLoop_ends wideLetter wideDigit
                (S (String.length (remaining l2))) INT r l2 ltac:(lia))
      as (token & l3 & -> & _ & Hl3).
    apply IH; lia. }
  destruct (IsLetter wideLetter r).
  { destruct (lexIdentifier_ends wideLetter wideDigit r l2)
      as (token & l3 & -> & _ & Hl3).
    apply IH; lia. }
  destruct (lexSymbol r l2) as [[token|value] l3] eqn:Hs; [|reflexivity].
  destruct (lexSymbol_ends _ _ _ _ Hs) as [Hl3 _]. apply IH; lia.
Qed.

Lemma Lex_skips input input' :
  (String.length input' <= String.length input)%nat ->
  lexWhitespace (NewLexer input) = lexWhitespace (NewLexer input') ->
  Lex wideLetter wideDigit (NewLexer input)
  = Lex wideLetter wideDigit (NewLexer input').
Proof.
  intros Hlen Hw. unfold Lex.
  rewrite (LexLoop_fuel (S (String.length (remaining (NewLexer input'))))
             (S (String.length (remaining (NewLexer input))))
             [] (NewLexer input'))
    by (cbn [NewLexer remaining]; lia).
  cbn [LexLoop]. rewrite Hw. reflexivity.
Qed.

End LexerFuel.

(** X21. Blanks and comments.  Spaces, tabs, newlines and carriage returns
    ahead of the input change nothing in what is lexed, and neither does a
    comment line, from [#] to the first newline; a comment that the input
    ends in lexes to the end of the input alone.  This is so for a comment
    whose line fits the buffer of the reader, 4096 bytes: of a longer
    line, [ReadLine] takes the first 4096 bytes only, and what follows
    them on the line is lexed as code. *)
Theorem X21_blanks_and_comments :
  (forall wideLetter wideDigit blanks input,
      allBytes isBlank blanks = true ->
      Lex wideLetter wideDigit (NewLexer (blanks ++ input))
      = Lex wideLetter wideDigit (NewLexer input))
  /\ (forall wideLetter wideDigit line input,
         oneLine line = true ->
         (String.length line < 4096)%nat ->
         Lex wideLetter wideDigit
           (NewLexer (String (ascii_of_nat 35) (line ++ String newline input)))
         = Lex wideLetter wideDigit (NewLexer input)
         /\ Lex wideLetter wideDigit
              (NewLexer (String (ascii_of_nat 35) line))
            = Lexed [NewToken EOF ""])
  /\ (forall wideLetter wideDigit line tail,
         oneLine line = true ->
         String.length line = 4096%nat ->
         Lex wideLetter wideDigit
           (NewLexer (String (ascii_of_nat 35) (line ++ tail)))
         = Lex wideLetter wideDigit (NewLexer tail)).
Proof.
  repeat apply conj.
  - intros wideLetter wideDigit blanks input Hb. apply Lex_skips.
    + rewrite string_app_length. lia.
    + apply lexWhitespace_blanks. exact Hb.
  - intros wideLetter wideDigit line input Hline Hlen.
    assert (Hroom : (N.of_nat (String.length line) < defaultBufSize)%N)
      by (unfold defaultBufSize; lia).
    split.
    + apply Lex_skips.
      * cbn [String.length]. rewrite string_app_length.
        cbn [String.length]. lia.
      * unfold NewLexer. rewrite lexWhitespace_comment.
        rewrite ReadLineFrom_line by assumption. reflexivity.
    + rewrite (Lex_skips wideLetter wideDigit _ EmptyString).
      * reflexivity.
      * simpl. lia.
      * unfold NewLexer. rewrite lexWhitespace_comment.
        rewrite ReadLineFrom_end by assumption. reflexivity.
  - intros wideLetter wideDigit line tail Hline Hlen. apply Lex_skips.
    + cbn [String.length]. rewrite string_app_length. lia.
    + unfold NewLexer. rewrite lexWhitespace_comment.
      rewrite ReadLineFrom_full; [reflexivity|exact Hline| |].
      * unfold defaultBufSize. lia.
      * unfold defaultBufSize. lia.
Qed.

(** Two blanks and [x]; the comment [# c] before [x] on the next line; and
    a comment of 4096 times [a] with [x] right after it on the line. *)
Lemma X21_blanks_and_comments_witness :
  Lex asciiOnly asciiOnly (NewLexer ("  " ++ "x"))
  = Lexed [NewToken IDENT "x"; NewToken EOF ""]
  /\ Lex asciiOnly asciiOnly
       (NewLexer (String (ascii_of_nat 35) (" c" ++ String newline "x")))
     = Lexed [NewToken IDENT "x"; NewToken EOF ""]
  /\ Lex asciiOnly asciiOnly
       (NewLexer (String (ascii_of_nat 35) (repeatByte 4096 "a" ++ "x")))
     = Lexed [NewToken IDENT "x"; NewToken EOF ""].
Proof.
  destruct X21_blanks_and_comments as (Hblanks & Hcomment & Hlong).
  repeat apply conj.
  - rewrite (Hblanks asciiOnly asciiOnly "  "%string "x"%string eq_refl).
    reflexivity.
  - rewrite (proj1 (Hcomment asciiOnly asciiOnly " c"%string "x"%string
                      eq_refl ltac:(simpl; lia))).
    reflexivity.
  - rewrite (Hlong asciiOnly asciiOnly (repeatByte 4096 "a") "x"%string);
      [reflexivity| |]; vm_compute; reflexivity.
Defined.

(** ** String literals *)

Lemma sentBefore_app a b r :
  sentBefore (a ++ b) r = sentBefore a (sentBefore b r).
Proof. destruct r; simpl; rewrite ?app_assoc; reflexivity. Qed.

Lemma sentBefore_nil r : sentBefore [] r = r.
Proof. destruct r; reflexivity. Qed.

Lemma LexLoop_sent wideLetter wideDigit n tokens l :
  LexLoop wideLetter wideDigit n tokens l
  = sentBefore tokens (LexLoop wideLetter wideDigit n [] l).
Proof.
  revert tokens l. induction n as [|n IH]; intros tokens l; [reflexivity|].
  cbn [LexLoop].
  destruct (lexWhitespace l) as [l1|]; [|reflexivity].
  destruct (readRune l1) as [r l2].
  destruct (bool_decide (r = runeOf 0)); [reflexivity|].
  assert (Hnext : forall token l3,
             LexLoop wideLetter wideDigit n (tokens ++ [token]) l3
             = sentBefore tokens
                 (LexLoop wideLetter wideDigit n ([] ++ [token]) l3)).
  { intros token l3. rewrite (IH (tokens ++ [token])), (IH ([] ++ [token])).
    rewrite sentBefore_app. reflexivity. }
  destruct (bool_decide (r = runeOf 34)).
  { destruct (lexString r l2) as [token l3]. apply Hnext. }
  destruct (IsDigit wideDigit r).
  { destruct (lexNumber wideDigit r l2) as [[token l3]|];
      [apply Hnext|reflexivity]. }
  destruct (IsLetter wideLetter r).
  { destruct (lexIdentifier wideLetter wideDigit r l2) as [[token l3]|];
      [apply Hnext|reflexivity]. }
  destruct (lexSymbol r l2) as [[token|value] l3]; [apply Hnext|].
  simpl. rewrite app_nil_r. reflexivity.
Qed.

Lemma ReadStringFrom_closed text tail :
  noQuote text = true ->
  ReadStringFrom doubleQuote (text ++ String doubleQuote tail)
  = ((text ++ String doubleQuote EmptyString)%string, tail).
Proof.
  intros Hq. induction text as [|c text IH]; [reflexivity|].
  simpl in Hq. apply andb_true_iff in Hq as [Hc Hq].
  apply negb_true_iff in Hc.
  change (ReadStringFrom doubleQuote
            (String c (text ++ String doubleQuote tail))
          = (String c (text ++ String doubleQuote EmptyString), tail)).
  cbn [ReadStringFrom]. rewrite Hc, (IH Hq). reflexivity.
Qed.

Lemma ReadStringFrom_open text :
  noQuote text = true ->
  ReadStringFrom doubleQuote text = (text, EmptyString).
Proof.
  intros Hq. induction text as [|c text IH]; [reflexivity|].
  simpl in Hq. apply andb_true_iff in Hq as [Hc Hq].
  apply negb_true_iff in Hc.
  cbn [ReadStringFrom]. rewrite Hc, (IH Hq). reflexivity.
Qed.

Lemma TrimRight_open text :
  noQuote text = true -> TrimRight text doubleQuote = text.
Proof.
  intros Hq. induction text as [|c text IH]; [reflexivity|].
  simpl in Hq. apply andb_true_iff in Hq as [Hc Hq].
  apply negb_true_iff in Hc.
  cbn [TrimRight]. rewrite (IH Hq), Hc. destruct text; reflexivity.
Qed.

Lemma TrimRight_closed text :
  noQuote text = true ->
  TrimRight (text ++ String doubleQuote EmptyString) doubleQuote = text.
Proof.
  intros Hq. induction text as [|c text IH]; [reflexivity|].
  simpl in Hq. apply andb_true_iff in Hq as [Hc Hq].
  apply negb_true_iff in Hc.
  change (TrimRight (String c (text ++ String doubleQuote EmptyString))
            doubleQuote = String c text).
  cbn [TrimRight]. rewrite (IH Hq), Hc. destruct text; reflexivity.
Qed.

Lemma lexWhitespace_quote rest lr :
  lexWhitespace (mkReader (String doubleQuote rest) lr)
  = Some (mkReader (String doubleQuote rest) None).
Proof. reflexivity. Qed.

Lemma Lex_string wideLetter wideDigit rest str tail :
  ReadStringFrom doubleQuote rest = (str, tail) ->
  rest <> EmptyString ->
  Lex wideLetter wideDigit (NewLexer (String doubleQuote rest))
  = sentBefore [NewToken STRING (TrimRight str doubleQuote)]
      (Lex wideLetter wideDigit (NewLexer tail)).
Proof.
  intros Hread Hrest. unfold Lex at 1. unfold NewLexer at 1 2.
  cbn [remaining String.length].
  remember (S (String.length rest)) as n eqn:Hn.
  cbn [LexLoop]. rewrite lexWhitespace_quote.
  change (readRune (mkReader (String doubleQuote rest) None))
    with (runeOf 34,
          mkReader rest (Some (String doubleQuote EmptyString))).
  cbv beta iota.
  rewrite bool_decide_eq_false_2 by discriminate.
  rewrite bool_decide_eq_true_2 by reflexivity.
  unfold lexString, ReadString. cbn [remaining].
  destruct rest as [|c rest']; [contradiction|].
  change (ascii_of_nat 34) with doubleQuote. rewrite Hread.
  rewrite LexLoop_sent. unfold Lex. f_equal.
  apply LexLoop_fuel; cbn [NewLexer remaining].
  - pose proof (ReadStringFrom_length _ _ _ _ Hread). subst n. lia.
  - lia.
Qed.

(** X22. String literals.  From a double quote on, the lexer takes
    everything up to the next double quote as the text of one string
    token: newlines, [#] and backslashes are part of the text, nothing is
    an escape, and lexing goes on after the closing quote.  A literal that
    is not closed is no error: its text is the rest of the input. *)
Theorem X22_string_literals :
  (forall wideLetter wideDigit text tail,
      noQuote text = true ->
      Lex wideLetter wideDigit
        (NewLexer (String doubleQuote (text ++ String doubleQuote tail)))
      = sentBefore [NewToken STRING text]
          (Lex wideLetter wideDigit (NewLexer tail)))
  /\ (forall wideLetter wideDigit text,
         noQuote text = true ->
         Lex wideLetter wideDigit (NewLexer (String doubleQuote text))
         = Lexed [NewToken STRING text; NewToken EOF ""]).
Proof.
  split.
  - intros wideLetter wideDigit text tail Hq.
    rewrite (Lex_string wideLetter wideDigit _ _ _
               (ReadStringFrom_closed text tail Hq)).
    + rewrite (TrimRight_closed _ Hq). reflexivity.
    + destruct text; discriminate.
  - intros wideLetter wideDigit text Hq.
    destruct text as [|c text]; [reflexivity|].
    rewrite (Lex_string wideLetter wideDigit _ _ _
               (ReadStringFrom_open _ Hq)) by discriminate.
    rewrite (TrimRight_open _ Hq). reflexivity.
Qed.

(** The literal [a # b\n], closed and followed by [x], and left open. *)
Lemma X22_string_literals_witness :
  Lex asciiOnly asciiOnly
    (NewLexer (String doubleQuote ("a # b\n" ++ String doubleQuote " x")))
  = Lexed [NewToken STRING "a # b\n"; NewToken IDENT "x"; NewToken EOF ""]
  /\ Lex asciiOnly asciiOnly (NewLexer (String doubleQuote "a # b\n"))
     = Lexed [NewToken STRING "a # b\n"; NewToken EOF ""].
Proof.
  destruct X22_string_literals as [Hclosed Hopen]. split.
  - rewrite (Hclosed asciiOnly asciiOnly "a # b\n"%string " x"%string
               eq_refl).
    reflexivity.
  - exact (Hopen asciiOnly asciiOnly "a # b\n"%string eq_refl).
Defined.

(** ** Words and numbers *)

Lemma ReadRune_ascii c rest lr :
  (byteOf c <? 128) = true ->
  ReadRune (mkReader (String c rest) lr)
  = (String c EmptyString, mkReader rest (Some (String c EmptyString))).
Proof.
  intros Hc. unfold ReadRune. cbn [remaining].
  assert (Hw : runeWidth (String c rest) = 1%nat).
  { unfold runeWidth. rewrite Hc. reflexivity. }
  rewrite Hw, Hc. reflexivity.
Qed.

Lemma unread_after_read tail lr r l :
  ReadRune (mkReader tail lr) = (r, l) ->
  UnreadRune l = mkReader tail None.
Proof.
  intros H. destruct (ReadRune_spec _ _ _ H) as (Hrem & Hlast & _).
  destruct (UnreadRune l) as [rem last]. simpl in *. subst. reflexivity.
Qed.

Lemma ascii_rune_eq c n :
  String c EmptyString = runeOf n -> c = ascii_of_nat n.
Proof. unfold runeOf. intros [= ->]. reflexivity. Qed.

Lemma lexWhitespace_stays c rest lr :
  (byteOf c <? 128) = true ->
  c ∉ [ascii_of_nat 32; ascii_of_nat 9; ascii_of_nat 10; ascii_of_nat 13;
       ascii_of_nat 35] ->
  lexWhitespace (mkReader (String c rest) lr)
  = Some (mkReader (String c rest) None).
Proof.
  intros Hc Hblank. unfold lexWhitespace, readRune.
  rewrite (ReadRune_ascii _ _ _ Hc). cbn [remaining String.length].
  cbn [lexWhitespaceLoop].
  rewrite bool_decide_eq_false_2; [reflexivity|].
  intros Hin. apply Hblank.
  repeat (apply elem_of_cons in Hin as [Hin|Hin];
          [apply ascii_rune_eq in Hin; subst c; elem_of_find|]).
  elem_of_contra Hin.
Qed.

Lemma isASCIILetter_ascii c :
  isASCIILetter c = true ->
  (byteOf c <? 128) = true
  /\ (c ∉ [ascii_of_nat 32; ascii_of_nat 9; ascii_of_nat 10;
           ascii_of_nat 13; ascii_of_nat 35])
  /\ c <> ascii_of_nat 0 /\ c <> ascii_of_nat 34 /\ c <> ascii_of_nat 46
  /\ isASCIIDigit c = false.
Proof.
  intros H.
  assert (Hrange : 65 <= byteOf c <= 122)
    by (unfold isASCIILetter in H; lia).
  repeat apply conj.
  - apply Z.ltb_lt. lia.
  - intros Hin.
    repeat (apply elem_of_cons in Hin as [->|Hin];
            [vm_compute in H; discriminate|]).
    elem_of_contra Hin.
  - intros ->. vm_compute in H. discriminate.
  - intros ->. vm_compute in H. discriminate.
  - intros ->. vm_compute in H. discriminate.
  - unfold isASCIIDigit. lia.
Qed.

Lemma isASCIIDigit_ascii c :
  isASCIIDigit c = true ->
  (byteOf c <? 128) = true
  /\ (c ∉ [ascii_of_nat 32; ascii_of_nat 9; ascii_of_nat 10;
           ascii_of_nat 13; ascii_of_nat 35])
  /\ c <> ascii_of_nat 0 /\ c <> ascii_of_nat 34.
Proof.
  intros H.
  assert (Hrange : 48 <= byteOf c <= 57)
    by (unfold isASCIIDigit in H; lia).
  repeat apply conj.
  - apply Z.ltb_lt. lia.
  - intros Hin.
    repeat (apply elem_of_cons in Hin as [->|Hin];
            [vm_compute in H; discriminate|]).
    elem_of_contra Hin.
  - intros ->. vm_compute in H. discriminate.
  - intros ->. vm_compute in H. discriminate.
Qed.

Lemma string_app_cons (v : string) c w :
  ((v ++ String c EmptyString) ++ w)%string = (v ++ String c w)%string.
Proof.
  induction v as [|a v IH]; [reflexivity|].
  change (String a ((v ++ String c EmptyString) ++ w)%string
          = String a (v ++ String c w)%string).
  rewrite IH. reflexivity.
Qed.

Lemma string_app_empty (v : string) : (v ++ EmptyString)%string = v.
Proof.
  induction v as [|a v IH]; [reflexivity|].
  change (String a (v ++ EmptyString)%string = String a v).
  rewrite IH. reflexivity.
Qed.

Section Words.

Context (wideLetter wideDigit : string -> bool).

Lemma lexIdentifierLoop_word word :
  allBytes isWordByte word = true ->
  forall n v tail lr,
    (String.length (word ++ tail) < n)%nat ->
    IsLetter wideLetter (firstRune tail) = false ->
    IsDigit wideDigit (firstRune tail) = false ->
    lexIdentifierLoop wideLetter wideDigit n v (mkReader (word ++ tail) lr)
    = Some ((v ++ word)%string, mkReader tail None).
Proof.
  intros Hword.
  induction word as [|c word IH]; intros n v tail lr Hn Hl Hd;
    (destruct n as [|n]; [lia|]); cbn [lexIdentifierLoop].
  - change (EmptyString ++ tail)%string with tail. unfold readRune.
    unfold firstRune, NewLexer in Hl, Hd.
    rewrite (ReadRune_remaining (mkReader tail lr) (mkReader tail None))
      by reflexivity.
    destruct (ReadRune (mkReader tail None)) as [r l] eqn:Hr.
    simpl in Hl, Hd. rewrite Hl, Hd. cbn [negb andb].
    unfold unreadRune. rewrite (unread_after_read _ _ _ _ Hr).
    rewrite string_app_empty. reflexivity.
  - change (String c word ++ tail)%string with (String c (word ++ tail)).
    simpl in Hword. apply andb_true_iff in Hword as [Hc Hword].
    assert (Hascii : (byteOf c <? 128) = true).
    { unfold isWordByte in Hc. apply orb_true_iff in Hc as [Hc|Hc].
      - apply isASCIILetter_ascii. exact Hc.
      - apply isASCIIDigit_ascii. exact Hc. }
    unfold readRune. rewrite (ReadRune_ascii _ _ _ Hascii).
    cbn [IsLetter IsDigit].
    replace (negb (isASCIILetter c) && negb (isASCIIDigit c)) with false
      by (unfold isWordByte in Hc; destruct (isASCIILetter c);
          destruct (isASCIIDigit c); try reflexivity; discriminate).
    rewrite IH; [|exact Hword| |exact Hl|exact Hd].
    + rewrite string_app_cons. reflexivity.
    + change (String c word ++ tail)%string with (String c (word ++ tail))
        in Hn.
      cbn [String.length] in Hn. lia.
Qed.

Lemma lexNumberLoop_number number :
  allBytes isNumberByte number = true ->
  forall n t v tail lr,
    (String.length (number ++ tail) < n)%nat ->
    IsDigit wideDigit (firstRune tail) = false ->
    firstRune tail <> runeOf 46 ->
    lexNumberLoop wideDigit n t v (mkReader (number ++ tail) lr)
    = Some (NewToken (if hasDot number then FLOAT else t)
              (v ++ number)%string,
            mkReader tail None).
Proof.
  intros Hnumber.
  induction number as [|c number IH]; intros n t v tail lr Hn Hd Hdot;
    (destruct n as [|n]; [lia|]); cbn [lexNumberLoop].
  - change (EmptyString ++ tail)%string with tail. unfold readRune.
    unfold firstRune, NewLexer in Hd, Hdot.
    rewrite (ReadRune_remaining (mkReader tail lr) (mkReader tail None))
      by reflexivity.
    destruct (ReadRune (mkReader tail None)) as [r l] eqn:Hr.
    simpl in Hd, Hdot. rewrite Hd.
    rewrite (bool_decide_eq_false_2 (r = runeOf 46)) by exact Hdot.
    cbn [negb andb].
    unfold unreadRune. rewrite (unread_after_read _ _ _ _ Hr).
    rewrite string_app_empty. reflexivity.
  - change (String c number ++ tail)%string
      with (String c (number ++ tail)).
    simpl in Hnumber. apply andb_true_iff in Hnumber as [Hc Hnumber].
    assert (Hascii : (byteOf c <? 128) = true).
    { unfold isNumberByte in Hc. apply orb_true_iff in Hc as [Hc|Hc].
      - apply isASCIIDigit_ascii. exact Hc.
      - apply bool_decide_eq_true_1 in Hc. subst c. reflexivity. }
    unfold readRune. rewrite (ReadRune_ascii _ _ _ Hascii).
    cbn [IsDigit].
    assert (Hdotc : bool_decide (String c EmptyString = runeOf 46)
                    = bool_decide (c = ascii_of_nat 46)).
    { destruct (decide (c = ascii_of_nat 46)) as [->|Hne].
      - rewrite !bool_decide_eq_true_2 by reflexivity. reflexivity.
      - rewrite !bool_decide_eq_false_2; try reflexivity; try exact Hne.
        intros E. apply Hne. apply ascii_rune_eq. exact E. }
    rewrite Hdotc.
    replace (negb (isASCIIDigit c) && negb (bool_decide (c = ascii_of_nat 46)))
      with false
      by (unfold isNumberByte in Hc; destruct (isASCIIDigit c);
          destruct (bool_decide (c = ascii_of_nat 46)); try reflexivity;
          discriminate).
    rewrite IH; [|exact Hnumber| |exact Hd|exact Hdot].
    + rewrite string_app_cons. unfold hasDot. cbn [allBytes].
      destruct (bool_decide (c = ascii_of_nat 46)); cbn [negb andb];
        [|reflexivity].
      destruct (negb (allBytes
                        (fun c0 => negb (bool_decide (c0 = ascii_of_nat 46)))
                        number)); reflexivity.
    + change (String c number ++ tail)%string
        with (String c (number ++ tail)) in Hn.
      cbn [String.length] in Hn. lia.
Qed.

(** One turn of the loop of [Lex] at a byte that starts a token. *)
Lemma Lex_turn c rest :
  (byteOf c <? 128) = true ->
  c ∉ [ascii_of_nat 32; ascii_of_nat 9; ascii_of_nat 10; ascii_of_nat 13;
       ascii_of_nat 35] ->
  Lex wideLetter wideDigit (NewLexer (String c rest))
  = let l := mkReader rest (Some (String c EmptyString)) in
    let r := String c EmptyString in
    let n := S (String.length rest) in
    if bool_decide (r = runeOf 0) then Lexed [NewToken EOF ""]
    else if bool_decide (r = runeOf 34) then
      let '(token, l) := lexString r l in
      LexLoop wideLetter wideDigit n [token] l
    else if IsDigit wideDigit r then
      match lexNumber wideDigit r l with
      | Some (token, l) => LexLoop wideLetter wideDigit n [token] l
      | None => LexOutOfFuel
      end
    else if IsLetter wideLetter r then
      match lexIdentifier wideLetter wideDigit r l with
      | Some (token, l) => LexLoop wideLetter wideDigit n [token] l
      | None => LexOutOfFuel
      end
    else
      match lexSymbol r l with
      | (inl token, l) => LexLoop wideLetter wideDigit n [token] l
      | (inr value, _) => InvalidToken [] value
      end.
Proof.
  intros Hascii Hblank. unfold Lex, NewLexer. cbn [remaining String.length].
  remember (S (String.length rest)) as n eqn:Hn. cbn [LexLoop].
  rewrite (lexWhitespace_stays _ _ _ Hascii Hblank). unfold readRune.
  rewrite (ReadRune_ascii _ _ _ Hascii). reflexivity.
Qed.

Lemma LexLoop_rest n token tail :
  (String.length tail < n)%nat ->
  LexLoop wideLetter wideDigit n [token] (mkReader tail None)
  = sentBefore [token] (Lex wideLetter wideDigit (NewLexer tail)).
Proof.
  intros Hn. rewrite LexLoop_sent. unfold Lex. f_equal.
  apply LexLoop_fuel; cbn [NewLexer remaining]; lia.
Qed.

End Words.

(** X23. Words and numbers.  A word, an ASCII letter followed by ASCII
    letters and digits, is lexed whole, up to the first rune that is
    neither a letter nor a digit: it is the keyword of that exact
    spelling, and an identifier otherwise, so a word that only starts
    with a keyword is an identifier.  A number, an ASCII digit followed by
    ASCII digits and dots, is lexed whole as well: a float when it holds a
    dot, however many and wherever, an integer otherwise.  Nothing has to
    separate a number from a word after it. *)
Theorem X23_words_and_numbers :
  (forall wideLetter wideDigit c word tail,
      isASCIILetter c = true ->
      allBytes isWordByte word = true ->
      IsLetter wideLetter (firstRune tail) = false ->
      IsDigit wideDigit (firstRune tail) = false ->
      Lex wideLetter wideDigit (NewLexer (String c word ++ tail))
      = sentBefore
          [NewToken (default IDENT (tableLookup keywords (String c word)))
             (String c word)]
          (Lex wideLetter wideDigit (NewLexer tail)))
  /\ (forall wideLetter wideDigit c number tail,
         isASCIIDigit c = true ->
         allBytes isNumberByte number = true ->
         IsDigit wideDigit (firstRune tail) = false ->
         firstRune tail <> runeOf 46 ->
         Lex wideLetter wideDigit (NewLexer (String c number ++ tail))
         = sentBefore
             [NewToken (if hasDot number then FLOAT else INT)
                (String c number)]
             (Lex wideLetter wideDigit (NewLexer tail))).
Proof.
  split.
  - intros wideLetter wideDigit c word tail Hc Hword Hl Hd.
    destruct (isASCIILetter_ascii c Hc)
      as (Hascii & Hblank & H0 & Hq & _ & Hdigit).
    change (String c word ++ tail)%string with (String c (word ++ tail)).
    rewrite (Lex_turn _ _ _ _ Hascii Hblank). cbv zeta.
    rewrite bool_decide_eq_false_2
      by (intros E; apply H0; apply ascii_rune_eq; exact E).
    rewrite bool_decide_eq_false_2
      by (intros E; apply Hq; apply ascii_rune_eq; exact E).
    cbn [IsDigit IsLetter]. rewrite Hdigit, Hc.
    unfold lexIdentifier. cbn [remaining].
    rewrite (lexIdentifierLoop_word wideLetter wideDigit word Hword)
      by (try assumption; lia).
    cbn [mbind option_bind].
    change (String c EmptyString ++ word)%string with (String c word).
    rewrite <- (LexLoop_rest wideLetter wideDigit
                  (S (String.length (word ++ tail))))
      by (rewrite string_app_length; lia).
    destruct (tableLookup keywords (String c word)); reflexivity.
  - intros wideLetter wideDigit c number tail Hc Hnumber Hd Hdot.
    destruct (isASCIIDigit_ascii c Hc) as (Hascii & Hblank & H0 & Hq).
    change (String c number ++ tail)%string
      with (String c (number ++ tail)).
    rewrite (Lex_turn _ _ _ _ Hascii Hblank). cbv zeta.
    rewrite bool_decide_eq_false_2
      by (intros E; apply H0; apply ascii_rune_eq; exact E).
    rewrite bool_decide_eq_false_2
      by (intros E; apply Hq; apply ascii_rune_eq; exact E).
    cbn [IsDigit]. rewrite Hc.
    unfold lexNumber. cbn [remaining].
    rewrite (lexNumberLoop_number wideDigit number Hnumber)
      by (try assumption; lia).
    change (String c EmptyString ++ number)%string with (String c number).
    apply LexLoop_rest. rewrite string_app_length. lia.
Qed.

(** [iffy], [If] and [if] before a parenthesis, and [1.2.3abc]. *)
Lemma X23_words_and_numbers_witness :
  Lex asciiOnly asciiOnly (NewLexer ("iffy" ++ "("))
  = Lexed [NewToken IDENT "iffy"; NewToken LPAREN "("; NewToken EOF ""]
  /\ Lex asciiOnly asciiOnly (NewLexer ("If" ++ "("))
     = Lexed [NewToken IDENT "If"; NewToken LPAREN "("; NewToken EOF ""]
  /\ Lex asciiOnly asciiOnly (NewLexer ("if" ++ "("))
     = Lexed [NewToken IF "if"; NewToken LPAREN "("; NewToken EOF ""]
  /\ Lex asciiOnly asciiOnly (NewLexer ("1.2.3" ++ "abc"))
     = Lexed [NewToken FLOAT "1.2.3"; NewToken IDENT "abc"; NewToken EOF ""].
Proof.
  destruct X23_words_and_numbers as [Hword Hnumber].
  repeat apply conj.
  - rewrite (Hword asciiOnly asciiOnly "i"%char "ffy"%string "("%string
               eq_refl eq_refl eq_refl eq_refl).
    reflexivity.
  - rewrite (Hword asciiOnly asciiOnly "I"%char "f"%string "("%string
               eq_refl eq_refl eq_refl eq_refl).
    reflexivity.
  - rewrite (Hword asciiOnly asciiOnly "i"%char "f"%string "("%string
               eq_refl eq_refl eq_refl eq_refl).
    reflexivity.
  - rewrite (Hnumber asciiOnly asciiOnly "1"%char ".2.3"%string "abc"%string
               eq_refl eq_refl eq_refl ltac:(discriminate)).
    reflexivity.
Defined.

(** ** Symbols *)

Ltac table_cases H :=
  cbn [tableLookup] in H;
  repeat match type of H with
         | context [String.eqb ?k ?x] =>
             destruct (String.eqb_spec k x); [simplify_eq|]
         end.

Lemma symbol_byte c t :
  tableLookup symbols (String c EmptyString) = Some t ->
  (byteOf c <? 128) = true
  /\ (c ∉ [ascii_of_nat 32; ascii_of_nat 9; ascii_of_nat 10;
           ascii_of_nat 13; ascii_of_nat 35])
  /\ c <> ascii_of_nat 0 /\ c <> ascii_of_nat 34
  /\ isASCIIDigit c = false /\ isASCIILetter c = false.
Proof.
  intros H. unfold symbols in H.
  table_cases H; try discriminate;
    repeat apply conj; try reflexivity; try discriminate;
    intros Hin; elem_of_contra Hin.
Qed.

Lemma symbol_pair c rest t :
  tableLookup symbols (String c rest) = Some t ->
  rest <> EmptyString ->
  exists t1, tableLookup symbols (String c EmptyString) = Some t1.
Proof.
  intros H Hrest. unfold symbols in H.
  table_cases H; try discriminate; try contradiction;
    eexists; reflexivity.
Qed.

Lemma firstRune_not_empty tail : firstRune tail <> EmptyString.
Proof.
  unfold firstRune, NewLexer, ReadRune. cbn [remaining].
  destruct tail as [|c rest]; [discriminate|]. cbv zeta. cbn [fst].
  destruct ((runeWidth (String c rest) =? 1)%nat && negb (byteOf c <? 128));
    [discriminate|].
  pose proof (runeWidth_pos c rest) as Hw.
  destruct (runeWidth (String c rest)) as [|w]; [lia|]. discriminate.
Qed.

Section Symbols.

Context (wideLetter wideDigit : string -> bool).

Lemma lexSymbol_single c t tail lr :
  tableLookup symbols (String c EmptyString) = Some t ->
  tableLookup symbols (String c EmptyString ++ firstRune tail) = None ->
  lexSymbol (String c EmptyString) (mkReader tail lr)
  = (inl (NewToken t (String c EmptyString)), mkReader tail None).
Proof.
  intros Hs Hd. unfold lexSymbol, readRune.
  rewrite (ReadRune_remaining (mkReader tail lr) (mkReader tail None))
    by reflexivity.
  unfold firstRune, NewLexer in Hd.
  destruct (ReadRune (mkReader tail None)) as [r2 l2] eqn:Hr.
  cbn [fst] in Hd. rewrite Hd, Hs. unfold unreadRune.
  rewrite (unread_after_read _ _ _ _ Hr). reflexivity.
Qed.

Lemma lexSymbol_illegal c tail lr :
  tableLookup symbols (String c EmptyString) = None ->
  lexSymbol (String c EmptyString) (mkReader tail lr)
  = (inr (String c EmptyString), mkReader tail None).
Proof.
  intros Hs. unfold lexSymbol, readRune.
  rewrite (ReadRune_remaining (mkReader tail lr) (mkReader tail None))
    by reflexivity.
  destruct (ReadRune (mkReader tail None)) as [r2 l2] eqn:Hr.
  destruct (tableLookup symbols (String c EmptyString ++ r2)) as [t|] eqn:Hd.
  - change (String c EmptyString ++ r2)%string with (String c r2) in Hd.
    destruct (symbol_pair _ _ _ Hd) as [t1 Ht1]; [|congruence].
    pose proof (firstRune_not_empty tail) as Hne.
    unfold firstRune, NewLexer in Hne. rewrite Hr in Hne. exact Hne.
  - rewrite Hs. unfold unreadRune.
    rewrite (unread_after_read _ _ _ _ Hr). reflexivity.
Qed.

End Symbols.

(** X24. Symbols.  Of the symbols of two characters, [<=], [>=], [==] and
    [!=], the lexer looks for one first: where the next two runes spell
    one, they are one token, whatever follows, so [===] is [==] and [=].
    Otherwise a rune that is a symbol on its own is that token.  A rune
    that is neither blank, nor the start of a comment, a string, a number
    or a word, nor a symbol, ends the process: so it is with the
    underscore, which is no letter, with the dot where no number has
    started, and with [&], [|], [;] and [%]. *)
Theorem X24_symbols :
  (forall wideLetter wideDigit c1 c2 t tail,
      tableLookup symbols (String c1 (String c2 EmptyString)) = Some t ->
      Lex wideLetter wideDigit (NewLexer (String c1 (String c2 tail)))
      = sentBefore [NewToken t (String c1 (String c2 EmptyString))]
          (Lex wideLetter wideDigit (NewLexer tail)))
  /\ (forall wideLetter wideDigit c t tail,
         tableLookup symbols (String c EmptyString) = Some t ->
         tableLookup symbols (String c EmptyString ++ firstRune tail)
         = None ->
         Lex wideLetter wideDigit (NewLexer (String c tail))
         = sentBefore [NewToken t (String c EmptyString)]
             (Lex wideLetter wideDigit (NewLexer tail)))
  /\ (forall wideLetter wideDigit ParseFloat fuel c tail,
         (byteOf c <? 128) = true ->
         c ∉ [ascii_of_nat 0; ascii_of_nat 32; ascii_of_nat 9;
              ascii_of_nat 10; ascii_of_nat 13; ascii_of_nat 35;
              ascii_of_nat 34] ->
         isASCIILetter c = false -> isASCIIDigit c = false ->
         tableLookup symbols (String c EmptyString) = None ->
         Lex wideLetter wideDigit (NewLexer (String c tail))
         = InvalidToken [] (String c EmptyString)
         /\ main wideLetter wideDigit ParseFloat fuel (String c tail)
            = InvalidTokenFound (String c EmptyString)).
Proof.
  repeat apply conj.
  - intros wideLetter wideDigit c1 c2 t tail Ht.
    destruct (symbol_pair _ _ _ Ht ltac:(discriminate)) as [t1 Ht1].
    destruct (symbol_byte _ _ Ht1) as (Hascii & Hblank & H0 & Hq & Hd & Hl).
    assert (Hascii2 : (byteOf c2 <? 128) = true).
    { unfold symbols in Ht. table_cases Ht; try discriminate; reflexivity. }
    rewrite (Lex_turn _ _ _ _ Hascii Hblank). cbv zeta.
    rewrite bool_decide_eq_false_2
      by (intros E; apply H0; apply ascii_rune_eq; exact E).
    rewrite bool_decide_eq_false_2
      by (intros E; apply Hq; apply ascii_rune_eq; exact E).
    cbn [IsDigit IsLetter]. rewrite Hd, Hl.
    unfold lexSymbol, readRune. rewrite (ReadRune_ascii _ _ _ Hascii2).
    change (String c1 EmptyString ++ String c2 EmptyString)%string
      with (String c1 (String c2 EmptyString)).
    rewrite Ht.
    rewrite (LexLoop_fuel wideLetter wideDigit _ (S (String.length tail)))
      by (cbn [remaining String.length]; lia).
    rewrite LexLoop_sent. unfold Lex. f_equal.
  - intros wideLetter wideDigit c t tail Hs Hd2.
    destruct (symbol_byte _ _ Hs) as (Hascii & Hblank & H0 & Hq & Hd & Hl).
    rewrite (Lex_turn _ _ _ _ Hascii Hblank). cbv zeta.
    rewrite bool_decide_eq_false_2
      by (intros E; apply H0; apply ascii_rune_eq; exact E).
    rewrite bool_decide_eq_false_2
      by (intros E; apply Hq; apply ascii_rune_eq; exact E).
    cbn [IsDigit IsLetter]. rewrite Hd, Hl.
    rewrite (lexSymbol_single _ _ _ _ Hs Hd2).
    apply LexLoop_rest. lia.
  - intros wideLetter wideDigit ParseFloat fuel c tail Hascii Hnot Hl Hd Hs.
    assert (Hlex : Lex wideLetter wideDigit (NewLexer (String c tail))
                   = InvalidToken [] (String c EmptyString)).
    { rewrite (Lex_turn _ _ _ _ Hascii).
      2:{ intros Hin. apply Hnot. apply elem_of_cons. right.
          repeat (apply elem_of_cons in Hin as [->|Hin]; [elem_of_find|]).
          elem_of_contra Hin. }
      cbv zeta.
      rewrite bool_decide_eq_false_2
        by (intros E; apply Hnot; apply ascii_rune_eq in E; subst c;
            elem_of_find).
      rewrite bool_decide_eq_false_2
        by (intros E; apply Hnot; apply ascii_rune_eq in E; subst c;
            elem_of_find).
      cbn [IsDigit IsLetter]. rewrite Hd, Hl.
      rewrite (lexSymbol_illegal _ _ _ Hs). reflexivity. }
    split; [exact Hlex|]. unfold main. rewrite Hlex. reflexivity.
Qed.

(** [===], [=<], and [_x]. *)
Lemma X24_symbols_witness :
  Lex asciiOnly asciiOnly (NewLexer "===")
  = Lexed [NewToken EQ "=="; NewToken ASSIGN "="; NewToken EOF ""]
  /\ Lex asciiOnly asciiOnly (NewLexer "=<")
     = Lexed [NewToken ASSIGN "="; NewToken LT "<"; NewToken EOF ""]
  /\ Lex asciiOnly asciiOnly (NewLexer "_x") = InvalidToken [] "_"
  /\ main asciiOnly asciiOnly noFloatLiterals 5 "_x"
     = InvalidTokenFound "_".
Proof.
  destruct X24_symbols as (Hdouble & Hsingle & Hillegal).
  repeat apply conj.
  - rewrite (Hdouble asciiOnly asciiOnly "="%char "="%char EQ "="%string
               eq_refl).
    reflexivity.
  - rewrite (Hsingle asciiOnly asciiOnly "="%char ASSIGN "<"%string
               eq_refl eq_refl).
    reflexivity.
  - apply (Hillegal asciiOnly asciiOnly noFloatLiterals 5%nat "_"%char
             "x"%string eq_refl); try reflexivity.
    intros Hin. elem_of_contra Hin.
  - apply (Hillegal asciiOnly asciiOnly noFloatLiterals 5%nat "_"%char
             "x"%string eq_refl); try reflexivity.
    intros Hin. elem_of_contra Hin.
Defined.

(** ** What [return] is *)

(** X25. [return] is no statement of its own kind to the evaluator: a
    [return] of an expression is evaluated exactly as the expression
    standing alone as a statement.  So a [return] whose value is nil, as
    that of a name that is not bound or of a call that gives nothing, does
    not leave the block, which goes on with the next statement; and an
    expression statement whose value is not nil, a call that gives a value
    say, leaves the block with that value, and what follows it is not
    run. *)
Theorem X25_return_is_the_expression :
  (forall fuel value s o,
      evalStatement fuel (SReturn value) s o
      = evalStatement fuel (SExpression value) s o)
  /\ (forall fuel value rest s o s1 o1,
         evalExpression fuel value s o = Done (Nil, s1, o1) ->
         evalBlock (evalStatement (S fuel)) (SReturn value :: rest) s o
         = evalBlock (evalStatement (S fuel)) rest s1 o1)
  /\ (forall fuel e rest s o v s1 o1,
         evalExpression fuel e s o = Done (v, s1, o1) ->
         v <> Nil ->
         evalBlock (evalStatement (S fuel)) (SExpression e :: rest) s o
         = Done (v, s1, o1)).
Proof.
  repeat apply conj.
  - intros [|fuel] value s o; reflexivity.
  - intros fuel value rest s o s1 o1 H.
    cbn [evalBlock isNilStatement]. rewrite evalStatement_S.
    cbn [evalStatementBody]. unfold evalReturn. rewrite H. reflexivity.
  - intros fuel e rest s o v s1 o1 H Hv.
    cbn [evalBlock].
    assert (Hnil : isNilStatement (SExpression e) = false).
    { destruct e; try reflexivity. destruct fuel; simpl in H; [discriminate|].
      injection H as <- _ _. contradiction. }
    rewrite Hnil, evalStatement_S. cbn [evalStatementBody]. rewrite H.
    cbn [mbind Outcome_bind]. destruct v; try reflexivity. contradiction.
Qed.

(** In the scope that declares [sum]: the body [sum(1, 2)  return 5] ends
    with 3, and the body [return x  return 5] with 5. *)
Lemma X25_return_is_the_expression_witness :
  evalBlock (evalStatement 5) callThenReturn sumScope []
  = Done (VInt64 3, sumScope, [])
  /\ evalBlock (evalStatement 5) returnUnbound sumScope []
     = Done (VInt64 5, sumScope, []).
Proof.
  destruct X25_return_is_the_expression as (_ & Hnil & Hvalue). split.
  - apply (Hvalue 4%nat (ECall (ident "sum" true) [EInteger 1; EInteger 2])
             [SReturn (EInteger 5)] sumScope [] (VInt64 3) sumScope []).
    + vm_compute. reflexivity.
    + discriminate.
  - unfold returnUnbound.
    rewrite (Hnil 4%nat (EIdentifier (ident "x" false))
               [SReturn (EInteger 5)] sumScope [] sumScope [] eq_refl).
    reflexivity.
Defined.
